(** * LaunchKit store and orchestrators: a shallow embedding

    Sources embedded here:
    - [src/launchkit/db/launchPackRepository.ts]: [deepMerge],
      [publishStatus], the PGlite-backed [LaunchPackRepository] and the
      in-memory store of [createInMemoryLaunchPackStore];
    - [src/launchkit/services/audit.ts]: [appendAudit];
    - [src/launchkit/services/telegramPublisher.ts],
      [src/launchkit/services/xPublisher.ts],
      [src/launchkit/services/pumpLauncher.ts]: the three orchestrators.

    JavaScript values are an inductive type; objects and the [Map] of the
    in-memory store are association lists in insertion order. *)

From Stdlib Require Import NArith ZArith QArith Qround List String Ascii Bool Lia.
From Stdlib Require Import DecimalString Sorted Permutation.
From Stdlib.Strings Require Import Byte.
Import ListNotations.

Close Scope Q_scope.

Open Scope string_scope.
Open Scope Z_scope.

(** ** JavaScript values *)

Module Js.

(** Numbers are restricted to integers: the store only ever computes with
    [version] and with millisecond timestamps. *)
#[local] Set Warnings "-register-all".
Inductive value : Type :=
| VUndef
| VNull
| VBool (b : bool)
| VNum (n : Z)
| VStr (s : string)
| VArr (items : list value)
| VObj (fields : list (string * value)).

Definition props := list (string * value).

Section ValueInd.
Variable P : value -> Prop.
Hypothesis HUndef : P VUndef.
Hypothesis HNull : P VNull.
Hypothesis HBool : forall b, P (VBool b).
Hypothesis HNum : forall n, P (VNum n).
Hypothesis HStr : forall s, P (VStr s).
Hypothesis HArr : forall l, Forall P l -> P (VArr l).
Hypothesis HObj : forall fs, Forall (fun kv => P (snd kv)) fs -> P (VObj fs).

Fixpoint value_rect' (v : value) : P v :=
  match v with
  | VUndef => HUndef
  | VNull => HNull
  | VBool b => HBool b
  | VNum n => HNum n
  | VStr s => HStr s
  | VArr l =>
      HArr l ((fix all (l : list value) : Forall P l :=
                 match l with
                 | [] => Forall_nil P
                 | x :: r => Forall_cons x (value_rect' x) (all r)
                 end) l)
  | VObj fs =>
      HObj fs ((fix all (fs : props) : Forall (fun kv => P (snd kv)) fs :=
                  match fs with
                  | [] => Forall_nil _
                  | kv :: r => Forall_cons kv (value_rect' (snd kv)) (all r)
                  end) fs)
  end.
End ValueInd.

(** Own-property lookup in an ordered property list. *)
Fixpoint lookup (k : string) (fs : props) : option value :=
  match fs with
  | [] => None
  | (k', v) :: r => if String.eqb k k' then Some v else lookup k r
  end.

(** [o[k] = v]: an existing key keeps its position, a new key goes last. *)
Fixpoint assign (k : string) (v : value) (fs : props) : props :=
  match fs with
  | [] => [(k, v)]
  | (k', v') :: r =>
      if String.eqb k k' then (k, v) :: r else (k', v') :: assign k v r
  end.

Definition keys (fs : props) : list string := map fst fs.

Definition index_key (i : nat) : string :=
  NilEmpty.string_of_uint (Nat.to_uint i).

Fixpoint indexed (i : nat) (l : list value) : props :=
  match l with
  | [] => []
  | x :: r => (index_key i, x) :: indexed (S i) r
  end.

Fixpoint chars (s : string) : list value :=
  match s with
  | EmptyString => []
  | String c r => VStr (String c EmptyString) :: chars r
  end.

(** The own enumerable properties that [{...v}] copies. *)
Definition own_fields (v : value) : props :=
  match v with
  | VObj fs => fs
  | VArr l => indexed 0 l
  | VStr s => indexed 0 (chars s)
  | _ => []
  end.

(** Property read [v[k]] / [v?.k].  Inherited (prototype) properties other
    than [length] are not modelled; reading from [undefined] or [null] is
    only ever done by the sources through [?.] or behind a guard, and
    yields [undefined] here. *)
Definition get (v : value) (k : string) : value :=
  match lookup k (own_fields v) with
  | Some x => x
  | None =>
      match v with
      | VArr l => if String.eqb k "length" then VNum (Z.of_nat (List.length l)) else VUndef
      | VStr s => if String.eqb k "length" then VNum (Z.of_nat (String.length s)) else VUndef
      | _ => VUndef
      end
  end.

Definition truthy (v : value) : bool :=
  match v with
  | VUndef | VNull => false
  | VBool b => b
  | VNum n => negb (n =? 0)
  | VStr s => negb (String.eqb s "")
  | VArr _ | VObj _ => true
  end.

(** [a || b] and [a ?? b]. *)
Definition or_else (a b : value) : value := if truthy a then a else b.

Definition nullish (v : value) : bool :=
  match v with VUndef | VNull => true | _ => false end.

Definition coalesce (a b : value) : value := if nullish a then b else a.

(** [typeof v === 'object']: true of [null], arrays and objects. *)
Definition typeof_object (v : value) : bool :=
  match v with VNull | VArr _ | VObj _ => true | _ => false end.

(** [v === 'lit'] for a string literal. *)
Definition is_str (v : value) (lit : string) : bool :=
  match v with VStr s => String.eqb s lit | _ => false end.

(** [{...v, k1: v1, ..., kn: vn}]. *)
Definition spread_with (v : value) (sets : props) : value :=
  VObj (fold_left (fun acc kv => assign (fst kv) (snd kv) acc) sets (own_fields v)).

(** [String(v)] and template-literal conversion. *)
Definition num_to_string (n : Z) : string :=
  NilZero.string_of_int (Z.to_int n).

Fixpoint to_string (v : value) : string :=
  match v with
  | VUndef => "undefined"
  | VNull => "null"
  | VBool b => if b then "true" else "false"
  | VNum n => num_to_string n
  | VStr s => s
  | VArr l =>
      (fix join (l : list value) (first : bool) : string :=
         match l with
         | [] => ""
         | x :: r =>
             (if first then "" else ",")
               ++ (if nullish x then "" else to_string x)
               ++ join r false
         end) l true
  | VObj _ => "[object Object]"
  end.

(** [v + 1]: numeric addition, or string concatenation when [v] converts
    to a string. *)
Definition plus_one (v : value) : value :=
  match v with
  | VNum n => VNum (n + 1)
  | VBool b => VNum (if b then 2 else 1)
  | VNull => VNum 1
  | VUndef => VUndef
  | VStr _ | VArr _ | VObj _ => VStr (to_string v ++ "1")
  end.

(** [a === b] where at least one side is a freshly built value: two
    distinct objects or arrays are never identical. *)
Definition strict_eq (a b : value) : bool :=
  match a, b with
  | VUndef, VUndef => true
  | VNull, VNull => true
  | VBool x, VBool y => Bool.eqb x y
  | VNum x, VNum y => x =? y
  | VStr x, VStr y => String.eqb x y
  | _, _ => false
  end.

(** [obj.k = v] on a value known to be an object (a no-op otherwise). *)
Definition set_prop (obj : value) (k : string) (v : value) : value :=
  match obj with
  | VObj fs => VObj (assign k v fs)
  | _ => obj
  end.

End Js.
Import Js.

(** ** [deepMerge] (launchPackRepository.ts, lines 72-83) *)

Fixpoint deepMerge (base patch : value) {struct patch} : value :=
  match patch with
  | VUndef | VNull => base
  | VArr _ => patch
  | VBool _ | VNum _ | VStr _ => patch
  | VObj pf =>
      if typeof_object base && negb (nullish base) then
        VObj ((fix loop (pf : props) (merged : props) {struct pf} : props :=
                 match pf with
                 | [] => merged
                 | (key, pv) :: rest =>
                     loop rest (assign key (deepMerge (get base key) pv) merged)
                 end) pf (own_fields base))
      else patch
  end.

(** ** Numbers of the launch policy

    The caps and the slippage are only compared and floored, never added
    or multiplied, so a finite double is modelled exactly by the rational
    it denotes. *)

Inductive jsnum : Type :=
| NaN
| Inf (negative : bool)
| Fin (q : Q).

Definition isNaN (n : jsnum) : bool :=
  match n with NaN => true | _ => false end.

Definition isFinite (n : jsnum) : bool :=
  match n with Fin _ => true | _ => false end.

(** [a > b]; false when either side is [NaN]. *)
Definition num_gt (a b : jsnum) : bool :=
  match a, b with
  | NaN, _ | _, NaN => false
  | Inf true, _ => false
  | Inf false, Inf false => false
  | Inf false, _ => true
  | Fin _, Inf neg => neg
  | Fin x, Fin y => negb (Qle_bool x y)
  end.

Definition num_lt (a b : jsnum) : bool := num_gt b a.

(** Truthiness of a number: [0] and [NaN] are falsy. *)
Definition num_truthy (n : jsnum) : bool :=
  match n with
  | NaN => false
  | Inf _ => true
  | Fin q => negb (Qeq_bool q 0)
  end.

Definition num_of_Z (z : Z) : jsnum := Fin (inject_Z z).

(** ** Thrown errors and results *)

(** An [Error] with its optional [code] and [details] properties ([VUndef]
    when absent).  The numeric members of [details], which need not be
    integers, are kept aside in [err_numbers]. *)
Record error : Type := mkError {
  err_code : value;
  err_message : string;
  err_details : value;
  err_numbers : list (string * jsnum)
}.

Definition plain_error (msg : string) : error := mkError VUndef msg VUndef [].

(** [errorWithCode(code, message, details?)]: [details] is attached only
    when truthy. *)
Definition errorWithDetails (code msg : string) (details : value) : error :=
  mkError (VStr code) msg (if truthy details then details else VUndef) [].

Definition errorWithNumbers (code msg : string) (details : value)
    (numbers : list (string * jsnum)) : error :=
  mkError (VStr code) msg details numbers.

Definition errorWithCode (code msg : string) : error :=
  errorWithDetails code msg VUndef.

Inductive outcome (A : Type) : Type :=
| Ok (a : A)
| Throw (e : error).
Arguments Ok {A} a.
Arguments Throw {A} e.

(** ** The host: what the sources import from the runtime and from zod

    [Date_parse s] is the time value of [new Date(s)] in milliseconds
    ([None] for an Invalid Date), [toISOString] is
    [Date.prototype.toISOString]; [validateCreate] and [validateUpdate]
    are [LaunchPackValidation.create] and [.update] ([Throw] when the
    schema rejects the input), and [parseAuditLog] is
    [auditEntrySchema.array().parse]; [Number_parse] is [Number(s)] on a
    string; [timestamptz_text] is the text PostgreSQL gives for a
    [timestamptz] value cast to [text] (in the session's date style and
    time zone, such as [2023-11-14 22:13:20+00]). *)
Class Host : Type := {
  Date_parse : string -> option Z;
  Number_parse : string -> jsnum;
  toISOString : Z -> string;
  timestamptz_text : Z -> string;
  validateCreate : value -> outcome value;
  validateUpdate : value -> outcome value;
  parseAuditLog : value -> option (list value)
}.

Definition PUBLISH_COOLDOWN_MS : Z := 10 * 60 * 1000.

Section WithHost.
Context {host : Host}.

(** [new Date(v).getTime()], [None] standing for [NaN]. *)
Definition Date_getTime (v : value) : option Z :=
  match v with
  | VUndef => None
  | VNull => Some 0
  | VBool b => Some (if b then 1 else 0)
  | VNum n => if Z.abs n <=? 8640000000000000 then Some n else None
  | VStr s => Date_parse s
  | VArr _ | VObj _ => Date_parse (to_string v)
  end.

(** [nowIso()] / [new Date().toISOString()] at clock reading [now]. *)
Definition nowIso (now : Z) : value := VStr (toISOString now).

(** [publishStatus(pack, key)] (launchPackRepository.ts, lines 85-92). *)
Inductive channel : Type := Tg | X.

Definition statusKey (key : channel) : string :=
  match key with Tg => "tg_publish_status" | X => "x_publish_status" end.
Definition failedAtKey (key : channel) : string :=
  match key with Tg => "tg_publish_failed_at" | X => "x_publish_failed_at" end.
Definition attemptedAtKey (key : channel) : string :=
  match key with Tg => "tg_publish_attempted_at" | X => "x_publish_attempted_at" end.
Definition errorCodeKey (key : channel) : string :=
  match key with Tg => "tg_publish_error_code" | X => "x_publish_error_code" end.
Definition errorMessageKey (key : channel) : string :=
  match key with Tg => "tg_publish_error_message" | X => "x_publish_error_message" end.
Definition scheduleIntentKey (key : channel) : string :=
  match key with Tg => "tg_schedule_intent" | X => "x_schedule_intent" end.
Definition channelKey (key : channel) : string :=
  match key with Tg => "tg" | X => "x" end.

(** The [failedAt] component is kept as its time value (the only use the
    callers make of it); [Some None] is a [Date] that is invalid. *)
Definition publishStatus (pack : value) (key : channel) : value * option (option Z) :=
  let ops := or_else (get pack "ops") (VObj []) in
  let status := get ops (statusKey key) in
  let failedAt := get ops (failedAtKey key) in
  (or_else status (VStr "idle"),
   if truthy failedAt then Some (Date_getTime failedAt) else None).

End WithHost.

(** ** The in-memory store ([createInMemoryLaunchPackStore], lines 366-505) *)

Module Mem.

(** [Map<string, LaunchPack>]: entries in insertion order; [Map.set] on a
    present key keeps its position. *)
Definition store := props.

Definition Map_get (st : store) (id : string) : value :=
  match lookup id st with Some v => v | None => VUndef end.

Definition Map_set (st : store) (id : string) (v : value) : store :=
  assign id v st.

Definition Map_values (st : store) : list value := map snd st.

Section WithHost.
Context {host : Host}.

(** The [for (const value of store.values())] scan of [create]. *)
Fixpoint find_idempotent (vals : list value) (key : value) : option value :=
  match vals with
  | [] => None
  | v :: r =>
      if strict_eq (get v "idempotency_key") key then Some v
      else find_idempotent r key
  end.

(** [create(input)]; [uuid] is the value [randomUUID()] would return and
    [now] the clock reading.  Ids are strings by the schema; the [Map] key
    of any other id value is taken to be its string form. *)
Definition create (st : store) (input : value) (uuid : string) (now : Z)
  : outcome value * store :=
  match validateCreate input with
  | Throw e => (Throw e, st)
  | Ok parsed =>
      let id := coalesce (get parsed "id") (VStr uuid) in
      let now := nowIso now in
      let hit :=
        if truthy (get parsed "idempotency_key")
        then find_idempotent (Map_values st) (get parsed "idempotency_key")
        else None in
      match hit with
      | Some v => (Ok v, st)
      | None =>
          let record :=
            spread_with parsed
              [("id", id);
               ("version", coalesce (get parsed "version") (VNum 1));
               ("created_at", now);
               ("updated_at", now)] in
          (Ok record, Map_set st (to_string id) record)
      end
  end.

(** [get(id)]: the record, or [null]. *)
Definition get_pack (st : store) (id : string) : value :=
  or_else (Map_get st id) VNull.

Definition update (st : store) (id : string) (patch : value) (now : Z)
  : outcome value * store :=
  let existing := Map_get st id in
  if negb (truthy existing) then (Throw (plain_error "LaunchPack not found"), st)
  else
    match validateUpdate patch with
    | Throw e => (Throw e, st)
    | Ok parsed =>
        let merged := deepMerge existing parsed in
        let merged := set_prop merged "id" (VStr id) in
        let merged := set_prop merged "updated_at" (nowIso now) in
        let currentVersion := coalesce (get existing "version") (VNum 1) in
        let merged := set_prop merged "version" (plus_one currentVersion) in
        (Ok merged, Map_set st id merged)
    end.

Definition claimLaunch (st : store) (id : string)
    (requested_at status : string) (now : Z) : value * store :=
  let existing := Map_get st id in
  if negb (truthy existing) then (VNull, st)
  else if is_str (get (get existing "launch") "status") "launched" then (VNull, st)
  else if truthy (get (get existing "launch") "requested_at")
          && negb (is_str (get (get existing "launch") "status") "failed")
       then (VNull, st)
  else
    let updated :=
      spread_with existing
        [("launch",
          spread_with (or_else (get existing "launch") (VObj []))
            [("requested_at", VStr requested_at); ("status", VStr status)]);
         ("updated_at", nowIso now)] in
    let currentVersion := coalesce (get existing "version") (VNum 1) in
    let updated := set_prop updated "version" (plus_one currentVersion) in
    (updated, Map_set st id updated).

(** The cooldown test of the claim:
    [failedMs && now - failedMs < PUBLISH_COOLDOWN_MS], with
    [failedMs = failedAt ? failedAt.getTime() : 0]. *)
Definition cooldown_blocks (failedAt : option (option Z)) (now : Z) : bool :=
  let failedMs := match failedAt with Some t => t | None => Some 0 end in
  match failedMs with
  | Some ms => negb (ms =? 0) && (now - ms <? PUBLISH_COOLDOWN_MS)
  | None => false
  end.

(** [claimTelegramPublish] and [claimXPublish] are the same text up to the
    channel prefix of the keys; [key] selects the channel. *)
Definition claimPublish (key : channel) (st : store) (id : string)
    (requested_at : string) (force : bool) (now : Z) : value * store :=
  let existing := Map_get st id in
  if negb (truthy existing) then (VNull, st)
  else
    let '(status, failedAt) := publishStatus existing key in
    if is_str status "published" || is_str status "in_progress" then (VNull, st)
    else if is_str status "failed" && negb force && cooldown_blocks failedAt now
    then (VNull, st)
    else
      let updated :=
        spread_with existing
          [("ops",
            spread_with (or_else (get existing "ops") (VObj []))
              [(statusKey key, VStr "in_progress");
               (attemptedAtKey key, VStr requested_at);
               (errorCodeKey key, VUndef);
               (errorMessageKey key, VUndef)]);
           ("updated_at", nowIso now)] in
      let updated :=
        set_prop updated "version"
          (plus_one (coalesce (get existing "version") (VNum 1))) in
      (updated, Map_set st id updated).

Definition claimTelegramPublish := claimPublish Tg.
Definition claimXPublish := claimPublish X.

(** [new Date(a).getTime() <= b] on time values; false when either is NaN. *)
Definition time_le (a b : option Z) : bool :=
  match a, b with
  | Some x, Some y => x <=? y
  | _, _ => false
  end.

Definition typeError (msg : string) : error := plain_error msg.

(** [schedule.some(item => new Date(item.when).getTime() <= nowTs)]. *)
Fixpoint some_due (items : list value) (nowTs : option Z) : outcome bool :=
  match items with
  | [] => Ok false
  | item :: r =>
      if nullish item then Throw (typeError "Cannot read properties of undefined")
      else if time_le (Date_getTime (get item "when")) nowTs then Ok true
      else some_due r nowTs
  end.

Definition schedule_due (schedule : value) (nowTs : option Z) : outcome bool :=
  match schedule with
  | VArr items => some_due items nowTs
  | _ => Throw (typeError "schedule.some is not a function")
  end.

(** The scan loop of [findDueTelegramPublishes] / [findDueXPublishes]. *)
Fixpoint findDue_loop (key : channel) (packs : list value) (nowTs : option Z)
    (limit : Z) (results : list value) : outcome (list value) :=
  match packs with
  | [] => Ok results
  | pack :: rest =>
      if Z.of_nat (List.length results) >=? limit then Ok results
      else
        let status := or_else (get (get pack "ops") (statusKey key)) (VStr "idle") in
        if is_str status "published" || is_str status "in_progress"
        then findDue_loop key rest nowTs limit results
        else
          let schedule :=
            or_else (get (get pack (channelKey key)) "schedule")
              (or_else (get (get pack "ops") (scheduleIntentKey key)) (VArr [])) in
          match schedule_due schedule nowTs with
          | Throw e => Throw e
          | Ok false => findDue_loop key rest nowTs limit results
          | Ok true => findDue_loop key rest nowTs limit (results ++ [pack])%list
          end
  end.

Definition findDue (key : channel) (st : store) (nowIso : string) (limit : Z)
  : outcome (list value) :=
  findDue_loop key (Map_values st) (Date_getTime (VStr nowIso)) limit [].

Definition findDueTelegramPublishes := findDue Tg.
Definition findDueXPublishes := findDue X.

End WithHost.
End Mem.

(** ** The PGlite repository ([LaunchPackRepository], lines 94-364)

    The table [launch_packs] is a list of rows.  The [jsonb] column holds a
    JSON value (key order, which [jsonb] does not keep, is not observable
    through property reads).  [TIMESTAMPTZ] columns hold the instant in
    milliseconds; text is cast to a timestamp with the host's
    [Date_parse]. *)

Module Pg.

Record row : Type := mkRow {
  row_id : string;
  row_idempotency_key : option string;
  row_data : value;
  row_launch_status : option string;
  row_launch_requested_at : option Z;
  row_created_at : Z;
  row_updated_at : Z
}.

Definition table := list row.

(** What [JSON.stringify] keeps of a JavaScript value bound to a [jsonb]
    parameter: [undefined] properties are dropped, [undefined] array items
    become [null]. *)
Fixpoint to_jsonb (v : value) : value :=
  match v with
  | VUndef => VNull
  | VArr l => VArr (map to_jsonb l)
  | VObj fs =>
      VObj ((fix go (fs : props) : props :=
               match fs with
               | [] => []
               | (k, x) :: r =>
                   match x with
                   | VUndef => go r
                   | _ => (k, to_jsonb x) :: go r
                   end
               end) fs)
  | _ => v
  end.

(** A JavaScript value bound to a [TEXT] parameter or column. *)
Definition text_param (v : value) : option string :=
  match v with
  | VUndef | VNull => None
  | VStr s => Some s
  | _ => Some (to_string v)
  end.

(** [j ->> 'k']: the text of a member, SQL [NULL] for a missing member or a
    JSON [null].  (The text of a nested array or object is rendered with
    [to_string]; it is never one of the status literals.) *)
Definition arrow_text (j : value) (k : string) : option string :=
  match j with
  | VObj fs =>
      match lookup k fs with
      | None | Some VNull | Some VUndef => None
      | Some (VStr s) => Some s
      | Some x => Some (to_string x)
      end
  | _ => None
  end.

(** [j -> 'k'] on an object ([VUndef] standing for SQL [NULL]). *)
Definition arrow (j : value) (k : string) : value :=
  match j with
  | VObj fs => match lookup k fs with Some x => x | None => VUndef end
  | _ => VUndef
  end.

Definition dbError (msg : string) : error := plain_error msg.

(** [jsonb_set(target, '{a,b}', new_value, true)]: replaces or creates
    member [b] of the object at [a]; a missing or scalar [a] leaves the
    target as it is; a scalar target and an array on the path (whose path
    element would have to be an integer) are errors. *)
Definition jsonb_set2 (target : value) (a b : string) (new_value : value)
  : outcome value :=
  match target with
  | VObj fs =>
      match lookup a fs with
      | Some (VObj gs) => Ok (VObj (assign a (VObj (assign b new_value gs)) fs))
      | Some (VArr _) => Throw (dbError "path element at position 2 is not an integer")
      | _ => Ok target
      end
  | VArr _ => Throw (dbError "path element at position 1 is not an integer")
  | _ => Throw (dbError "cannot set path in scalar")
  end.

Fixpoint select_by_id (t : table) (id : string) : option row :=
  match t with
  | [] => None
  | r :: rest => if String.eqb (row_id r) id then Some r else select_by_id rest id
  end.

Fixpoint select_by_idempotency_key (t : table) (key : string) : option row :=
  match t with
  | [] => None
  | r :: rest =>
      match row_idempotency_key r with
      | Some k => if String.eqb k key then Some r else select_by_idempotency_key rest key
      | None => select_by_idempotency_key rest key
      end
  end.

(** The [UNIQUE] constraint on [idempotency_key]: some row already holds
    this (non-[NULL]) key. *)
Definition key_taken (t : table) (key : option string) : bool :=
  match key with
  | Some k => match select_by_idempotency_key t k with Some _ => true | None => false end
  | None => false
  end.

(** [UPDATE ... WHERE id = $1]: [f] rewrites the row with that id. *)
Fixpoint update_by_id (t : table) (id : string) (f : row -> row) : table :=
  match t with
  | [] => []
  | r :: rest =>
      if String.eqb (row_id r) id then f r :: rest
      else r :: update_by_id rest id f
  end.

Section WithHost.
Context {host : Host}.

(** The record handed back for a row: [{...stored, id, created_at,
    updated_at}] with the column values taking precedence; [create] has
    [row.id || stored.id], the other methods [row.id || stored.id || id]. *)
Definition hydrate (r : row) (fallback_id : option value) : value :=
  let stored := or_else (row_data r) (VObj []) in
  spread_with stored
    [("id",
      match fallback_id with
      | None => or_else (VStr (row_id r)) (get stored "id")
      | Some id => or_else (or_else (VStr (row_id r)) (get stored "id")) id
      end);
     ("created_at", or_else (VStr (toISOString (row_created_at r))) (get stored "created_at"));
     ("updated_at", or_else (VStr (toISOString (row_updated_at r))) (get stored "updated_at"))].

(** The [launch_requested_at] parameter:
    [x ? new Date(x) : null]; an Invalid Date cannot be bound. *)
Definition requested_at_param (x : value) : outcome (option Z) :=
  if truthy x then
    match Date_getTime x with
    | Some t => Ok (Some t)
    | None => Throw (dbError "invalid input syntax for type timestamp")
    end
  else Ok None.

Definition create (t : table) (input : value) (uuid : string) (now : Z)
  : outcome value * table :=
  match validateCreate input with
  | Throw e => (Throw e, t)
  | Ok parsed =>
      let id := coalesce (get parsed "id") (VStr uuid) in
      let idempotencyKey := get parsed "idempotency_key" in
      let timestamp := nowIso now in
      let launchStatus := coalesce (get (get parsed "launch") "status") (VStr "draft") in
      let existing :=
        if truthy idempotencyKey
        then match text_param idempotencyKey with
             | Some k => select_by_idempotency_key t k
             | None => None
             end
        else None in
      match existing with
      | Some r => (Ok (hydrate r None), t)
      | None =>
          let record :=
            spread_with parsed
              [("id", id);
               ("idempotency_key", idempotencyKey);
               ("version", coalesce (get parsed "version") (VNum 1));
               ("created_at", timestamp);
               ("updated_at", timestamp)] in
          let idtext := to_string id in
          let key := text_param (coalesce idempotencyKey VNull) in
          (* the parameters are bound when the INSERT is sent *)
          match requested_at_param (get (get parsed "launch") "requested_at") with
          | Throw e => (Throw e, t)
          | Ok launchRequestedAt =>
              match select_by_id t idtext with
              | Some old =>
                  (* ON CONFLICT (id) DO UPDATE *)
                  let key' := match row_idempotency_key old with
                              | Some k => Some k
                              | None => key
                              end in
                  if match row_idempotency_key old with
                     | Some _ => false
                     | None => key_taken t key
                     end
                  then (Throw (dbError "duplicate key value violates unique constraint"), t)
                  else
                    (Ok record,
                     update_by_id t idtext (fun old =>
                       mkRow (row_id old) key' (to_jsonb record)
                             (text_param launchStatus) launchRequestedAt
                             (row_created_at old) now))
              | None =>
                  if key_taken t key
                  then (Throw (dbError "duplicate key value violates unique constraint"), t)
                  else
                    (Ok record,
                     (t ++ [mkRow idtext key (to_jsonb record)
                              (text_param launchStatus) launchRequestedAt now now])%list)
              end
          end
      end
  end.

(** [get(id)]: the hydrated record, or [null]. *)
Definition get_pack (t : table) (id : string) : value :=
  match select_by_id t id with
  | None => VNull
  | Some r => hydrate r (Some (VStr id))
  end.

Definition update (t : table) (id : string) (patch : value) (now : Z)
  : outcome value * table :=
  let existing := get_pack t id in
  if negb (truthy existing) then (Throw (plain_error "LaunchPack not found"), t)
  else
    match validateUpdate patch with
    | Throw e => (Throw e, t)
    | Ok parsedPatch =>
        let merged := deepMerge existing parsedPatch in
        let merged := set_prop merged "id" (VStr id) in
        let merged := set_prop merged "updated_at" (nowIso now) in
        let currentVersion := coalesce (get existing "version") (VNum 1) in
        let merged := set_prop merged "version" (plus_one currentVersion) in
        let launchStatus := coalesce (get (get merged "launch") "status") (VStr "draft") in
        match requested_at_param (get (get merged "launch") "requested_at") with
        | Throw e => (Throw e, t)
        | Ok launchRequestedAt =>
            (Ok merged,
             update_by_id t id (fun old =>
               mkRow (row_id old) (row_idempotency_key old) (to_jsonb merged)
                     (text_param launchStatus) launchRequestedAt
                     (row_created_at old) now))
        end
    end.

(** The [WHERE] clause of [claimLaunch] (SQL three-valued logic: a [NULL]
    [launch_status] matches nothing). *)
Definition claimLaunch_where (r : row) : bool :=
  match row_launch_status r with
  | None => false
  | Some s =>
      negb (String.eqb s "launched")
      && (match row_launch_requested_at r with None => true | Some _ => false end
          || String.eqb s "failed")
  end.

(** [claimLaunch]; the statement fails as a whole when [$2] cannot be cast
    to a timestamp.  The parameter [$2] is first used as [$2::timestamptz]
    and so has that type: [to_jsonb($2::text)] stores the text PostgreSQL
    gives for the timestamp, not the string that was passed; [$3] is
    text. *)
Definition claimLaunch (t : table) (id : string)
    (requested_at status : string) (now : Z) : outcome value * table :=
  match Date_parse requested_at with
  | None => (Throw (dbError "invalid input syntax for type timestamp"), t)
  | Some ts =>
      match select_by_id t id with
      | None => (Ok VNull, t)
      | Some r =>
          if claimLaunch_where r then
            match jsonb_set2 (row_data r) "launch" "requested_at"
                    (VStr (timestamptz_text ts)) with
            | Throw e => (Throw e, t)
            | Ok d1 =>
                match jsonb_set2 d1 "launch" "status" (VStr status) with
                | Throw e => (Throw e, t)
                | Ok d2 =>
                    let r' := mkRow (row_id r) (row_idempotency_key r) d2
                                (Some status) (Some ts) (row_created_at r) now in
                    (Ok (hydrate r' (Some (VStr id))), update_by_id t id (fun _ => r'))
                end
            end
          else (Ok VNull, t)
      end
  end.

(** [COALESCE(data->'ops'->>'<status key>', 'idle')]. *)
Definition status_text (key : channel) (data : value) : string :=
  match arrow_text (arrow data "ops") (statusKey key) with
  | Some s => s
  | None => "idle"
  end.

(** [COALESCE((data->'ops'->>'<failed_at key>')::timestamptz,
    TO_TIMESTAMP(0)) <= NOW() - INTERVAL '10 minutes']; the cast is taken
    to be evaluated only where the clause needs it. *)
Definition cooldown_elapsed (key : channel) (data : value) (now : Z) : outcome bool :=
  match arrow_text (arrow data "ops") (failedAtKey key) with
  | None => Ok (0 <=? now - PUBLISH_COOLDOWN_MS)
  | Some txt =>
      match Date_parse txt with
      | Some ts => Ok (ts <=? now - PUBLISH_COOLDOWN_MS)
      | None => Throw (dbError "invalid input syntax for type timestamp")
      end
  end.

Definition claimPublish_where (key : channel) (data : value) (force : bool) (now : Z)
  : outcome bool :=
  let s := status_text key data in
  if String.eqb s "published" || String.eqb s "in_progress" then Ok false
  else if String.eqb s "idle" then Ok true
  else if String.eqb s "failed" then
    if force then Ok true else cooldown_elapsed key data now
  else Ok false.

(** PostgreSQL resolves the types of a statement before it runs it.  The
    argument of the polymorphic [to_jsonb(anyelement)] must have a known
    type; a bare string literal has type [unknown], and a statement that
    passes one is rejected with SQLSTATE 42804, whatever the rows and the
    parameters are. *)
Inductive sql_type : Type := SqlUnknown | SqlText.

Definition pgError (code msg : string) : error := mkError (VStr code) msg VUndef [].

Definition to_jsonb_text (ty : sql_type) (txt : string) : outcome value :=
  match ty with
  | SqlUnknown =>
      Throw (pgError "42804"
               "could not determine polymorphic type because input has type unknown")
  | SqlText => Ok (VStr txt)
  end.

(** [claimTelegramPublish] and [claimXPublish] (lines 229-313): the status
    is written as [to_jsonb('in_progress')], on a bare literal; the
    attempt time as [to_jsonb($2::text)]. *)
Definition claimPublish (key : channel) (t : table) (id : string)
    (requested_at : string) (force : bool) (now : Z) : outcome value * table :=
  match to_jsonb_text SqlUnknown "in_progress", to_jsonb_text SqlText requested_at with
  | Throw e, _ | _, Throw e => (Throw e, t)
  | Ok in_progress, Ok attempted_at =>
      match select_by_id t id with
      | None => (Ok VNull, t)
      | Some r =>
          match claimPublish_where key (row_data r) force now with
          | Throw e => (Throw e, t)
          | Ok false => (Ok VNull, t)
          | Ok true =>
              match jsonb_set2 (row_data r) "ops" (statusKey key) in_progress with
              | Throw e => (Throw e, t)
              | Ok d1 =>
                  match jsonb_set2 d1 "ops" (attemptedAtKey key) attempted_at with
                  | Throw e => (Throw e, t)
                  | Ok d2 =>
                      match jsonb_set2 d2 "ops" (errorCodeKey key) VNull with
                      | Throw e => (Throw e, t)
                      | Ok d3 =>
                          let r' := mkRow (row_id r) (row_idempotency_key r) d3
                                      (row_launch_status r) (row_launch_requested_at r)
                                      (row_created_at r) now in
                          (Ok (hydrate r' (Some (VStr id))),
                           update_by_id t id (fun _ => r'))
                      end
                  end
              end
          end
      end
  end.

Definition claimTelegramPublish := claimPublish Tg.
Definition claimXPublish := claimPublish X.

(** [EXISTS (SELECT 1 FROM jsonb_array_elements(...) AS s
    WHERE (s->>'when')::timestamptz <= $1::timestamptz)], scanning the
    elements in order; a [when] that cannot be cast is an error. *)
Fixpoint exists_due (items : list value) (nowTs : Z) : outcome bool :=
  match items with
  | [] => Ok false
  | s :: rest =>
      match arrow_text s "when" with
      | None => exists_due rest nowTs
      | Some txt =>
          match Date_parse txt with
          | None => Throw (dbError "invalid input syntax for type timestamp")
          | Some ts => if ts <=? nowTs then Ok true else exists_due rest nowTs
          end
      end
  end.

(** [COALESCE(data->'ops'-><intent key>, data-><channel>->'schedule',
    '[]'::jsonb)]; a JSON [null] is a value, not SQL [NULL]. *)
Definition recorded_schedule (key : channel) (data : value) : value :=
  match arrow (arrow data "ops") (scheduleIntentKey key) with
  | VUndef =>
      match arrow (arrow data (channelKey key)) "schedule" with
      | VUndef => VArr []
      | v => v
      end
  | v => v
  end.

Definition findDue_where (key : channel) (data : value) (nowTs : Z) : outcome bool :=
  let s := status_text key data in
  if String.eqb s "in_progress" || String.eqb s "published" then Ok false
  else
    match recorded_schedule key data with
    | VArr items => exists_due items nowTs
    | VObj _ => Throw (dbError "cannot extract elements from an object")
    | _ => Throw (dbError "cannot extract elements from a scalar")
    end.

Fixpoint filter_due (key : channel) (t : table) (nowTs : Z) : outcome (list row) :=
  match t with
  | [] => Ok []
  | r :: rest =>
      match findDue_where key (row_data r) nowTs with
      | Throw e => Throw e
      | Ok b =>
          match filter_due key rest nowTs with
          | Throw e => Throw e
          | Ok l => Ok (if b then r :: l else l)
          end
      end
  end.

(** [ORDER BY updated_at ASC]: rows with equal [updated_at] keep their
    table order (SQL leaves their order open). *)
Fixpoint insert_by_updated_at (r : row) (l : list row) : list row :=
  match l with
  | [] => [r]
  | x :: rest =>
      if row_updated_at r <? row_updated_at x then r :: l
      else x :: insert_by_updated_at r rest
  end.

Definition order_by_updated_at (l : list row) : list row :=
  fold_right insert_by_updated_at [] l.

Definition findDue (key : channel) (t : table) (nowIso : string) (limit : Z)
  : outcome (list value) :=
  match Date_parse nowIso with
  | None => Throw (dbError "invalid input syntax for type timestamp")
  | Some nowTs =>
      if limit <? 0 then Throw (dbError "LIMIT must not be negative")
      else
        match filter_due key t nowTs with
        | Throw e => Throw e
        | Ok rows =>
            Ok (map (fun r => hydrate r None)
                  (firstn (Z.to_nat limit) (order_by_updated_at rows)))
        end
  end.

Definition findDueTelegramPublishes := findDue Tg.
Definition findDueXPublishes := findDue X.

End WithHost.
End Pg.

(** ** Base58 ([bs58], Bitcoin alphabet) *)

Module Base58.

Definition alphabet : string :=
  "123456789ABCDEFGHJKLMNPQRSTUVWXYZabcdefghijkmnopqrstuvwxyz".

Fixpoint index_of (c : ascii) (s : string) (i : N) : option N :=
  match s with
  | EmptyString => None
  | String c' r => if Ascii.eqb c c' then Some i else index_of c r (i + 1)%N
  end.

Definition digit (c : ascii) : option N := index_of c alphabet 0%N.

Fixpoint leading_ones (s : string) : nat :=
  match s with
  | String "1"%char r => S (leading_ones r)
  | _ => 0%nat
  end.

(** The number a string denotes in base 58; [None] on a character outside
    the alphabet. *)
Fixpoint number (s : string) (acc : N) : option N :=
  match s with
  | EmptyString => Some acc
  | String c r =>
      match digit c with
      | Some d => number r (acc * 58 + d)%N
      | None => None
      end
  end.

Definition byte_of_N (n : N) : byte :=
  match Byte.of_N n with Some b => b | None => x00 end.

(** Big-endian bytes of [n], without leading zero bytes. *)
Fixpoint be_bytes (fuel : nat) (n : N) (acc : list byte) : list byte :=
  match fuel with
  | O => acc
  | S f =>
      if (n =? 0)%N then acc
      else be_bytes f (n / 256)%N (byte_of_N (n mod 256)%N :: acc)
  end.

Definition bytes_of_N (n : N) : list byte :=
  be_bytes (N.to_nat (N.size n)) n [].

(** [bs58.decode(s)]; [None] when it throws. *)
Definition decode (s : string) : option (list byte) :=
  match number s 0%N with
  | Some n => Some (repeat x00 (leading_ones s) ++ bytes_of_N n)%list
  | None => None
  end.

Fixpoint leading_zeros (l : list byte) : nat :=
  match l with
  | x00 :: r => S (leading_zeros r)
  | _ => 0%nat
  end.

Definition N_of_bytes (l : list byte) : N :=
  fold_left (fun acc b => (acc * 256 + Byte.to_N b)%N) l 0%N.

Definition char_of_digit (d : N) : ascii :=
  match String.get (N.to_nat d) alphabet with Some c => c | None => "1"%char end.

Fixpoint digits (fuel : nat) (n : N) (acc : string) : string :=
  match fuel with
  | O => acc
  | S f =>
      if (n =? 0)%N then acc
      else digits f (n / 58)%N (String (char_of_digit (n mod 58)%N) acc)
  end.

Fixpoint ones (k : nat) : string :=
  match k with O => "" | S k' => String "1"%char (ones k') end.

(** [bs58.encode(bytes)]. *)
Definition encode (l : list byte) : string :=
  let n := N_of_bytes l in
  ones (leading_zeros l) ++ digits (N.to_nat (N.size n)) n "".

(** [bs58.decode(v)] on a JavaScript value: anything but a string throws. *)
Definition decode_value (v : value) : option (list byte) :=
  match v with
  | VStr s => decode s
  | _ => None
  end.

End Base58.

(** ** The outside world of the orchestrators *)

(** A [Response]: its [ok] flag and status, the value [res.json()]
    resolves to ([None] when the body is not JSON), its headers, and its
    body as [res.body] / [res.arrayBuffer()] deliver it. *)
Inductive stream : Type :=
| SEnd
| SChunk (chunk : list byte) (rest : stream)
| SFail (e : error).

Inductive body : Type :=
| NoStream (buf : outcome (list byte))
| Stream (s : stream).

Record response : Type := mkResponse {
  res_ok : bool;
  res_status : Z;
  res_json : option value;
  res_headers : list (string * string);
  res_body : body
}.

Definition json_response (ok : bool) (status : Z) (json : option value) : response :=
  mkResponse ok status json [] (NoStream (Ok [])).

(** What a [fetch] resolves to: a rejection or a response. *)
Inductive fetch_result : Type :=
| FetchThrows (e : error)
| FetchResponse (r : response).

(** A remote call: its URL, its JSON or form body, and the numeric members
    of the body (request headers are left out). *)
Record request : Type := mkRequest {
  req_url : string;
  req_body : value;
  req_numbers : list (string * jsnum)
}.

(** The clock, the remote services and the key generator: [clock n] is
    the [n]-th reading of the clock; [remote n r] is the outcome of
    request [r] made as the [n]-th remote call and [arrival n] the time in
    milliseconds after which it settles ([None]: never);
    [mint_keypair] is what [Keypair.generate()] returns (secret key and
    public key bytes). *)
Record outside : Type := mkOutside {
  clock : nat -> Z;
  remote : nat -> request -> fetch_result;
  arrival : nat -> option Z;
  mint_keypair : list byte * list byte
}.

(** ** The store interface ([LaunchPackStore], lines 13-31) *)

Class LaunchPackStore (S : Type) : Type := {
  store_get : S -> string -> value;
  store_update : S -> string -> value -> Z -> outcome value * S;
  store_claimLaunch : S -> string -> string -> string -> Z -> outcome value * S;
  store_claimPublish : channel -> S -> string -> string -> bool -> Z -> outcome value * S
}.

#[export] Instance MemStore {host : Host} : LaunchPackStore Mem.store := {|
  store_get := Mem.get_pack;
  store_update := Mem.update;
  store_claimLaunch := fun st id ra s now =>
    let '(v, st') := Mem.claimLaunch st id ra s now in (Ok v, st');
  store_claimPublish := fun key st id ra force now =>
    let '(v, st') := Mem.claimPublish key st id ra force now in (Ok v, st')
|}.

#[export] Instance PgStore {host : Host} : LaunchPackStore Pg.table := {|
  store_get := Pg.get_pack;
  store_update := Pg.update;
  store_claimLaunch := Pg.claimLaunch;
  store_claimPublish := Pg.claimPublish
|}.

(** ** A monad for the orchestrators: state that survives a throw *)

(** The store, the number of clock readings taken, the remote calls made
    so far, and the content of the secrets store. *)
Record world (S : Type) : Type := mkWorld {
  w_store : S;
  w_reads : nat;
  w_calls : list request;
  w_secrets : value
}.
Arguments mkWorld {S}.
Arguments w_store {S}.
Arguments w_reads {S}.
Arguments w_calls {S}.
Arguments w_secrets {S}.

Definition M (S A : Type) : Type := world S -> outcome A * world S.

Definition ret {S A} (a : A) : M S A := fun w => (Ok a, w).
Definition throw {S A} (e : error) : M S A := fun w => (Throw e, w).
Definition bind {S A B} (m : M S A) (f : A -> M S B) : M S B :=
  fun w => match m w with
           | (Ok a, w') => f a w'
           | (Throw e, w') => (Throw e, w')
           end.
(** [try { m } catch (err) { handler(err) }]. *)
Definition try_catch {S A} (m : M S A) (handler : error -> M S A) : M S A :=
  fun w => match m w with
           | (Ok a, w') => (Ok a, w')
           | (Throw e, w') => handler e w'
           end.
Definition lift_outcome {S A} (o : outcome A) : M S A :=
  match o with Ok a => ret a | Throw e => throw e end.

Declare Scope orch_scope.
Delimit Scope orch_scope with orch.
Notation "x <- m ;; k" := (bind m (fun x => k))
  (at level 61, m at next level, right associativity) : orch_scope.
Notation "m ;;; k" := (bind m (fun _ => k))
  (at level 61, right associativity) : orch_scope.

(** ** The environment ([getEnv()], env.ts) as the publishers read it *)

Record LaunchkitEnv : Type := mkEnv {
  launchEnabled : bool;
  TG_ENABLE : value;
  TG_BOT_TOKEN : value;
  TG_CHAT_ID : value;
  X_ENABLE : value;
  X_API_KEY : value;
  X_API_SECRET : value;
  X_ACCESS_TOKEN : value;
  X_ACCESS_SECRET : value;
  MAX_SOL_DEV_BUY : jsnum;
  MAX_PRIORITY_FEE : jsnum;
  LAUNCH_SLIPPAGE_PERCENT : option jsnum;
  MAX_SLIPPAGE_PERCENT : option jsnum
}.

Section Orchestrators.
Context {host : Host} {S : Type} {store : LaunchPackStore S}.
Variable out : outside.
Variable env : LaunchkitEnv.

Local Open Scope orch_scope.

(** *** Primitive effects *)

Definition read_clock : M S Z :=
  fun w => (Ok (clock out (w_reads w)),
            mkWorld (w_store w) (Datatypes.S (w_reads w)) (w_calls w) (w_secrets w)).

(** [nowIso()] (time.ts). *)
Definition nowIsoM : M S string :=
  t <- read_clock ;; ret (toISOString t).

Definition fetch (r : request) : M S fetch_result :=
  fun w => (Ok (remote out (List.length (w_calls w)) r),
            mkWorld (w_store w) (w_reads w) (w_calls w ++ [r])%list (w_secrets w)).

Definition getM (id : string) : M S value :=
  fun w => (Ok (store_get (w_store w) id), w).

(** A store write reads the clock once. *)
Definition with_store (op : S -> Z -> outcome value * S) : M S value :=
  fun w =>
    let '(r, s') := op (w_store w) (clock out (w_reads w)) in
    (r, mkWorld s' (Datatypes.S (w_reads w)) (w_calls w) (w_secrets w)).

Definition updateM (id : string) (patch : value) : M S value :=
  with_store (fun s now => store_update s id patch now).

Definition claimLaunchM (id requested_at status : string) : M S value :=
  with_store (fun s now => store_claimLaunch s id requested_at status now).

Definition claimPublishM (key : channel) (id requested_at : string) (force : bool)
  : M S value :=
  with_store (fun s now => store_claimPublish key s id requested_at force now).

(** *** [appendAudit] (audit.ts, lines 4-8) *)

Definition appendAudit (log : value) (message actor : string) : M S (list value) :=
  let parsedLog :=
    match parseAuditLog (or_else log (VArr [])) with
    | Some l => l
    | None => []
    end in
  at_ <- nowIsoM ;;
  ret (parsedLog ++ [VObj [("at", VStr at_); ("message", VStr message);
                           ("actor", VStr actor)]])%list.

(** [schedule.map(item => ({...item, when: new Date(item.when).toISOString()}))]. *)
Fixpoint schedule_items (items : list value) : outcome (list value) :=
  match items with
  | [] => Ok []
  | item :: rest =>
      if nullish item then Throw (plain_error "Cannot read properties of undefined")
      else
        match Date_getTime (get item "when") with
        | None => Throw (plain_error "Invalid time value")
        | Some t =>
            match schedule_items rest with
            | Throw e => Throw e
            | Ok l => Ok (spread_with item [("when", VStr (toISOString t))] :: l)
            end
        end
  end.

Definition scheduleIntent (schedule : value) : outcome (list value) :=
  match schedule with
  | VArr items => schedule_items items
  | _ => Throw (plain_error "schedule.map is not a function")
  end.

(** *** The Telegram publisher (telegramPublisher.ts) *)

Definition tgApi (token : value) (method : string) (body : value) : M S value :=
  res <- fetch (mkRequest ("https://api.telegram.org/bot" ++ to_string token
                             ++ "/" ++ method) body []) ;;
  match res with
  | FetchThrows e => throw e
  | FetchResponse res =>
      let json := match res_json res with Some j => j | None => VObj [] end in
      if negb (res_ok res) || negb (truthy (get json "ok"))
      then throw (errorWithCode "TG_PUBLISH_FAILED" ("Telegram " ++ method ++ " failed"))
      else ret (get json "result")
  end.

Definition maybeSendAndPin (text : value) : M S value :=
  if negb (truthy text) then ret VNull
  else
    message <- tgApi (TG_BOT_TOKEN env) "sendMessage"
                 (VObj [("chat_id", TG_CHAT_ID env); ("text", text);
                        ("disable_web_page_preview", VBool true)]) ;;
    let messageId := get message "message_id" in
    if nullish messageId
    then throw (errorWithCode "TG_PUBLISH_FAILED" "Telegram sendMessage missing message_id")
    else
      tgApi (TG_BOT_TOKEN env) "pinChatMessage"
        (VObj [("chat_id", TG_CHAT_ID env); ("message_id", messageId)]) ;;;
      ret messageId.

(** [if (id !== null && id !== undefined) messageIds.push(String(id))]. *)
Definition push_id (messageIds : list value) (id : value) : list value :=
  if nullish id then messageIds else (messageIds ++ [VStr (to_string id)])%list.

Definition missing (name : string) (v : value) : list string :=
  if truthy v then [] else [name].

Definition missingKeys_details (keys : list string) : value :=
  VObj [("missingKeys", VArr (map VStr keys))].

(** The [try] block of [publish]: the remote steps, then the update that
    records the success. *)
Record published : Type := mkPublished {
  pub_ids : list value;
  pub_intent : list value;
  pub_at : string;
  pub_audit : list value
}.

Definition tg_publish_steps (claim : value) : M S published :=
  let pins := coalesce (get (get claim "tg") "pins") (VObj []) in
  let schedule := coalesce (get (get claim "tg") "schedule") (VArr []) in
  welcomeId <- maybeSendAndPin (get pins "welcome") ;;
  let messageIds := push_id [] welcomeId in
  howToBuyId <- maybeSendAndPin (get pins "how_to_buy") ;;
  let messageIds := push_id messageIds howToBuyId in
  memekitId <- maybeSendAndPin (get pins "memekit") ;;
  let messageIds := push_id messageIds memekitId in
  intent <- lift_outcome (scheduleIntent schedule) ;;
  publishedAt <- nowIsoM ;;
  audit <- appendAudit (get (get claim "ops") "audit_log")
             "Telegram publish complete" "eliza" ;;
  ret (mkPublished messageIds intent publishedAt audit).

Definition tg_published_patch (claim : value) (p : published) : value :=
  VObj [("ops",
         spread_with (or_else (get claim "ops") (VObj []))
           [("checklist",
             spread_with (or_else (get (get claim "ops") "checklist") (VObj []))
               [("tg_published", VBool true)]);
            ("tg_publish_status", VStr "published");
            ("tg_published_at", VStr (pub_at p));
            ("tg_message_ids", VArr (pub_ids p));
            ("tg_schedule_intent", VArr (pub_intent p));
            ("tg_publish_error_code", VNull);
            ("tg_publish_error_message", VNull);
            ("audit_log", VArr (pub_audit p))])].

Definition tg_publish_body (id : string) (claim : value) : M S value :=
  p <- tg_publish_steps claim ;;
  updateM id (tg_published_patch claim p).

(** The [catch] block of [publish]. *)
Definition tg_failed_patch (claim : value) (err : error) (failedAt : string) : value :=
  VObj [("ops",
         spread_with (or_else (get claim "ops") (VObj []))
           [("tg_publish_status", VStr "failed");
            ("tg_publish_failed_at", VStr failedAt);
            ("tg_publish_error_code",
             or_else (err_code err) (VStr "TG_PUBLISH_FAILED"));
            ("tg_publish_error_message", VStr (err_message err))])].

Definition tg_publish_failed (id : string) (claim : value) (err : error) : M S value :=
  failedAt <- nowIsoM ;;
  updateM id (tg_failed_patch claim err failedAt) ;;;
  throw err.

Definition tg_publish (id : string) (force : bool) : M S value :=
  if negb (is_str (TG_ENABLE env) "true")
  then throw (errorWithCode "TG_DISABLED" "Telegram publishing disabled")
  else
    let missingKeys :=
      (missing "TG_BOT_TOKEN" (TG_BOT_TOKEN env)
         ++ missing "TG_CHAT_ID" (TG_CHAT_ID env))%list in
    match missingKeys with
    | _ :: _ =>
        throw (errorWithDetails "TG_CONFIG_MISSING" "Telegram configuration missing"
                 (missingKeys_details missingKeys))
    | [] =>
        pack <- getM id ;;
        if negb (truthy pack) then throw (errorWithCode "NOT_FOUND" "LaunchPack not found")
        else if negb (truthy (get (get (get pack "ops") "checklist") "tg_ready"))
        then throw (errorWithCode "TG_NOT_READY" "Telegram checklist not ready")
        else if truthy (get (get pack "ops") "tg_published_at")
                && is_str (get (get pack "ops") "tg_publish_status") "published"
                && negb force
        then ret pack
        else
          requested_at <- nowIsoM ;;
          claim <- claimPublishM Tg id requested_at force ;;
          if negb (truthy claim)
          then throw (errorWithCode "TG_PUBLISH_IN_PROGRESS"
                        "Telegram publish already in progress")
          else try_catch (tg_publish_body id claim) (tg_publish_failed id claim)
    end.

(** *** The X publisher (xPublisher.ts) *)

Definition postTweet (text : value) (replyToId : value) : M S string :=
  let body :=
    if truthy replyToId
    then VObj [("text", text);
               ("reply", VObj [("in_reply_to_tweet_id", replyToId)])]
    else VObj [("text", text)] in
  res <- fetch (mkRequest "https://api.twitter.com/2/tweets" body []) ;;
  match res with
  | FetchThrows e => throw e
  | FetchResponse res =>
      let json := match res_json res with Some j => j | None => VObj [] end in
      let id := get (get json "data") "id" in
      if negb (res_ok res) || negb (truthy id)
      then throw (errorWithCode "X_PUBLISH_FAILED" "X post failed")
      else ret (to_string id)
  end.

(** The [for (const post of thread)] loop, threading [previousId]. *)
Fixpoint post_thread (posts : list value) (tweetIds : list value) (previousId : value)
  : M S (list value) :=
  match posts with
  | [] => ret tweetIds
  | post :: rest =>
      idStr <- postTweet post previousId ;;
      post_thread rest (tweetIds ++ [VStr idStr])%list (VStr idStr)
  end.

(** What [for ... of] iterates: the items of an array, the characters of
    a string; any other value is not iterable. *)
Definition iterate (v : value) : outcome (list value) :=
  match v with
  | VArr items => Ok items
  | VStr s => Ok (chars s)
  | _ => Throw (plain_error "value is not iterable")
  end.

Definition x_publish_steps (claim : value) : M S published :=
  let mainText := get (get claim "x") "main_post" in
  first <- (if truthy mainText
            then idStr <- postTweet mainText VUndef ;; ret ([VStr idStr], VStr idStr)
            else ret ([], VUndef)) ;;
  posts <- lift_outcome (iterate (or_else (get (get claim "x") "thread") (VArr []))) ;;
  tweetIds <- post_thread posts (fst first) (snd first) ;;
  intent <- lift_outcome
              (scheduleIntent (or_else (get (get claim "x") "schedule") (VArr []))) ;;
  publishedAt <- nowIsoM ;;
  audit <- appendAudit (get (get claim "ops") "audit_log") "X publish complete" "eliza" ;;
  ret (mkPublished tweetIds intent publishedAt audit).

Definition x_published_patch (claim : value) (p : published) : value :=
  VObj [("ops",
         spread_with (or_else (get claim "ops") (VObj []))
           [("checklist",
             spread_with (or_else (get (get claim "ops") "checklist") (VObj []))
               [("x_published", VBool true)]);
            ("x_publish_status", VStr "published");
            ("x_published_at", VStr (pub_at p));
            ("x_post_ids", VArr (pub_ids p));
            ("x_tweet_ids", VArr (pub_ids p));
            ("x_schedule_intent", VArr (pub_intent p));
            ("x_publish_error_code", VNull);
            ("x_publish_error_message", VNull);
            ("audit_log", VArr (pub_audit p))])].

Definition x_publish_body (id : string) (claim : value) : M S value :=
  p <- x_publish_steps claim ;;
  updateM id (x_published_patch claim p).

Definition x_failed_patch (claim : value) (err : error) (failedAt : string) : value :=
  VObj [("ops",
         spread_with (or_else (get claim "ops") (VObj []))
           [("x_publish_status", VStr "failed");
            ("x_publish_failed_at", VStr failedAt);
            ("x_publish_error_code",
             or_else (err_code err) (VStr "X_PUBLISH_FAILED"));
            ("x_publish_error_message", VStr (err_message err))])].

Definition x_publish_failed (id : string) (claim : value) (err : error) : M S value :=
  failedAt <- nowIsoM ;;
  updateM id (x_failed_patch claim err failedAt) ;;;
  throw err.

Definition x_publish (id : string) (force : bool) : M S value :=
  if negb (is_str (X_ENABLE env) "true")
  then throw (errorWithCode "X_DISABLED" "X publishing disabled")
  else
    let missingKeys :=
      (missing "X_API_KEY" (X_API_KEY env)
         ++ missing "X_API_SECRET" (X_API_SECRET env)
         ++ missing "X_ACCESS_TOKEN" (X_ACCESS_TOKEN env)
         ++ missing "X_ACCESS_SECRET" (X_ACCESS_SECRET env))%list in
    match missingKeys with
    | _ :: _ =>
        throw (errorWithDetails "X_CONFIG_MISSING" "X configuration missing"
                 (missingKeys_details missingKeys))
    | [] =>
        pack <- getM id ;;
        if negb (truthy pack) then throw (errorWithCode "NOT_FOUND" "LaunchPack not found")
        else if negb (truthy (get (get (get pack "ops") "checklist") "x_ready"))
        then throw (errorWithCode "X_NOT_READY" "X checklist not ready")
        else if truthy (get (get pack "ops") "x_published_at")
                && is_str (get (get pack "ops") "x_publish_status") "published"
                && negb force
        then ret pack
        else
          requested_at <- nowIsoM ;;
          claim <- claimPublishM X id requested_at force ;;
          if negb (truthy claim)
          then throw (errorWithCode "X_PUBLISH_IN_PROGRESS" "X publish already in progress")
          else try_catch (x_publish_body id claim) (x_publish_failed id claim)
    end.

End Orchestrators.

(** ** The launch orchestrator (pumpLauncher.ts) *)

Record PumpLauncherOptions : Type := mkOptions {
  maxDevBuy : jsnum;
  maxPriorityFee : jsnum;
  maxLaunchesPerDay : jsnum
}.

Record CapsResult : Type := mkCaps {
  caps_maxDevBuy : jsnum;
  caps_maxPriorityFee : jsnum;
  caps_maxLaunchesPerDay : jsnum;
  requestedDevBuy : jsnum;
  requestedPriority : jsnum
}.

Definition MAX_LOGO_BYTES : Z := 8 * 1024 * 1024.
Definition LOGO_FETCH_TOTAL_TIMEOUT_MS : Z := 20000.
Definition LOGO_FETCH_CONNECT_TIMEOUT_MS : Z := 10000.

(** [readStreamWithLimit] (lines 95-132): the loop over [reader.read()]. *)
Fixpoint read_chunks (s : stream) (maxBytes total : Z) (chunks : list (list byte))
  : outcome (list byte) :=
  match s with
  | SEnd => Ok (List.concat chunks)
  | SFail e => Throw e
  | SChunk value rest =>
      let total := total + Z.of_nat (List.length value) in
      if total >? maxBytes
      then Throw (errorWithDetails "LOGO_FETCH_FAILED" "Logo exceeds max size"
                    (VObj [("downloadedBytes", VNum total); ("maxBytes", VNum maxBytes)]))
      else read_chunks rest maxBytes total (chunks ++ [value])%list
  end.

Definition readStreamWithLimit (res : response) (maxBytes : Z) : outcome (list byte) :=
  match res_body res with
  | NoStream (Throw e) => Throw e
  | NoStream (Ok buf) =>
      if Z.of_nat (List.length buf) >? maxBytes
      then Throw (errorWithDetails "LOGO_FETCH_FAILED" "Logo exceeds max size"
                    (VObj [("downloadedBytes", VNum (Z.of_nat (List.length buf)));
                           ("maxBytes", VNum maxBytes)]))
      else Ok buf
  | Stream s => read_chunks s maxBytes 0 []
  end.

(** [safeJson(res)]: the parsed body, or [null]. *)
Definition safeJson (res : response) : value :=
  match res_json res with Some j => j | None => VNull end.

(** String helpers of the logo file name. *)
Fixpoint before_char (c : ascii) (s : string) : string :=
  match s with
  | EmptyString => EmptyString
  | String c' r => if Ascii.eqb c' c then EmptyString else String c' (before_char c r)
  end.

(** [s.split('/').pop()]: what follows the last ['/']. *)
Fixpoint last_segment (s : string) (acc : string) : string :=
  match s with
  | EmptyString => acc
  | String c r =>
      if Ascii.eqb c "/"%char then last_segment r EmptyString
      else last_segment r (acc ++ String c EmptyString)
  end.

Fixpoint includes_char (c : ascii) (s : string) : bool :=
  match s with
  | EmptyString => false
  | String c' r => Ascii.eqb c' c || includes_char c r
  end.

Definition logo_filename (logoUrl : string) : string :=
  let urlNoFragment := before_char "#"%char logoUrl in
  let urlNoQuery := before_char "?"%char urlNoFragment in
  let filename := last_segment urlNoQuery EmptyString in
  if String.eqb filename "" || negb (includes_char "."%char filename)
  then "logo.png" else filename.

(** [generateMintKeypair] (lines 141-161) on the generated key bytes. *)
Definition generateMintKeypair (kp : list byte * list byte)
  : outcome (string * string) :=
  let '(secretKey, publicBytes) := kp in
  if negb (Nat.eqb (List.length secretKey) 64)
  then Throw (errorWithCode "MINT_KEYPAIR_INVALID" "Mint secretKey must be 64 bytes")
  else if negb (Nat.eqb (List.length publicBytes) 32)
  then Throw (errorWithCode "MINT_KEYPAIR_INVALID" "Mint publicKey must be 32 bytes")
  else
    let secret := Base58.encode secretKey in
    let publicKey := Base58.encode publicBytes in
    match Base58.decode secret, Base58.decode publicKey with
    | Some s, Some p =>
        if negb (Nat.eqb (List.length s) 64) || negb (Nat.eqb (List.length p) 32)
        then Throw (errorWithCode "MINT_KEYPAIR_INVALID" "Mint encoding lengths invalid")
        else Ok (secret, publicKey)
    | _, _ => Throw (plain_error "Non-base58 character")
    end.

Section Launch.
Context {host : Host} {S : Type} {store : LaunchPackStore S}.
Variable out : outside.
Variable env : LaunchkitEnv.
Variable options : PumpLauncherOptions.

Local Open Scope orch_scope.

(** [fetchWithTimeout] (lines 36-93).  Both timers are armed before the
    request starts, the total timer first; the request settles only if it
    does so before the earlier of them fires.  (No other party can abort
    the request, so the "Logo fetch aborted" branch is not reachable.) *)
Definition fetchWithTimeout (r : request) (totalTimeoutMs connectTimeoutMs : Z)
  : M S response :=
  fun w =>
    let n := List.length (w_calls w) in
    let w' := mkWorld (w_store w) (w_reads w) (w_calls w ++ [r])%list (w_secrets w) in
    let aborted :=
      if totalTimeoutMs <=? connectTimeoutMs
      then errorWithDetails "LOGO_FETCH_FAILED" "Logo fetch total timeout"
             (VObj [("timeoutMs", VNum totalTimeoutMs)])
      else errorWithDetails "LOGO_FETCH_FAILED" "Logo fetch connect timeout"
             (VObj [("timeoutMs", VNum connectTimeoutMs)]) in
    match arrival out n with
    | Some a =>
        if a <? Z.min totalTimeoutMs connectTimeoutMs
        then match remote out n r with
             | FetchThrows e => (Throw e, w')
             | FetchResponse res => (Ok res, w')
             end
        else (Throw aborted, w')
    | None => (Throw aborted, w')
    end.

Definition secrets_get : M S value := fun w => (Ok (w_secrets w), w).
Definition secrets_set (record : value) : M S unit :=
  fun w => (Ok tt, mkWorld (w_store w) (w_reads w) (w_calls w) record).

(** [ensureLauncherWallet] (lines 174-217). *)
Definition ensureLauncherWallet : M S value :=
  saved <- secrets_get ;;
  if truthy (get saved "apiKey") && truthy (get saved "wallet")
     && truthy (get saved "walletSecret")
  then ret saved
  else
    res <- fetchWithTimeout
             (mkRequest "https://pumpportal.fun/api/create-wallet" VUndef [])
             LOGO_FETCH_TOTAL_TIMEOUT_MS LOGO_FETCH_CONNECT_TIMEOUT_MS ;;
    if negb (res_ok res)
    then throw (plain_error ("Failed to create launcher wallet ("
                               ++ num_to_string (res_status res) ++ ")"))
    else
      let body := or_else (safeJson res) (VObj []) in
      let apiKey := get body "apiKey" in
      let wallet :=
        or_else (get body "wallet") (or_else (get body "publicKey") (get body "address")) in
      let walletSecret :=
        or_else (get body "privateKey")
          (or_else (get body "secretKey")
             (or_else (get body "walletSecret") (get body "private_key"))) in
      let missingKeys :=
        (missing "apiKey" apiKey ++ missing "wallet" wallet
           ++ missing "walletSecret" walletSecret)%list in
      match missingKeys with
      | _ :: _ =>
          throw (errorWithDetails "INVALID_WALLET_RESPONSE" "Invalid wallet response"
                   (missingKeys_details missingKeys))
      | [] =>
          match Base58.decode_value walletSecret with
          | None =>
              throw (errorWithCode "WALLET_SECRET_INVALID"
                       "Wallet secret is not valid base58")
          | Some decoded =>
              if negb (Nat.eqb (List.length decoded) 64)
              then throw (errorWithDetails "WALLET_SECRET_INVALID"
                            "Wallet secret must decode to 64 bytes"
                            (VObj [("length", VNum (Z.of_nat (List.length decoded)))]))
              else
                let record := VObj [("apiKey", apiKey); ("wallet", wallet);
                                    ("walletSecret", walletSecret)] in
                secrets_set record ;;; ret record
          end
      end.

(** [ensureLaunchAllowed] (lines 219-250). *)
Definition launch_error (code msg : string) : error := mkError (VStr code) msg VUndef [].

Definition ensureLaunchAllowed (pack : value) (forceRetry : bool) : M S unit :=
  if negb (launchEnabled env) then throw (launch_error "LAUNCH_DISABLED" "Launch disabled")
  else if is_str (get (get pack "launch") "status") "launched"
  then throw (launch_error "ALREADY_LAUNCHED" "Already launched")
  else if truthy (get (get pack "launch") "requested_at")
          && negb (is_str (get (get pack "launch") "status") "failed")
  then throw (launch_error "LAUNCH_IN_PROGRESS" "Launch in progress")
  else if is_str (get (get pack "launch") "status") "failed" && negb forceRetry
  then
    let failedAt :=
      if truthy (get (get pack "launch") "failed_at")
      then Date_getTime (get (get pack "launch") "failed_at")
      else Some 0 in
    now <- read_clock out ;;
    let cooldownMs := 10 * 60 * 1000 in
    match failedAt with
    | Some t =>
        if (t =? 0) || (now - t <? cooldownMs)
        then throw (launch_error "LAUNCH_FAILED_RETRY_BLOCKED"
                      "Previous launch failed; retry blocked")
        else ret tt
    | None =>
        throw (launch_error "LAUNCH_FAILED_RETRY_BLOCKED"
                 "Previous launch failed; retry blocked")
    end
  else ret tt.

(** [enforceCaps] (lines 252-277). *)
Definition enforceCaps : outcome CapsResult :=
  let maxDevBuy := maxDevBuy options in
  let maxPriorityFee := maxPriorityFee options in
  let maxLaunchesPerDay := maxLaunchesPerDay options in
  if isNaN maxDevBuy || isNaN maxPriorityFee || isNaN maxLaunchesPerDay
  then Throw (launch_error "CAP_EXCEEDED" "Launch caps not configured")
  else
    let requestedDevBuy :=
      if num_truthy (MAX_SOL_DEV_BUY env) then MAX_SOL_DEV_BUY env else maxDevBuy in
    let requestedPriority :=
      if num_truthy (MAX_PRIORITY_FEE env) then MAX_PRIORITY_FEE env else maxPriorityFee in
    if num_gt requestedDevBuy maxDevBuy || num_gt requestedPriority maxPriorityFee
    then Throw (errorWithNumbers "CAP_EXCEEDED" "Caps exceeded" (VObj [])
                  [("maxDevBuy", maxDevBuy); ("requestedDevBuy", requestedDevBuy);
                   ("maxPriorityFee", maxPriorityFee);
                   ("requestedPriority", requestedPriority)])
    else Ok (mkCaps maxDevBuy maxPriorityFee maxLaunchesPerDay
               requestedDevBuy requestedPriority).

(** [resolveSlippage] (lines 279-307); the result is [Math.floor(value)]. *)
Definition out_of_percent_range (n : jsnum) : bool :=
  negb (isFinite n) || num_lt n (num_of_Z 0) || num_gt n (num_of_Z 100).

Definition resolveSlippage : outcome Z :=
  let raw := match LAUNCH_SLIPPAGE_PERCENT env with Some r => r | None => num_of_Z 10 end in
  let value := raw in
  if out_of_percent_range value
  then Throw (errorWithNumbers "SLIPPAGE_INVALID"
                "Slippage percent must be between 0 and 100" (VObj [])
                [("slippage", raw)])
  else
    match MAX_SLIPPAGE_PERCENT env with
    | Some cap =>
        if out_of_percent_range cap
        then Throw (errorWithNumbers "SLIPPAGE_INVALID"
                      "MAX_SLIPPAGE_PERCENT must be between 0 and 100" (VObj [])
                      [("cap", cap)])
        else if num_gt value cap
        then Throw (errorWithNumbers "SLIPPAGE_INVALID"
                      "Slippage exceeds configured maximum" (VObj [])
                      [("slippage", value); ("max", cap)])
        else Ok (match value with Fin q => Qfloor q | _ => 0 end)
    | None => Ok (match value with Fin q => Qfloor q | _ => 0 end)
    end.

(** [buildPumpUrl] (lines 309-312). *)
Definition buildPumpUrl (sig : value) : value :=
  if truthy sig then VStr ("https://pump.fun/tx/" ++ to_string sig) else VUndef.

Definition header (res : response) (name : string) : value :=
  match find (fun kv => String.eqb (fst kv) name) (res_headers res) with
  | Some kv => VStr (snd kv)
  | None => VNull
  end.

Definition form_field (name : string) (v : value) : props := [(name, VStr (to_string v))].
Definition form_optional (name : string) (v : value) : props :=
  if truthy v then form_field name v else [].

(** [uploadMetadataToPumpIPFS] (lines 314-362).  The multipart form is
    logged as an object; of the file part its name, type and size. *)
Definition uploadMetadataToPumpIPFS (pack : value) : M S value :=
  let logoUrl := get (get pack "assets") "logo_url" in
  if negb (truthy logoUrl)
  then throw (errorWithCode "LOGO_REQUIRED" "Token logo is required")
  else if nullish (get pack "brand")
  then throw (plain_error "Cannot read properties of undefined")
  else
    let brand := get pack "brand" in
    let form :=
      (form_field "name" (get brand "name")
         ++ form_field "symbol" (get brand "ticker")
         ++ form_field "description"
              (or_else (get brand "description") (or_else (get brand "tagline") (VStr "")))
         ++ form_field "showName" (VStr "true")
         ++ form_optional "twitter" (get (get pack "links") "x")
         ++ form_optional "telegram" (get (get pack "links") "telegram")
         ++ form_optional "website" (get (get pack "links") "website"))%list in
    response <- fetchWithTimeout
                  (mkRequest (to_string logoUrl) (VObj [("redirect", VStr "follow")]) [])
                  LOGO_FETCH_TOTAL_TIMEOUT_MS LOGO_FETCH_CONNECT_TIMEOUT_MS ;;
    if negb (res_ok response)
    then throw (errorWithDetails "LOGO_FETCH_FAILED"
                  ("Failed to fetch logo (" ++ num_to_string (res_status response) ++ ")")
                  (VObj [("status", VNum (res_status response))]))
    else
      let contentLength :=
        match header response "content-length" with
        | VStr s => if String.eqb s "" then num_of_Z 0 else Number_parse s
        | _ => num_of_Z 0
        end in
      if num_truthy contentLength && num_gt contentLength (num_of_Z MAX_LOGO_BYTES)
      then throw (errorWithNumbers "LOGO_FETCH_FAILED" "Logo exceeds max size"
                    (VObj [("maxBytes", VNum MAX_LOGO_BYTES)])
                    [("contentLength", contentLength)])
      else
        bodyBytes <- lift_outcome (readStreamWithLimit response MAX_LOGO_BYTES) ;;
        match logoUrl with
        | VStr url =>
            let filename := logo_filename url in
            let mime := or_else (header response "content-type") (VStr "image/png") in
            res <- fetch out (mkRequest "https://pump.fun/api/ipfs"
                            (VObj (form ++ [("file",
                                             VObj [("name", VStr filename);
                                                   ("type", mime);
                                                   ("size", VNum (Z.of_nat
                                                      (List.length bodyBytes)))])])%list)
                            []) ;;
            match res with
            | FetchThrows e => throw e
            | FetchResponse res =>
                if negb (res_ok res)
                then throw (plain_error ("IPFS upload failed ("
                                           ++ num_to_string (res_status res) ++ ")"))
                else
                  let body := safeJson res in
                  let uri := or_else (get body "metadataUri") (get body "uri") in
                  if negb (truthy uri) then throw (plain_error "No metadataUri returned")
                  else ret uri
            end
        | _ => throw (plain_error "logoUrl.split is not a function")
        end.

(** [createTokenOnPumpPortal] (lines 364-440). *)
Definition createTokenOnPumpPortal (pack metadataUri : value) (caps : CapsResult)
    (wallet : value) (slippagePercent : Z) : M S value :=
  kp <- lift_outcome (generateMintKeypair (mint_keypair out)) ;;
  let '(mintSecret, mintPublic) := kp in
  if nullish (get pack "brand")
  then throw (plain_error "Cannot read properties of undefined")
  else
    let body :=
      VObj [("action", VStr "create");
            ("tokenMetadata",
             VObj [("name", get (get pack "brand") "name");
                   ("symbol", get (get pack "brand") "ticker");
                   ("uri", metadataUri)]);
            ("denominatedInSol", VStr "true");
            ("slippage", VNum slippagePercent);
            ("pool", VStr "pump");
            ("mint", VStr mintSecret)] in
    res <- fetch out (mkRequest ("https://pumpportal.fun/api/trade?api-key="
                               ++ to_string (get wallet "apiKey"))
                    body
                    [("amount", requestedDevBuy caps);
                     ("priorityFee", requestedPriority caps)]) ;;
    match res with
    | FetchThrows e => throw e
    | FetchResponse res =>
        let resJson := safeJson res in
        if negb (res_ok res)
        then throw (launch_error "LAUNCH_FAILED"
                      (to_string (or_else (get resJson "error")
                                    (VStr ("Launch failed ("
                                             ++ num_to_string (res_status res) ++ ")")))))
        else
          let sig :=
            or_else (get resJson "signature")
              (or_else (get resJson "tx") (get resJson "txSignature")) in
          let returnedMint := get resJson "mint" in
          if truthy returnedMint && negb (strict_eq returnedMint (VStr mintPublic))
          then throw (errorWithDetails "MINT_MISMATCH"
                        "Mint mismatch returned from pump portal"
                        (VObj [("expected", VStr mintPublic); ("received", returnedMint)]))
          else
            let mint := or_else returnedMint (VStr mintPublic) in
            match Base58.decode_value mint with
            | None => throw (errorWithCode "MINT_MISMATCH" "Mint base58 decoding failed")
            | Some decoded =>
                if negb (Nat.eqb (List.length decoded) 32)
                then throw (errorWithDetails "MINT_MISMATCH" "Mint length invalid"
                              (VObj [("length", VNum (Z.of_nat (List.length decoded)))]))
                else
                  completedAt <- nowIsoM out ;;
                  launchedAt <- nowIsoM out ;;
                  audit <- appendAudit out (get (get pack "ops") "audit_log")
                             "Pump launch complete" "eliza" ;;
                  ret (spread_with pack
                         [("launch",
                           spread_with (or_else (get pack "launch") (VObj []))
                             [("status", VStr "launched");
                              ("tx_signature", sig);
                              ("mint", mint);
                              ("pump_url", buildPumpUrl sig);
                              ("completed_at", VStr completedAt);
                              ("launched_at", VStr launchedAt);
                              ("requested_at", get (get pack "launch") "requested_at");
                              ("error_code", VUndef);
                              ("error_message", VUndef)]);
                          ("ops",
                           spread_with (or_else (get pack "ops") (VObj []))
                             [("audit_log", VArr audit)])])
            end
    end.

(** The [try] and [catch] blocks of [launch] (lines 463-496). *)
Definition launch_steps (withRequested : value) (caps : CapsResult)
    (slippagePercent : Z) : M S value :=
  wallet <- ensureLauncherWallet ;;
  metadataUri <- uploadMetadataToPumpIPFS withRequested ;;
  createTokenOnPumpPortal withRequested metadataUri caps wallet slippagePercent.

Definition launched_patch (launched : value) : value :=
  VObj [("launch", get launched "launch"); ("ops", get launched "ops")].

Definition launch_body (id : string) (withRequested : value) (caps : CapsResult)
    (slippagePercent : Z) : M S value :=
  launched <- launch_steps withRequested caps slippagePercent ;;
  updateM out id (launched_patch launched).

Definition launch_failure_steps (withRequested : value) (err : error)
  : M S (string * list value) :=
  failedAt <- nowIsoM out ;;
  audit <- appendAudit out (get (get withRequested "ops") "audit_log")
             ("Launch failed: " ++ err_message err) "eliza" ;;
  ret (failedAt, audit).

Definition launch_failure_patch (withRequested : value) (err : error)
    (f : string * list value) : value :=
  VObj [("launch",
         spread_with (or_else (get withRequested "launch") (VObj []))
           [("status", VStr "failed");
            ("failed_at", VStr (fst f));
            ("error_code", or_else (err_code err) (VStr "LAUNCH_FAILED"));
            ("error_message", VStr (err_message err))]);
        ("ops",
         spread_with (or_else (get withRequested "ops") (VObj []))
           [("audit_log", VArr (snd f))])].

Definition launch_failed (id : string) (withRequested : value) (err : error)
  : M S value :=
  f <- launch_failure_steps withRequested err ;;
  updateM out id (launch_failure_patch withRequested err f) ;;;
  throw err.

(** [launch(id, options)] (lines 442-497). *)
Definition launch (id : string) (force : bool) : M S value :=
  existing <- getM id ;;
  if negb (truthy existing) then throw (plain_error "LaunchPack not found")
  else if is_str (get (get existing "launch") "status") "launched" then ret existing
  else
    ensureLaunchAllowed existing force ;;;
    caps <- lift_outcome enforceCaps ;;
    slippagePercent <- lift_outcome resolveSlippage ;;
    requested_at <- nowIsoM out ;;
    claimed <- claimLaunchM out id requested_at "ready" ;;
    if negb (truthy claimed) then throw (launch_error "LAUNCH_IN_PROGRESS" "Launch in progress")
    else try_catch (launch_body id claimed caps slippagePercent)
                   (launch_failed id claimed).

End Launch.

(** ** A host for concrete runs

    Timestamps are written as decimal millisecond counts (followed by
    [+00] in PostgreSQL's text form), the schemas accept every input as it
    is, and an audit log parses when it is an array. *)

Definition decimal_parse (s : string) : option Z :=
  match NilZero.int_of_string s with
  | Some i => Some (Z.of_int i)
  | None => None
  end.

Definition test_host : Host := {|
  Date_parse := decimal_parse;
  Number_parse := fun s => match decimal_parse s with
                           | Some z => num_of_Z z
                           | None => NaN
                           end;
  toISOString := num_to_string;
  timestamptz_text := fun t => (num_to_string t ++ "+00")%string;
  validateCreate := fun v => Ok v;
  validateUpdate := fun v => Ok v;
  parseAuditLog := fun v => match v with VArr l => Some l | _ => None end
|}.
(** ** The schemas of [model/launchPack.ts]

    The zod schemas are data, read by [Zod.parse].  What zod leaves to the
    runtime's regular expressions and to [URL] is a parameter ([ZodLib]);
    [trim] is written out for the six ASCII white-space characters. *)

Module Zod.

Inductive check : Type :=
| Trim
| Min (n : nat)
| Max (n : nat)
| Url
| Datetime
| Uuid
| ToUpperCase.

#[local] Set Warnings "-register-all".
Inductive schema : Type :=
| ZString (checks : list check)
| ZNumberIntMin (min : Z)
| ZBoolean
| ZEnum (options : list string)
| ZArray (item : schema)
| ZRecord (item : schema)
| ZObject (shape : list (string * schema))
| ZOptional (inner : schema)
| ZNullable (inner : schema)
| ZDefault (inner : schema) (default : value).

Record ZodLib : Type := mkZodLib {
  is_url : string -> bool;
  is_datetime : string -> bool;
  is_uuid : string -> bool;
  toUpperCase : string -> string;
  zod_message : value -> string
}.

(** [String.prototype.trim]. *)
Definition is_space (c : ascii) : bool :=
  let n := nat_of_ascii c in
  ((9 <=? n) && (n <=? 13) || (n =? 32))%nat.

Fixpoint trim_start (s : string) : string :=
  match s with
  | String c r => if is_space c then trim_start r else s
  | EmptyString => EmptyString
  end.

(** Drops the trailing white space: a character is kept when it is not a
    space or something is kept after it. *)
Fixpoint trim_end (s : string) : string :=
  match s with
  | EmptyString => EmptyString
  | String c r =>
      match trim_end r with
      | EmptyString => if is_space c then EmptyString else String c EmptyString
      | kept => String c kept
      end
  end.

Definition trim (s : string) : string := trim_end (trim_start s).

Section WithLib.
Variable lib : ZodLib.

(** The checks of a string schema, in the order they were chained;
    [None] when one of them fails. *)
Fixpoint run_checks (checks : list check) (s : string) : option string :=
  match checks with
  | [] => Some s
  | c :: rest =>
      match c with
      | Trim => run_checks rest (trim s)
      | Min n => if (n <=? String.length s)%nat then run_checks rest s else None
      | Max n => if (String.length s <=? n)%nat then run_checks rest s else None
      | Url => if is_url lib s then run_checks rest s else None
      | Datetime => if is_datetime lib s then run_checks rest s else None
      | Uuid => if is_uuid lib s then run_checks rest s else None
      | ToUpperCase => run_checks rest (toUpperCase lib s)
      end
  end.

Fixpoint parse_items (f : value -> option value) (items : list value)
  : option (list value) :=
  match items with
  | [] => Some []
  | x :: rest =>
      match f x, parse_items f rest with
      | Some y, Some ys => Some (y :: ys)
      | _, _ => None
      end
  end.

Fixpoint parse_entries (f : value -> option value) (fs : props) : option props :=
  match fs with
  | [] => Some []
  | (k, x) :: rest =>
      match f x, parse_entries f rest with
      | Some y, Some ys => Some ((k, y) :: ys)
      | _, _ => None
      end
  end.

(** The keys of the input that a strict object schema does not know. *)
Definition unrecognized_keys {A} (shape : list (string * A)) (fs : props) : list string :=
  filter (fun k => negb (existsb (String.eqb k) (map fst shape))) (keys fs).

Definition has_key (k : string) (fs : props) : bool :=
  match lookup k fs with Some _ => true | None => false end.

(** [schema.safeParse(v)]: the parsed value, [None] when there is an
    issue.  An object is strict (a key outside the shape is an issue) and
    is rebuilt in the order of its shape; a key comes out when the input
    has it or its parsed value is not [undefined].  [optional()] returns
    [undefined] for [undefined] without consulting the schema it wraps, so
    a default inside it is not applied; [default(d)] parses [d] in place of
    [undefined] (zod 3). *)
Fixpoint parse (s : schema) (v : value) : option value :=
  match s with
  | ZString checks =>
      match v with
      | VStr x => match run_checks checks x with Some y => Some (VStr y) | None => None end
      | _ => None
      end
  | ZNumberIntMin min =>
      match v with
      | VNum n => if min <=? n then Some v else None
      | _ => None
      end
  | ZBoolean => match v with VBool _ => Some v | _ => None end
  | ZEnum options =>
      match v with
      | VStr x => if existsb (String.eqb x) options then Some v else None
      | _ => None
      end
  | ZArray item =>
      match v with
      | VArr items =>
          match parse_items (parse item) items with
          | Some ys => Some (VArr ys)
          | None => None
          end
      | _ => None
      end
  | ZRecord item =>
      match v with
      | VObj fs =>
          match parse_entries (parse item) fs with
          | Some ys => Some (VObj ys)
          | None => None
          end
      | _ => None
      end
  | ZObject shape =>
      match v with
      | VObj fs =>
          match unrecognized_keys shape fs with
          | _ :: _ => None
          | [] =>
              match
                (fix members (shape : list (string * schema)) : option props :=
                   match shape with
                   | [] => Some []
                   | (k, sk) :: rest =>
                       match parse sk (get v k), members rest with
                       | Some y, Some ys =>
                           if has_key k fs || negb (strict_eq y VUndef)
                           then Some ((k, y) :: ys)
                           else Some ys
                       | _, _ => None
                       end
                   end) shape
              with
              | Some ys => Some (VObj ys)
              | None => None
              end
          end
      | _ => None
      end
  | ZOptional inner =>
      match v with
      | VUndef => Some VUndef
      | _ => parse inner v
      end
  | ZNullable inner =>
      match v with
      | VNull => Some VNull
      | _ => parse inner v
      end
  | ZDefault inner default =>
      match v with
      | VUndef => parse inner default
      | _ => parse inner v
      end
  end.

(** The members of a strict object, as [parse] computes them. *)
Fixpoint parse_members (shape : list (string * schema)) (fs : props) : option props :=
  match shape with
  | [] => Some []
  | (k, sk) :: rest =>
      match parse sk (get (VObj fs) k), parse_members rest fs with
      | Some y, Some ys =>
          if has_key k fs || negb (strict_eq y VUndef)
          then Some ((k, y) :: ys)
          else Some ys
      | _, _ => None
      end
  end.

(** [schema.parse(v)]: throws a [ZodError], which has a message and no
    [code]. *)
Definition ZodError (v : value) : error := plain_error (zod_message lib v).

Definition parse_or_throw (s : schema) (v : value) : outcome value :=
  match parse s v with
  | Some y => Ok y
  | None => Throw (ZodError v)
  end.

End WithLib.

(** *** The schemas *)

Definition optional_of (shape : list (string * schema)) : list (string * schema) :=
  map (fun ks => (fst ks, ZOptional (snd ks))) shape.

Definition omit (names : list string) (shape : list (string * schema))
  : list (string * schema) :=
  filter (fun ks => negb (existsb (String.eqb (fst ks)) names)) shape.

Definition isoDateTime : schema := ZString [Datetime].
Definition text : schema := ZString [Trim].
Definition text_or_empty : schema := ZDefault (ZOptional text) (VStr "").
Definition url : schema := ZString [Url].

Definition memeSchema : schema :=
  ZObject [("url", url); ("caption", text_or_empty)].

Definition scheduleItemSchema : schema :=
  ZObject [("when", isoDateTime);
           ("text", ZString [Trim; Min 1]);
           ("media_url", ZOptional url)].

Definition brandSchema : schema :=
  ZObject [("name", ZString [Trim; Min 1]);
           ("ticker", ZString [Trim; Min 1; Max 12; ToUpperCase]);
           ("tagline", text_or_empty);
           ("description", text_or_empty);
           ("lore", text_or_empty)].

Definition linksSchema : schema :=
  ZObject [("telegram", ZOptional url); ("x", ZOptional url); ("website", ZOptional url)].

Definition assetsSchema : schema :=
  ZObject [("logo_url", ZOptional url);
           ("banner_url", ZOptional url);
           ("memes", ZDefault (ZOptional (ZArray memeSchema)) (VArr []))].

Definition tgPinsSchema : schema :=
  ZObject [("welcome", text_or_empty);
           ("how_to_buy", text_or_empty);
           ("memekit", text_or_empty)].

Definition default_pins : value :=
  VObj [("welcome", VStr ""); ("how_to_buy", VStr ""); ("memekit", VStr "")].

Definition tgSchema : schema :=
  ZObject [("chat_id", ZOptional text);
           ("pins", ZDefault (ZOptional tgPinsSchema) default_pins);
           ("schedule", ZDefault (ZOptional (ZArray scheduleItemSchema)) (VArr []))].

Definition xSchema : schema :=
  ZObject [("main_post", text_or_empty);
           ("thread", ZDefault (ZOptional (ZArray text)) (VArr []));
           ("reply_bank", ZDefault (ZOptional (ZArray text)) (VArr []));
           ("schedule", ZDefault (ZOptional (ZArray scheduleItemSchema)) (VArr []))].

Definition launchStatusSchema : schema := ZEnum ["draft"; "ready"; "launched"; "failed"].

Definition launch_shape : list (string * schema) :=
  [("status", ZDefault launchStatusSchema (VStr "draft"));
   ("mint", ZOptional text);
   ("tx_signature", ZOptional text);
   ("pump_url", ZOptional url);
   ("requested_at", ZOptional isoDateTime);
   ("completed_at", ZOptional isoDateTime);
   ("launched_at", ZOptional isoDateTime);
   ("failed_at", ZOptional isoDateTime);
   ("error_code", ZOptional text);
   ("error_message", ZOptional text)].

Definition launchSchema : schema := ZObject launch_shape.

Definition auditEntrySchema : schema :=
  ZObject [("at", ZOptional isoDateTime);
           ("message", ZString [Trim; Min 1]);
           ("actor", ZOptional text)].

Definition publishStatusSchema : schema :=
  ZOptional (ZEnum ["idle"; "in_progress"; "published"; "failed"]).

Definition ops_shape : list (string * schema) :=
  [("checklist", ZDefault (ZOptional (ZRecord ZBoolean)) (VObj []));
   ("audit_log", ZDefault (ZOptional (ZArray auditEntrySchema)) (VArr []));
   ("tg_publish_status", publishStatusSchema);
   ("tg_publish_attempted_at", ZOptional isoDateTime);
   ("tg_publish_failed_at", ZOptional isoDateTime);
   ("tg_publish_error_code", ZOptional (ZNullable text));
   ("tg_publish_error_message", ZOptional (ZNullable text));
   ("tg_published_at", ZOptional isoDateTime);
   ("tg_message_ids", ZOptional (ZArray text));
   ("tg_schedule_intent", ZOptional (ZArray scheduleItemSchema));
   ("x_publish_status", publishStatusSchema);
   ("x_publish_attempted_at", ZOptional isoDateTime);
   ("x_publish_failed_at", ZOptional isoDateTime);
   ("x_publish_error_code", ZOptional (ZNullable text));
   ("x_publish_error_message", ZOptional (ZNullable text));
   ("x_published_at", ZOptional isoDateTime);
   ("x_post_ids", ZOptional (ZArray text));
   ("x_tweet_ids", ZOptional (ZArray text));
   ("x_schedule_intent", ZOptional (ZArray scheduleItemSchema))].

Definition opsSchema : schema := ZObject ops_shape.

Definition launchPack_shape : list (string * schema) :=
  [("id", ZOptional (ZString [Uuid]));
   ("idempotency_key", ZOptional (ZString [Trim; Min 8]));
   ("version", ZDefault (ZOptional (ZNumberIntMin 1)) (VNum 1));
   ("brand", brandSchema);
   ("links", ZDefault (ZOptional linksSchema) (VObj []));
   ("assets", ZDefault (ZOptional assetsSchema) (VObj [("memes", VArr [])]));
   ("tg", ZDefault (ZOptional tgSchema)
            (VObj [("pins", default_pins); ("schedule", VArr [])]));
   ("x", ZDefault (ZOptional xSchema)
           (VObj [("main_post", VStr ""); ("thread", VArr []);
                  ("reply_bank", VArr []); ("schedule", VArr [])]));
   ("launch", ZDefault (ZOptional launchSchema) (VObj [("status", VStr "draft")]));
   ("ops", ZDefault (ZOptional opsSchema)
             (VObj [("checklist", VObj []); ("audit_log", VArr [])]));
   ("created_at", ZOptional isoDateTime);
   ("updated_at", ZOptional isoDateTime)].

(** [launchPackSchema.omit({created_at, updated_at}).extend({id}).strict()]:
    [extend] puts the [id] it replaces back in its place. *)
Definition createLaunchPackSchema : schema :=
  ZObject (omit ["created_at"; "updated_at"] launchPack_shape).

(** [launchPackSchema.omit({id, created_at, updated_at}).partial().strict()];
    [partial] makes the members of the pack optional, not those of its
    nested objects. *)
Definition updateLaunchPackSchema : schema :=
  ZObject (optional_of (omit ["id"; "created_at"; "updated_at"] launchPack_shape)).

End Zod.

(** The host whose validators are the schemas; the clock and the number
    formats are those of [base]. *)
Definition zod_host (base : Host) (lib : Zod.ZodLib) : Host := {|
  Date_parse := @Date_parse base;
  Number_parse := @Number_parse base;
  toISOString := @toISOString base;
  timestamptz_text := @timestamptz_text base;
  validateCreate := Zod.parse_or_throw lib Zod.createLaunchPackSchema;
  validateUpdate := Zod.parse_or_throw lib Zod.updateLaunchPackSchema;
  parseAuditLog := fun v =>
    match Zod.parse lib (Zod.ZArray Zod.auditEntrySchema) v with
    | Some (VArr l) => Some l
    | _ => None
    end
|}.
(** ** A schema library for concrete runs

    A URL starts with [http], a date-time is a decimal millisecond count
    (as [test_host] writes them), every string is a UUID and the letters
    [a]-[z] have upper-case forms. *)

Definition upper_ascii (c : ascii) : ascii :=
  let n := nat_of_ascii c in
  if ((97 <=? n) && (n <=? 122))%nat then ascii_of_nat (n - 32) else c.

Fixpoint upper_string (s : string) : string :=
  match s with
  | EmptyString => EmptyString
  | String c r => String (upper_ascii c) (upper_string r)
  end.

Definition test_lib : Zod.ZodLib := {|
  Zod.is_url := fun s => String.prefix "http" s;
  Zod.is_datetime := fun s => match decimal_parse s with Some _ => true | None => false end;
  Zod.is_uuid := fun _ => true;
  Zod.toUpperCase := upper_string;
  Zod.zod_message := fun _ => "Invalid input"
|}.

Definition schema_host : Host := zod_host test_host test_lib.

(** * Properties *)

(** ** Property lists *)

Lemma lookup_assign (k k' : string) (v : value) (fs : props) :
  lookup k (assign k' v fs) = if String.eqb k k' then Some v else lookup k fs.
Proof.
  induction fs as [|[k0 v0] r IH]; simpl.
  - reflexivity.
  - destruct (String.eqb k' k0) eqn:E0; simpl.
    + apply String.eqb_eq in E0; subst k0.
      destruct (String.eqb k k'); reflexivity.
    + destruct (String.eqb k k0) eqn:E1.
      * apply String.eqb_eq in E1; subst k0.
        destruct (String.eqb k k') eqn:E2; [|reflexivity].
        apply String.eqb_eq in E2; subst k'.
        rewrite String.eqb_refl in E0; discriminate.
      * exact IH.
Qed.

Lemma lookup_assign_same (k : string) (v : value) (fs : props) :
  lookup k (assign k v fs) = Some v.
Proof. rewrite lookup_assign, String.eqb_refl; reflexivity. Qed.

Lemma lookup_assign_other (k k' : string) (v : value) (fs : props) :
  k <> k' -> lookup k (assign k' v fs) = lookup k fs.
Proof.
  intros N; rewrite lookup_assign.
  destruct (String.eqb k k') eqn:E; [apply String.eqb_eq in E; contradiction|reflexivity].
Qed.

Lemma lookup_None_keys (k : string) (fs : props) :
  lookup k fs = None <-> ~ In k (keys fs).
Proof.
  induction fs as [|[k0 v0] r IH]; simpl.
  - split; [intros _ []|reflexivity].
  - destruct (String.eqb k k0) eqn:E.
    + apply String.eqb_eq in E; subst; split; [discriminate|intros N; exfalso; apply N; now left].
    + apply String.eqb_neq in E. rewrite IH. split.
      * intros N [H|H]; [congruence|contradiction].
      * intros N H; apply N; now right.
Qed.

Lemma keys_assign_incl (k k' : string) (v : value) (fs : props) :
  In k (keys fs) -> In k (keys (assign k' v fs)).
Proof.
  induction fs as [|[k0 v0] r IH]; simpl; [intros []|].
  destruct (String.eqb k' k0) eqn:E; simpl.
  - apply String.eqb_eq in E; subst; tauto.
  - intros [H|H]; [now left|right; auto].
Qed.

Lemma get_obj (fs : props) (k : string) :
  get (VObj fs) k = match lookup k fs with Some x => x | None => VUndef end.
Proof. unfold get; simpl; destruct (lookup k fs); reflexivity. Qed.

Lemma get_set_prop_same (fs : props) (k : string) (v : value) :
  get (set_prop (VObj fs) k v) k = v.
Proof. simpl; rewrite get_obj, lookup_assign_same; reflexivity. Qed.

Lemma get_set_prop_other (o : value) (k k' : string) (v : value) :
  k <> k' -> get (set_prop o k' v) k = get o k.
Proof.
  intros N; destruct o; try reflexivity.
  simpl; rewrite !get_obj, lookup_assign_other by assumption; reflexivity.
Qed.

(** ** The merge loop of [deepMerge] *)

Fixpoint merge_loop (base : value) (pf merged : props) : props :=
  match pf with
  | [] => merged
  | (key, pv) :: rest =>
      merge_loop base rest (assign key (deepMerge (get base key) pv) merged)
  end.

Definition mergeable (base : value) : bool :=
  typeof_object base && negb (nullish base).

Lemma deepMerge_obj (base : value) (pf : props) :
  deepMerge base (VObj pf) =
  if mergeable base then VObj (merge_loop base pf (own_fields base)) else VObj pf.
Proof.
  unfold mergeable; simpl.
  destruct (typeof_object base && negb (nullish base)); [|reflexivity].
  f_equal. generalize (own_fields base) as merged.
  induction pf as [|[k v] r IH]; intros merged; [reflexivity|].
  simpl. apply IH.
Qed.

Lemma merge_loop_out (base : value) (pf merged : props) (k : string) :
  lookup k pf = None ->
  lookup k (merge_loop base pf merged) = lookup k merged.
Proof.
  revert merged; induction pf as [|[k0 v0] r IH]; intros merged H; simpl in *.
  - reflexivity.
  - destruct (String.eqb k k0) eqn:E; [discriminate|].
    rewrite IH by assumption.
    apply lookup_assign_other. now apply String.eqb_neq.
Qed.

Lemma merge_loop_in (base : value) (pf merged : props) (k : string) (p : value) :
  NoDup (keys pf) -> lookup k pf = Some p ->
  lookup k (merge_loop base pf merged) = Some (deepMerge (get base k) p).
Proof.
  revert merged; induction pf as [|[k0 v0] r IH]; intros merged ND H; simpl in *.
  - discriminate.
  - inversion ND as [|? ? Hnin ND']; subst.
    destruct (String.eqb k k0) eqn:E.
    + apply String.eqb_eq in E; subst k0. inversion H; subst v0.
      rewrite merge_loop_out by (now apply lookup_None_keys).
      apply lookup_assign_same.
    + now apply IH.
Qed.

Lemma merge_loop_keys (base : value) (pf merged : props) (k : string) :
  In k (keys merged) -> In k (keys (merge_loop base pf merged)).
Proof.
  revert merged; induction pf as [|[k0 v0] r IH]; intros merged H; simpl.
  - assumption.
  - apply IH, keys_assign_incl, H.
Qed.

(** A patch is well formed when no object in it lists a key twice (as is
    the case of every JavaScript object). *)
Inductive wf_keys : value -> Prop :=
| wf_undef : wf_keys VUndef
| wf_null : wf_keys VNull
| wf_bool : forall b, wf_keys (VBool b)
| wf_num : forall n, wf_keys (VNum n)
| wf_str : forall s, wf_keys (VStr s)
| wf_arr : forall l, wf_keys (VArr l)
| wf_obj : forall fs,
    NoDup (keys fs) -> (forall k v, lookup k fs = Some v -> wf_keys v) ->
    wf_keys (VObj fs).

(** [v.k1.k2...kn]. *)
Fixpoint get_path (v : value) (path : list string) : value :=
  match path with
  | [] => v
  | k :: rest => get_path (get v k) rest
  end.

(** The patch does not mention [path]: following it through the patch's
    objects, some key is absent from the patch. *)
Fixpoint unmentioned (patch : value) (path : list string) : Prop :=
  match path with
  | [] => False
  | k :: rest =>
      match patch with
      | VObj pf =>
          match lookup k pf with
          | None => True
          | Some p => unmentioned p rest
          end
      | _ => False
      end
  end.

(** The base has an object at every proper prefix of [path]. *)
Fixpoint objects_along (base : value) (path : list string) : Prop :=
  match path with
  | [] => True
  | k :: rest => (exists bf, base = VObj bf) /\ objects_along (get base k) rest
  end.

Lemma deepMerge_frame_path (path : list string) :
  forall base patch,
    wf_keys patch -> objects_along base path -> unmentioned patch path ->
    get_path (deepMerge base patch) path = get_path base path.
Proof.
  induction path as [|k rest IH]; intros base patch WF OA UM; simpl in *.
  - contradiction.
  - destruct patch as [| | | | | |pf]; try contradiction.
    destruct OA as [[bf ->] OA].
    inversion WF as [| | | | | |? ND Hsub]; subst.
    rewrite deepMerge_obj.
    change (mergeable (VObj bf)) with true; cbv iota.
    change (own_fields (VObj bf)) with bf.
    rewrite (get_obj (merge_loop _ _ _)).
    destruct (lookup k pf) as [p|] eqn:L.
    + rewrite (merge_loop_in _ _ _ _ _ ND L).
      apply IH; eauto.
    + rewrite merge_loop_out by assumption.
      rewrite <- get_obj. reflexivity.
Qed.

Lemma deepMerge_get (bf pf : props) (k : string) :
  NoDup (keys pf) ->
  get (deepMerge (VObj bf) (VObj pf)) k =
  match lookup k pf with
  | Some p => deepMerge (get (VObj bf) k) p
  | None => get (VObj bf) k
  end.
Proof.
  intros ND. rewrite deepMerge_obj.
  change (mergeable (VObj bf)) with true; cbv iota.
  change (own_fields (VObj bf)) with bf.
  rewrite (get_obj (merge_loop _ _ _)).
  destruct (lookup k pf) as [p|] eqn:L.
  - rewrite (merge_loop_in _ _ _ _ _ ND L); reflexivity.
  - rewrite merge_loop_out by assumption. now rewrite <- get_obj.
Qed.

Lemma deepMerge_obj_obj (bf pf : props) :
  exists mf, deepMerge (VObj bf) (VObj pf) = VObj mf
             /\ forall k, In k (keys bf) -> In k (keys mf).
Proof.
  rewrite deepMerge_obj. change (mergeable (VObj bf)) with true; cbv iota.
  eexists; split; [reflexivity|].
  intros k Hk. apply merge_loop_keys. exact Hk.
Qed.

(** The three fields [update] stamps after the merge. *)
Definition stamped (k : string) : Prop :=
  k = "id" \/ k = "updated_at" \/ k = "version".

Lemma Mem_update_ok `{Host} (st : Mem.store) (id : string) (patch : value) (now : Z)
    (existing parsed : value) :
  Mem.Map_get st id = existing -> truthy existing = true ->
  validateUpdate patch = Ok parsed ->
  let merged :=
    set_prop (set_prop (set_prop (deepMerge existing parsed) "id" (VStr id))
                "updated_at" (nowIso now))
      "version" (plus_one (coalesce (get existing "version") (VNum 1))) in
  Mem.update st id patch now = (Ok merged, Mem.Map_set st id merged).
Proof.
  intros E T V. unfold Mem.update. rewrite E, T, V. reflexivity.
Qed.

(** ** Object spread *)

Lemma lookup_app (k : string) (a b : props) :
  lookup k (a ++ b)%list =
  match lookup k a with Some x => Some x | None => lookup k b end.
Proof.
  induction a as [|[k0 v0] r IH]; simpl; [reflexivity|].
  destruct (String.eqb k k0); [reflexivity|exact IH].
Qed.

Lemma lookup_fold_assign (k : string) (sets init : props) :
  lookup k (fold_left (fun acc kv => assign (fst kv) (snd kv) acc) sets init) =
  match lookup k (rev sets) with Some x => Some x | None => lookup k init end.
Proof.
  revert init; induction sets as [|[k0 v0] r IH]; intros init; simpl.
  - reflexivity.
  - rewrite IH, lookup_app. destruct (lookup k (rev r)); [reflexivity|].
    simpl. rewrite lookup_assign. destruct (String.eqb k k0); reflexivity.
Qed.

Lemma get_spread_with (v : value) (sets : props) (k : string) :
  get (spread_with v sets) k =
  match lookup k (rev sets) with
  | Some x => x
  | None => match lookup k (own_fields v) with Some x => x | None => VUndef end
  end.
Proof.
  unfold spread_with. rewrite get_obj, lookup_fold_assign.
  destruct (lookup k (rev sets)); reflexivity.
Qed.

Lemma spread_with_obj (v : value) (sets : props) :
  exists fs, spread_with v sets = VObj fs.
Proof. eexists; reflexivity. Qed.

Lemma truthy_obj (fs : props) : truthy (VObj fs) = true.
Proof. reflexivity. Qed.

(** [k] differs from each listed literal. *)
Ltac neq_keys :=
  repeat match goal with
         | |- context [String.eqb ?a ?b] =>
             let E := fresh "E" in
             destruct (String.eqb a b) eqn:E;
             [apply String.eqb_eq in E; try congruence; try (subst; tauto)|]
         end.

(** ** The in-memory [Map] *)

Lemma Map_get_set_same (st : Mem.store) (id : string) (v : value) :
  Mem.Map_get (Mem.Map_set st id v) id = v.
Proof. unfold Mem.Map_get, Mem.Map_set. now rewrite lookup_assign_same. Qed.

Lemma Map_get_set_other (st : Mem.store) (id id' : string) (v : value) :
  id' <> id -> Mem.Map_get (Mem.Map_set st id v) id' = Mem.Map_get st id'.
Proof. intros N; unfold Mem.Map_get, Mem.Map_set. now rewrite lookup_assign_other. Qed.

(** ** Reading the launch sub-state *)

Definition launch_status (pack : value) : value := get (get pack "launch") "status".
Definition launch_requested_at (pack : value) : value :=
  get (get pack "launch") "requested_at".



Lemma is_str_true (v : value) (lit : string) : is_str v lit = true <-> v = VStr lit.
Proof.
  destruct v; simpl; try (split; [discriminate|intros E; discriminate]).
  split; [intros E; apply String.eqb_eq in E; now subst|intros E; inversion E; apply String.eqb_refl].
Qed.

Lemma is_str_false (v : value) (lit : string) : is_str v lit = false <-> v <> VStr lit.
Proof.
  rewrite <- is_str_true. destruct (is_str v lit); split; congruence.
Qed.


(** ** What a schema does to its input *)

Section ZodLemmas.
Variable lib : Zod.ZodLib.

Lemma parse_object (shape : list (string * Zod.schema)) (fs : props) :
  Zod.parse lib (Zod.ZObject shape) (VObj fs) =
  match Zod.unrecognized_keys shape fs with
  | _ :: _ => None
  | [] => match Zod.parse_members lib shape fs with
          | Some ys => Some (VObj ys)
          | None => None
          end
  end.
Proof.
  simpl. destruct (Zod.unrecognized_keys shape fs); [|reflexivity].
  assert (E : forall sh,
             (fix members (shape0 : list (string * Zod.schema)) : option props :=
                match shape0 with
                | [] => Some []
                | (k, sk) :: rest =>
                    match Zod.parse lib sk (get (VObj fs) k) with
                    | Some y =>
                        match members rest with
                        | Some ys =>
                            if Zod.has_key k fs || negb (strict_eq y VUndef)
                            then Some ((k, y) :: ys)
                            else Some ys
                        | None => None
                        end
                    | None => None
                    end
                end) sh
             = Zod.parse_members lib sh fs).
  { induction sh as [|[k sk] rest IH]; [reflexivity|].
    simpl. rewrite IH. reflexivity. }
  now rewrite E.
Qed.

Lemma lookup_None_keys_not (k : string) (fs : props) :
  lookup k fs <> None -> In k (keys fs).
Proof.
  intros N. destruct (in_dec string_dec k (keys fs)) as [Hin|Hn]; [exact Hin|].
  apply lookup_None_keys in Hn. contradiction.
Qed.

Lemma strict_eq_undef (y : value) : strict_eq y VUndef = true -> y = VUndef.
Proof. destruct y; simpl; try discriminate; reflexivity. Qed.

(** The members come out in the order of the shape. *)
Lemma parse_members_keys (shape : list (string * Zod.schema)) (fs rs : props) (k : string) :
  Zod.parse_members lib shape fs = Some rs ->
  In k (keys rs) -> In k (map fst shape).
Proof.
  revert rs. induction shape as [|[k0 sk] rest IH]; intros rs; simpl.
  - intros [= <-] [].
  - destruct (Zod.parse lib sk _) as [y|]; [|discriminate].
    destruct (Zod.parse_members lib rest fs) as [ys|]; [|discriminate].
    destruct (_ || _); intros [= <-].
    + simpl. intros [->|Hin]; [now left|right; now apply (IH ys)].
    + intros Hin. right. now apply (IH ys).
Qed.

Lemma parse_members_NoDup (shape : list (string * Zod.schema)) (fs rs : props) :
  NoDup (map fst shape) ->
  Zod.parse_members lib shape fs = Some rs -> NoDup (keys rs).
Proof.
  revert rs. induction shape as [|[k0 sk] rest IH]; intros rs ND; simpl.
  - intros [= <-]. constructor.
  - inversion ND as [|? ? Hn ND']; subst.
    destruct (Zod.parse lib sk _) as [y|]; [|discriminate].
    destruct (Zod.parse_members lib rest fs) as [ys|] eqn:Er; [|discriminate].
    destruct (_ || _); intros [= <-].
    + simpl. constructor; [|now apply IH].
      intros Hin. apply Hn. now apply (parse_members_keys rest fs ys).
    + now apply IH.
Qed.

(** Reading a member of the result: it is what the member's schema makes
    of the input's member. *)
Lemma parse_members_get (shape : list (string * Zod.schema)) (fs rs : props)
    (k : string) (sk : Zod.schema) :
  NoDup (map fst shape) ->
  Zod.parse_members lib shape fs = Some rs ->
  In (k, sk) shape ->
  exists y, Zod.parse lib sk (get (VObj fs) k) = Some y /\ get (VObj rs) k = y.
Proof.
  revert rs. induction shape as [|[k0 s0] rest IH]; intros rs ND; simpl; [intros _ []|].
  inversion ND as [|? ? Hn ND']; subst.
  destruct (Zod.parse lib s0 _) as [y0|] eqn:E0; [|discriminate].
  destruct (Zod.parse_members lib rest fs) as [ys|] eqn:Er; [|discriminate].
  intros Hrs [Hin|Hin].
  - injection Hin as -> ->. exists y0. split; [exact E0|].
    destruct (Zod.has_key k fs || negb (strict_eq y0 VUndef)) eqn:Eb;
      injection Hrs as <-.
    + rewrite get_obj. simpl. now rewrite String.eqb_refl.
    + apply orb_false_iff in Eb. destruct Eb as [_ Eb].
      apply negb_false_iff, strict_eq_undef in Eb. subst y0.
      rewrite get_obj.
      destruct (lookup k ys) eqn:L; [|reflexivity].
      exfalso. apply Hn. apply (parse_members_keys rest fs ys); [exact Er|].
      apply lookup_None_keys_not. congruence.
  - destruct (IH ys ND' eq_refl Hin) as (y & Ey & Gy).
    exists y. split; [exact Ey|].
    assert (Nk : k <> k0).
    { intros ->. apply Hn. apply in_map_iff. now exists (k0, sk). }
    destruct (_ || _); injection Hrs as <-; [|exact Gy].
    rewrite get_obj. simpl. apply String.eqb_neq in Nk. rewrite Nk.
    now rewrite <- get_obj.
Qed.

Lemma parse_members_other (shape : list (string * Zod.schema)) (fs rs : props)
    (k : string) :
  Zod.parse_members lib shape fs = Some rs ->
  ~ In k (map fst shape) -> get (VObj rs) k = VUndef.
Proof.
  intros Hrs Hn. rewrite get_obj. destruct (lookup k rs) eqn:L; [|reflexivity].
  exfalso. apply Hn. apply (parse_members_keys shape fs rs); [exact Hrs|].
  apply lookup_None_keys_not. congruence.
Qed.



End ZodLemmas.

(** ** In-memory [claimLaunch] *)

Section MemClaimLaunch.
Context {host : Host}.
Variables (st : Mem.store) (id requested_at status : string) (now : Z).

Lemma Mem_claimLaunch_missing :
  Mem.Map_get st id = VUndef ->
  Mem.claimLaunch st id requested_at status now = (VNull, st).
Proof. intros E; unfold Mem.claimLaunch; rewrite E; reflexivity. Qed.

Definition claimLaunch_result (existing : value) : value :=
  set_prop
    (spread_with existing
       [("launch",
         spread_with (or_else (get existing "launch") (VObj []))
           [("requested_at", VStr requested_at); ("status", VStr status)]);
        ("updated_at", nowIso now)])
    "version" (plus_one (coalesce (get existing "version") (VNum 1))).

Lemma Mem_claimLaunch_cases (bf : props) :
  Mem.Map_get st id = VObj bf ->
  Mem.claimLaunch st id requested_at status now =
  if is_str (launch_status (VObj bf)) "launched" then (VNull, st)
  else if truthy (launch_requested_at (VObj bf))
          && negb (is_str (launch_status (VObj bf)) "failed") then (VNull, st)
  else (claimLaunch_result (VObj bf), Mem.Map_set st id (claimLaunch_result (VObj bf))).
Proof. intros E; unfold Mem.claimLaunch; rewrite E; reflexivity. Qed.

Lemma claimLaunch_result_launch (existing : value) :
  launch_requested_at (claimLaunch_result existing) = VStr requested_at /\
  launch_status (claimLaunch_result existing) = VStr status.
Proof.
  unfold launch_requested_at, launch_status, claimLaunch_result.
  split.
  all: rewrite get_set_prop_other by discriminate.
  all: rewrite get_spread_with; simpl rev; simpl lookup; cbv iota.
  all: rewrite get_spread_with; reflexivity.
Qed.

Lemma claimLaunch_result_version (existing : value) :
  get (claimLaunch_result existing) "version" =
  plus_one (coalesce (get existing "version") (VNum 1)).
Proof. unfold claimLaunch_result, spread_with. apply get_set_prop_same. Qed.





End MemClaimLaunch.

(** ** The table *)

Lemma select_by_id_row_id (t : Pg.table) (id : string) (r : Pg.row) :
  Pg.select_by_id t id = Some r -> Pg.row_id r = id.
Proof.
  induction t as [|r0 rest IH]; simpl; [discriminate|].
  destruct (String.eqb (Pg.row_id r0) id) eqn:E.
  - intros H; inversion H; subst. now apply String.eqb_eq.
  - exact IH.
Qed.

Lemma select_update_same (t : Pg.table) (id : string) (f : Pg.row -> Pg.row) (r : Pg.row) :
  Pg.select_by_id t id = Some r -> Pg.row_id (f r) = id ->
  Pg.select_by_id (Pg.update_by_id t id f) id = Some (f r).
Proof.
  induction t as [|r0 rest IH]; simpl; [discriminate|].
  destruct (String.eqb (Pg.row_id r0) id) eqn:E; intros H Hf.
  - inversion H; subst r0. simpl. apply String.eqb_eq in Hf. now rewrite Hf.
  - simpl. rewrite E. now apply IH.
Qed.

Lemma select_update_other (t : Pg.table) (id id' : string) (f : Pg.row -> Pg.row) :
  id' <> id -> (forall r, Pg.row_id (f r) = Pg.row_id r) ->
  Pg.select_by_id (Pg.update_by_id t id f) id' = Pg.select_by_id t id'.
Proof.
  intros N Hf. induction t as [|r0 rest IH]; simpl; [reflexivity|].
  destruct (String.eqb (Pg.row_id r0) id) eqn:E; simpl.
  - rewrite Hf. apply String.eqb_eq in E.
    destruct (String.eqb (Pg.row_id r0) id') eqn:E'; [|reflexivity].
    apply String.eqb_eq in E'. congruence.
  - destruct (String.eqb (Pg.row_id r0) id'); [reflexivity|exact IH].
Qed.

(** ** Rows whose columns mirror the document

    [create], [update] and [claimLaunch] write [launch_status] and
    [launch_requested_at] together with the matching members of [data]. *)




Section PgClaimLaunch.
Context {host : Host}.
Variables (t : Pg.table) (id requested_at status : string) (now : Z).

(** The document and the row after a successful claim. *)
Definition claimed_data (df lf : props) (ts : Z) : value :=
  VObj (assign "launch"
          (VObj (assign "status" (VStr status)
                   (assign "requested_at" (VStr (timestamptz_text ts)) lf)))
          (assign "launch" (VObj (assign "requested_at" (VStr (timestamptz_text ts)) lf))
             df)).

Definition claimed_row (r : Pg.row) (df lf : props) (ts : Z) : Pg.row :=
  Pg.mkRow (Pg.row_id r) (Pg.row_idempotency_key r) (claimed_data df lf ts)
    (Some status) (Some ts) (Pg.row_created_at r) now.

Lemma Pg_claimLaunch_cases (r : Pg.row) (df lf : props) (ts : Z) :
  Date_parse requested_at = Some ts ->
  Pg.select_by_id t id = Some r ->
  Pg.row_data r = VObj df -> lookup "launch" df = Some (VObj lf) ->
  Pg.claimLaunch t id requested_at status now =
  if Pg.claimLaunch_where r
  then (Ok (Pg.hydrate (claimed_row r df lf ts) (Some (VStr id))),
        Pg.update_by_id t id (fun _ => claimed_row r df lf ts))
  else (Ok VNull, t).
Proof.
  intros D S E L. unfold Pg.claimLaunch. rewrite D, S.
  destruct (Pg.claimLaunch_where r); [|reflexivity].
  rewrite E. simpl Pg.jsonb_set2 at 1. rewrite L.
  simpl Pg.jsonb_set2. rewrite lookup_assign_same. reflexivity.
Qed.


Lemma claimed_data_frame (df lf : props) (ts : Z) (k : string) :
  k <> "launch" -> get (claimed_data df lf ts) k = get (VObj df) k.
Proof.
  intros N. unfold claimed_data. rewrite !get_obj.
  now rewrite !lookup_assign_other by assumption.
Qed.


Lemma hydrate_get (r : Pg.row) (fb : option value) (fs : props) (k : string) :
  Pg.row_data r = VObj fs ->
  k <> "id" -> k <> "created_at" -> k <> "updated_at" ->
  get (Pg.hydrate r fb) k = get (VObj fs) k.
Proof.
  intros E N1 N2 N3. unfold Pg.hydrate. rewrite E. simpl or_else.
  rewrite get_spread_with. simpl rev. simpl lookup at 1.
  apply String.eqb_neq in N1, N2, N3. rewrite N1, N2, N3.
  simpl own_fields. now rewrite get_obj.
Qed.



End PgClaimLaunch.

(** ** In-memory [claimTelegramPublish] / [claimXPublish] *)

Definition channel_status (key : channel) (pack : value) : value :=
  get (get pack "ops") (statusKey key).
Definition channel_failed_at (key : channel) (pack : value) : value :=
  get (get pack "ops") (failedAtKey key).

(** The schema's publish status: absent (read as ["idle"]) or one of the
    four literals. *)
Definition publish_status_ok (v : value) : Prop :=
  v = VUndef \/ v = VStr "idle" \/ v = VStr "in_progress"
  \/ v = VStr "published" \/ v = VStr "failed".

Definition is_idle (v : value) : Prop := v = VUndef \/ v = VStr "idle".

Section MemClaimPublish.
Context {host : Host}.
Variables (key : channel) (st : Mem.store) (id requested_at : string)
          (force : bool) (now : Z).

(** At least ten minutes have elapsed since the recorded failure time, if
    one is recorded (a missing, unreadable or zero time blocks nothing). *)
Definition cooldown_over (failed_at : value) : Prop :=
  truthy failed_at = true ->
  forall t, Date_getTime failed_at = Some t -> t <> 0 ->
            PUBLISH_COOLDOWN_MS <= now - t.

Definition publish_claimable (pack : value) : Prop :=
  is_idle (channel_status key pack) \/
  (channel_status key pack = VStr "failed" /\
   (force = true \/ cooldown_over (channel_failed_at key pack))).

Definition claimPublish_result (existing : value) : value :=
  set_prop
    (spread_with existing
       [("ops",
         spread_with (or_else (get existing "ops") (VObj []))
           [(statusKey key, VStr "in_progress");
            (attemptedAtKey key, VStr requested_at);
            (errorCodeKey key, VUndef);
            (errorMessageKey key, VUndef)]);
        ("updated_at", nowIso now)])
    "version" (plus_one (coalesce (get existing "version") (VNum 1))).

Lemma publishStatus_eq (pack : value) (opf : props) :
  get pack "ops" = VObj opf ->
  publishStatus pack key =
  (or_else (channel_status key pack) (VStr "idle"),
   if truthy (channel_failed_at key pack)
   then Some (Date_getTime (channel_failed_at key pack)) else None).
Proof.
  intros E. unfold publishStatus, channel_status, channel_failed_at.
  unfold or_else at 1 3. now rewrite E.
Qed.

Lemma cooldown_blocks_false (failed_at : value) :
  Mem.cooldown_blocks
    (if truthy failed_at then Some (Date_getTime failed_at) else None) now = false
  <-> cooldown_over failed_at.
Proof.
  unfold Mem.cooldown_blocks, cooldown_over.
  destruct (truthy failed_at).
  - destruct (Date_getTime failed_at) as [t|].
    + rewrite andb_false_iff, negb_false_iff, Z.eqb_eq, Z.ltb_ge. split.
      * intros [E|E] _ t' Ht N; inversion Ht; subst; [contradiction|assumption].
      * intros Hc. destruct (Z.eq_dec t 0); [now left|right; now apply Hc].
    + split; [intros _ _ t Ht; discriminate|reflexivity].
  - simpl. split; [intros _ Hf; discriminate|reflexivity].
Qed.

Lemma Mem_claimPublish_cases (bf : props) :
  Mem.Map_get st id = VObj bf ->
  Mem.claimPublish key st id requested_at force now =
  let '(status, failedAt) := publishStatus (VObj bf) key in
  if is_str status "published" || is_str status "in_progress" then (VNull, st)
  else if is_str status "failed" && negb force && Mem.cooldown_blocks failedAt now
       then (VNull, st)
  else (claimPublish_result (VObj bf),
        Mem.Map_set st id (claimPublish_result (VObj bf))).
Proof.
  intros E. unfold Mem.claimPublish. rewrite E. simpl negb. cbv iota.
  destruct (publishStatus (VObj bf) key) as [s f]. reflexivity.
Qed.

Lemma claimPublish_result_ops (existing : value) :
  channel_status key (claimPublish_result existing) = VStr "in_progress" /\
  get (get (claimPublish_result existing) "ops") (attemptedAtKey key) = VStr requested_at /\
  get (get (claimPublish_result existing) "ops") (errorCodeKey key) = VUndef /\
  get (get (claimPublish_result existing) "ops") (errorMessageKey key) = VUndef.
Proof.
  unfold channel_status, claimPublish_result.
  repeat split.
  all: rewrite get_set_prop_other by discriminate.
  all: rewrite get_spread_with; simpl rev; simpl lookup; cbv iota.
  all: rewrite get_spread_with; destruct key; reflexivity.
Qed.

Lemma claimPublish_result_version (existing : value) :
  get (claimPublish_result existing) "version" =
  plus_one (coalesce (get existing "version") (VNum 1)).
Proof. unfold claimPublish_result, spread_with. apply get_set_prop_same. Qed.

Lemma claimPublish_result_frame (bf : props) (k : string) :
  k <> "ops" -> k <> "updated_at" -> k <> "version" ->
  get (claimPublish_result (VObj bf)) k = get (VObj bf) k.
Proof.
  intros N1 N2 N3. unfold claimPublish_result.
  rewrite get_set_prop_other by assumption.
  rewrite get_spread_with. simpl rev. simpl lookup at 1.
  apply String.eqb_neq in N1, N2. rewrite N1, N2.
  simpl own_fields. now rewrite get_obj.
Qed.

Lemma claimPublish_result_ops_frame (bf opf : props) (k : string) :
  get (VObj bf) "ops" = VObj opf ->
  k <> statusKey key -> k <> attemptedAtKey key ->
  k <> errorCodeKey key -> k <> errorMessageKey key ->
  get (get (claimPublish_result (VObj bf)) "ops") k = get (VObj opf) k.
Proof.
  intros E N1 N2 N3 N4. unfold claimPublish_result.
  rewrite get_set_prop_other by discriminate.
  rewrite get_spread_with. simpl lookup at 1. cbv iota.
  rewrite get_spread_with. simpl rev. simpl lookup at 1.
  apply String.eqb_neq in N1, N2, N3, N4. rewrite N1, N2, N3, N4.
  rewrite E. simpl or_else. simpl own_fields. now rewrite get_obj.
Qed.

Lemma Mem_claimPublish_iff (bf opf : props) :
  Mem.Map_get st id = VObj bf ->
  get (VObj bf) "ops" = VObj opf ->
  publish_status_ok (channel_status key (VObj bf)) ->
  (publish_claimable (VObj bf) ->
   Mem.claimPublish key st id requested_at force now =
   (claimPublish_result (VObj bf), Mem.Map_set st id (claimPublish_result (VObj bf)))) /\
  (~ publish_claimable (VObj bf) ->
   Mem.claimPublish key st id requested_at force now = (VNull, st)).
Proof.
  intros E Eo OK. rewrite (Mem_claimPublish_cases bf E).
  rewrite (publishStatus_eq _ opf Eo).
  unfold publish_claimable, is_idle.
  destruct (Mem.cooldown_blocks _ now) eqn:CB.
  - assert (NC : ~ cooldown_over (channel_failed_at key (VObj bf))).
    { intros C. apply cooldown_blocks_false in C. congruence. }
    destruct OK as [-> | [-> | [-> | [-> | -> ]]]]; simpl; split;
      try reflexivity; try (intros [[?|?]|[? _]]; discriminate);
      try (intros N; exfalso; apply N; tauto).
    + destruct force; simpl; [reflexivity|].
      intros [[?|?]|[_ [?|?]]]; try discriminate; contradiction.
    + destruct force; simpl; [|reflexivity].
      intros N; exfalso; apply N; right; split; [reflexivity|now left].
  - apply cooldown_blocks_false in CB.
    destruct OK as [-> | [-> | [-> | [-> | -> ]]]]; simpl; split;
      try reflexivity; try (intros [[?|?]|[? _]]; discriminate);
      try (intros N; exfalso; apply N; tauto).
    intros _. now rewrite andb_false_r.
Qed.

End MemClaimPublish.

(** ** [create] and the idempotency key *)

Definition has_key (K : value) (v : value) : bool :=
  strict_eq (get v "idempotency_key") K.

(** The number of stored records carrying the key [K]. *)
Definition count_key (st : Mem.store) (K : value) : nat :=
  List.length (filter (has_key K) (Mem.Map_values st)).

Lemma find_idempotent_none (vals : list value) (K : value) :
  Mem.find_idempotent vals K = None <-> filter (has_key K) vals = [].
Proof.
  induction vals as [|v r IH]; simpl; [tauto|].
  unfold has_key at 1. destruct (strict_eq (get v "idempotency_key") K).
  - split; discriminate.
  - exact IH.
Qed.

Lemma find_idempotent_some (vals : list value) (K v : value) :
  Mem.find_idempotent vals K = Some v -> In v vals /\ has_key K v = true.
Proof.
  induction vals as [|v0 r IH]; simpl; [discriminate|].
  destruct (strict_eq (get v0 "idempotency_key") K) eqn:E.
  - intros H; inversion H; subst. split; [now left|exact E].
  - intros H; destruct (IH H); split; [now right|assumption].
Qed.

Lemma filter_values_assign (K : value) (id : string) (rec : value) (st : Mem.store) :
  filter (has_key K) (Mem.Map_values st) = [] -> has_key K rec = true ->
  filter (has_key K) (Mem.Map_values (Mem.Map_set st id rec)) = [rec].
Proof.
  unfold Mem.Map_values, Mem.Map_set. intros F Hk.
  induction st as [|[k0 v0] r IH]; simpl in *.
  - now rewrite Hk.
  - destruct (has_key K v0) eqn:E0; [discriminate|].
    destruct (String.eqb id k0); simpl.
    + now rewrite Hk, F.
    + rewrite E0. now apply IH.
Qed.

Lemma get_own (v : value) (k : string) :
  k <> "length" ->
  get v k = match lookup k (own_fields v) with Some x => x | None => VUndef end.
Proof.
  intros N. unfold get. destruct (lookup k (own_fields v)); [reflexivity|].
  apply String.eqb_neq in N. destruct v; try reflexivity; now rewrite N.
Qed.

Section MemCreate.
Context {host : Host}.

Definition created_record (parsed : value) (uuid : string) (now : Z) : value :=
  spread_with parsed
    [("id", coalesce (get parsed "id") (VStr uuid));
     ("version", coalesce (get parsed "version") (VNum 1));
     ("created_at", nowIso now);
     ("updated_at", nowIso now)].

Lemma created_record_key (parsed : value) (uuid : string) (now : Z) :
  get (created_record parsed uuid now) "idempotency_key" = get parsed "idempotency_key".
Proof.
  unfold created_record. rewrite get_spread_with. simpl.
  now rewrite get_own by discriminate.
Qed.

Lemma Mem_create_cases (st : Mem.store) (input parsed : value) (uuid : string) (now : Z) :
  validateCreate input = Ok parsed ->
  Mem.create st input uuid now =
  match (if truthy (get parsed "idempotency_key")
         then Mem.find_idempotent (Mem.Map_values st) (get parsed "idempotency_key")
         else None) with
  | Some v => (Ok v, st)
  | None =>
      (Ok (created_record parsed uuid now),
       Mem.Map_set st (to_string (coalesce (get parsed "id") (VStr uuid)))
         (created_record parsed uuid now))
  end.
Proof. intros V. unfold Mem.create. rewrite V. reflexivity. Qed.

(** A create whose key some stored record carries returns that record (the
    first in insertion order) and writes nothing. *)
Lemma Mem_create_existing (st : Mem.store) (input parsed : value) (uuid : string)
    (now : Z) (k : string) :
  validateCreate input = Ok parsed ->
  get parsed "idempotency_key" = VStr k -> k <> "" ->
  count_key st (VStr k) <> 0%nat ->
  exists v, Mem.create st input uuid now = (Ok v, st) /\
            In v (Mem.Map_values st) /\ get v "idempotency_key" = VStr k.
Proof.
  intros V Hk Ne Hc. rewrite (Mem_create_cases st input parsed uuid now V), Hk.
  assert (T : truthy (VStr k) = true).
  { simpl. apply negb_true_iff, String.eqb_neq. exact Ne. }
  rewrite T.
  destruct (Mem.find_idempotent (Mem.Map_values st) (VStr k)) as [v|] eqn:F.
  - destruct (find_idempotent_some _ _ _ F) as [Hin Hh]. exists v.
    repeat split; try assumption.
    unfold has_key in Hh. destruct (get v "idempotency_key"); try discriminate.
    simpl in Hh. apply String.eqb_eq in Hh. now subst.
  - apply find_idempotent_none in F. unfold count_key in Hc. rewrite F in Hc.
    now contradiction Hc.
Qed.

(** X2.  Two creates with the same key, whatever the rest of their inputs:
    both return the same record, the second writes nothing, and if at most
    one stored record carried the key before, exactly one does after. *)
Lemma Mem_create_twice (st : Mem.store) (in1 in2 p1 p2 : value) (u1 u2 : string)
    (n1 n2 : Z) (k : string) :
  validateCreate in1 = Ok p1 -> validateCreate in2 = Ok p2 ->
  get p1 "idempotency_key" = VStr k -> get p2 "idempotency_key" = VStr k ->
  k <> "" ->
  exists rec st1,
    Mem.create st in1 u1 n1 = (Ok rec, st1) /\
    Mem.create st1 in2 u2 n2 = (Ok rec, st1) /\
    get rec "idempotency_key" = VStr k /\
    ((count_key st (VStr k) <= 1)%nat -> count_key st1 (VStr k) = 1%nat).
Proof.
  intros V1 V2 K1 K2 Ne.
  assert (T : truthy (VStr k) = true).
  { simpl. apply negb_true_iff, String.eqb_neq. exact Ne. }
  rewrite (Mem_create_cases st in1 p1 u1 n1 V1), K1, T.
  destruct (Mem.find_idempotent (Mem.Map_values st) (VStr k)) as [v|] eqn:F.
  - destruct (find_idempotent_some _ _ _ F) as [Hin Hh].
    exists v, st. split; [reflexivity|].
    rewrite (Mem_create_cases st in2 p2 u2 n2 V2), K2, T, F.
    split; [reflexivity|]. split.
    + unfold has_key in Hh. destruct (get v "idempotency_key"); try discriminate.
      simpl in Hh. apply String.eqb_eq in Hh. now subst.
    + intros Hc.
      assert (filter (has_key (VStr k)) (Mem.Map_values st) <> []).
      { intros Ef. apply find_idempotent_none in Ef. congruence. }
      unfold count_key in *.
      destruct (filter (has_key (VStr k)) (Mem.Map_values st)) as [|a [|b l]];
        simpl in *; [congruence|reflexivity|lia].
  - set (rec := created_record p1 u1 n1).
    set (idk := to_string (coalesce (get p1 "id") (VStr u1))).
    assert (Hrec : has_key (VStr k) rec = true).
    { unfold has_key, rec. rewrite created_record_key, K1. simpl.
      apply String.eqb_refl. }
    apply find_idempotent_none in F.
    pose proof (filter_values_assign (VStr k) idk rec st F Hrec) as F1.
    exists rec, (Mem.Map_set st idk rec). split; [reflexivity|].
    rewrite (Mem_create_cases _ in2 p2 u2 n2 V2), K2, T.
    assert (F2 : Mem.find_idempotent (Mem.Map_values (Mem.Map_set st idk rec)) (VStr k)
                 = Some rec).
    { destruct (Mem.find_idempotent _ (VStr k)) as [v|] eqn:F2.
      - destruct (find_idempotent_some _ _ _ F2) as [Hin Hh].
        assert (In v (filter (has_key (VStr k))
                        (Mem.Map_values (Mem.Map_set st idk rec)))).
        { apply filter_In; split; assumption. }
        rewrite F1 in H. destruct H as [->|[]]. reflexivity.
      - apply find_idempotent_none in F2. congruence. }
    rewrite F2. split; [reflexivity|]. split.
    + unfold rec. now rewrite created_record_key.
    + intros _. unfold count_key. now rewrite F1.
Qed.

End MemCreate.

(** ** PGlite [create] *)

Lemma Pg_create_existing `{Host} (t : Pg.table) (input parsed : value) (uuid : string)
    (now : Z) (k : string) (r : Pg.row) :
  validateCreate input = Ok parsed ->
  get parsed "idempotency_key" = VStr k -> k <> "" ->
  Pg.select_by_idempotency_key t k = Some r ->
  Pg.create t input uuid now = (Ok (Pg.hydrate r None), t).
Proof.
  intros V Hk Ne S. unfold Pg.create. rewrite V, Hk.
  assert (T : truthy (VStr k) = true).
  { simpl. apply negb_true_iff, String.eqb_neq. exact Ne. }
  rewrite T. cbn [Pg.text_param]. rewrite S. reflexivity.
Qed.

(** ** Orchestrator steps that leave the store alone *)

Create HintDb quiet.

Section Quiet.
Context {host : Host} {S : Type} {store : LaunchPackStore S}.
Variable out : outside.
Variable env : LaunchkitEnv.

Local Open Scope orch_scope.

(** [m] never writes to the store. *)
Definition quiet {A} (m : M S A) : Prop :=
  forall w r w', m w = (r, w') -> w_store w' = w_store w.

(** [m] never throws. *)
Definition unfailing {A} (m : M S A) : Prop :=
  forall w, exists a w', m w = (Ok a, w').

Lemma quiet_ret {A} (a : A) : quiet (ret a).
Proof. intros w r w' H; inversion H; reflexivity. Qed.

Lemma quiet_throw {A} (e : error) : quiet (@throw S A e).
Proof. intros w r w' H; inversion H; reflexivity. Qed.

Lemma quiet_bind {A B} (m : M S A) (k : A -> M S B) :
  quiet m -> (forall a, quiet (k a)) -> quiet (bind m k).
Proof.
  intros Hm Hk w r w' H. unfold bind in H.
  destruct (m w) as [[a|e] w1] eqn:E.
  - rewrite (Hk a w1 r w' H). exact (Hm w _ _ E).
  - inversion H; subst. exact (Hm w _ _ E).
Qed.

Lemma quiet_lift {A} (o : outcome A) : quiet (@lift_outcome S A o).
Proof. destruct o; [apply quiet_ret|apply quiet_throw]. Qed.

Lemma quiet_if {A} (b : bool) (m1 m2 : M S A) :
  quiet m1 -> quiet m2 -> quiet (if b then m1 else m2).
Proof. destruct b; auto. Qed.

Lemma quiet_read_clock : quiet (read_clock out).
Proof. intros w r w' H; inversion H; reflexivity. Qed.

Lemma quiet_nowIsoM : quiet (nowIsoM out).
Proof.
  apply quiet_bind; [apply quiet_read_clock|intros; apply quiet_ret].
Qed.

Lemma quiet_fetch (r : request) : quiet (fetch out r).
Proof. intros w r0 w' H; inversion H; reflexivity. Qed.

Lemma quiet_getM (id : string) : quiet (getM id).
Proof. intros w r w' H; inversion H; reflexivity. Qed.

Lemma quiet_appendAudit (log : value) (message actor : string) :
  quiet (appendAudit out log message actor).
Proof.
  apply quiet_bind; [apply quiet_nowIsoM|intros; apply quiet_ret].
Qed.

Lemma unfailing_nowIsoM : unfailing (nowIsoM out).
Proof. intros w; do 2 eexists; reflexivity. Qed.

Lemma unfailing_appendAudit (log : value) (message actor : string) :
  unfailing (appendAudit out log message actor).
Proof. intros w; do 2 eexists; reflexivity. Qed.

#[local] Hint Resolve quiet_ret quiet_throw quiet_lift quiet_read_clock quiet_nowIsoM
  quiet_fetch quiet_getM quiet_appendAudit : quiet.

Ltac quiet_steps :=
  repeat first
    [ solve [auto with quiet]
    | match goal with
      | |- quiet (bind _ _) => apply quiet_bind; [|intros]
      | |- quiet (if _ then _ else _) => apply quiet_if
      | |- quiet (match ?x with _ => _ end) => destruct x
      end ].

Lemma quiet_tgApi (token : value) (method : string) (body : value) :
  quiet (tgApi out token method body).
Proof. unfold tgApi. quiet_steps. Qed.

#[local] Hint Resolve quiet_tgApi : quiet.

Lemma quiet_maybeSendAndPin (text : value) : quiet (maybeSendAndPin out env text).
Proof. unfold maybeSendAndPin. quiet_steps. Qed.

#[local] Hint Resolve quiet_maybeSendAndPin : quiet.

Lemma quiet_tg_publish_steps (claim : value) : quiet (tg_publish_steps out env claim).
Proof. unfold tg_publish_steps. quiet_steps. Qed.

Lemma quiet_postTweet (text replyToId : value) : quiet (postTweet out text replyToId).
Proof. unfold postTweet. quiet_steps. Qed.

#[local] Hint Resolve quiet_postTweet : quiet.

Lemma quiet_post_thread (posts tweetIds : list value) (previousId : value) :
  quiet (post_thread out posts tweetIds previousId).
Proof.
  revert tweetIds previousId. induction posts as [|p r IH]; intros; simpl.
  - apply quiet_ret.
  - apply quiet_bind; [apply quiet_postTweet|intros; apply IH].
Qed.

#[local] Hint Resolve quiet_post_thread : quiet.

Lemma quiet_x_publish_steps (claim : value) : quiet (x_publish_steps out claim).
Proof. unfold x_publish_steps. quiet_steps. Qed.

Lemma quiet_fetchWithTimeout (r : request) (total connect : Z) :
  quiet (fetchWithTimeout out r total connect).
Proof.
  intros w r0 w' H. unfold fetchWithTimeout in H.
  destruct (arrival out _) as [a|]; [|inversion H; reflexivity].
  destruct (a <? _); [|inversion H; reflexivity].
  destruct (remote out _ r); inversion H; reflexivity.
Qed.

Lemma quiet_secrets_get : quiet (@secrets_get S).
Proof. intros w r w' H; inversion H; reflexivity. Qed.

Lemma quiet_secrets_set (record : value) : quiet (@secrets_set S record).
Proof. intros w r w' H; inversion H; reflexivity. Qed.

#[local] Hint Resolve quiet_fetchWithTimeout quiet_secrets_get quiet_secrets_set : quiet.

Lemma quiet_ensureLauncherWallet : quiet (ensureLauncherWallet out).
Proof. unfold ensureLauncherWallet. quiet_steps. Qed.

Lemma quiet_uploadMetadataToPumpIPFS (pack : value) :
  quiet (uploadMetadataToPumpIPFS out pack).
Proof. unfold uploadMetadataToPumpIPFS. quiet_steps. Qed.

Lemma quiet_createTokenOnPumpPortal (pack uri : value) (caps : CapsResult)
    (wallet : value) (slippage : Z) :
  quiet (createTokenOnPumpPortal out pack uri caps wallet slippage).
Proof. unfold createTokenOnPumpPortal. quiet_steps. Qed.

#[local] Hint Resolve quiet_ensureLauncherWallet quiet_uploadMetadataToPumpIPFS
  quiet_createTokenOnPumpPortal : quiet.

Lemma quiet_launch_steps (pack : value) (caps : CapsResult) (slippage : Z) :
  quiet (launch_steps out pack caps slippage).
Proof. unfold launch_steps. quiet_steps. Qed.

Lemma quiet_launch_failure_steps (pack : value) (err : error) :
  quiet (launch_failure_steps out pack err).
Proof. unfold launch_failure_steps. quiet_steps. Qed.

Lemma unfailing_launch_failure_steps (pack : value) (err : error) :
  unfailing (launch_failure_steps out pack err).
Proof. intros w; do 2 eexists; reflexivity. Qed.

Lemma quiet_ensureLaunchAllowed (pack : value) (force : bool) :
  quiet (ensureLaunchAllowed out env pack force).
Proof. unfold ensureLaunchAllowed. quiet_steps. Qed.

End Quiet.

(** ** Well-formed records *)

Lemma In_keys_assign (k k' : string) (v : value) (fs : props) :
  In k' (keys (assign k v fs)) <-> k' = k \/ In k' (keys fs).
Proof.
  induction fs as [|[k0 v0] r IH]; simpl.
  - intuition.
  - destruct (String.eqb k k0) eqn:E; simpl.
    + apply String.eqb_eq in E; subst. intuition.
    + rewrite IH. intuition.
Qed.

Lemma NoDup_keys_assign (k : string) (v : value) (fs : props) :
  NoDup (keys fs) -> NoDup (keys (assign k v fs)).
Proof.
  induction fs as [|[k0 v0] r IH]; simpl; intros ND.
  - constructor; [intros []|constructor].
  - inversion ND as [|? ? Hn ND']; subst.
    destruct (String.eqb k k0) eqn:E; simpl.
    + apply String.eqb_eq in E; subst. now constructor.
    + constructor; [|now apply IH].
      rewrite In_keys_assign. intros [->|H]; [|contradiction].
      now rewrite String.eqb_refl in E.
Qed.

Lemma NoDup_fold_assign (sets init : props) :
  NoDup (keys init) ->
  NoDup (keys (fold_left (fun acc kv => assign (fst kv) (snd kv) acc) sets init)).
Proof.
  revert init; induction sets as [|[k v] r IH]; intros init ND; simpl.
  - assumption.
  - apply IH, NoDup_keys_assign, ND.
Qed.

(** [{...v, sets}] as a property list. *)
Definition spread_fields (v : value) (sets : props) : props :=
  fold_left (fun acc kv => assign (fst kv) (snd kv) acc) sets (own_fields v).

Lemma spread_with_fields (v : value) (sets : props) :
  spread_with v sets = VObj (spread_fields v sets).
Proof. reflexivity. Qed.

Lemma lookup_spread_fields (v : value) (sets : props) (k : string) :
  lookup k (spread_fields v sets) =
  match lookup k (rev sets) with Some x => Some x | None => lookup k (own_fields v) end.
Proof. apply lookup_fold_assign. Qed.

Lemma NoDup_spread_fields (fs sets : props) :
  NoDup (keys fs) -> NoDup (keys (spread_fields (VObj fs) sets)).
Proof. apply NoDup_fold_assign. Qed.

(** A stored record as the schema shapes it: an object whose [launch] and
    [ops] members are objects, no object listing a key twice. *)
Definition pack_ok (pack : value) : Prop :=
  (exists bf, pack = VObj bf /\ NoDup (keys bf)) /\
  (exists lf, get pack "launch" = VObj lf /\ NoDup (keys lf)) /\
  (exists opf, get pack "ops" = VObj opf /\ NoDup (keys opf)) /\
  (exists ckf, get (get pack "ops") "checklist" = VObj ckf /\ NoDup (keys ckf)).

(** ** The in-memory store under the orchestrators *)

Section MemOrchestration.
Context {host : Host}.
Variable out : outside.

Local Open Scope orch_scope.

Definition stamp (existing patch : value) (id : string) (now : Z) : value :=
  set_prop
    (set_prop (set_prop (deepMerge existing patch) "id" (VStr id))
       "updated_at" (nowIso now))
    "version" (plus_one (coalesce (get existing "version") (VNum 1))).

Lemma get_stamp (existing patch : value) (id : string) (now : Z) (k : string) :
  k <> "id" -> k <> "updated_at" -> k <> "version" ->
  get (stamp existing patch id now) k = get (deepMerge existing patch) k.
Proof. intros; unfold stamp; now rewrite !get_set_prop_other. Qed.

(** The world after a store operation that wrote nothing. *)
Definition clock_read (w : world Mem.store) : world Mem.store :=
  mkWorld (w_store w) (Datatypes.S (w_reads w)) (w_calls w) (w_secrets w).

(** [update] stores the merge of the record with what the schema made of
    the patch, or throws the schema's error and writes nothing. *)
Lemma updateM_Mem (w : world Mem.store) (id : string) (patch : value) :
  truthy (Mem.Map_get (w_store w) id) = true ->
  updateM (store := MemStore) out id patch w =
  match validateUpdate patch with
  | Ok parsed =>
      (Ok (stamp (Mem.Map_get (w_store w) id) parsed id (clock out (w_reads w))),
       mkWorld (Mem.Map_set (w_store w) id
                  (stamp (Mem.Map_get (w_store w) id) parsed id (clock out (w_reads w))))
         (Datatypes.S (w_reads w)) (w_calls w) (w_secrets w))
  | Throw e => (Throw e, clock_read w)
  end.
Proof.
  intros T. unfold updateM, with_store. simpl store_update.
  unfold Mem.update. rewrite T. cbv beta iota delta [negb].
  destruct (validateUpdate patch); reflexivity.
Qed.

(** The shape shared by the three orchestrators after a won claim: run
    the remote steps and record the success; on a throw, record the
    failure and re-throw. *)
Definition guarded {T U} (id : string) (steps : M Mem.store T) (okpatch : T -> value)
    (hsteps : error -> M Mem.store U) (failpatch : error -> U -> value)
  : M Mem.store value :=
  try_catch (x <- steps ;; updateM (store := MemStore) out id (okpatch x))
    (fun e => y <- hsteps e ;;
              updateM (store := MemStore) out id (failpatch e y) ;;; throw e).

(** The error that reaches the [catch] block: thrown by the steps, or by
    the update that was to record their success. *)
Definition caught {T} (steps : M Mem.store T) (okpatch : T -> value)
    (w : world Mem.store) (e : error) (w1 : world Mem.store) : Prop :=
  steps w = (Throw e, w1) \/
  exists x w0, steps w = (Ok x, w0) /\ validateUpdate (okpatch x) = Throw e /\
               w1 = clock_read w0.

(** A guarded run ends in one of three ways: the success is stored; the
    failure is stored and the error re-thrown; or the schema rejects the
    failure's patch, its error is thrown and the store stays as claimed. *)
Lemma guarded_run {T U} (id : string) (steps : M Mem.store T) (okpatch : T -> value)
    (hsteps : error -> M Mem.store U) (failpatch : error -> U -> value)
    (w w' : world Mem.store) (r : outcome value) :
  quiet steps -> (forall e, quiet (hsteps e)) -> (forall e, unfailing (hsteps e)) ->
  truthy (Mem.Map_get (w_store w) id) = true ->
  guarded id steps okpatch hsteps failpatch w = (r, w') ->
  let existing := Mem.Map_get (w_store w) id in
  (exists x t w1 parsed,
      steps w = (Ok x, w1) /\
      validateUpdate (okpatch x) = Ok parsed /\
      r = Ok (stamp existing parsed id t) /\
      w_store w' = Mem.Map_set (w_store w) id (stamp existing parsed id t) /\
      w_calls w' = w_calls w1)
  \/
  (exists e y w1 w2,
      caught steps okpatch w e w1 /\ hsteps e w1 = (Ok y, w2) /\
      ((exists parsed t,
           validateUpdate (failpatch e y) = Ok parsed /\
           r = Throw e /\
           w_store w' = Mem.Map_set (w_store w) id (stamp existing parsed id t))
       \/
       (exists e2,
           validateUpdate (failpatch e y) = Throw e2 /\
           r = Throw e2 /\ w_store w' = w_store w))).
Proof.
  intros Qs Qh Uh Tr H. unfold guarded, try_catch in H. cbv zeta.
  assert (Handler : forall e w1,
             w_store w1 = w_store w ->
             (y <- hsteps e ;;
              updateM (store := MemStore) out id (failpatch e y) ;;; throw e) w1 = (r, w') ->
             exists y w2, hsteps e w1 = (Ok y, w2) /\
               ((exists parsed t,
                   validateUpdate (failpatch e y) = Ok parsed /\
                   r = Throw e /\
                   w_store w' = Mem.Map_set (w_store w) id
                                  (stamp (Mem.Map_get (w_store w) id) parsed id t))
                \/
                (exists e2,
                    validateUpdate (failpatch e y) = Throw e2 /\
                    r = Throw e2 /\ w_store w' = w_store w))).
  { intros e w1 S1 Hh. unfold bind in Hh.
    destruct (Uh e w1) as [y [w2 Eh]]. rewrite Eh in Hh.
    pose proof (Qh e w1 _ _ Eh) as S2.
    rewrite updateM_Mem in Hh by (now rewrite S2, S1).
    exists y, w2. split; [exact Eh|].
    destruct (validateUpdate (failpatch e y)) as [parsed|e2].
    - unfold throw in Hh. injection Hh as <- <-. left.
      exists parsed, (clock out (w_reads w2)). simpl. rewrite S2, S1.
      repeat split.
    - injection Hh as <- <-. right. exists e2. simpl. rewrite S2, S1.
      repeat split. }
  unfold bind at 1 in H.
  destruct (steps w) as [[x|e] w1] eqn:Es; pose proof (Qs w _ _ Es) as S1.
  - rewrite updateM_Mem in H by (now rewrite S1).
    destruct (validateUpdate (okpatch x)) as [parsed|e] eqn:Ev.
    + injection H as <- <-. left. exists x, (clock out (w_reads w1)), w1, parsed.
      clear Handler. simpl. rewrite S1. repeat split; auto.
    + right. destruct (Handler e (clock_read w1)) as (y & w2 & Eh & Hcase);
        [exact S1|exact H|].
      exists e, y, (clock_read w1), w2. split; [|split; [exact Eh|exact Hcase]].
      right. exists x, w1. split; [exact Es|]. split; [exact Ev|reflexivity].
  - right. destruct (Handler e w1 S1 H) as (y & w2 & Eh & Hcase).
    exists e, y, w1, w2. split; [now left|]. split; [exact Eh|exact Hcase].
Qed.

End MemOrchestration.
(** Reading a member of a member after an update with an object patch. *)
Lemma deepMerge_get_any (bf pf : props) (k : string) :
  NoDup (keys pf) ->
  get (deepMerge (VObj bf) (VObj pf)) k = deepMerge (get (VObj bf) k) (get (VObj pf) k).
Proof.
  intros ND. rewrite deepMerge_get by exact ND. rewrite (get_obj pf).
  destruct (lookup k pf); reflexivity.
Qed.

Lemma member_after_update `{Host} (cf cmf ps os : props) (m id : string) (t : Z)
    (k : string) :
  get (VObj cf) m = VObj cmf -> NoDup (keys ps) ->
  get (VObj ps) m = VObj os -> NoDup (keys os) ->
  m <> "id" -> m <> "updated_at" -> m <> "version" ->
  get (get (stamp (VObj cf) (VObj ps) id t) m) k
  = deepMerge (get (VObj cmf) k) (get (VObj os) k).
Proof.
  intros E NDp Eo NDo N1 N2 N3.
  rewrite get_stamp by assumption.
  rewrite deepMerge_get_any by exact NDp. rewrite E, Eo.
  now apply deepMerge_get_any.
Qed.

(** ** What the claims hand to the orchestrators *)

Lemma Mem_claimPublish_either `{Host} (key : channel) (st : Mem.store)
    (id requested_at : string) (force : bool) (now : Z) :
  Mem.claimPublish key st id requested_at force now = (VNull, st) \/
  (truthy (Mem.Map_get st id) = true /\
   Mem.claimPublish key st id requested_at force now =
   (claimPublish_result key requested_at now (Mem.Map_get st id),
    Mem.Map_set st id (claimPublish_result key requested_at now (Mem.Map_get st id)))).
Proof.
  unfold Mem.claimPublish.
  destruct (truthy (Mem.Map_get st id)) eqn:T; simpl; [|now left].
  destruct (publishStatus (Mem.Map_get st id) key) as [s f].
  destruct (_ || _); [now left|].
  destruct (_ && _); [now left|].
  right. split; reflexivity.
Qed.

Lemma Mem_claimLaunch_either `{Host} (st : Mem.store) (id requested_at status : string)
    (now : Z) :
  Mem.claimLaunch st id requested_at status now = (VNull, st) \/
  (truthy (Mem.Map_get st id) = true /\
   Mem.claimLaunch st id requested_at status now =
   (claimLaunch_result requested_at status now (Mem.Map_get st id),
    Mem.Map_set st id (claimLaunch_result requested_at status now (Mem.Map_get st id)))).
Proof.
  unfold Mem.claimLaunch.
  destruct (truthy (Mem.Map_get st id)) eqn:T; simpl; [|now left].
  destruct (is_str _ "launched"); [now left|].
  destruct (_ && _); [now left|].
  right. split; reflexivity.
Qed.

(** The claimed record is again well formed; its [ops] are the stored ones
    with the four members of the claim set. *)
Lemma claimPublish_result_ok `{Host} (key : channel) (requested_at : string) (now : Z)
    (existing : value) :
  pack_ok existing ->
  exists cf cof obf,
    claimPublish_result key requested_at now existing = VObj cf /\
    NoDup (keys cf) /\
    get existing "ops" = VObj obf /\
    get (VObj cf) "ops" = VObj cof /\ NoDup (keys cof) /\
    cof = spread_fields (VObj obf)
            [(statusKey key, VStr "in_progress");
             (attemptedAtKey key, VStr requested_at);
             (errorCodeKey key, VUndef);
             (errorMessageKey key, VUndef)] /\
    get (VObj cf) "launch" = get existing "launch".
Proof.
  intros [[bf [-> NDb]] [[lf [El NDl]] [[obf [Eo NDo]] _]]].
  unfold claimPublish_result. rewrite Eo. simpl or_else.
  rewrite !spread_with_fields. simpl set_prop.
  do 3 eexists. split; [reflexivity|].
  split; [apply NoDup_keys_assign, NoDup_spread_fields, NDb|].
  split; [reflexivity|].
  split; [|split; [|split]].
  - rewrite get_obj, lookup_assign_other by discriminate.
    rewrite lookup_spread_fields. simpl. reflexivity.
  - apply NoDup_spread_fields, NDo.
  - reflexivity.
  - rewrite get_obj, lookup_assign_other by discriminate.
    rewrite lookup_spread_fields. simpl rev. simpl lookup at 1.
    cbv iota. simpl own_fields. now rewrite <- get_obj.
Qed.

Lemma claimLaunch_result_ok `{Host} (requested_at status : string) (now : Z)
    (existing : value) :
  pack_ok existing ->
  exists cf clf lf,
    claimLaunch_result requested_at status now existing = VObj cf /\
    NoDup (keys cf) /\
    get existing "launch" = VObj lf /\
    get (VObj cf) "launch" = VObj clf /\ NoDup (keys clf) /\
    clf = spread_fields (VObj lf)
            [("requested_at", VStr requested_at); ("status", VStr status)] /\
    get (VObj cf) "ops" = get existing "ops".
Proof.
  intros [[bf [-> NDb]] [[lf [El NDl]] [[obf [Eo NDo]] _]]].
  unfold claimLaunch_result. rewrite El. simpl or_else.
  rewrite !spread_with_fields. simpl set_prop.
  do 3 eexists. split; [reflexivity|].
  split; [apply NoDup_keys_assign, NoDup_spread_fields, NDb|].
  split; [reflexivity|].
  split; [|split; [|split]].
  - rewrite get_obj, lookup_assign_other by discriminate.
    rewrite lookup_spread_fields. simpl. reflexivity.
  - apply NoDup_spread_fields, NDl.
  - reflexivity.
  - rewrite get_obj, lookup_assign_other by discriminate.
    rewrite lookup_spread_fields. simpl rev. simpl lookup at 1.
    cbv iota. simpl own_fields. now rewrite <- get_obj.
Qed.
(** ** Lists of keys *)

Fixpoint distinct (l : list string) : bool :=
  match l with
  | [] => true
  | x :: r => negb (existsb (String.eqb x) r) && distinct r
  end.

Lemma distinct_NoDup (l : list string) : distinct l = true -> NoDup l.
Proof.
  induction l as [|x r IH]; simpl; intros H; constructor.
  - apply andb_true_iff in H. destruct H as [H _].
    apply negb_true_iff in H. intros Hin.
    assert (E : existsb (String.eqb x) r = true)
      by (apply existsb_exists; exists x; split; [exact Hin|apply String.eqb_refl]).
    congruence.
  - apply andb_true_iff in H. now apply IH.
Qed.

(** ** [trim] *)

Lemma trim_start_head (s : string) :
  Zod.trim_start s = "" \/
  exists c r, Zod.trim_start s = String c r /\ Zod.is_space c = false.
Proof.
  induction s as [|c r IH]; simpl; [now left|].
  destruct (Zod.is_space c) eqn:E; [exact IH|].
  right. now exists c, r.
Qed.

Lemma trim_end_head (c : ascii) (r : string) :
  Zod.is_space c = false -> exists r', Zod.trim_end (String c r) = String c r'.
Proof.
  intros E. simpl. rewrite E. destruct (Zod.trim_end r); eexists; reflexivity.
Qed.

Lemma trim_end_idem (s : string) : Zod.trim_end (Zod.trim_end s) = Zod.trim_end s.
Proof.
  induction s as [|c r IH]; [reflexivity|].
  simpl. destruct (Zod.trim_end r) as [|c' k] eqn:E.
  - destruct (Zod.is_space c) eqn:Es; [reflexivity|].
    simpl. now rewrite Es.
  - simpl in IH. simpl. rewrite IH. reflexivity.
Qed.

Lemma trim_idem (s : string) : Zod.trim (Zod.trim s) = Zod.trim s.
Proof.
  unfold Zod.trim.
  destruct (trim_start_head s) as [->|(c & r & -> & E)]; [reflexivity|].
  destruct (trim_end_head c r E) as [r' E']. rewrite E'.
  simpl Zod.trim_start. rewrite E. rewrite <- E'. apply trim_end_idem.
Qed.


(** ** The schemas on the orchestrators' patches *)

Section ZodPatches.
Variable lib : Zod.ZodLib.



Lemma get_spread_fields (fs sets : props) (k : string) :
  get (VObj (spread_fields (VObj fs) sets)) k =
  match lookup k (rev sets) with Some x => x | None => get (VObj fs) k end.
Proof.
  rewrite get_obj, lookup_spread_fields. simpl own_fields.
  destruct (lookup k (rev sets)); [reflexivity|]. now rewrite get_obj.
Qed.


(** *** Members *)

Lemma parse_datetime (s : string) (y : value) :
  Zod.parse lib (Zod.ZOptional Zod.isoDateTime) (VStr s) = Some y -> y = VStr s.
Proof. simpl. destruct (Zod.is_datetime lib s); congruence. Qed.

(** A code or message: a string, stored trimmed. *)
Lemma parse_nullable_text (v y : value) :
  truthy v = true ->
  Zod.parse lib (Zod.ZOptional (Zod.ZNullable Zod.text)) v = Some y ->
  exists s, v = VStr s /\ y = VStr (Zod.trim s).
Proof.
  destruct v; simpl; try discriminate; intros _ H; try discriminate.
  injection H as <-. now eexists.
Qed.

Lemma parse_optional_text (v y : value) :
  truthy v = true ->
  Zod.parse lib (Zod.ZOptional Zod.text) v = Some y ->
  exists s, v = VStr s /\ y = VStr (Zod.trim s).
Proof.
  destruct v; simpl; try discriminate; intros _ H; try discriminate.
  injection H as <-. now eexists.
Qed.

Lemma parse_entries_boolean (fs ys : props) :
  Zod.parse_entries (Zod.parse lib Zod.ZBoolean) fs = Some ys -> ys = fs.
Proof.
  revert ys. induction fs as [|[k v] r IH]; intros ys; simpl; [congruence|].
  destruct v; try discriminate.
  destruct (Zod.parse_entries _ r) as [zs|]; [|discriminate].
  intros [= <-]. now rewrite (IH zs eq_refl).
Qed.

Lemma parse_checklist (fs : props) (y : value) :
  Zod.parse lib (Zod.ZDefault (Zod.ZOptional (Zod.ZRecord Zod.ZBoolean)) (VObj []))
    (VObj fs) = Some y ->
  y = VObj fs.
Proof.
  simpl. destruct (Zod.parse_entries _ fs) as [ys|] eqn:E; [|discriminate].
  intros [= <-]. now rewrite (parse_entries_boolean fs ys E).
Qed.

Lemma parse_items_app (f : value -> option value) (l1 l2 : list value) :
  Zod.parse_items f (l1 ++ l2) =
  match Zod.parse_items f l1, Zod.parse_items f l2 with
  | Some a, Some b => Some (a ++ b)%list
  | _, _ => None
  end.
Proof.
  induction l1 as [|x r IH]; simpl.
  - destruct (Zod.parse_items f l2); reflexivity.
  - destruct (f x); [|reflexivity]. rewrite IH.
    destruct (Zod.parse_items f r); [|reflexivity].
    destruct (Zod.parse_items f l2); reflexivity.
Qed.

(** *** The update schema on a patch of [ops], and of [launch] and [ops] *)

Lemma validateUpdate_ops (pof : props) :
  Zod.parse lib Zod.updateLaunchPackSchema (VObj [("ops", VObj pof)]) =
  match Zod.parse lib Zod.opsSchema (VObj pof) with
  | Some y => Some (VObj [("ops", y)])
  | None => None
  end.
Proof.
  unfold Zod.updateLaunchPackSchema. rewrite parse_object.
  change (Zod.unrecognized_keys _ [("ops", VObj pof)]) with (@nil string).
  unfold Zod.launchPack_shape.
  remember Zod.opsSchema as O eqn:EO. remember Zod.launchSchema as L eqn:EL.
  simpl.
  change (get (VObj [("ops", VObj pof)]) "ops") with (VObj pof).
  destruct (Zod.parse lib O (VObj pof)) as [y|]; reflexivity.
Qed.

Lemma validateUpdate_launch_ops (plf pof : props) :
  Zod.parse lib Zod.updateLaunchPackSchema
    (VObj [("launch", VObj plf); ("ops", VObj pof)]) =
  match Zod.parse lib Zod.launchSchema (VObj plf),
        Zod.parse lib Zod.opsSchema (VObj pof) with
  | Some l, Some o => Some (VObj [("launch", l); ("ops", o)])
  | _, _ => None
  end.
Proof.
  unfold Zod.updateLaunchPackSchema. rewrite parse_object.
  change (Zod.unrecognized_keys _ [("launch", VObj plf); ("ops", VObj pof)])
    with (@nil string).
  unfold Zod.launchPack_shape.
  remember Zod.opsSchema as O eqn:EO. remember Zod.launchSchema as L eqn:EL.
  simpl.
  change (get (VObj [("launch", VObj plf); ("ops", VObj pof)]) "ops") with (VObj pof).
  change (get (VObj [("launch", VObj plf); ("ops", VObj pof)]) "launch") with (VObj plf).
  destruct (Zod.parse lib L (VObj plf)) as [l|];
    destruct (Zod.parse lib O (VObj pof)) as [o|]; reflexivity.
Qed.

End ZodPatches.

(** ** Runs of the orchestrators on the in-memory store *)

(** [publish] on either channel. *)
Definition publish {S : Type} `{Host} `{LaunchPackStore S} (key : channel)
    (out : outside) (env : LaunchkitEnv) (id : string) (force : bool) : M S value :=
  match key with
  | Tg => tg_publish out env id force
  | X => x_publish out env id force
  end.

Section MemRuns.
Context {host : Host}.
Variable out : outside.
Variable env : LaunchkitEnv.
Variable options : PumpLauncherOptions.

Local Open Scope orch_scope.

Definition tg_guarded (id : string) (claim : value) : M Mem.store value :=
  guarded out id (tg_publish_steps out env claim) (tg_published_patch claim)
    (fun _ => nowIsoM out) (tg_failed_patch claim).

Definition x_guarded (id : string) (claim : value) : M Mem.store value :=
  guarded out id (x_publish_steps out claim) (x_published_patch claim)
    (fun _ => nowIsoM out) (x_failed_patch claim).

Definition launch_guarded (id : string) (claim : value) (caps : CapsResult)
    (slippage : Z) : M Mem.store value :=
  guarded out id (launch_steps out claim caps slippage) launched_patch
    (launch_failure_steps out claim) (launch_failure_patch claim).

Definition readyKey (key : channel) : string :=
  match key with Tg => "tg_ready" | X => "x_ready" end.
Definition publishedAtKey (key : channel) : string :=
  match key with Tg => "tg_published_at" | X => "x_published_at" end.

(** The channel is enabled and fully configured. *)
Definition gate (key : channel) : Prop :=
  match key with
  | Tg => TG_ENABLE env = VStr "true" /\ truthy (TG_BOT_TOKEN env) = true
          /\ truthy (TG_CHAT_ID env) = true
  | X => X_ENABLE env = VStr "true" /\ truthy (X_API_KEY env) = true
         /\ truthy (X_API_SECRET env) = true /\ truthy (X_ACCESS_TOKEN env) = true
         /\ truthy (X_ACCESS_SECRET env) = true
  end.

Definition ready (key : channel) (pack : value) : Prop :=
  truthy (get (get (get pack "ops") "checklist") (readyKey key)) = true.

(** The record is stored under [id], its checklist is ready, and its
    publish on the channel is recorded as done. *)
Definition settled (key : channel) (st : Mem.store) (id : string) (rec : value) : Prop :=
  Mem.get_pack st id = rec /\ truthy rec = true /\ ready key rec /\
  truthy (get (get rec "ops") (publishedAtKey key)) = true /\
  channel_status key rec = VStr "published".

Lemma missing_nil (name : string) (v : value) : missing name v = [] -> truthy v = true.
Proof. unfold missing. destruct (truthy v); [reflexivity|discriminate]. Qed.

Lemma missing_of_truthy (name : string) (v : value) : truthy v = true -> missing name v = [].
Proof. unfold missing. now intros ->. Qed.

(** A call either writes nothing, or wins the claim and then runs the
    guarded part on the store that holds the claimed record. *)
Lemma tg_publish_claimed (id : string) (force : bool) (w w' : world Mem.store)
    (r : outcome value) :
  gate Tg ->
  truthy (Mem.get_pack (w_store w) id) = true ->
  Mem.get_pack (w_store w) id = Mem.Map_get (w_store w) id ->
  truthy (get (get (get (Mem.get_pack (w_store w) id) "ops") "checklist") "tg_ready")
    = true ->
  (requested_at <- nowIsoM out ;;
   claim <- claimPublishM (store := MemStore) out Tg id requested_at force ;;
   if negb (truthy claim)
   then throw (errorWithCode "TG_PUBLISH_IN_PROGRESS"
                 "Telegram publish already in progress")
   else try_catch (tg_publish_body out env id claim) (tg_publish_failed out id claim)) w = (r, w') ->
  (w_store w' = w_store w /\
   forall rec, r = Ok rec -> w' = w /\ force = false /\ gate Tg
                             /\ settled Tg (w_store w) id rec) \/
  exists t0 now w1,
    gate Tg /\
    truthy (Mem.Map_get (w_store w) id) = true /\
    ready Tg (Mem.Map_get (w_store w) id) /\
    w_store w1 = Mem.Map_set (w_store w) id
                   (claimPublish_result Tg (toISOString t0) now (Mem.Map_get (w_store w) id)) /\
    w_calls w1 = w_calls w /\
    tg_guarded id (claimPublish_result Tg (toISOString t0) now (Mem.Map_get (w_store w) id)) w1
      = (r, w').
Proof.
  intros G Tp Eg Rd.
  unfold bind at 1. unfold nowIsoM at 1, bind at 1, read_clock at 1. cbv beta iota.
  unfold ret at 1. unfold bind at 1. unfold claimPublishM, with_store. simpl w_store.
  simpl store_claimPublish.
  destruct (Mem_claimPublish_either Tg (w_store w) id (toISOString (clock out (w_reads w)))
              force (clock out (Datatypes.S (w_reads w)))) as [E|[T E]].
  - simpl w_reads. rewrite E. simpl.
    intros H; inversion H; left; split; [reflexivity|discriminate].
  - simpl w_reads. rewrite E. cbv beta iota.
    assert (Tc : truthy (claimPublish_result Tg (toISOString (clock out (w_reads w)))
                           (clock out (Datatypes.S (w_reads w)))
                           (Mem.Map_get (w_store w) id)) = true).
    { unfold claimPublish_result. rewrite spread_with_fields. reflexivity. }
    rewrite Tc. cbv beta iota delta [negb].
    intros H. right.
    exists (clock out (w_reads w)), (clock out (Datatypes.S (w_reads w))).
    eexists (mkWorld _ _ _ _).
    split; [exact G|]. split; [exact T|].
    split; [unfold ready; simpl readyKey; now rewrite <- Eg|].
    split; [reflexivity|]. split; [reflexivity|exact H].
Qed.

Lemma tg_publish_run (id : string) (force : bool) (w w' : world Mem.store)
    (r : outcome value) :
  tg_publish (store := MemStore) out env id force w = (r, w') ->
  (w_store w' = w_store w /\
   forall rec, r = Ok rec -> w' = w /\ force = false /\ gate Tg
                             /\ settled Tg (w_store w) id rec) \/
  exists t0 now w1,
    gate Tg /\
    truthy (Mem.Map_get (w_store w) id) = true /\
    ready Tg (Mem.Map_get (w_store w) id) /\
    w_store w1 = Mem.Map_set (w_store w) id
                   (claimPublish_result Tg (toISOString t0) now (Mem.Map_get (w_store w) id)) /\
    w_calls w1 = w_calls w /\
    tg_guarded id (claimPublish_result Tg (toISOString t0) now (Mem.Map_get (w_store w) id)) w1
      = (r, w').
Proof.
  unfold tg_publish.
  destruct (is_str (TG_ENABLE env) "true") eqn:En; cbv beta iota delta [negb];
    [|intros H; inversion H; left; split; [reflexivity|discriminate]].
  apply is_str_true in En.
  destruct (_ ++ _)%list eqn:Em;
    [|intros H; inversion H; left; split; [reflexivity|discriminate]].
  assert (G : gate Tg).
  { simpl. split; [exact En|].
    apply app_eq_nil in Em. destruct Em as [E1 E2].
    split; eapply missing_nil; eassumption. }
  unfold bind at 1. unfold getM at 1. cbv beta iota.
  change (store_get (w_store w) id) with (Mem.get_pack (w_store w) id).
  destruct (truthy (Mem.get_pack (w_store w) id)) eqn:Tp; cbv beta iota delta [negb];
    [|intros H; inversion H; left; split; [reflexivity|discriminate]].
  assert (Eg : Mem.get_pack (w_store w) id = Mem.Map_get (w_store w) id).
  { unfold Mem.get_pack, or_else in *.
    destruct (truthy (Mem.Map_get (w_store w) id)); [reflexivity|discriminate]. }
  destruct (truthy (get (get (get (Mem.get_pack (w_store w) id) "ops") "checklist")
                      "tg_ready")) eqn:Rd; cbv beta iota delta [negb];
    [|intros H; inversion H; left; split; [reflexivity|discriminate]].
  destruct (truthy (get (get (Mem.get_pack (w_store w) id) "ops") "tg_published_at"))
    eqn:Pa; cbv beta iota delta [andb].
  - destruct (is_str (get (get (Mem.get_pack (w_store w) id) "ops") "tg_publish_status")
                "published") eqn:Ps; cbv beta iota delta [andb].
    + destruct force; cbv beta iota delta [negb].
      * apply tg_publish_claimed; assumption.
      * intros H; inversion H; subst. left. split; [reflexivity|].
        intros rec Hr; inversion Hr; subst.
        split; [reflexivity|]. split; [reflexivity|]. split; [exact G|].
        unfold settled, ready, channel_status. simpl readyKey.
        simpl publishedAtKey. simpl statusKey.
        split; [reflexivity|]. split; [assumption|]. split; [assumption|].
        split; [assumption|]. now apply is_str_true.
    + apply tg_publish_claimed; assumption.
  - apply tg_publish_claimed; assumption.
Qed.

Lemma x_publish_claimed (id : string) (force : bool) (w w' : world Mem.store)
    (r : outcome value) :
  gate X ->
  truthy (Mem.get_pack (w_store w) id) = true ->
  Mem.get_pack (w_store w) id = Mem.Map_get (w_store w) id ->
  truthy (get (get (get (Mem.get_pack (w_store w) id) "ops") "checklist") "x_ready")
    = true ->
  (requested_at <- nowIsoM out ;;
   claim <- claimPublishM (store := MemStore) out X id requested_at force ;;
   if negb (truthy claim)
   then throw (errorWithCode "X_PUBLISH_IN_PROGRESS"
                 "X publish already in progress")
   else try_catch (x_publish_body out id claim) (x_publish_failed out id claim)) w = (r, w') ->
  (w_store w' = w_store w /\
   forall rec, r = Ok rec -> w' = w /\ force = false /\ gate X
                             /\ settled X (w_store w) id rec) \/
  exists t0 now w1,
    gate X /\
    truthy (Mem.Map_get (w_store w) id) = true /\
    ready X (Mem.Map_get (w_store w) id) /\
    w_store w1 = Mem.Map_set (w_store w) id
                   (claimPublish_result X (toISOString t0) now (Mem.Map_get (w_store w) id)) /\
    w_calls w1 = w_calls w /\
    x_guarded id (claimPublish_result X (toISOString t0) now (Mem.Map_get (w_store w) id)) w1
      = (r, w').
Proof.
  intros G Tp Eg Rd.
  unfold bind at 1. unfold nowIsoM at 1, bind at 1, read_clock at 1. cbv beta iota.
  unfold ret at 1. unfold bind at 1. unfold claimPublishM, with_store. simpl w_store.
  simpl store_claimPublish.
  destruct (Mem_claimPublish_either X (w_store w) id (toISOString (clock out (w_reads w)))
              force (clock out (Datatypes.S (w_reads w)))) as [E|[T E]].
  - simpl w_reads. rewrite E. simpl.
    intros H; inversion H; left; split; [reflexivity|discriminate].
  - simpl w_reads. rewrite E. cbv beta iota.
    assert (Tc : truthy (claimPublish_result X (toISOString (clock out (w_reads w)))
                           (clock out (Datatypes.S (w_reads w)))
                           (Mem.Map_get (w_store w) id)) = true).
    { unfold claimPublish_result. rewrite spread_with_fields. reflexivity. }
    rewrite Tc. cbv beta iota delta [negb].
    intros H. right.
    exists (clock out (w_reads w)), (clock out (Datatypes.S (w_reads w))).
    eexists (mkWorld _ _ _ _).
    split; [exact G|]. split; [exact T|].
    split; [unfold ready; simpl readyKey; now rewrite <- Eg|].
    split; [reflexivity|]. split; [reflexivity|exact H].
Qed.

Lemma x_publish_run (id : string) (force : bool) (w w' : world Mem.store)
    (r : outcome value) :
  x_publish (store := MemStore) out env id force w = (r, w') ->
  (w_store w' = w_store w /\
   forall rec, r = Ok rec -> w' = w /\ force = false /\ gate X
                             /\ settled X (w_store w) id rec) \/
  exists t0 now w1,
    gate X /\
    truthy (Mem.Map_get (w_store w) id) = true /\
    ready X (Mem.Map_get (w_store w) id) /\
    w_store w1 = Mem.Map_set (w_store w) id
                   (claimPublish_result X (toISOString t0) now (Mem.Map_get (w_store w) id)) /\
    w_calls w1 = w_calls w /\
    x_guarded id (claimPublish_result X (toISOString t0) now (Mem.Map_get (w_store w) id)) w1
      = (r, w').
Proof.
  unfold x_publish.
  destruct (is_str (X_ENABLE env) "true") eqn:En; cbv beta iota delta [negb];
    [|intros H; inversion H; left; split; [reflexivity|discriminate]].
  apply is_str_true in En.
  destruct (_ ++ _)%list eqn:Em;
    [|intros H; inversion H; left; split; [reflexivity|discriminate]].
  assert (G : gate X).
  { simpl. split; [exact En|].
    apply app_eq_nil in Em. destruct Em as [E1 Em].
    apply app_eq_nil in Em. destruct Em as [E2 Em].
    apply app_eq_nil in Em. destruct Em as [E3 E4].
    repeat split; eapply missing_nil; eassumption. }
  unfold bind at 1. unfold getM at 1. cbv beta iota.
  change (store_get (w_store w) id) with (Mem.get_pack (w_store w) id).
  destruct (truthy (Mem.get_pack (w_store w) id)) eqn:Tp; cbv beta iota delta [negb];
    [|intros H; inversion H; left; split; [reflexivity|discriminate]].
  assert (Eg : Mem.get_pack (w_store w) id = Mem.Map_get (w_store w) id).
  { unfold Mem.get_pack, or_else in *.
    destruct (truthy (Mem.Map_get (w_store w) id)); [reflexivity|discriminate]. }
  destruct (truthy (get (get (get (Mem.get_pack (w_store w) id) "ops") "checklist")
                      "x_ready")) eqn:Rd; cbv beta iota delta [negb];
    [|intros H; inversion H; left; split; [reflexivity|discriminate]].
  destruct (truthy (get (get (Mem.get_pack (w_store w) id) "ops") "x_published_at"))
    eqn:Pa; cbv beta iota delta [andb].
  - destruct (is_str (get (get (Mem.get_pack (w_store w) id) "ops") "x_publish_status")
                "published") eqn:Ps; cbv beta iota delta [andb].
    + destruct force; cbv beta iota delta [negb].
      * apply x_publish_claimed; assumption.
      * intros H; inversion H; subst. left. split; [reflexivity|].
        intros rec Hr; inversion Hr; subst.
        split; [reflexivity|]. split; [reflexivity|]. split; [exact G|].
        unfold settled, ready, channel_status. simpl readyKey.
        simpl publishedAtKey. simpl statusKey.
        split; [reflexivity|]. split; [assumption|]. split; [assumption|].
        split; [assumption|]. now apply is_str_true.
    + apply x_publish_claimed; assumption.
  - apply x_publish_claimed; assumption.
Qed.

Lemma launch_run (id : string) (force : bool) (w w' : world Mem.store)
    (r : outcome value) :
  launch (store := MemStore) out env options id force w = (r, w') ->
  w_store w' = w_store w \/
  exists t0 now w1 caps slippage,
    truthy (Mem.Map_get (w_store w) id) = true /\
    w_store w1 = Mem.Map_set (w_store w) id
                   (claimLaunch_result (toISOString t0) "ready" now (Mem.Map_get (w_store w) id)) /\
    launch_guarded id
      (claimLaunch_result (toISOString t0) "ready" now (Mem.Map_get (w_store w) id))
      caps slippage w1 = (r, w').
Proof.
  unfold launch.
  unfold bind at 1. unfold getM at 1. cbv beta iota.
  destruct (negb (truthy (store_get (w_store w) id))); [intros H; inversion H; now left|].
  destruct (is_str _ "launched"); [intros H; inversion H; now left|].
  unfold bind at 1.
  destruct (ensureLaunchAllowed out env (store_get (w_store w) id) force w)
    as [[[]|e] w0] eqn:Ea;
    pose proof (quiet_ensureLaunchAllowed out env _ _ _ _ _ Ea) as S0;
    [|intros H; inversion H; subst; now left].
  unfold bind at 1.
  destruct (enforceCaps env options) as [caps|e]; simpl lift_outcome;
    [|intros H; inversion H; subst; now left].
  unfold ret at 1. cbv beta iota. unfold bind at 1.
  destruct (resolveSlippage env) as [slippage|e]; simpl lift_outcome;
    [|intros H; inversion H; subst; now left].
  unfold ret at 1. cbv beta iota.
  unfold bind at 1. unfold nowIsoM at 1, bind at 1, read_clock at 1. cbv beta iota.
  unfold ret at 1. unfold bind at 1. unfold claimLaunchM, with_store. simpl w_store.
  simpl store_claimLaunch.
  destruct (Mem_claimLaunch_either (w_store w0) id (toISOString (clock out (w_reads w0)))
              "ready" (clock out (Datatypes.S (w_reads w0)))) as [E|[T E]].
  - simpl w_reads. rewrite E. simpl. intros H; inversion H; subst; now left.
  - simpl w_reads. rewrite E. cbv beta iota.
    assert (Tc : truthy (claimLaunch_result (toISOString (clock out (w_reads w0))) "ready"
                           (clock out (Datatypes.S (w_reads w0)))
                           (Mem.Map_get (w_store w0) id)) = true).
    { unfold claimLaunch_result. rewrite spread_with_fields. reflexivity. }
    rewrite Tc. cbv beta iota delta [negb]. rewrite S0 in *.
    intros H. right.
    exists (clock out (w_reads w0)), (clock out (Datatypes.S (w_reads w0))).
    eexists (mkWorld _ _ _ _). exists caps, slippage.
    split; [exact T|]. split; [|exact H].
    reflexivity.
Qed.

End MemRuns.

(** ** What the remote steps return *)

(** The log [appendAudit] extends: the entries of the stored log as the
    schema reads them (none when the log is rejected). *)
Definition parsed_log `{Host} (log : value) : list value :=
  match parseAuditLog (or_else log (VArr [])) with
  | Some l => l
  | None => []
  end.

Definition audit_entry `{Host} (t : Z) (message : string) : value :=
  VObj [("at", VStr (toISOString t)); ("message", VStr message); ("actor", VStr "eliza")].

Section Shapes.
Context {host : Host} {S : Type} {store : LaunchPackStore S}.
Variable out : outside.
Variable env : LaunchkitEnv.

Local Open Scope orch_scope.

Lemma bind_Ok {A B} (m : M S A) (k : A -> M S B) (w w' : world S) (b : B) :
  bind m k w = (Ok b, w') ->
  exists a w1, m w = (Ok a, w1) /\ k a w1 = (Ok b, w').
Proof.
  unfold bind. destruct (m w) as [[a|e] w1]; [|discriminate].
  intros H. now exists a, w1.
Qed.

Lemma nowIsoM_Ok (w w' : world S) (s : string) :
  nowIsoM out w = (Ok s, w') -> exists t, s = toISOString t.
Proof. intros H. inversion H. eexists; reflexivity. Qed.

Lemma appendAudit_Ok (log : value) (message actor : string) (w w' : world S)
    (l : list value) :
  appendAudit out log message actor w = (Ok l, w') ->
  exists t,
    l = ((match parseAuditLog (or_else log (VArr [])) with Some p => p | None => [] end)
           ++ [VObj [("at", VStr (toISOString t)); ("message", VStr message);
                     ("actor", VStr actor)]])%list.
Proof. intros H. inversion H. eexists; reflexivity. Qed.

(** Peels one step of a run that ended in [Ok]. *)
Ltac step_ok H :=
  first
    [ match type of H with
      | bind _ _ _ = (Ok _, _) =>
          let a := fresh "a" in let w1 := fresh "w" in let Hm := fresh "Hm" in
          apply bind_Ok in H; destruct H as (a & w1 & Hm & H)
      | throw _ _ = (Ok _, _) => discriminate H
      | lift_outcome ?o _ = (Ok _, _) => destruct o; simpl lift_outcome in H
      | (if ?b then _ else _) _ = (Ok _, _) => destruct b eqn:?
      | (let '(_, _) := ?x in _) _ = (Ok _, _) => destruct x
      | (match ?x with _ => _ end) _ = (Ok _, _) => destruct x eqn:?
      end ].

Lemma tg_publish_steps_Ok (claim : value) (w w' : world S) (p : published) :
  tg_publish_steps out env claim w = (Ok p, w') ->
  (exists t, pub_at p = toISOString t) /\
  (exists t, pub_audit p =
             (parsed_log (get (get claim "ops") "audit_log")
                ++ [audit_entry t "Telegram publish complete"])%list).
Proof.
  unfold tg_publish_steps. intros H.
  do 5 step_ok H.
  apply nowIsoM_Ok in Hm3. destruct Hm3 as [t ->].
  step_ok H. apply appendAudit_Ok in Hm3. destruct Hm3 as [ta ->].
  unfold ret in H. injection H as <- _. split; [now exists t|now exists ta].
Qed.

Lemma x_publish_steps_Ok (claim : value) (w w' : world S) (p : published) :
  x_publish_steps out claim w = (Ok p, w') ->
  (exists t, pub_at p = toISOString t) /\
  (exists t, pub_audit p =
             (parsed_log (get (get claim "ops") "audit_log")
                ++ [audit_entry t "X publish complete"])%list).
Proof.
  unfold x_publish_steps. intros H.
  do 5 step_ok H.
  apply nowIsoM_Ok in Hm3. destruct Hm3 as [t ->].
  step_ok H. apply appendAudit_Ok in Hm3. destruct Hm3 as [ta ->].
  unfold ret in H. injection H as <- _. split; [now exists t|now exists ta].
Qed.

(** The members [createTokenOnPumpPortal] sets on a successful launch. *)
Definition launched_sets (sig mint : value) (completedAt launchedAt : string)
    (pack : value) : props :=
  [("status", VStr "launched");
   ("tx_signature", sig);
   ("mint", mint);
   ("pump_url", buildPumpUrl sig);
   ("completed_at", VStr completedAt);
   ("launched_at", VStr launchedAt);
   ("requested_at", get (get pack "launch") "requested_at");
   ("error_code", VUndef);
   ("error_message", VUndef)].

Lemma createTokenOnPumpPortal_Ok (pack uri : value) (caps : CapsResult) (wallet : value)
    (slippage : Z) (w w' : world S) (launched : value) :
  createTokenOnPumpPortal out pack uri caps wallet slippage w = (Ok launched, w') ->
  exists sig mint completedAt launchedAt t,
    launched =
    spread_with pack
      [("launch",
        spread_with (or_else (get pack "launch") (VObj []))
          (launched_sets sig mint completedAt launchedAt pack));
       ("ops",
        spread_with (or_else (get pack "ops") (VObj []))
          [("audit_log",
            VArr (parsed_log (get (get pack "ops") "audit_log")
                    ++ [audit_entry t "Pump launch complete"])%list)])].
Proof.
  unfold createTokenOnPumpPortal. intros H.
  step_ok H. destruct a as [mintSecret mintPublic].
  step_ok H; [discriminate H|].
  step_ok H.
  destruct a as [e|res]; [discriminate H|].
  step_ok H; [discriminate H|].
  step_ok H; [discriminate H|].
  step_ok H; [|discriminate H].
  step_ok H; [discriminate H|].
  do 3 step_ok H.
  apply appendAudit_Ok in Hm3. destruct Hm3 as [t ->].
  unfold ret in H. injection H as <- _.
  do 5 eexists. reflexivity.
Qed.

Lemma launch_steps_Ok (claim : value) (caps : CapsResult) (slippage : Z)
    (w w' : world S) (launched : value) :
  launch_steps out claim caps slippage w = (Ok launched, w') ->
  exists sig mint completedAt launchedAt t,
    launched =
    spread_with claim
      [("launch",
        spread_with (or_else (get claim "launch") (VObj []))
          (launched_sets sig mint completedAt launchedAt claim));
       ("ops",
        spread_with (or_else (get claim "ops") (VObj []))
          [("audit_log",
            VArr (parsed_log (get (get claim "ops") "audit_log")
                    ++ [audit_entry t "Pump launch complete"])%list)])].
Proof.
  unfold launch_steps. intros H.
  do 2 step_ok H.
  now apply createTokenOnPumpPortal_Ok in H.
Qed.

Lemma launch_failure_steps_Ok (claim : value) (err : error) (w w' : world S)
    (f : string * list value) :
  launch_failure_steps out claim err w = (Ok f, w') ->
  exists t t',
    fst f = toISOString t /\
    snd f =
    (parsed_log (get (get claim "ops") "audit_log")
       ++ [audit_entry t' ("Launch failed: " ++ err_message err)])%list.
Proof. intros H. inversion H. do 2 eexists. split; reflexivity. Qed.

End Shapes.

(** ** The state an orchestrator leaves behind after a won claim *)

Lemma truthy_deepMerge (base a : value) :
  truthy a = true -> truthy (deepMerge base a) = true.
Proof.
  destruct a; simpl; try discriminate; try (intros; assumption); try reflexivity.
  intros _. destruct (typeof_object base && negb (nullish base)); reflexivity.
Qed.

Lemma truthy_or_else (a b : value) : truthy b = true -> truthy (or_else a b) = true.
Proof. unfold or_else. destruct (truthy a) eqn:E; auto. Qed.

(** ** What a validated patch of the orchestrators stores *)

Section ZodStored.
Context {host : Host}.
Variable lib : Zod.ZodLib.

(** The validators are the schemas. *)
Hypothesis Hzod :
  forall p, validateUpdate p = Zod.parse_or_throw lib Zod.updateLaunchPackSchema p.

(** [{...member, sets}[k]]. *)
Definition patched (member : value) (sets : props) (k : string) : value :=
  match lookup k (rev sets) with
  | Some x => x
  | None => get member k
  end.

(** The stored member after an update whose patch spread [member] and set
    [sets]: each of its members is the claimed one merged with what the
    schema made of the patched one. *)
Definition stored_as (shape : list (string * Zod.schema)) (member : value)
    (sets : props) (stored : value) : Prop :=
  forall k sk, In (k, sk) shape ->
    exists y, Zod.parse lib sk (patched member sets k) = Some y /\
              get stored k = deepMerge (get member k) y.

Definition ops_patch (claim : value) (sets : props) : value :=
  VObj [("ops", spread_with (or_else (get claim "ops") (VObj [])) sets)].

Definition launch_ops_patch (claim : value) (lsets osets : props) : value :=
  VObj [("launch", spread_with (or_else (get claim "launch") (VObj [])) lsets);
        ("ops", spread_with (or_else (get claim "ops") (VObj [])) osets)].

Lemma ops_shape_NoDup : NoDup (map fst Zod.ops_shape).
Proof. apply distinct_NoDup. reflexivity. Qed.

Lemma launch_shape_NoDup : NoDup (map fst Zod.launch_shape).
Proof. apply distinct_NoDup. reflexivity. Qed.

Lemma stored_member (shape : list (string * Zod.schema)) (cf cmf ps os sets : props)
    (m id : string) (t : Z) :
  NoDup (map fst shape) ->
  get (VObj cf) m = VObj cmf -> NoDup (keys ps) ->
  get (VObj ps) m = VObj os ->
  Zod.parse_members lib shape (spread_fields (VObj cmf) sets) = Some os ->
  m <> "id" -> m <> "updated_at" -> m <> "version" ->
  stored_as shape (VObj cmf) sets (get (stamp (VObj cf) (VObj ps) id t) m).
Proof.
  intros NDs E NDp Eo Hp N1 N2 N3 k sk Hin.
  destruct (parse_members_get lib shape _ os k sk NDs Hp Hin) as (y & Ey & Gy).
  exists y. split.
  - unfold patched. now rewrite <- get_spread_fields.
  - rewrite (member_after_update cf cmf ps os m id t k E NDp Eo
               (parse_members_NoDup lib shape _ os NDs Hp) N1 N2 N3).
    now rewrite Gy.
Qed.

Lemma ops_patch_outcome (cf cof sets : props) (id : string) (t : Z) :
  get (VObj cf) "ops" = VObj cof ->
  match validateUpdate (ops_patch (VObj cf) sets) with
  | Ok parsed =>
      stored_as Zod.ops_shape (VObj cof) sets (get (stamp (VObj cf) parsed id t) "ops") /\
      truthy (stamp (VObj cf) parsed id t) = true
  | Throw e =>
      e = Zod.ZodError lib (ops_patch (VObj cf) sets) /\
      Zod.parse lib Zod.opsSchema (VObj (spread_fields (VObj cof) sets)) = None
  end.
Proof.
  intros Eo. rewrite Hzod. unfold Zod.parse_or_throw, ops_patch.
  rewrite Eo. simpl or_else. rewrite spread_with_fields, validateUpdate_ops.
  unfold Zod.opsSchema. rewrite !parse_object.
  destruct (Zod.unrecognized_keys Zod.ops_shape _); [|split; reflexivity].
  destruct (Zod.parse_members lib Zod.ops_shape _) as [os|] eqn:Ep; [|split; reflexivity].
  split; [|reflexivity].
  apply (stored_member Zod.ops_shape cf cof [("ops", VObj os)] os sets "ops" id t);
    try discriminate; try assumption.
  - apply ops_shape_NoDup.
  - repeat constructor. simpl. tauto.
  - reflexivity.
Qed.

Lemma launch_ops_patch_outcome (cf clf cof lsets osets : props) (id : string) (t : Z) :
  get (VObj cf) "launch" = VObj clf ->
  get (VObj cf) "ops" = VObj cof ->
  match validateUpdate (launch_ops_patch (VObj cf) lsets osets) with
  | Ok parsed =>
      stored_as Zod.launch_shape (VObj clf) lsets
        (get (stamp (VObj cf) parsed id t) "launch") /\
      stored_as Zod.ops_shape (VObj cof) osets (get (stamp (VObj cf) parsed id t) "ops") /\
      truthy (stamp (VObj cf) parsed id t) = true
  | Throw e =>
      e = Zod.ZodError lib (launch_ops_patch (VObj cf) lsets osets) /\
      (Zod.parse lib Zod.launchSchema (VObj (spread_fields (VObj clf) lsets)) = None \/
       Zod.parse lib Zod.opsSchema (VObj (spread_fields (VObj cof) osets)) = None)
  end.
Proof.
  intros El Eo. rewrite Hzod. unfold Zod.parse_or_throw, launch_ops_patch.
  rewrite El, Eo. simpl or_else. rewrite !spread_with_fields, validateUpdate_launch_ops.
  unfold Zod.opsSchema, Zod.launchSchema. rewrite !parse_object.
  destruct (Zod.unrecognized_keys Zod.launch_shape _); [|split; [reflexivity|now left]].
  destruct (Zod.parse_members lib Zod.launch_shape _) as [ls|] eqn:Epl;
    [|split; [reflexivity|now left]].
  destruct (Zod.unrecognized_keys Zod.ops_shape _); [|split; [reflexivity|now right]].
  destruct (Zod.parse_members lib Zod.ops_shape _) as [os|] eqn:Ep;
    [|split; [reflexivity|now right]].
  assert (NDp : NoDup (keys [("launch", VObj ls); ("ops", VObj os)]))
    by (repeat constructor; simpl; intuition discriminate).
  split; [|split; [|reflexivity]].
  - apply (stored_member Zod.launch_shape cf clf [("launch", VObj ls); ("ops", VObj os)]
             ls lsets "launch" id t);
      try discriminate; try assumption; [apply launch_shape_NoDup|reflexivity].
  - apply (stored_member Zod.ops_shape cf cof [("launch", VObj ls); ("ops", VObj os)]
             os osets "ops" id t);
      try discriminate; try assumption; [apply ops_shape_NoDup|reflexivity].
Qed.

End ZodStored.

(** ** The three ends of an orchestrator's run after a won claim *)

Section ZodRuns.
Context {host : Host}.
Variable lib : Zod.ZodLib.
Variable out : outside.
Variable env : LaunchkitEnv.

Hypothesis Hzod :
  forall p, validateUpdate p = Zod.parse_or_throw lib Zod.updateLaunchPackSchema p.

Local Open Scope orch_scope.

Definition default_code (key : channel) : string :=
  match key with Tg => "TG_PUBLISH_FAILED" | X => "X_PUBLISH_FAILED" end.

(** The members of [ops] that a publisher sets after a success, and after
    a failure. *)
Definition published_sets (key : channel) (claim : value) (p : published) : props :=
  match key with
  | Tg =>
      [("checklist",
        spread_with (or_else (get (get claim "ops") "checklist") (VObj []))
          [("tg_published", VBool true)]);
       ("tg_publish_status", VStr "published");
       ("tg_published_at", VStr (pub_at p));
       ("tg_message_ids", VArr (pub_ids p));
       ("tg_schedule_intent", VArr (pub_intent p));
       ("tg_publish_error_code", VNull);
       ("tg_publish_error_message", VNull);
       ("audit_log", VArr (pub_audit p))]
  | X =>
      [("checklist",
        spread_with (or_else (get (get claim "ops") "checklist") (VObj []))
          [("x_published", VBool true)]);
       ("x_publish_status", VStr "published");
       ("x_published_at", VStr (pub_at p));
       ("x_post_ids", VArr (pub_ids p));
       ("x_tweet_ids", VArr (pub_ids p));
       ("x_schedule_intent", VArr (pub_intent p));
       ("x_publish_error_code", VNull);
       ("x_publish_error_message", VNull);
       ("audit_log", VArr (pub_audit p))]
  end.

Definition failed_sets (key : channel) (err : error) (failedAt : string) : props :=
  [(statusKey key, VStr "failed");
   (failedAtKey key, VStr failedAt);
   (errorCodeKey key, or_else (err_code err) (VStr (default_code key)));
   (errorMessageKey key, VStr (err_message err))].

Definition launch_failed_sets (err : error) (failedAt : string) : props :=
  [("status", VStr "failed");
   ("failed_at", VStr failedAt);
   ("error_code", or_else (err_code err) (VStr "LAUNCH_FAILED"));
   ("error_message", VStr (err_message err))].

Definition publish_steps (key : channel) (claim : value) : M Mem.store published :=
  match key with
  | Tg => tg_publish_steps out env claim
  | X => x_publish_steps out claim
  end.

Definition publish_guarded (key : channel) (id : string) (claim : value)
  : M Mem.store value :=
  match key with
  | Tg => tg_guarded out env id claim
  | X => x_guarded out id claim
  end.

Lemma publish_guarded_eq (key : channel) (id : string) (claim : value) :
  publish_guarded key id claim =
  guarded out id (publish_steps key claim)
    (fun p => ops_patch claim (published_sets key claim p))
    (fun _ => nowIsoM out)
    (fun e failedAt => ops_patch claim (failed_sets key e failedAt)).
Proof. destruct key; reflexivity. Qed.

Lemma quiet_publish_steps (key : channel) (claim : value) :
  quiet (publish_steps key claim).
Proof. destruct key; [apply quiet_tg_publish_steps|apply quiet_x_publish_steps]. Qed.

(** The error a publisher's [catch] block sees: thrown by a step, or by
    the schema on the patch that was to record the success. *)
Definition publish_thrown (key : channel) (claim : value) (w1 : world Mem.store)
    (e : error) : Prop :=
  (exists w2, publish_steps key claim w1 = (Throw e, w2)) \/
  (exists p, e = Zod.ZodError lib (ops_patch claim (published_sets key claim p))).

Lemma publish_guarded_cases (key : channel) (id requested_at : string) (now : Z)
    (existing : value) (w1 w' : world Mem.store) (r : outcome value) :
  pack_ok existing ->
  let claim := claimPublish_result key requested_at now existing in
  Mem.Map_get (w_store w1) id = claim ->
  publish_guarded key id claim w1 = (r, w') ->
  (exists p w2 rec,
      publish_steps key claim w1 = (Ok p, w2) /\
      r = Ok rec /\ w_store w' = Mem.Map_set (w_store w1) id rec /\
      truthy rec = true /\
      stored_as lib Zod.ops_shape (get claim "ops") (published_sets key claim p)
        (get rec "ops"))
  \/
  (exists e tf rec,
      publish_thrown key claim w1 e /\
      r = Throw e /\ w_store w' = Mem.Map_set (w_store w1) id rec /\
      truthy rec = true /\
      stored_as lib Zod.ops_shape (get claim "ops") (failed_sets key e (toISOString tf))
        (get rec "ops"))
  \/
  (exists e tf,
      publish_thrown key claim w1 e /\
      r = Throw (Zod.ZodError lib (ops_patch claim (failed_sets key e (toISOString tf)))) /\
      w_store w' = w_store w1 /\
      Zod.parse lib Zod.opsSchema
        (VObj (spread_fields (get claim "ops") (failed_sets key e (toISOString tf))))
      = None).
Proof.
  intros OK claim Eg H. subst claim.
  destruct (claimPublish_result_ok key requested_at now existing OK)
    as (cf & cof & obf & Ec & NDc & Eo & Eco & NDco & Ecof & _).
  assert (Tr : truthy (Mem.Map_get (w_store w1) id) = true) by (now rewrite Eg, Ec).
  rewrite publish_guarded_eq in H.
  apply guarded_run in H;
    [|apply quiet_publish_steps|intros; apply quiet_nowIsoM
     |intros; apply unfailing_nowIsoM|exact Tr].
  cbv zeta in H. rewrite Eg in H. rewrite Ec in *. rewrite Eco.
  destruct H as [(p & t & w2 & parsed & Hs & Hv & -> & Hst & _)
                |(e & y & w2 & w3 & Hc & Hh & Hcase)].
  - left. exists p, w2, (stamp (VObj cf) parsed id t).
    pose proof (ops_patch_outcome lib Hzod cf cof (published_sets key (VObj cf) p) id t Eco)
      as Ho.
    rewrite Hv in Ho. destruct Ho as [Ho Tp].
    repeat split; assumption.
  - right.
    assert (Ht : publish_thrown key (VObj cf) w1 e).
    { destruct Hc as [Hs|(p & w0 & Hs & Hv & _)]; [left; now exists w2|].
      right. exists p.
      pose proof (ops_patch_outcome lib Hzod cf cof (published_sets key (VObj cf) p) id 0
                    Eco) as Ho.
      rewrite Hv in Ho. now destruct Ho. }
    apply nowIsoM_Ok in Hh. destruct Hh as [tf ->].
    destruct Hcase as [(parsed & t & Hv & -> & Hst)|(e2 & Hv & -> & Hst)].
    + left. exists e, tf, (stamp (VObj cf) parsed id t).
      pose proof (ops_patch_outcome lib Hzod cf cof (failed_sets key e (toISOString tf))
                    id t Eco) as Ho.
      rewrite Hv in Ho. destruct Ho as [Ho Tp].
      repeat split; assumption.
    + right. exists e, tf.
      pose proof (ops_patch_outcome lib Hzod cf cof (failed_sets key e (toISOString tf))
                    id 0 Eco) as Ho.
      rewrite Hv in Ho. destruct Ho as [-> Hn].
      repeat split; assumption.
Qed.

End ZodRuns.

Section ZodLaunch.
Context {host : Host}.
Variable lib : Zod.ZodLib.
Variable out : outside.

Hypothesis Hzod :
  forall p, validateUpdate p = Zod.parse_or_throw lib Zod.updateLaunchPackSchema p.

Local Open Scope orch_scope.

(** The error the [catch] block of [launch] sees. *)
Definition launch_thrown (claim : value) (caps : CapsResult) (slippage : Z)
    (w1 : world Mem.store) (e : error) : Prop :=
  (exists w2, launch_steps out claim caps slippage w1 = (Throw e, w2)) \/
  (exists v, e = Zod.ZodError lib v).

Definition launch_audit (claim : value) (t : Z) (message : string) : props :=
  [("audit_log",
    VArr (parsed_log (get (get claim "ops") "audit_log") ++ [audit_entry t message])%list)].

Lemma launch_guarded_cases (id requested_at : string) (now : Z) (existing : value)
    (caps : CapsResult) (slippage : Z) (w1 w' : world Mem.store) (r : outcome value) :
  pack_ok existing ->
  let claim := claimLaunch_result requested_at "ready" now existing in
  Mem.Map_get (w_store w1) id = claim ->
  launch_guarded out id claim caps slippage w1 = (r, w') ->
  (exists sig mint completedAt launchedAt t rec,
      r = Ok rec /\ w_store w' = Mem.Map_set (w_store w1) id rec /\
      truthy rec = true /\
      stored_as lib Zod.launch_shape (get claim "launch")
        (launched_sets sig mint completedAt launchedAt claim) (get rec "launch") /\
      stored_as lib Zod.ops_shape (get claim "ops")
        (launch_audit claim t "Pump launch complete") (get rec "ops"))
  \/
  (exists e tf ta rec,
      launch_thrown claim caps slippage w1 e /\
      r = Throw e /\ w_store w' = Mem.Map_set (w_store w1) id rec /\
      truthy rec = true /\
      stored_as lib Zod.launch_shape (get claim "launch")
        (launch_failed_sets e (toISOString tf)) (get rec "launch") /\
      stored_as lib Zod.ops_shape (get claim "ops")
        (launch_audit claim ta ("Launch failed: " ++ err_message e)) (get rec "ops"))
  \/
  (exists e tf ta v,
      launch_thrown claim caps slippage w1 e /\
      r = Throw (Zod.ZodError lib v) /\
      w_store w' = w_store w1 /\
      (Zod.parse lib Zod.launchSchema
         (VObj (spread_fields (get claim "launch") (launch_failed_sets e (toISOString tf))))
       = None \/
       Zod.parse lib Zod.opsSchema
         (VObj (spread_fields (get claim "ops")
                  (launch_audit claim ta ("Launch failed: " ++ err_message e))))
       = None)).
Proof.
  intros OK claim Eg H. subst claim.
  destruct (claimLaunch_result_ok requested_at "ready" now existing OK)
    as (cf & clf & lf & Ec & NDc & El & Ecl & NDcl & Eclf & Eops).
  destruct OK as (_ & _ & (obf & Eo & NDo) & _).
  rewrite Eo in Eops.
  assert (Tr : truthy (Mem.Map_get (w_store w1) id) = true) by (now rewrite Eg, Ec).
  unfold launch_guarded in H.
  apply guarded_run in H;
    [|apply quiet_launch_steps|intros; apply quiet_launch_failure_steps
     |intros; apply unfailing_launch_failure_steps|exact Tr].
  cbv zeta in H. rewrite Eg in H. rewrite Ec in *. rewrite Ecl, Eops.
  assert (Hok : forall x w2,
             launch_steps out (VObj cf) caps slippage w1 = (Ok x, w2) ->
             exists sig mint completedAt launchedAt t,
               launched_patch x =
               launch_ops_patch (VObj cf)
                 (launched_sets sig mint completedAt launchedAt (VObj cf))
                 (launch_audit (VObj cf) t "Pump launch complete")).
  { intros x w2 Hs. apply launch_steps_Ok in Hs.
    destruct Hs as (sig & mint & ca & la & t & ->).
    exists sig, mint, ca, la, t.
    unfold launched_patch. rewrite !get_spread_with. reflexivity. }
  destruct H as [(x & t & w2 & parsed & Hs & Hv & -> & Hst & _)
                |(e & y & w2 & w3 & Hc & Hh & Hcase)].
  - left. destruct (Hok x w2 Hs) as (sig & mint & ca & la & ta & Ep).
    exists sig, mint, ca, la, ta, (stamp (VObj cf) parsed id t).
    pose proof (launch_ops_patch_outcome lib Hzod cf clf obf
                  (launched_sets sig mint ca la (VObj cf))
                  (launch_audit (VObj cf) ta "Pump launch complete") id t Ecl Eops) as Ho.
    rewrite <- Ep, Hv in Ho. destruct Ho as (Hl & Ho & Tp).
    repeat split; assumption.
  - right.
    assert (Ht : launch_thrown (VObj cf) caps slippage w1 e).
    { destruct Hc as [Hs|(x & w0 & Hs & Hv & _)]; [left; now exists w2|].
      right. rewrite Hzod in Hv. unfold Zod.parse_or_throw in Hv.
      destruct (Zod.parse lib _ _); [discriminate|]. injection Hv as <-. now eexists. }
    apply launch_failure_steps_Ok in Hh. destruct Hh as (tf & ta & Hf & Ha).
    assert (Ep : launch_failure_patch (VObj cf) e y =
                 launch_ops_patch (VObj cf) (launch_failed_sets e (toISOString tf))
                   (launch_audit (VObj cf) ta ("Launch failed: " ++ err_message e))).
    { unfold launch_failure_patch, launch_ops_patch, launch_failed_sets, launch_audit.
      now rewrite Hf, Ha. }
    destruct Hcase as [(parsed & t & Hv & -> & Hst)|(e2 & Hv & -> & Hst)].
    + left. exists e, tf, ta, (stamp (VObj cf) parsed id t).
      pose proof (launch_ops_patch_outcome lib Hzod cf clf obf
                    (launch_failed_sets e (toISOString tf))
                    (launch_audit (VObj cf) ta ("Launch failed: " ++ err_message e))
                    id t Ecl Eops) as Ho.
      rewrite <- Ep, Hv in Ho. destruct Ho as (Hl & Ho & Tp).
      repeat split; assumption.
    + right. exists e, tf, ta, (launch_failure_patch (VObj cf) e y).
      pose proof (launch_ops_patch_outcome lib Hzod cf clf obf
                    (launch_failed_sets e (toISOString tf))
                    (launch_audit (VObj cf) ta ("Launch failed: " ++ err_message e))
                    id 0 Ecl Eops) as Ho.
      rewrite <- Ep, Hv in Ho. destruct Ho as [-> Hn].
      repeat split; assumption.
Qed.

End ZodLaunch.

(** ** The audit log under the schema *)

Section ZodAudit.
Variable lib : Zod.ZodLib.

(** What the schema returned for an audit entry it accepts again, and
    returns as it is. *)
Lemma parse_audit_entry_idem (x y : value) :
  Zod.parse lib Zod.auditEntrySchema x = Some y ->
  Zod.parse lib Zod.auditEntrySchema y = Some y.
Proof.
  destruct x as [| | | | | |fs]; try discriminate.
  unfold Zod.auditEntrySchema. rewrite parse_object.
  destruct (Zod.unrecognized_keys _ fs); [|discriminate].
  cbn [Zod.parse_members]. rewrite !get_obj. unfold Zod.has_key.
  destruct (lookup "message" fs) as [[| | | |m| |]|]; try (simpl; discriminate);
    try (destruct (Zod.parse lib (Zod.ZOptional Zod.isoDateTime) _); simpl; discriminate).
  assert (Em : forall m,
             Zod.parse lib (Zod.ZString [Zod.Trim; Zod.Min 1]) (VStr m) =
             if (1 <=? String.length (Zod.trim m))%nat
             then Some (VStr (Zod.trim m)) else None).
  { intros m0. simpl. destruct (Zod.trim m0); reflexivity. }
  rewrite (Em m).
  destruct (1 <=? String.length (Zod.trim m))%nat eqn:Lm;
    [|destruct (Zod.parse lib (Zod.ZOptional Zod.isoDateTime) _); simpl; discriminate].
  assert (Again : Zod.parse lib (Zod.ZString [Zod.Trim; Zod.Min 1]) (VStr (Zod.trim m))
                  = Some (VStr (Zod.trim m))).
  { rewrite Em, trim_idem, Lm. reflexivity. }
  destruct (lookup "at" fs) as [[| | | |a| |]|];
    destruct (lookup "actor" fs) as [[| | | |c| |]|];
    intros H; simpl in H; try discriminate H;
    try (destruct (Zod.is_datetime lib a) eqn:Ea; [|discriminate H]).
  all: try solve [injection H as <-; rewrite parse_object; cbn [Zod.parse_members];
    rewrite !get_obj; unfold Zod.has_key; simpl lookup; cbv iota; rewrite Again;
    simpl; rewrite ?Ea, ?trim_idem; reflexivity].
  all: discriminate H.
Qed.

Lemma parse_items_idem (l ys : list value) :
  Zod.parse_items (Zod.parse lib Zod.auditEntrySchema) l = Some ys ->
  Zod.parse_items (Zod.parse lib Zod.auditEntrySchema) ys = Some ys.
Proof.
  revert ys. induction l as [|x r IH]; intros ys; cbn [Zod.parse_items];
    [now intros [= <-]|].
  destruct (Zod.parse lib Zod.auditEntrySchema x) as [y|] eqn:Ex; [|intros [=]].
  destruct (Zod.parse_items _ r) as [zs|]; [|intros [=]].
  intros [= <-]. cbn [Zod.parse_items].
  now rewrite (parse_audit_entry_idem x y Ex), (IH zs eq_refl).
Qed.

End ZodAudit.

(** ** What the record holds when an orchestrator returns *)

(** Picks a member of a shape. *)
Ltac in_shape :=
  cbv [Zod.ops_shape Zod.launch_shape In];
  repeat (first [left; reflexivity | right]).


Section ZodFacts.
Context {host : Host}.
Variable lib : Zod.ZodLib.
Variable out : outside.
Variable env : LaunchkitEnv.

Hypothesis Hzod :
  forall p, validateUpdate p = Zod.parse_or_throw lib Zod.updateLaunchPackSchema p.
Hypothesis Haudit :
  forall v, parseAuditLog v =
            match Zod.parse lib (Zod.ZArray Zod.auditEntrySchema) v with
            | Some (VArr l) => Some l
            | _ => None
            end.

Lemma parsed_log_accepted (v : value) :
  Zod.parse_items (Zod.parse lib Zod.auditEntrySchema) (parsed_log v)
  = Some (parsed_log v).
Proof.
  unfold parsed_log. rewrite Haudit.
  destruct (or_else v (VArr [])) as [| | | | |l|]; try reflexivity.
  cbn [Zod.parse].
  destruct (Zod.parse_items _ l) as [ys|] eqn:E; [|reflexivity].
  now apply parse_items_idem in E.
Qed.

Lemma parsed_log_arr (l l' : list value) :
  Zod.parse_items (Zod.parse lib Zod.auditEntrySchema) l = Some l' ->
  parsed_log (VArr l) = l'.
Proof.
  intros E. unfold parsed_log. rewrite Haudit.
  change (or_else (VArr l) (VArr [])) with (VArr l). cbn [Zod.parse]. now rewrite E.
Qed.

(** What the schema makes of an audit log with one more entry. *)
Lemma parse_audit_patch (v : value) (t : Z) (message : string) (y : value) :
  Zod.parse lib (Zod.ZDefault (Zod.ZOptional (Zod.ZArray Zod.auditEntrySchema)) (VArr []))
    (VArr (parsed_log v ++ [audit_entry t message])) = Some y ->
  y = VArr (parsed_log v ++ [audit_entry t (Zod.trim message)]).
Proof.
  cbn [Zod.parse]. rewrite parse_items_app, parsed_log_accepted.
  cbn [Zod.parse_items].
  destruct (Zod.parse lib Zod.auditEntrySchema (audit_entry t message)) as [e'|] eqn:E;
    [|discriminate].
  intros [= <-]. do 2 f_equal.
  unfold audit_entry, Zod.auditEntrySchema in E. rewrite parse_object in E.
  change (Zod.unrecognized_keys _ _) with (@nil string) in E.
  simpl in E.
  destruct (Zod.is_datetime lib (toISOString t)); [|discriminate].
  destruct (Zod.trim message) eqn:Em; [discriminate|].
  injection E as <-. f_equal.
Qed.


End ZodFacts.

Section ZodPublish.
Context {host : Host}.
Variable lib : Zod.ZodLib.
Variable out : outside.
Variable env : LaunchkitEnv.

Hypothesis Hzod :
  forall p, validateUpdate p = Zod.parse_or_throw lib Zod.updateLaunchPackSchema p.
Hypothesis Haudit :
  forall v, parseAuditLog v =
            match Zod.parse lib (Zod.ZArray Zod.auditEntrySchema) v with
            | Some (VArr l) => Some l
            | _ => None
            end.

Definition published_mark (key : channel) : string :=
  match key with Tg => "tg_published" | X => "x_published" end.

Definition success_message (key : channel) : string :=
  match key with Tg => "Telegram publish complete" | X => "X publish complete" end.

(** What a finished publish has stored, by outcome: after a success the
    status ["published"], the time, the checklist still ready and the
    audit log with one more entry; after a re-thrown error the status
    ["failed"], the error's code (or the channel's default) and message
    as the schema trims them, the time, and the audit log it found. *)
Definition publish_recorded (key : channel) (existing : value) (r : outcome value)
    (rec : value) : Prop :=
  match r with
  | Ok updated =>
      updated = rec /\
      channel_status key rec = VStr "published" /\
      (exists t, get (get rec "ops") (publishedAtKey key) = VStr (toISOString t)) /\
      (ready key existing -> ready key rec) /\
      (exists t, get (get rec "ops") "audit_log" =
                 VArr (parsed_log (get (get existing "ops") "audit_log")
                         ++ [audit_entry t (success_message key)]))
  | Throw e =>
      channel_status key rec = VStr "failed" /\
      (exists s, or_else (err_code e) (VStr (default_code key)) = VStr s /\
                 get (get rec "ops") (errorCodeKey key) = VStr (Zod.trim s)) /\
      get (get rec "ops") (errorMessageKey key) = VStr (Zod.trim (err_message e)) /\
      (exists t, get (get rec "ops") (failedAtKey key) = VStr (toISOString t)) /\
      (forall l, get (get existing "ops") "audit_log" = VArr l ->
                 get (get rec "ops") "audit_log" = VArr (parsed_log (VArr l)))
  end.

Lemma truthy_default_code (key : channel) (code : value) :
  truthy (or_else code (VStr (default_code key))) = true.
Proof. apply truthy_or_else. now destruct key. Qed.

Lemma publish_steps_Ok (key : channel) (claim : value) (w w' : world Mem.store)
    (p : published) :
  publish_steps out env key claim w = (Ok p, w') ->
  (exists t, pub_at p = toISOString t) /\
  (exists t, pub_audit p =
             (parsed_log (get (get claim "ops") "audit_log")
                ++ [audit_entry t (success_message key)])%list).
Proof.
  destruct key; [apply tg_publish_steps_Ok|apply x_publish_steps_Ok].
Qed.

(** The claimed record keeps the stored audit log and checklist. *)
Lemma claimed_ops_kept (key : channel) (obf : props) (requested_at : string) (k : string) :
  k = "audit_log" \/ k = "checklist" ->
  get (VObj (spread_fields (VObj obf)
               [(statusKey key, VStr "in_progress");
                (attemptedAtKey key, VStr requested_at);
                (errorCodeKey key, VUndef);
                (errorMessageKey key, VUndef)])) k
  = get (VObj obf) k.
Proof. intros [->| ->]; rewrite get_spread_fields; destruct key; reflexivity. Qed.

Lemma publish_success_recorded (key : channel) (requested_at : string) (now : Z)
    (existing rec : value) (p : published) (w1 w2 : world Mem.store) :
  pack_ok existing ->
  let claim := claimPublish_result key requested_at now existing in
  publish_steps out env key claim w1 = (Ok p, w2) ->
  stored_as lib Zod.ops_shape (get claim "ops") (published_sets key claim p)
    (get rec "ops") ->
  publish_recorded key existing (Ok rec) rec.
Proof.
  intros OK claim Hs Hst. subst claim.
  destruct (claimPublish_result_ok key requested_at now existing OK)
    as (cf & cof & obf & Ec & NDc & Eo & Eco & NDco & Ecof & _).
  destruct OK as (_ & _ & _ & (ckf & Eck & NDck)).
  rewrite Ec in *. rewrite Eco in Hst.
  apply publish_steps_Ok in Hs. destruct Hs as [[tp Hp] [ta Ha]].
  assert (Ea : get (get (VObj cf) "ops") "audit_log" = get (get existing "ops") "audit_log").
  { rewrite Eco, Eo, Ecof. apply claimed_ops_kept. now left. }
  assert (Ek : get (VObj cof) "checklist" = VObj ckf).
  { rewrite Ecof, claimed_ops_kept by (now right). now rewrite <- Eo. }
  rewrite Ea in Ha.
  unfold publish_recorded, channel_status, ready.
  split; [reflexivity|].
  split; [|split; [|split]].
  - destruct (Hst (statusKey key) _ ltac:(destruct key; in_shape)) as (y & Ey & ->).
    destruct key; injection Ey as <-; reflexivity.
  - exists tp.
    destruct (Hst (publishedAtKey key) _ ltac:(destruct key; in_shape)) as (y & Ey & ->).
    assert (Ep : patched (VObj cof) (published_sets key (VObj cf) p) (publishedAtKey key)
                 = VStr (pub_at p)) by (destruct key; reflexivity).
    rewrite Ep in Ey.
    assert (Ey' : Zod.parse lib (Zod.ZOptional Zod.isoDateTime) (VStr (pub_at p)) = Some y)
      by (destruct key; exact Ey).
    apply parse_datetime in Ey'. subst y. now rewrite Hp.
  - intros Rd.
    destruct (Hst "checklist" _ ltac:(in_shape)) as (y & Ey & ->).
    assert (Ep : patched (VObj cof) (published_sets key (VObj cf) p) "checklist"
                 = spread_with (or_else (get (get (VObj cf) "ops") "checklist") (VObj []))
                     [(published_mark key, VBool true)])
      by (destruct key; reflexivity).
    assert (Ls : lookup (readyKey key) (rev [(published_mark key, VBool true)]) = None)
      by (destruct key; reflexivity).
    rewrite Eco, Ek in Ep.
    change (or_else (VObj ckf) (VObj [])) with (VObj ckf) in Ep.
    rewrite spread_with_fields in Ep.
    rewrite Ep in Ey.
    apply parse_checklist in Ey. subst y. rewrite Ek.
    rewrite deepMerge_get_any by (apply NoDup_spread_fields, NDck).
    rewrite get_spread_fields, Ls.
    rewrite Eck in Rd.
    rewrite get_obj in *. destruct (lookup (readyKey key) ckf) as [a|]; [|discriminate].
    now apply truthy_deepMerge.
  - exists ta.
    destruct (Hst "audit_log" _ ltac:(in_shape)) as (y & Ey & ->).
    assert (Ep : patched (VObj cof) (published_sets key (VObj cf) p) "audit_log"
                 = VArr (pub_audit p)) by (destruct key; reflexivity).
    rewrite Ep, Ha in Ey. apply (parse_audit_patch lib Haudit) in Ey. subst y.
    assert (Et : Zod.trim (success_message key) = success_message key)
      by (destruct key; reflexivity).
    rewrite Et. reflexivity.
Qed.

Lemma publish_failure_recorded (key : channel) (requested_at : string) (now tf : Z)
    (existing rec : value) (e : error) :
  pack_ok existing ->
  let claim := claimPublish_result key requested_at now existing in
  stored_as lib Zod.ops_shape (get claim "ops") (failed_sets key e (toISOString tf))
    (get rec "ops") ->
  publish_recorded key existing (Throw e) rec.
Proof.
  intros OK claim Hst. subst claim.
  destruct (claimPublish_result_ok key requested_at now existing OK)
    as (cf & cof & obf & Ec & NDc & Eo & Eco & NDco & Ecof & _).
  rewrite Ec in *. rewrite Eco in Hst.
  unfold publish_recorded, channel_status.
  split; [|split; [|split; [|split]]].
  - destruct (Hst (statusKey key) _ ltac:(destruct key; in_shape)) as (y & Ey & ->).
    destruct key; injection Ey as <-; reflexivity.
  - destruct (Hst (errorCodeKey key) _ ltac:(destruct key; in_shape)) as (y & Ey & ->).
    assert (Ep : patched (VObj cof) (failed_sets key e (toISOString tf)) (errorCodeKey key)
                 = or_else (err_code e) (VStr (default_code key)))
      by (destruct key; reflexivity).
    rewrite Ep in Ey.
    assert (Ey' : Zod.parse lib (Zod.ZOptional (Zod.ZNullable Zod.text))
                    (or_else (err_code e) (VStr (default_code key))) = Some y)
      by (destruct key; exact Ey).
    apply parse_nullable_text in Ey'; [|apply truthy_default_code].
    destruct Ey' as (s & Es & ->). exists s. split; [exact Es|reflexivity].
  - destruct (Hst (errorMessageKey key) _ ltac:(destruct key; in_shape)) as (y & Ey & ->).
    destruct key; injection Ey as <-; reflexivity.
  - exists tf.
    destruct (Hst (failedAtKey key) _ ltac:(destruct key; in_shape)) as (y & Ey & ->).
    assert (Ey' : Zod.parse lib (Zod.ZOptional Zod.isoDateTime) (VStr (toISOString tf))
                  = Some y) by (destruct key; exact Ey).
    apply parse_datetime in Ey'. now subst y.
  - intros l Hl.
    destruct (Hst "audit_log" _ ltac:(in_shape)) as (y & Ey & ->).
    assert (Ea : get (VObj cof) "audit_log" = VArr l).
    { rewrite Ecof, claimed_ops_kept by (now left). now rewrite <- Eo. }
    assert (Ep : patched (VObj cof) (failed_sets key e (toISOString tf)) "audit_log"
                 = VArr l) by (rewrite <- Ea; destruct key; reflexivity).
    rewrite Ep in Ey. cbn [Zod.parse] in Ey.
    destruct (Zod.parse_items _ l) as [l'|] eqn:El; [|discriminate].
    injection Ey as <-. rewrite (parsed_log_arr lib Haudit l l' El). reflexivity.
Qed.

End ZodPublish.

(** ** When the schema accepts the patch that records a failure *)



Section ZodAccepts.
Context {host : Host}.
Variable lib : Zod.ZodLib.

Hypothesis Haudit :
  forall v, parseAuditLog v =
            match Zod.parse lib (Zod.ZArray Zod.auditEntrySchema) v with
            | Some (VArr l) => Some l
            | _ => None
            end.


End ZodAccepts.

Section ZodLaunchFacts.
Context {host : Host}.
Variable lib : Zod.ZodLib.

Hypothesis Haudit :
  forall v, parseAuditLog v =
            match Zod.parse lib (Zod.ZArray Zod.auditEntrySchema) v with
            | Some (VArr l) => Some l
            | _ => None
            end.

(** What a finished launch has stored, by outcome: after a success the
    status ["launched"] and the audit log with one more entry; after a
    re-thrown error the status ["failed"], the error's code (or
    [LAUNCH_FAILED]) and message as the schema trims them, the time, and
    the audit log with a "Launch failed" entry. *)
Definition launch_recorded (existing : value) (r : outcome value) (rec : value) : Prop :=
  match r with
  | Ok updated =>
      updated = rec /\ launch_status rec = VStr "launched" /\
      (exists t, get (get rec "ops") "audit_log" =
                 VArr (parsed_log (get (get existing "ops") "audit_log")
                         ++ [audit_entry t "Pump launch complete"]))
  | Throw e =>
      launch_status rec = VStr "failed" /\
      (exists s, or_else (err_code e) (VStr "LAUNCH_FAILED") = VStr s /\
                 get (get rec "launch") "error_code" = VStr (Zod.trim s)) /\
      get (get rec "launch") "error_message" = VStr (Zod.trim (err_message e)) /\
      (exists t, get (get rec "launch") "failed_at" = VStr (toISOString t)) /\
      (exists t, get (get rec "ops") "audit_log" =
                 VArr (parsed_log (get (get existing "ops") "audit_log")
                         ++ [audit_entry t
                               (Zod.trim ("Launch failed: " ++ err_message e))]))
  end.

Lemma launch_audit_stored (claim existing rec : value) (t : Z) (message : string) :
  get claim "ops" = get existing "ops" ->
  stored_as lib Zod.ops_shape (get claim "ops") (launch_audit claim t message)
    (get rec "ops") ->
  get (get rec "ops") "audit_log" =
  VArr (parsed_log (get (get existing "ops") "audit_log")
          ++ [audit_entry t (Zod.trim message)]).
Proof.
  intros Eops Hst.
  destruct (Hst "audit_log" _ ltac:(in_shape)) as (y & Ey & ->).
  unfold launch_audit, patched in Ey. simpl lookup in Ey. cbv iota in Ey.
  apply (parse_audit_patch lib Haudit) in Ey. subst y. now rewrite Eops.
Qed.

Lemma launch_success_recorded (requested_at : string) (now : Z) (existing rec : value)
    (sig mint : value) (completedAt launchedAt : string) (t : Z) :
  pack_ok existing ->
  let claim := claimLaunch_result requested_at "ready" now existing in
  stored_as lib Zod.launch_shape (get claim "launch")
    (launched_sets sig mint completedAt launchedAt claim) (get rec "launch") ->
  stored_as lib Zod.ops_shape (get claim "ops")
    (launch_audit claim t "Pump launch complete") (get rec "ops") ->
  launch_recorded existing (Ok rec) rec.
Proof.
  intros OK claim Hl Ho. subst claim.
  destruct (claimLaunch_result_ok requested_at "ready" now existing OK)
    as (cf & clf & lf & Ec & NDc & El & Ecl & NDcl & Eclf & Eops).
  rewrite Ec in *.
  unfold launch_recorded, launch_status. split; [reflexivity|]. split.
  - destruct (Hl "status" _ ltac:(in_shape)) as (y & Ey & ->).
    injection Ey as <-. reflexivity.
  - exists t.
    exact (launch_audit_stored (VObj cf) existing rec t "Pump launch complete" Eops Ho).
Qed.

Lemma launch_failure_recorded (requested_at : string) (now tf ta : Z)
    (existing rec : value) (e : error) :
  pack_ok existing ->
  let claim := claimLaunch_result requested_at "ready" now existing in
  stored_as lib Zod.launch_shape (get claim "launch")
    (launch_failed_sets e (toISOString tf)) (get rec "launch") ->
  stored_as lib Zod.ops_shape (get claim "ops")
    (launch_audit claim ta ("Launch failed: " ++ err_message e)) (get rec "ops") ->
  launch_recorded existing (Throw e) rec.
Proof.
  intros OK claim Hl Ho. subst claim.
  destruct (claimLaunch_result_ok requested_at "ready" now existing OK)
    as (cf & clf & lf & Ec & NDc & El & Ecl & NDcl & Eclf & Eops).
  rewrite Ec in *.
  unfold launch_recorded, launch_status.
  split; [|split; [|split; [|split]]].
  - destruct (Hl "status" _ ltac:(in_shape)) as (y & Ey & ->).
    injection Ey as <-. reflexivity.
  - destruct (Hl "error_code" _ ltac:(in_shape)) as (y & Ey & ->).
    change (patched (get (VObj cf) "launch") (launch_failed_sets e (toISOString tf))
              "error_code")
      with (or_else (err_code e) (VStr "LAUNCH_FAILED")) in Ey.
    apply parse_optional_text in Ey; [|now apply truthy_or_else].
    destruct Ey as (s & Es & ->). exists s. split; [exact Es|reflexivity].
  - destruct (Hl "error_message" _ ltac:(in_shape)) as (y & Ey & ->).
    injection Ey as <-. reflexivity.
  - exists tf.
    destruct (Hl "failed_at" _ ltac:(in_shape)) as (y & Ey & ->).
    change (patched (get (VObj cf) "launch") (launch_failed_sets e (toISOString tf))
              "failed_at")
      with (VStr (toISOString tf)) in Ey.
    apply parse_datetime in Ey. now subst y.
  - exists ta. now apply (launch_audit_stored (VObj cf) existing rec ta _ Eops).
Qed.


End ZodLaunchFacts.

(** ** The ends of a call *)

Section ZodEnds.
Context {host : Host}.
Variable lib : Zod.ZodLib.
Variable out : outside.
Variable env : LaunchkitEnv.
Variable options : PumpLauncherOptions.

Hypothesis Hzod :
  forall p, validateUpdate p = Zod.parse_or_throw lib Zod.updateLaunchPackSchema p.
Hypothesis Haudit :
  forall v, parseAuditLog v =
            match Zod.parse lib (Zod.ZArray Zod.auditEntrySchema) v with
            | Some (VArr l) => Some l
            | _ => None
            end.

Lemma publish_run (key : channel) (id : string) (force : bool) (w w' : world Mem.store)
    (r : outcome value) :
  publish (H0 := MemStore) key out env id force w = (r, w') ->
  (w_store w' = w_store w /\
   forall rec, r = Ok rec -> w' = w /\ force = false /\ gate env key
                             /\ settled key (w_store w) id rec) \/
  exists t0 now w1,
    gate env key /\
    truthy (Mem.Map_get (w_store w) id) = true /\
    ready key (Mem.Map_get (w_store w) id) /\
    w_store w1 = Mem.Map_set (w_store w) id
                   (claimPublish_result key (toISOString t0) now (Mem.Map_get (w_store w) id)) /\
    w_calls w1 = w_calls w /\
    publish_guarded out env key id
      (claimPublish_result key (toISOString t0) now (Mem.Map_get (w_store w) id)) w1
      = (r, w').
Proof. destruct key; [apply tg_publish_run|apply x_publish_run]. Qed.

(** A [publish] ends in one of three ways: it wrote nothing; it won the
    claim and recorded the outcome; or it won the claim and the schema
    rejected the patch that was to record the failure. *)
Lemma publish_ends (key : channel) (id : string) (force : bool) (w w' : world Mem.store)
    (r : outcome value) :
  (truthy (Mem.Map_get (w_store w) id) = true -> pack_ok (Mem.Map_get (w_store w) id)) ->
  publish (H0 := MemStore) key out env id force w = (r, w') ->
  let existing := Mem.Map_get (w_store w) id in
  (w_store w' = w_store w /\
   forall rec, r = Ok rec -> w' = w /\ force = false /\ gate env key
                             /\ settled key (w_store w) id rec) \/
  (gate env key /\ truthy existing = true /\ ready key existing /\
   exists t0 now w1,
     let claim := claimPublish_result key (toISOString t0) now existing in
     w_store w1 = Mem.Map_set (w_store w) id claim /\
     ((exists rec,
          w_store w' = Mem.Map_set (w_store w1) id rec /\ truthy rec = true /\
          publish_recorded key existing r rec)
      \/
      (exists e tf v,
          publish_thrown lib out env key claim w1 e /\
          r = Throw (Zod.ZodError lib v) /\
          w_store w' = w_store w1 /\
          Zod.parse lib Zod.opsSchema
            (VObj (spread_fields (get claim "ops") (failed_sets key e (toISOString tf))))
          = None))).
Proof.
  intros Hok Hrun. cbv zeta. apply publish_run in Hrun.
  destruct Hrun as [Hs|(t0 & now & w1 & G & T & Rd & Hw1 & _ & Hg)]; [now left|].
  right. split; [exact G|]. split; [exact T|]. split; [exact Rd|].
  exists t0, now, w1. split; [exact Hw1|].
  specialize (Hok T).
  apply (publish_guarded_cases lib out env Hzod) in Hg;
    [|exact Hok|rewrite Hw1; apply Map_get_set_same].
  cbv zeta in Hg.
  destruct Hg as [(p & w2 & rec & Hs & -> & Hst & Tr & Hrec)
                 |[(e & tf & rec & Ht & -> & Hst & Tr & Hrec)
                  |(e & tf & Ht & -> & Hst & Hn)]].
  - left. exists rec. split; [exact Hst|]. split; [exact Tr|].
    exact (publish_success_recorded lib out env Haudit key _ now _ rec p w1 w2 Hok Hs Hrec).
  - left. exists rec. split; [exact Hst|]. split; [exact Tr|].
    exact (publish_failure_recorded lib Haudit key _ now tf _ rec e Hok Hrec).
  - right. exists e, tf. eexists. repeat split; eassumption.
Qed.

(** The same for [launch]. *)
Lemma launch_ends (id : string) (force : bool) (w w' : world Mem.store)
    (r : outcome value) :
  (truthy (Mem.Map_get (w_store w) id) = true -> pack_ok (Mem.Map_get (w_store w) id)) ->
  launch (store := MemStore) out env options id force w = (r, w') ->
  let existing := Mem.Map_get (w_store w) id in
  w_store w' = w_store w \/
  (truthy existing = true /\
   exists t0 now w1 caps slippage,
     let claim := claimLaunch_result (toISOString t0) "ready" now existing in
     w_store w1 = Mem.Map_set (w_store w) id claim /\
     ((exists rec,
          w_store w' = Mem.Map_set (w_store w1) id rec /\ truthy rec = true /\
          launch_recorded existing r rec)
      \/
      (exists e tf ta v,
          launch_thrown lib out claim caps slippage w1 e /\
          r = Throw (Zod.ZodError lib v) /\
          w_store w' = w_store w1 /\
          (Zod.parse lib Zod.launchSchema
             (VObj (spread_fields (get claim "launch")
                      (launch_failed_sets e (toISOString tf)))) = None \/
           Zod.parse lib Zod.opsSchema
             (VObj (spread_fields (get claim "ops")
                      (launch_audit claim ta ("Launch failed: " ++ err_message e))))
           = None)))).
Proof.
  intros Hok Hrun. cbv zeta. apply launch_run in Hrun.
  destruct Hrun as [Hs|(t0 & now & w1 & caps & sl & T & Hw1 & Hg)]; [now left|].
  right. split; [exact T|].
  exists t0, now, w1, caps, sl. split; [exact Hw1|].
  specialize (Hok T).
  apply (launch_guarded_cases lib out Hzod) in Hg;
    [|exact Hok|rewrite Hw1; apply Map_get_set_same].
  cbv zeta in Hg.
  destruct Hg as [(sig & mint & ca & la & t & rec & -> & Hst & Tr & Hl & Ho)
                 |[(e & tf & ta & rec & Ht & -> & Hst & Tr & Hl & Ho)
                  |(e & tf & ta & v & Ht & -> & Hst & Hn)]].
  - left. exists rec. split; [exact Hst|]. split; [exact Tr|].
    exact (launch_success_recorded lib Haudit _ now _ rec sig mint ca la t Hok Hl Ho).
  - left. exists rec. split; [exact Hst|]. split; [exact Tr|].
    exact (launch_failure_recorded lib Haudit _ now tf ta _ rec e Hok Hl Ho).
  - right. exists e, tf, ta, v. repeat split; assumption.
Qed.

End ZodEnds.

(** ** Claims about [deepMerge] and [update] *)

(** C10.  For every base value [b], [deepMerge(b, null) = b] and
    [deepMerge(b, undefined) = b].  Hence a patch member that is [null]
    (or [undefined]) leaves the stored member as it was: for object base
    and patch, the merged member at such a key is the base's member; and
    the in-memory [update] with a patch that sets [ops.<channel error
    code>] (or any other member of [ops]) to [null] returns a record whose
    member is the previously stored one. *)
Theorem C10_null_patch_keeps_base `{Host} (b : value) :
  deepMerge b VNull = b /\
  deepMerge b VUndef = b /\
  (forall (bf pf : props) (k : string) (p : value),
      NoDup (keys pf) -> lookup k pf = Some p -> nullish p = true ->
      get (deepMerge (VObj bf) (VObj pf)) k = get (VObj bf) k) /\
  (forall (st : Mem.store) (id : string) (patch : value) (now : Z)
          (bf pf opf : props) (k : string),
      Mem.Map_get st id = VObj bf ->
      validateUpdate patch = Ok (VObj pf) ->
      NoDup (keys pf) -> NoDup (keys opf) ->
      lookup "ops" pf = Some (VObj opf) ->
      (exists obf, get (VObj bf) "ops" = VObj obf) ->
      lookup k opf = Some VNull ->
      exists merged,
        Mem.update st id patch now = (Ok merged, Mem.Map_set st id merged) /\
        get (get merged "ops") k = get (get (VObj bf) "ops") k).
Proof.
  split; [reflexivity|]. split; [reflexivity|]. split.
  - intros bf pf k p ND L N. rewrite deepMerge_get by assumption. rewrite L.
    destruct p; try discriminate; reflexivity.
  - intros st id patch now bf pf opf k E V ND NDo Lops [obf Hobf] Lk.
    eexists; split.
    + apply (Mem_update_ok st id patch now (VObj bf) (VObj pf)); auto.
    + rewrite !get_set_prop_other by discriminate.
      rewrite deepMerge_get by assumption. rewrite Lops, Hobf.
      rewrite deepMerge_get by assumption. rewrite Lk. reflexivity.
Qed.

Definition c10_pack : value :=
  VObj [("id", VStr "p1"); ("version", VNum 3);
        ("ops", VObj [("tg_publish_status", VStr "in_progress");
                      ("tg_publish_error_code", VStr "TG_PUBLISH_FAILED")])].

Definition c10_patch : value :=
  VObj [("ops", VObj [("tg_publish_status", VStr "published");
                      ("tg_publish_error_code", VNull)])].

Lemma C10_null_patch_keeps_base_witness :
  exists merged,
    @Mem.update test_host [("p1", c10_pack)] "p1" c10_patch 50
      = (Ok merged, Mem.Map_set [("p1", c10_pack)] "p1" merged) /\
    get (get merged "ops") "tg_publish_error_code" = VStr "TG_PUBLISH_FAILED".
Proof.
  destruct (@C10_null_patch_keeps_base test_host VNull) as (_ & _ & _ & Hupd).
  refine (Hupd [("p1", c10_pack)] "p1" c10_patch 50 _ _ _ "tg_publish_error_code"
            eq_refl eq_refl _ _ eq_refl _ eq_refl).
  - repeat constructor; simpl; intuition discriminate.
  - repeat constructor; simpl; intuition discriminate.
  - eexists; reflexivity.
Defined.

(** [update(id, patch)] merges the validated patch.  With the stored
    record an object [VObj bf] and the validated patch an object
    [VObj pf] (no key listed twice at any depth):
    - objects merge key by key: the merged member at a key of the patch is
      the merge of the stored member with the patch member, and at any
      other key it is the stored member;
    - an array, boolean, number or string in the patch replaces the stored
      value wholesale;
    - every key of the stored record is a key of the merged result, and a
      member at any depth that the patch does not mention is unchanged;
    - both stores' [update] return the merge, stamped with [id],
      [updated_at] and [version]. *)
Lemma update_merges_validated_patch `{Host} (bf pf : props) (WF : wf_keys (VObj pf)) :
  (forall k,
      get (deepMerge (VObj bf) (VObj pf)) k =
      match lookup k pf with
      | Some p => deepMerge (get (VObj bf) k) p
      | None => get (VObj bf) k
      end) /\
  (forall b l, deepMerge b (VArr l) = VArr l) /\
  (forall b x, deepMerge b (VBool x) = VBool x) /\
  (forall b n, deepMerge b (VNum n) = VNum n) /\
  (forall b s, deepMerge b (VStr s) = VStr s) /\
  (exists mf, deepMerge (VObj bf) (VObj pf) = VObj mf /\
              forall k, In k (keys bf) -> In k (keys mf)) /\
  (forall path,
      objects_along (VObj bf) path -> unmentioned (VObj pf) path ->
      get_path (deepMerge (VObj bf) (VObj pf)) path = get_path (VObj bf) path) /\
  (forall st id patch now,
      Mem.Map_get st id = VObj bf -> validateUpdate patch = Ok (VObj pf) ->
      exists merged,
        Mem.update st id patch now = (Ok merged, Mem.Map_set st id merged) /\
        forall k, ~ stamped k ->
                  get merged k = get (deepMerge (VObj bf) (VObj pf)) k) /\
  (forall t id patch now,
      Pg.get_pack t id = VObj bf -> validateUpdate patch = Ok (VObj pf) ->
      exists merged,
        (forall k, ~ stamped k ->
                   get merged k = get (deepMerge (VObj bf) (VObj pf)) k) /\
        match Pg.requested_at_param (get (get merged "launch") "requested_at") with
        | Ok _ => fst (Pg.update t id patch now) = Ok merged
        | Throw e => Pg.update t id patch now = (Throw e, t)
        end).
Proof.
  assert (ND : NoDup (keys pf)) by (inversion WF; assumption).
  split; [intros k; now apply deepMerge_get|].
  do 4 (split; [reflexivity|]).
  split; [apply deepMerge_obj_obj|].
  split; [intros path OA UM; now apply deepMerge_frame_path|].
  split.
  - intros st id patch now E V. eexists; split.
    + apply (Mem_update_ok st id patch now (VObj bf) (VObj pf)); auto.
    + intros k NS. unfold stamped in NS.
      rewrite !get_set_prop_other; [reflexivity| | |]; intros ->; tauto.
  - intros t id patch now E V.
    exists (set_prop (set_prop (set_prop (deepMerge (VObj bf) (VObj pf)) "id" (VStr id))
                        "updated_at" (nowIso now))
              "version" (plus_one (coalesce (get (VObj bf) "version") (VNum 1)))).
    split.
    + intros k NS. unfold stamped in NS.
      rewrite !get_set_prop_other; [reflexivity| | |]; intros ->; tauto.
    + unfold Pg.update. rewrite E. simpl truthy. cbv iota. simpl negb. cbv iota.
      rewrite V.
      destruct (Pg.requested_at_param _); reflexivity.
Qed.

Definition c7_pack_fields : props :=
  [("id", VStr "p1"); ("version", VNum 1);
   ("brand", VObj [("name", VStr "Meme King"); ("ticker", VStr "KING")]);
   ("x", VObj [("main_post", VStr "hello"); ("thread", VArr [VStr "a"; VStr "b"])])].

Definition c7_patch_fields : props :=
  [("x", VObj [("thread", VArr [VStr "c"])])].

Definition c7_pack : value := VObj c7_pack_fields.
Definition c7_patch : value := VObj c7_patch_fields.

Lemma update_merges_validated_patch_example :
  get_path (deepMerge c7_pack c7_patch) ["x"; "main_post"] = VStr "hello" /\
  get_path (deepMerge c7_pack c7_patch) ["brand"; "name"] = VStr "Meme King" /\
  get_path (deepMerge c7_pack c7_patch) ["x"; "thread"] = VArr [VStr "c"].
Proof.
  assert (WF : wf_keys c7_patch).
  { constructor; [repeat constructor; simpl; intuition discriminate|].
    intros k v L; simpl in L.
    destruct (String.eqb k "x"); [|discriminate].
    inversion L; subst. constructor; [repeat constructor; simpl; intuition discriminate|].
    intros k' v' L'; simpl in L'.
    destruct (String.eqb k' "thread"); [|discriminate].
    inversion L'; constructor. }
  destruct (@update_merges_validated_patch test_host c7_pack_fields c7_patch_fields WF)
    as (_ & _ & _ & _ & _ & _ & Hframe & _).
  unfold c7_pack, c7_patch.
  split; [|split].
  - rewrite (Hframe ["x"; "main_post"]); [reflexivity| |exact I].
    simpl; repeat split; eexists; reflexivity.
  - rewrite (Hframe ["brand"; "name"]); [reflexivity| |exact I].
    simpl; repeat split; eexists; reflexivity.
  - reflexivity.
Defined.

(** ** Claims about the store *)




(** *** Version counting *)

(** X4.  In the in-memory store every successful mutation returns and stores a
    record whose [version] is the previous one plus 1, and a refused claim
    changes nothing. *)
Lemma Mem_version_increments `{Host} (st : Mem.store) (id : string) (bf : props) (n : Z) :
  Mem.Map_get st id = VObj bf -> get (VObj bf) "version" = VNum n ->
  (forall patch now pf, validateUpdate patch = Ok (VObj pf) ->
     exists merged,
       Mem.update st id patch now = (Ok merged, Mem.Map_set st id merged) /\
       get merged "version" = VNum (n + 1)) /\
  (forall requested_at status now,
     Mem.claimLaunch st id requested_at status now = (VNull, st) \/
     exists updated,
       Mem.claimLaunch st id requested_at status now
         = (updated, Mem.Map_set st id updated) /\
       get updated "version" = VNum (n + 1)) /\
  (forall key requested_at force now,
     Mem.claimPublish key st id requested_at force now = (VNull, st) \/
     exists updated,
       Mem.claimPublish key st id requested_at force now
         = (updated, Mem.Map_set st id updated) /\
       get updated "version" = VNum (n + 1)).
Proof.
  intros E V. split; [|split].
  - intros patch now pf Hv. eexists; split.
    + apply (Mem_update_ok st id patch now (VObj bf) (VObj pf)); auto.
    + destruct (deepMerge_obj_obj bf pf) as [mf [-> _]].
      simpl set_prop. rewrite get_obj, lookup_assign_same, V. reflexivity.
  - intros ra s now. rewrite (Mem_claimLaunch_cases st id ra s now bf E).
    destruct (is_str _ "launched"); [now left|].
    destruct (_ && _); [now left|]. right. eexists; split; [reflexivity|].
    rewrite claimLaunch_result_version, V. reflexivity.
  - intros key ra force now. rewrite (Mem_claimPublish_cases key st id ra force now bf E).
    destruct (publishStatus (VObj bf) key) as [s f].
    destruct (_ || _); [now left|].
    destruct (_ && _); [now left|]. right. eexists; split; [reflexivity|].
    rewrite claimPublish_result_version, V. reflexivity.
Qed.

(** A freshly created draft, as [create] stores it. *)
Definition draft_input : value :=
  VObj [("brand", VObj [("name", VStr "Meme King"); ("ticker", VStr "KING")]);
        ("tg", VObj [("pins", VObj [("welcome", VStr "hi")]); ("schedule", VArr [])]);
        ("x", VObj [("main_post", VStr "gm"); ("thread", VArr []);
                    ("schedule", VArr [])]);
        ("launch", VObj [("status", VStr "draft")]);
        ("ops", VObj [("checklist", VObj [("tg_ready", VBool true)]);
                      ("audit_log", VArr [])])].

Definition pg_draft_table : Pg.table :=
  snd (@Pg.create test_host [] draft_input "p1" 1000).

Definition mem_draft_store : Mem.store :=
  snd (@Mem.create test_host [] draft_input "p1" 1000).

(** C3 (evaluation at the failing input).  On a freshly created draft of
    version 1, [claimLaunch] of the PGlite repository succeeds and both
    returns and stores a record whose [version] is still 1, while the same
    claim on the in-memory store yields version 2 (as do its publish
    claims). *)
Theorem C3_pg_claimLaunch_keeps_version :
  get (@Pg.get_pack test_host pg_draft_table "p1") "version" = VNum 1 /\
  (exists rec t',
      @Pg.claimLaunch test_host pg_draft_table "p1" "1700000000000" "ready" 2000
        = (Ok rec, t') /\
      launch_status rec = VStr "ready" /\
      get rec "version" = VNum 1 /\
      get (@Pg.get_pack test_host t' "p1") "version" = VNum 1) /\
  get (fst (@Mem.claimLaunch test_host mem_draft_store "p1" "1700000000000" "ready" 2000))
      "version" = VNum 2 /\
  (forall key,
      get (fst (@Mem.claimPublish test_host key mem_draft_store "p1"
                  "1700000000000" false 2000)) "version" = VNum 2).
Proof.
  split; [reflexivity|]. split.
  - do 2 eexists. split; [vm_compute; reflexivity|]. repeat split.
  - split.
    + reflexivity.
    + intros key; destruct key; reflexivity.
Qed.

(** The same holds of every row: a successful PGlite [claimLaunch] hands
    back the document's [version] member as it was. *)
Lemma Pg_claimLaunch_version `{Host} (t : Pg.table) (id requested_at status : string)
    (now : Z) (r : Pg.row) (df lf : props) (ts : Z) :
  Date_parse requested_at = Some ts ->
  Pg.select_by_id t id = Some r ->
  Pg.row_data r = VObj df -> lookup "launch" df = Some (VObj lf) ->
  Pg.claimLaunch_where r = true ->
  exists rec t',
    Pg.claimLaunch t id requested_at status now = (Ok rec, t') /\
    get rec "version" = get (VObj df) "version".
Proof.
  intros D S E L W.
  rewrite (Pg_claimLaunch_cases t id requested_at status now r df lf ts D S E L), W.
  do 2 eexists; split; [reflexivity|].
  rewrite (hydrate_get (claimed_row status now r df lf ts) _ _
             "version" eq_refl) by discriminate.
  now apply claimed_data_frame.
Qed.

(** *** Publish claims *)

(** A failed Telegram publish as the PGlite repository stores it. *)
Definition failed_tg_doc : value :=
  VObj [("id", VStr "p1"); ("version", VNum 4);
        ("launch", VObj [("status", VStr "draft")]);
        ("ops", VObj [("checklist", VObj [("tg_ready", VBool true)]);
                      ("audit_log", VArr []);
                      ("tg_publish_status", VStr "failed");
                      ("tg_publish_failed_at", VStr "1700000000000");
                      ("tg_publish_error_code", VStr "TG_PUBLISH_FAILED");
                      ("tg_publish_error_message", VStr "Telegram sendMessage failed")])].

Definition failed_tg_table : Pg.table :=
  [Pg.mkRow "p1" None failed_tg_doc (Some "draft") None 1000 1700000000000].

(** C4 (evaluation at the failing input).  [claimTelegramPublish] and
    [claimXPublish] of the PGlite repository never grant a claim: the
    statement passes a bare literal to [to_jsonb] and is rejected with
    SQLSTATE 42804 for every table, id, time and [force], and nothing is
    written.  On an idle draft and on a failed record claimed with
    [force], where the claim is due, the in-memory store grants it, sets
    the status to ["in_progress"], records [attempted_at] and clears both
    error members. *)
Theorem C4_pg_publish_claim_throws `{Host} (key : channel) (t : Pg.table)
    (id requested_at : string) (force : bool) (now : Z) :
  (exists e,
      Pg.claimPublish key t id requested_at force now = (Throw e, t) /\
      err_code e = VStr "42804") /\
  (exists e,
      @Pg.claimTelegramPublish test_host pg_draft_table "p1" "1700000000000" false 2000
        = (Throw e, pg_draft_table) /\
      channel_status Tg (@Pg.get_pack test_host pg_draft_table "p1") = VUndef) /\
  (let rec := fst (@Mem.claimTelegramPublish test_host mem_draft_store "p1"
                     "1700000000000" false 2000) in
   channel_status Tg (Mem.get_pack mem_draft_store "p1") = VUndef /\
   channel_status Tg rec = VStr "in_progress" /\
   get (get rec "ops") "tg_publish_attempted_at" = VStr "1700000000000") /\
  (exists e,
      @Pg.claimTelegramPublish test_host failed_tg_table "p1" "1700000001000" true
        1700000001000 = (Throw e, failed_tg_table)) /\
  (let rec := fst (@Mem.claimTelegramPublish test_host [("p1", failed_tg_doc)] "p1"
                     "1700000001000" true 1700000001000) in
   channel_status Tg rec = VStr "in_progress" /\
   get (get rec "ops") "tg_publish_attempted_at" = VStr "1700000001000" /\
   get (get rec "ops") "tg_publish_error_code" = VUndef /\
   get (get rec "ops") "tg_publish_error_message" = VUndef).
Proof.
  split; [eexists; split; reflexivity|].
  split; [eexists; split; reflexivity|].
  split; [repeat split|].
  split; [eexists; reflexivity|].
  repeat split.
Qed.

(** X5.  On the in-memory store the claim behaves as specified: it succeeds
    exactly from ["idle"], or from ["failed"] when forced or once the
    cooldown is over; it then sets ["in_progress"], records
    [attempted_at] and clears both error members. *)
Lemma Mem_claimPublish_spec `{Host} (key : channel) (st : Mem.store)
    (id requested_at : string) (force : bool) (now : Z) (bf opf : props) :
  Mem.Map_get st id = VObj bf ->
  get (VObj bf) "ops" = VObj opf ->
  publish_status_ok (channel_status key (VObj bf)) ->
  (publish_claimable key force now (VObj bf) ->
   exists updated,
     Mem.claimPublish key st id requested_at force now
       = (updated, Mem.Map_set st id updated) /\
     updated <> VNull /\
     channel_status key updated = VStr "in_progress" /\
     get (get updated "ops") (attemptedAtKey key) = VStr requested_at /\
     get (get updated "ops") (errorCodeKey key) = VUndef /\
     get (get updated "ops") (errorMessageKey key) = VUndef) /\
  (~ publish_claimable key force now (VObj bf) ->
   Mem.claimPublish key st id requested_at force now = (VNull, st)) /\
  (channel_status key (VObj bf) = VStr "published"
   \/ channel_status key (VObj bf) = VStr "in_progress" ->
   Mem.claimPublish key st id requested_at force now = (VNull, st)).
Proof.
  intros E Eo OK.
  destruct (Mem_claimPublish_iff key st id requested_at force now bf opf E Eo OK)
    as [Hyes Hno].
  split; [|split].
  - intros C. eexists; split; [now apply Hyes|]. split; [discriminate|].
    apply claimPublish_result_ops.
  - exact Hno.
  - intros Hs. apply Hno. unfold publish_claimable, is_idle.
    destruct Hs as [Hs|Hs]; rewrite Hs; intros [[?|?]|[? _]]; discriminate.
Qed.

(** *** The due-publish scans *)

(** Two drafts with a due Telegram schedule entry; the first created is
    then updated, so that it is the most recently updated of the two. *)
Definition due_input (name : string) : value :=
  VObj [("brand", VObj [("name", VStr name); ("ticker", VStr "KING")]);
        ("tg", VObj [("pins", VObj [("welcome", VStr "hi")]);
                     ("schedule", VArr [VObj [("when", VStr "500"); ("text", VStr "gm")]])]);
        ("launch", VObj [("status", VStr "draft")]);
        ("ops", VObj [("checklist", VObj []); ("audit_log", VArr [])])].

Definition tagline_patch : value :=
  VObj [("brand", VObj [("tagline", VStr "Rule the memes")])].

Definition mem_due_store : Mem.store :=
  let s1 := snd (@Mem.create test_host [] (due_input "A") "a" 1000) in
  let s2 := snd (@Mem.create test_host s1 (due_input "B") "b" 2000) in
  snd (@Mem.update test_host s2 "a" tagline_patch 3000).

Definition pg_due_table : Pg.table :=
  let t1 := snd (@Pg.create test_host [] (due_input "A") "a" 1000) in
  let t2 := snd (@Pg.create test_host t1 (due_input "B") "b" 2000) in
  snd (@Pg.update test_host t2 "a" tagline_patch 3000).

Definition ids_and_updates (l : list value) : list (value * value) :=
  map (fun p => (get p "id", get p "updated_at")) l.

(** C8 (evaluation at the failing input).  The in-memory scan returns the
    due records in the order in which their ids were first inserted, not
    by [updated_at]: record [a], updated at 3000, comes before record
    [b], updated at 2000, and with [limit = 1] the more recently updated
    [a] is the one returned.  The PGlite scan on the same history returns
    [b] first. *)
Theorem C8_mem_findDue_in_insertion_order :
  (exists l, @Mem.findDueTelegramPublishes test_host mem_due_store "5000" 10 = Ok l /\
             ids_and_updates l
               = [(VStr "a", VStr "3000"); (VStr "b", VStr "2000")]) /\
  (exists l, @Mem.findDueTelegramPublishes test_host mem_due_store "5000" 1 = Ok l /\
             ids_and_updates l = [(VStr "a", VStr "3000")]) /\
  (exists l, @Pg.findDueTelegramPublishes test_host pg_due_table "5000" 10 = Ok l /\
             ids_and_updates l
               = [(VStr "b", VStr "2000"); (VStr "a", VStr "3000")]) /\
  (exists l, @Pg.findDueTelegramPublishes test_host pg_due_table "5000" 1 = Ok l /\
             ids_and_updates l = [(VStr "b", VStr "2000")]).
Proof.
  repeat split; eexists; (split; [vm_compute; reflexivity|reflexivity]).
Qed.

(** *** Idempotent create *)

Definition keyed_input (id : option string) (key : string) : value :=
  VObj ((match id with Some i => [("id", VStr i)] | None => [] end)
          ++ [("idempotency_key", VStr key);
              ("brand", VObj [("name", VStr "Meme King"); ("ticker", VStr "KING")]);
              ("launch", VObj [("status", VStr "draft")]);
              ("ops", VObj [("checklist", VObj []); ("audit_log", VArr [])])])%list.

(** A row [x] registered under ["key-one-1"], then re-created under the
    same id with the key ["key-two-2"]. *)
Definition pg_rekeyed_table : Pg.table :=
  let t1 := snd (@Pg.create test_host [] (keyed_input (Some "x") "key-one-1") "u1" 1000) in
  snd (@Pg.create test_host t1 (keyed_input (Some "x") "key-two-2") "u2" 2000).

Definition mem_rekeyed_store : Mem.store :=
  let s1 := snd (@Mem.create test_host [] (keyed_input (Some "x") "key-one-1") "u1" 1000) in
  snd (@Mem.create test_host s1 (keyed_input (Some "x") "key-two-2") "u2" 2000).

(** C5 (evaluation at the failing input).  In the PGlite repository, after
    a create with key ["key-two-2"] that re-uses the id [x] of a row
    registered under another key, the stored record [x] carries
    ["key-two-2"], yet a further create with ["key-two-2"] does not return
    it: it inserts a second row [y], so that two stored records carry the
    key.  The in-memory store returns [x] and writes nothing. *)
Theorem C5_pg_create_rekeyed_not_deduplicated :
  get (@Pg.get_pack test_host pg_rekeyed_table "x") "idempotency_key"
    = VStr "key-two-2" /\
  (exists rec t',
      @Pg.create test_host pg_rekeyed_table (keyed_input None "key-two-2") "y" 3000
        = (Ok rec, t') /\
      get rec "id" = VStr "y" /\
      map Pg.row_id t' = ["x"; "y"] /\
      get (@Pg.get_pack test_host t' "x") "idempotency_key" = VStr "key-two-2" /\
      get (@Pg.get_pack test_host t' "y") "idempotency_key" = VStr "key-two-2") /\
  (exists rec,
      @Mem.create test_host mem_rekeyed_store (keyed_input None "key-two-2") "y" 3000
        = (Ok rec, mem_rekeyed_store) /\
      get rec "id" = VStr "x").
Proof.
  split; [reflexivity|]. split.
  - do 2 eexists. split; [vm_compute; reflexivity|]. repeat split.
  - eexists. split; [vm_compute; reflexivity|]. reflexivity.
Qed.
(** ** [update] and the defaults of the schema *)

Definition c7_input : value :=
  VObj [("brand", VObj [("name", VStr "Meme King"); ("ticker", VStr "king")]);
        ("x", VObj [("main_post", VStr "hello"); ("thread", VArr [VStr "a"; VStr "b"])])].

Definition c7_store : Mem.store := snd (@Mem.create schema_host [] c7_input "p1" 1000).
Definition c7_table : Pg.table := snd (@Pg.create schema_host [] c7_input "p1" 1000).

Definition c7_update_patch : value := VObj [("x", VObj [("thread", VArr [VStr "c"])])].

(** C7 (evaluation at the failing input).  A pack is created with
    [x.main_post = "hello"] and then updated with the patch
    [{x: {thread: ["c"]}}], which does not mention [x.main_post].
    [deepMerge] alone would keep the member; but [update] merges the
    patch as [LaunchPackValidation.update] returns it, and the schema
    fills the members the patch leaves out of [x] with their defaults: the
    record that [update] returns and stores, in memory and in PGlite, has
    [x.main_post = ""]. *)
Theorem C7_update_resets_defaulted_members :
  get_path (Mem.get_pack c7_store "p1") ["x"; "main_post"] = VStr "hello" /\
  get_path (deepMerge (Mem.get_pack c7_store "p1") c7_update_patch) ["x"; "main_post"]
  = VStr "hello" /\
  @validateUpdate schema_host c7_update_patch
  = Ok (VObj [("x", VObj [("main_post", VStr ""); ("thread", VArr [VStr "c"]);
                          ("reply_bank", VArr []); ("schedule", VArr [])])]) /\
  (exists merged st',
      @Mem.update schema_host c7_store "p1" c7_update_patch 2000 = (Ok merged, st') /\
      get_path merged ["x"; "thread"] = VArr [VStr "c"] /\
      get_path merged ["x"; "main_post"] = VStr "" /\
      get_path (Mem.get_pack st' "p1") ["x"; "main_post"] = VStr "") /\
  get_path (@Pg.get_pack schema_host c7_table "p1") ["x"; "main_post"] = VStr "hello" /\
  (exists merged t',
      @Pg.update schema_host c7_table "p1" c7_update_patch 2000 = (Ok merged, t') /\
      get_path merged ["x"; "main_post"] = VStr "" /\
      get_path (@Pg.get_pack schema_host t' "p1") ["x"; "main_post"] = VStr "").
Proof.
  split; [reflexivity|]. split; [reflexivity|]. split; [reflexivity|].
  split; [do 2 eexists; split; [vm_compute; reflexivity|repeat split]|].
  split; [reflexivity|].
  do 2 eexists; split; [vm_compute; reflexivity|repeat split].
Qed.

(** ** Claims about the orchestrators *)


(** A run on the in-memory store with a Telegram service that answers
    every request with an error status. *)
Definition demo_env : LaunchkitEnv :=
  mkEnv true (VStr "true") (VStr "token") (VStr "chat123")
    (VStr "true") (VStr "key") (VStr "secret") (VStr "token") (VStr "access")
    (num_of_Z 0) (num_of_Z 0) None None.

Definition demo_options : PumpLauncherOptions :=
  mkOptions (num_of_Z 1) (num_of_Z 1) (num_of_Z 1).

Definition failing_outside : outside :=
  mkOutside (fun n => 1700000000000 + Z.of_nat n)
    (fun _ _ => FetchResponse (json_response false 500 (Some (VObj [("ok", VBool false)]))))
    (fun _ => Some 5) ([], []).

Definition demo_world : world Mem.store := mkWorld mem_draft_store 0 [] VNull.

(** A pack created through the schemas, and the same run on it. *)
Definition schema_draft_world : world Mem.store :=
  mkWorld (snd (@Mem.create schema_host [] draft_input "p1" 1000)) 0 [] VNull.



(** C6 (as amended).  On any store: when the channel is enabled and
    configured, the record stored under [id] has its checklist ready, its
    [published_at] set and its publish status ["published"], then
    [publish] without [force] returns that stored record (hence the result
    ids persisted in it) and leaves the world as it was: no remote call,
    no store write. *)
Theorem C6_publish_idempotent {S : Type} `{Host} `{LaunchPackStore S}
    (key : channel) (out : outside) (env : LaunchkitEnv) (id : string)
    (w : world S) (rec : value)
    (Hgate : gate env key)
    (Hget : store_get (w_store w) id = rec)
    (Htruthy : truthy rec = true)
    (Hready : ready key rec)
    (Hat : truthy (get (get rec "ops") (publishedAtKey key)) = true)
    (Hstatus : channel_status key rec = VStr "published") :
  publish key out env id false w = (Ok rec, w).
Proof.
  unfold ready, channel_status in *.
  destruct key; simpl in *.
  - destruct Hgate as (En & T1 & T2).
    unfold tg_publish. rewrite En. simpl.
    rewrite (missing_of_truthy _ _ T1), (missing_of_truthy _ _ T2). simpl.
    unfold bind, getM. rewrite Hget, Htruthy, Hready, Hat, Hstatus. reflexivity.
  - destruct Hgate as (En & T1 & T2 & T3 & T4).
    unfold x_publish. rewrite En. simpl.
    rewrite (missing_of_truthy _ _ T1), (missing_of_truthy _ _ T2),
      (missing_of_truthy _ _ T3), (missing_of_truthy _ _ T4). simpl.
    unfold bind, getM. rewrite Hget, Htruthy, Hready, Hat, Hstatus. reflexivity.
Qed.

(** A Telegram service that accepts every request. *)
Definition accepting_outside : outside :=
  mkOutside (fun n => 1700000000000 + Z.of_nat n)
    (fun n _ =>
       FetchResponse
         (json_response true 200
            (Some (VObj [("ok", VBool true);
                         ("result", VObj [("message_id", VNum (100 + Z.of_nat n))]);
                         ("data", VObj [("id", VNum (500 + Z.of_nat n))])]))))
    (fun _ => Some 5) ([], []).

Definition published_world : world Mem.store :=
  snd (@tg_publish test_host _ (@MemStore test_host) accepting_outside demo_env "p1"
         false demo_world).

(** The pack published on Telegram and then marked not ready by an update,
    all through the schemas; and a configuration with the channel switched
    off. *)
Definition schema_published_world : world Mem.store :=
  snd (@tg_publish schema_host _ (@MemStore schema_host) accepting_outside demo_env "p1"
         false schema_draft_world).

Definition unready_world : world Mem.store :=
  mkWorld (snd (@Mem.update schema_host (w_store schema_published_world) "p1"
                  (VObj [("ops", VObj [("checklist", VObj [("tg_ready", VBool false)])])])
                  1700000009000))
    (w_reads schema_published_world) (w_calls schema_published_world) VNull.

Definition tg_off_env : LaunchkitEnv :=
  mkEnv true (VStr "false") (VStr "token") (VStr "chat123")
    (VStr "true") (VStr "key") (VStr "secret") (VStr "token") (VStr "access")
    (num_of_Z 0) (num_of_Z 0) None None.

(** C6 (counterexample).  A record whose Telegram status is
    ["published"], with [tg_published_at] set and one message id stored,
    is not returned by a further [publish] without [force] when its
    checklist no longer marks the channel ready, or when the channel is
    switched off: the call throws [TG_NOT_READY], respectively
    [TG_DISABLED]. *)
Lemma C6_published_record_not_returned :
  (let rec := Mem.get_pack (w_store unready_world) "p1" in
   channel_status Tg rec = VStr "published" /\
   get (get rec "ops") "tg_published_at" = VStr "1700000000002" /\
   get (get rec "ops") "tg_message_ids" = VArr [VStr "100"] /\
   exists e,
     @publish _ schema_host (@MemStore schema_host) Tg accepting_outside demo_env "p1"
       false unready_world = (Throw e, unready_world) /\
     err_code e = VStr "TG_NOT_READY") /\
  (let rec := Mem.get_pack (w_store schema_published_world) "p1" in
   channel_status Tg rec = VStr "published" /\
   get (get rec "ops") "tg_published_at" = VStr "1700000000002" /\
   get (get (get rec "ops") "checklist") "tg_ready" = VBool true /\
   exists e,
     @publish _ schema_host (@MemStore schema_host) Tg accepting_outside tg_off_env "p1"
       false schema_published_world = (Throw e, schema_published_world) /\
     err_code e = VStr "TG_DISABLED").
Proof.
  split.
  - cbv zeta. split; [reflexivity|]. split; [reflexivity|]. split; [reflexivity|].
    eexists. split; [vm_compute; reflexivity|reflexivity].
  - cbv zeta. split; [reflexivity|]. split; [reflexivity|]. split; [reflexivity|].
    eexists. split; [vm_compute; reflexivity|reflexivity].
Qed.

Lemma C6_publish_idempotent_witness :
  get (get (Mem.get_pack (w_store published_world) "p1") "ops") "tg_message_ids"
    = VArr [VStr "100"] /\
  @publish _ test_host (@MemStore test_host) Tg accepting_outside demo_env "p1" false
    published_world
  = (Ok (Mem.get_pack (w_store published_world) "p1"), published_world).
Proof.
  split; [reflexivity|].
  apply (@C6_publish_idempotent _ test_host (@MemStore test_host) Tg accepting_outside
           demo_env "p1" published_world).
  - repeat split.
  - reflexivity.
  - reflexivity.
  - reflexivity.
  - reflexivity.
  - reflexivity.
Defined.

(** *** Wallet provisioning *)











(** ** Claim C2 *)

(** A stored record as the schemas shape it: well formed, with [launch]
    and [ops] members that their schemas accept. *)
Definition stored_ok (lib : Zod.ZodLib) (pack : value) : Prop :=
  pack_ok pack /\
  (exists y, Zod.parse lib Zod.launchSchema (get pack "launch") = Some y) /\
  (exists y, Zod.parse lib Zod.opsSchema (get pack "ops") = Some y).






Lemma schema_draft_ok :
  stored_ok test_lib (Mem.Map_get (w_store schema_draft_world) "p1").
Proof.
  split; [|split; eexists; vm_compute; reflexivity].
  repeat split; eexists; (split; [reflexivity|]);
    repeat constructor; simpl; intuition discriminate.
Qed.


(** * Further properties of the code *)

(** ** [deepMerge] applied twice *)

Lemma assign_same (k : string) (v : value) (fs : props) :
  lookup k fs = Some v -> assign k v fs = fs.
Proof.
  induction fs as [|[k0 v0] r IH]; simpl; [discriminate|].
  destruct (String.eqb k k0) eqn:E.
  - apply String.eqb_eq in E; subst k0. intros [= ->]. reflexivity.
  - intros L. now rewrite IH.
Qed.

Lemma lookup_In_NoDup (k : string) (v : value) (fs : props) :
  NoDup (keys fs) -> In (k, v) fs -> lookup k fs = Some v.
Proof.
  induction fs as [|[k0 v0] r IH]; simpl; [intros _ []|].
  intros ND [H|H]; inversion ND as [|? ? Hnin ND']; subst.
  - inversion H; subst. now rewrite String.eqb_refl.
  - destruct (String.eqb k k0) eqn:E; [|now apply IH].
    apply String.eqb_eq in E; subst k0.
    exfalso; apply Hnin. change k with (fst (k, v)). now apply in_map.
Qed.

(** A merge loop that finds every member of the patch already merged
    changes nothing. *)
Lemma merge_loop_fixed (base : value) (pf merged : props) :
  (forall k pv, In (k, pv) pf ->
                lookup k merged = Some (deepMerge (get base k) pv)) ->
  merge_loop base pf merged = merged.
Proof.
  induction pf as [|[k pv] r IH]; intros Hin; simpl; [reflexivity|].
  rewrite assign_same by (apply Hin; now left).
  apply IH. intros k' pv' H. apply Hin. now right.
Qed.

Lemma deepMerge_self (v : value) : wf_keys v -> deepMerge v v = v.
Proof.
  induction 1 as [| | | | | |fs ND Hsub IH]; try reflexivity.
  rewrite deepMerge_obj. change (mergeable (VObj fs)) with true. cbv iota.
  change (own_fields (VObj fs)) with fs. f_equal.
  apply merge_loop_fixed. intros k pv Hin.
  pose proof (lookup_In_NoDup k pv fs ND Hin) as L.
  rewrite get_obj, L. now rewrite (IH k pv L).
Qed.

(** X1.  Merging the same patch a second time changes nothing: for every
    base value and every patch whose objects list no key twice,
    [deepMerge (deepMerge base patch) patch = deepMerge base patch]. *)
Theorem deepMerge_idempotent (base patch : value) (WF : wf_keys patch) :
  deepMerge (deepMerge base patch) patch = deepMerge base patch.
Proof.
  revert base. induction WF as [| | | | | |pf ND Hsub IH]; intros base;
    try reflexivity.
  rewrite (deepMerge_obj base pf).
  destruct (mergeable base) eqn:Mb.
  - rewrite deepMerge_obj. change (mergeable (VObj _)) with true. cbv iota.
    change (own_fields (VObj ?m)) with m. f_equal.
    apply merge_loop_fixed. intros k pv Hin.
    pose proof (lookup_In_NoDup k pv pf ND Hin) as L.
    rewrite get_obj, (merge_loop_in base pf (own_fields base) k pv ND L).
    now rewrite (IH k pv L).
  - apply deepMerge_self. now constructor.
Qed.

Definition merge_demo_base : value :=
  VObj [("brand", VObj [("name", VStr "Meme King"); ("ticker", VStr "KING")]);
        ("x", VObj [("main_post", VStr "gm"); ("thread", VArr [VStr "a"])])].

Definition merge_demo_patch : value :=
  VObj [("x", VObj [("thread", VArr [VStr "b"]); ("main_post", VNull)]);
        ("links", VObj [("website", VStr "https://example.org")])].

Lemma merge_demo_patch_wf : wf_keys merge_demo_patch.
Proof.
  constructor; [repeat constructor; simpl; intuition discriminate|].
  intros k v L; simpl in L.
  destruct (String.eqb k "x"); [inversion L; subst|].
  - constructor; [repeat constructor; simpl; intuition discriminate|].
    intros k' v' L'; simpl in L'.
    destruct (String.eqb k' "thread"); [inversion L'; constructor|].
    destruct (String.eqb k' "main_post"); [inversion L'; constructor|discriminate].
  - destruct (String.eqb k "links"); [inversion L; subst|discriminate].
    constructor; [repeat constructor; simpl; intuition discriminate|].
    intros k' v' L'; simpl in L'.
    destruct (String.eqb k' "website"); [inversion L'; constructor|discriminate].
Defined.

Lemma deepMerge_idempotent_witness :
  deepMerge (deepMerge merge_demo_base merge_demo_patch) merge_demo_patch
  = deepMerge merge_demo_base merge_demo_patch.
Proof. exact (deepMerge_idempotent merge_demo_base merge_demo_patch merge_demo_patch_wf). Defined.

(** ** The stores: round trips and failures *)

(** X3.  In-memory [create] followed by [get]: when no stored record
    carries the input's idempotency key, [create] stores the validated
    input under its id (the given one, else the generated one), stamped
    with version (default 1), [created_at] and [updated_at]; [get] of that
    id then returns exactly the record [create] returned, and [get] of any
    other id returns what it returned before. *)
Theorem Mem_create_then_get `{Host} (st : Mem.store) (input : value) (pf : props)
    (uuid : string) (now : Z)
    (Hvalid : validateCreate input = Ok (VObj pf))
    (Hfresh : truthy (get (VObj pf) "idempotency_key") = false \/
              count_key st (get (VObj pf) "idempotency_key") = 0%nat) :
  let id := coalesce (get (VObj pf) "id") (VStr uuid) in
  exists rec,
    Mem.create st input uuid now = (Ok rec, Mem.Map_set st (to_string id) rec) /\
    Mem.get_pack (Mem.Map_set st (to_string id) rec) (to_string id) = rec /\
    (forall id', id' <> to_string id ->
       Mem.get_pack (Mem.Map_set st (to_string id) rec) id' = Mem.get_pack st id') /\
    get rec "id" = id /\
    get rec "version" = coalesce (get (VObj pf) "version") (VNum 1) /\
    get rec "created_at" = nowIso now /\
    get rec "updated_at" = nowIso now /\
    (forall k, k <> "id" -> k <> "version" -> k <> "created_at" -> k <> "updated_at" ->
               get rec k = get (VObj pf) k).
Proof.
  intros id. exists (created_record (VObj pf) uuid now).
  assert (Hnone : (if truthy (get (VObj pf) "idempotency_key")
                   then Mem.find_idempotent (Mem.Map_values st)
                          (get (VObj pf) "idempotency_key")
                   else None) = None).
  { destruct Hfresh as [->|Hc]; [reflexivity|].
    destruct (truthy _); [|reflexivity].
    apply find_idempotent_none. unfold count_key in Hc.
    now apply length_zero_iff_nil. }
  split; [rewrite (Mem_create_cases st input (VObj pf) uuid now Hvalid), Hnone;
          reflexivity|].
  split; [unfold Mem.get_pack; rewrite Map_get_set_same; reflexivity|].
  split; [intros id' N; unfold Mem.get_pack; now rewrite Map_get_set_other|].
  unfold created_record.
  repeat split; try (rewrite get_spread_with; reflexivity).
  intros k N1 N2 N3 N4. rewrite get_spread_with. simpl rev. simpl lookup at 1.
  apply String.eqb_neq in N1, N2, N3, N4. rewrite N1, N2, N3, N4.
  now rewrite get_obj.
Qed.

Lemma Mem_create_then_get_witness :
  exists rec,
    @Mem.create test_host [] (keyed_input None "key-one-1") "u1" 1000
      = (Ok rec, [("u1", rec)]) /\
    @Mem.get_pack [("u1", rec)] "u1" = rec /\
    get rec "version" = VNum 1.
Proof.
  destruct (@Mem_create_then_get test_host [] (keyed_input None "key-one-1") _ "u1" 1000
              eq_refl (or_intror eq_refl))
    as (rec & Hc & Hg & _ & _ & Hv & _).
  exists rec. split; [exact Hc|]. split; [exact Hg|exact Hv].
Defined.

(** X6.  A store operation that fails writes nothing: when [create] or
    [update] throws (either store), or a claim throws or is refused with
    [null], the store is left exactly as it was. *)
Theorem failed_store_operations_write_nothing `{Host} :
  (forall st input uuid now e st',
      Mem.create st input uuid now = (Throw e, st') -> st' = st) /\
  (forall st id patch now e st',
      Mem.update st id patch now = (Throw e, st') -> st' = st) /\
  (forall st id requested_at status now st',
      Mem.claimLaunch st id requested_at status now = (VNull, st') -> st' = st) /\
  (forall key st id requested_at force now st',
      Mem.claimPublish key st id requested_at force now = (VNull, st') -> st' = st) /\
  (forall t input uuid now e t',
      Pg.create t input uuid now = (Throw e, t') -> t' = t) /\
  (forall t id patch now e t',
      Pg.update t id patch now = (Throw e, t') -> t' = t) /\
  (forall t id requested_at status now r t',
      Pg.claimLaunch t id requested_at status now = (r, t') ->
      r = Ok VNull \/ (exists e, r = Throw e) -> t' = t) /\
  (forall key t id requested_at force now r t',
      Pg.claimPublish key t id requested_at force now = (r, t') ->
      r = Ok VNull \/ (exists e, r = Throw e) -> t' = t).
Proof.
  repeat split.
  - intros st input uuid now e st'. unfold Mem.create.
    destruct (validateCreate input); [|congruence].
    destruct (if truthy _ then _ else _); intros [=]; auto.
  - intros st id patch now e st'. unfold Mem.update.
    destruct (negb _); [congruence|].
    destruct (validateUpdate patch); intros [=]; auto.
  - intros st id ra status now st'. unfold Mem.claimLaunch.
    destruct (negb _); [congruence|].
    destruct (is_str _ _); [congruence|].
    destruct (_ && _); [congruence|].
    unfold spread_with, set_prop. intros [=].
  - intros key st id ra force now st'. unfold Mem.claimPublish.
    destruct (negb _); [congruence|].
    destruct (publishStatus _ _) as [s f].
    destruct (_ || _); [congruence|].
    destruct (_ && _); [congruence|].
    unfold spread_with, set_prop. intros [=].
  - intros t input uuid now e t'. unfold Pg.create.
    destruct (validateCreate input); [|congruence].
    destruct (if truthy _ then _ else _); [intros [=]|].
    destruct (Pg.requested_at_param _); [|congruence].
    destruct (Pg.select_by_id _ _).
    + destruct (match Pg.row_idempotency_key _ with Some _ => false | None => _ end);
        intros [=]; auto.
    + destruct (Pg.key_taken _ _); intros [=]; auto.
  - intros t id patch now e t'. unfold Pg.update.
    destruct (negb _); [congruence|].
    destruct (validateUpdate patch); [|congruence].
    destruct (Pg.requested_at_param _); intros [=]; auto.
  - intros t id ra status now r t'. unfold Pg.claimLaunch.
    destruct (Date_parse ra); [|congruence].
    destruct (Pg.select_by_id t id); [|congruence].
    destruct (Pg.claimLaunch_where _); [|congruence].
    destruct (Pg.jsonb_set2 _ _ _ _); [|congruence].
    destruct (Pg.jsonb_set2 _ _ _ _); [|congruence].
    intros [= <- <-] [Hn|[e He]]; discriminate.
  - intros key t id ra force now r t'. unfold Pg.claimPublish.
    simpl Pg.to_jsonb_text. congruence.
Qed.

(** ** PGlite [update] *)

Lemma get_to_jsonb (fs : props) (k : string) (x : value) :
  lookup k fs = Some x -> x <> VUndef ->
  get (Pg.to_jsonb (VObj fs)) k = Pg.to_jsonb x.
Proof.
  intros L N. simpl Pg.to_jsonb. rewrite get_obj.
  induction fs as [|[k0 x0] r IH]; simpl in *; [discriminate|].
  destruct (String.eqb k k0) eqn:E.
  - inversion L; subst x0.
    destruct x; try contradiction; simpl; rewrite E; reflexivity.
  - destruct x0; simpl; rewrite ?E; now apply IH.
Qed.

Lemma hydrate_get_data `{Host} (r : Pg.row) (fb : option value) (k : string) :
  (exists fs, Pg.row_data r = VObj fs) ->
  k <> "id" -> k <> "created_at" -> k <> "updated_at" ->
  get (Pg.hydrate r fb) k = get (Pg.row_data r) k.
Proof.
  intros [fs E] N1 N2 N3. rewrite E. now apply hydrate_get.
Qed.

(** X7.  PGlite [update] on a stored row: the record handed back carries
    the given id, the previous version plus 1 and the new [updated_at],
    whatever the patch says about them; a following [get] reads the same
    version back, and no other row is touched.  The only failure left
    after validation is a merged [launch.requested_at] that is no
    timestamp, and then the table is unchanged. *)
Theorem Pg_update_bumps_version `{Host} (t : Pg.table) (id : string) (patch : value)
    (now : Z) (r : Pg.row) (pf : props) (n : Z)
    (Hrow : Pg.select_by_id t id = Some r)
    (Hversion : get (Pg.get_pack t id) "version" = VNum n)
    (Hvalid : validateUpdate patch = Ok (VObj pf)) :
  let merged := stamp (Pg.get_pack t id) (VObj pf) id now in
  get merged "id" = VStr id /\
  get merged "version" = VNum (n + 1) /\
  get merged "updated_at" = nowIso now /\
  match Pg.requested_at_param (get (get merged "launch") "requested_at") with
  | Throw e => Pg.update t id patch now = (Throw e, t)
  | Ok _ =>
      exists t',
        Pg.update t id patch now = (Ok merged, t') /\
        get (Pg.get_pack t' id) "version" = VNum (n + 1) /\
        (forall id', id' <> id -> Pg.get_pack t' id' = Pg.get_pack t id')
  end.
Proof.
  intros merged.
  assert (Ee : exists ef, Pg.get_pack t id = VObj ef).
  { unfold Pg.get_pack. rewrite Hrow. apply spread_with_obj. }
  destruct Ee as [ef Ee].
  destruct (deepMerge_obj_obj ef pf) as [mf [Em _]].
  assert (Es : exists sf, merged = VObj sf /\ lookup "version" sf = Some (VNum (n + 1))).
  { unfold merged, stamp. rewrite Ee, Em. simpl set_prop.
    eexists; split; [reflexivity|].
    rewrite lookup_assign_same. rewrite <- Ee, Hversion. reflexivity. }
  destruct Es as [sf [Es Lv]].
  assert (G1 : get merged "id" = VStr id).
  { unfold merged, stamp. rewrite Ee, Em. simpl set_prop.
    rewrite get_obj. rewrite !lookup_assign_other by discriminate.
    now rewrite lookup_assign_same. }
  assert (G2 : get merged "version" = VNum (n + 1)).
  { rewrite Es, get_obj, Lv. reflexivity. }
  assert (G3 : get merged "updated_at" = nowIso now).
  { unfold merged, stamp. rewrite Ee, Em. simpl set_prop.
    rewrite get_obj. rewrite lookup_assign_other by discriminate.
    now rewrite lookup_assign_same. }
  split; [exact G1|]. split; [exact G2|]. split; [exact G3|].
  assert (U : Pg.update t id patch now =
              match Pg.requested_at_param (get (get merged "launch") "requested_at") with
              | Throw e => (Throw e, t)
              | Ok ra =>
                  (Ok merged,
                   Pg.update_by_id t id (fun old =>
                     Pg.mkRow (Pg.row_id old) (Pg.row_idempotency_key old)
                       (Pg.to_jsonb merged)
                       (Pg.text_param (coalesce (get (get merged "launch") "status")
                                         (VStr "draft")))
                       ra (Pg.row_created_at old) now))
              end).
  { unfold Pg.update. rewrite Ee. simpl truthy. cbv beta iota delta [negb].
    rewrite Hvalid. rewrite <- Ee. reflexivity. }
  rewrite U. destruct (Pg.requested_at_param _) as [ra|e]; [|reflexivity].
  eexists. split; [reflexivity|]. split.
  - unfold Pg.get_pack.
    rewrite (select_update_same t id _ r Hrow)
      by (simpl; now apply select_by_id_row_id with (t := t)).
    rewrite Es.
    rewrite hydrate_get_data; try discriminate; [|eexists; reflexivity].
    cbn [Pg.row_data].
    rewrite (get_to_jsonb sf "version" (VNum (n + 1)) Lv) by discriminate.
    reflexivity.
  - intros id' N. unfold Pg.get_pack.
    rewrite select_update_other; [reflexivity|exact N|reflexivity].
Qed.

Lemma Pg_update_bumps_version_witness :
  exists merged t',
    @Pg.update test_host pg_draft_table "p1" tagline_patch 3000 = (Ok merged, t') /\
    get merged "version" = VNum 2 /\
    get (@Pg.get_pack test_host t' "p1") "version" = VNum 2.
Proof.
  assert (Hrow : exists r, Pg.select_by_id pg_draft_table "p1" = Some r)
    by (eexists; vm_compute; reflexivity).
  destruct Hrow as [r Hrow].
  destruct (@Pg_update_bumps_version test_host pg_draft_table "p1" tagline_patch 3000
              r _ 1 Hrow eq_refl eq_refl) as (_ & Hv & _ & Hu).
  vm_compute Pg.requested_at_param in Hu.
  destruct Hu as (t' & Hu & Hg & _).
  eexists _, t'. split; [exact Hu|]. split; [exact Hv|exact Hg].
Defined.

(** ** Instances on concrete stores *)

Lemma Mem_create_twice_witness :
  exists rec st1,
    @Mem.create test_host [] (keyed_input None "key-one-1") "u1" 1000 = (Ok rec, st1) /\
    @Mem.create test_host st1 (keyed_input (Some "other") "key-one-1") "u2" 2000
      = (Ok rec, st1) /\
    get rec "idempotency_key" = VStr "key-one-1" /\
    ((@count_key [] (VStr "key-one-1") <= 1)%nat ->
     count_key st1 (VStr "key-one-1") = 1%nat).
Proof.
  apply (@Mem_create_twice test_host [] (keyed_input None "key-one-1")
           (keyed_input (Some "other") "key-one-1")
           (keyed_input None "key-one-1") (keyed_input (Some "other") "key-one-1")
           "u1" "u2" 1000 2000 "key-one-1");
    try reflexivity.
  discriminate.
Defined.

Lemma Mem_version_increments_witness :
  exists merged,
    @Mem.update test_host mem_draft_store "p1" tagline_patch 3000
      = (Ok merged, Mem.Map_set mem_draft_store "p1" merged) /\
    get merged "version" = VNum (1 + 1).
Proof.
  assert (E : exists bf, Mem.Map_get mem_draft_store "p1" = VObj bf)
    by (eexists; vm_compute; reflexivity).
  destruct E as [bf E].
  assert (V : get (VObj bf) "version" = VNum 1).
  { rewrite <- E. vm_compute. reflexivity. }
  destruct (@Mem_version_increments test_host mem_draft_store "p1" bf 1 E V)
    as [Hupdate _].
  exact (Hupdate tagline_patch 3000 _ eq_refl).
Defined.

Lemma Mem_claimPublish_spec_witness :
  @Mem.claimPublish test_host Tg [("p1", failed_tg_doc)] "p1" "1700000001000" false
    1700000001000 = (VNull, [("p1", failed_tg_doc)]).
Proof.
  assert (Eo : exists opf, get failed_tg_doc "ops" = VObj opf)
    by (eexists; reflexivity).
  destruct Eo as [opf Eo].
  destruct (@Mem_claimPublish_spec test_host Tg [("p1", failed_tg_doc)] "p1"
              "1700000001000" false 1700000001000 _ opf eq_refl Eo)
    as (_ & Hno & _).
  - right. right. right. right. reflexivity.
  - apply Hno. intros [[C|C]|[_ [C|C]]]; try discriminate.
    specialize (C eq_refl 1700000000000 eq_refl).
    vm_compute in C. apply C; [discriminate|reflexivity].
Defined.

(** ** The due-publish scans *)

Lemma In_firstn_In {A} (x : A) (n : nat) (l : list A) :
  In x (firstn n l) -> In x l.
Proof.
  revert n; induction l as [|y r IH]; intros [|n]; simpl; try tauto.
  intros [->|Hin]; [now left|right; eauto].
Qed.

Section MemFindDue.
Context {host : Host}.
Variables (key : channel) (nowTs : option Z).

(** The schedule the in-memory scan reads for a record. *)
Definition scanned_schedule (pack : value) : value :=
  or_else (get (get pack (channelKey key)) "schedule")
    (or_else (get (get pack "ops") (scheduleIntentKey key)) (VArr [])).

Definition scan_skips (pack : value) : bool :=
  let status := or_else (get (get pack "ops") (statusKey key)) (VStr "idle") in
  is_str status "published" || is_str status "in_progress".

(** The record is due: not published, not in progress, and some entry of
    its schedule is at or before [nowTs]. *)
Definition due_now (pack : value) : bool :=
  negb (scan_skips pack) &&
  match Mem.schedule_due (scanned_schedule pack) nowTs with
  | Ok true => true
  | _ => false
  end.

(** The scan can read the record's schedule (or skips the record). *)
Definition scan_reads (pack : value) : Prop :=
  scan_skips pack = true \/
  exists b, Mem.schedule_due (scanned_schedule pack) nowTs = Ok b.

Lemma findDue_loop_Ok (limit : Z) (packs results l : list value) :
  Z.of_nat (List.length results) <= Z.max 0 limit ->
  Mem.findDue_loop key packs nowTs limit results = Ok l ->
  l = firstn (Z.to_nat limit) (results ++ filter due_now packs).
Proof.
  revert results. induction packs as [|pack rest IH]; intros results B; simpl.
  - intros [= <-]. rewrite app_nil_r. symmetry. apply firstn_all2. lia.
  - destruct (Z.of_nat (List.length results) >=? limit) eqn:E.
    + intros [= <-]. apply Z.geb_le in E.
      replace (Z.to_nat limit) with (List.length results + 0)%nat by lia.
      rewrite firstn_app_2. simpl. now rewrite app_nil_r.
    + rewrite Z.geb_leb in E. apply Z.leb_gt in E.
      unfold due_now at 1, scan_skips at 1, scanned_schedule at 1.
      destruct (_ || _); simpl negb; cbv iota beta.
      * simpl andb. apply IH; assumption.
      * simpl andb.
        destruct (Mem.schedule_due _ nowTs) as [[|]|e]; [| |discriminate].
        -- intros Hl. apply IH in Hl; [|rewrite length_app; simpl; lia].
           now rewrite <- app_assoc in Hl.
        -- apply IH; assumption.
Qed.

Lemma findDue_loop_total (limit : Z) (packs results : list value) :
  Forall scan_reads packs ->
  exists l, Mem.findDue_loop key packs nowTs limit results = Ok l.
Proof.
  intros F. revert results. induction F as [|pack rest Hp F IH]; intros results; simpl.
  - eexists; reflexivity.
  - destruct (_ >=? _); [eexists; reflexivity|].
    destruct Hp as [Hs|[b Hb]].
    + unfold scan_skips in Hs. rewrite Hs. apply IH.
    + destruct (_ || _); [apply IH|].
      unfold scanned_schedule in Hb. rewrite Hb. destruct b; apply IH.
Qed.

End MemFindDue.

(** X8.  The in-memory due scan returns the first [limit] due records in
    the order in which their ids were inserted: whenever it returns, the
    result is that prefix of the stored records that are neither
    published nor in progress and have a schedule entry at or before
    [nowIso]; it holds at most [limit] records (none for a limit of zero
    or less); and it does return when every stored schedule can be read. *)
Theorem Mem_findDue_first_due `{Host} (key : channel) (st : Mem.store)
    (nowIso : string) (limit : Z) :
  let nowTs := Date_getTime (VStr nowIso) in
  let due := filter (due_now key nowTs) (Mem.Map_values st) in
  (forall l, Mem.findDue key st nowIso limit = Ok l ->
             l = firstn (Z.to_nat limit) due /\
             Z.of_nat (List.length l) <= Z.max 0 limit /\
             Forall (fun pack => In pack (Mem.Map_values st) /\
                                 due_now key nowTs pack = true) l) /\
  (Forall (scan_reads key nowTs) (Mem.Map_values st) ->
   Mem.findDue key st nowIso limit = Ok (firstn (Z.to_nat limit) due)).
Proof.
  intros nowTs due.
  assert (A : forall l, Mem.findDue key st nowIso limit = Ok l ->
                        l = firstn (Z.to_nat limit) due).
  { intros l Hl. unfold Mem.findDue in Hl.
    apply findDue_loop_Ok in Hl; [exact Hl|simpl; lia]. }
  split.
  - intros l Hl. pose proof (A l Hl) as ->. split; [reflexivity|]. split.
    + rewrite length_firstn. lia.
    + apply Forall_forall. intros pack Hin.
      apply In_firstn_In in Hin. apply filter_In in Hin. exact Hin.
  - intros F. destruct (findDue_loop_total key nowTs limit _ [] F) as [l Hl].
    unfold Mem.findDue. fold nowTs. rewrite Hl. f_equal. apply A.
    unfold Mem.findDue. exact Hl.
Qed.

(** *** The PGlite scan *)

Definition updated_le (a b : Pg.row) : Prop := Pg.row_updated_at a <= Pg.row_updated_at b.

Lemma insert_by_updated_at_perm (r : Pg.row) (l : list Pg.row) :
  Permutation (Pg.insert_by_updated_at r l) (r :: l).
Proof.
  induction l as [|x rest IH]; simpl; [reflexivity|].
  destruct (_ <? _); [reflexivity|].
  rewrite IH. apply perm_swap.
Qed.

Lemma order_by_updated_at_perm (l : list Pg.row) :
  Permutation (Pg.order_by_updated_at l) l.
Proof.
  induction l as [|x rest IH]; simpl; [reflexivity|].
  rewrite insert_by_updated_at_perm. now constructor.
Qed.

Lemma insert_by_updated_at_sorted (r : Pg.row) (l : list Pg.row) :
  StronglySorted updated_le l ->
  StronglySorted updated_le (Pg.insert_by_updated_at r l).
Proof.
  induction 1 as [|x rest Hs IH Hall]; simpl.
  - repeat constructor.
  - destruct (Pg.row_updated_at r <? Pg.row_updated_at x) eqn:E.
    + apply Z.ltb_lt in E. constructor; [now constructor|].
      constructor; [unfold updated_le; lia|].
      eapply Forall_impl; [|exact Hall]. unfold updated_le. intros; lia.
    + apply Z.ltb_ge in E. constructor; [exact IH|].
      eapply Permutation_Forall; [symmetry; apply insert_by_updated_at_perm|].
      constructor; assumption.
Qed.

Lemma order_by_updated_at_sorted (l : list Pg.row) :
  StronglySorted updated_le (Pg.order_by_updated_at l).
Proof.
  induction l as [|x rest IH]; simpl; [constructor|].
  now apply insert_by_updated_at_sorted.
Qed.

Lemma firstn_sorted {A} (R : A -> A -> Prop) (n : nat) (l : list A) :
  StronglySorted R l -> StronglySorted R (firstn n l).
Proof.
  intros Hs. revert n. induction Hs as [|x rest Hs IH Hall]; intros [|n]; simpl;
    try constructor.
  - apply IH.
  - apply Forall_forall. intros y Hy. apply In_firstn_In in Hy.
    revert y Hy. now apply Forall_forall.
Qed.

(** What follows the first [n] elements of a sorted list is not below
    them. *)
Lemma sorted_firstn_skipn {A} (R : A -> A -> Prop) (n : nat) (l : list A) :
  StronglySorted R l ->
  forall x y, In x (firstn n l) -> In y (skipn n l) -> R x y.
Proof.
  intros Hs. revert n. induction Hs as [|a rest Hs IH Hall]; intros [|n] x y; simpl;
    try tauto.
  intros [<-|Hx] Hy.
  - rewrite Forall_forall in Hall. apply Hall.
    rewrite <- (firstn_skipn n rest). apply in_or_app. now right.
  - eapply IH; eassumption.
Qed.

Section PgFindDue.
Context {host : Host}.
Variables (key : channel) (nowTs : Z).

Definition pg_due (r : Pg.row) : bool :=
  match Pg.findDue_where key (Pg.row_data r) nowTs with
  | Ok true => true
  | _ => false
  end.

Lemma filter_due_Ok (t : Pg.table) (rows : list Pg.row) :
  Pg.filter_due key t nowTs = Ok rows -> rows = filter pg_due t.
Proof.
  revert rows. induction t as [|r rest IH]; simpl; intros rows.
  - now intros [= <-].
  - unfold pg_due at 1.
    destruct (Pg.findDue_where key (Pg.row_data r) nowTs) as [b|e]; [|discriminate].
    destruct (Pg.filter_due key rest nowTs) as [l|e]; [|discriminate].
    intros [= <-]. rewrite (IH l eq_refl). now destruct b.
Qed.

End PgFindDue.

(** X9.  The PGlite due scan returns the least recently updated due
    rows: whenever it returns, the records are those of rows of the table
    that pass the due filter, in ascending order of [updated_at], at most
    [limit] of them, and every due row left out was updated no earlier
    than each row returned (and is left out only when the limit is
    reached). *)
Theorem Pg_findDue_sorted_limited `{Host} (key : channel) (t : Pg.table)
    (nowIso : string) (limit : Z) (l : list value)
    (Hrun : Pg.findDue key t nowIso limit = Ok l) :
  exists nowTs rows,
    Date_parse nowIso = Some nowTs /\ 0 <= limit /\
    l = map (fun r => Pg.hydrate r None) rows /\
    StronglySorted updated_le rows /\
    (List.length rows <= Z.to_nat limit)%nat /\
    (forall r, In r rows -> In r t /\ pg_due key nowTs r = true) /\
    (forall r, In r t -> pg_due key nowTs r = true ->
               In r rows \/
               (List.length rows = Z.to_nat limit /\
                forall r', In r' rows -> updated_le r' r)).
Proof.
  unfold Pg.findDue in Hrun.
  destruct (Date_parse nowIso) as [nowTs|]; [|discriminate].
  destruct (limit <? 0) eqn:El; [discriminate|]. apply Z.ltb_ge in El.
  destruct (Pg.filter_due key t nowTs) as [due|e] eqn:Ef; [|discriminate].
  apply filter_due_Ok in Ef. injection Hrun as <-.
  set (sorted := Pg.order_by_updated_at due).
  assert (Hs : StronglySorted updated_le sorted) by apply order_by_updated_at_sorted.
  assert (Hp : Permutation sorted due) by apply order_by_updated_at_perm.
  exists nowTs, (firstn (Z.to_nat limit) sorted).
  split; [reflexivity|]. split; [exact El|]. split; [reflexivity|].
  split; [now apply firstn_sorted|].
  split; [rewrite length_firstn; lia|]. split.
  - intros r Hin. apply In_firstn_In in Hin.
    apply (Permutation_in _ Hp) in Hin. subst due. now apply filter_In in Hin.
  - intros r Hin Hd.
    assert (Hr : In r sorted).
    { apply (Permutation_in _ (Permutation_sym Hp)). subst due.
      apply filter_In. now split. }
    rewrite <- (firstn_skipn (Z.to_nat limit) sorted) in Hr.
    apply in_app_or in Hr. destruct Hr as [Hr|Hr]; [now left|right].
    split.
    + rewrite length_firstn. apply Nat.min_l.
      destruct (Nat.le_gt_cases (Z.to_nat limit) (List.length sorted)) as [Hle|Hgt];
        [exact Hle|].
      rewrite skipn_all2 in Hr by lia. destruct Hr.
    + intros r' Hr'. now apply (sorted_firstn_skipn updated_le (Z.to_nat limit) sorted Hs).
Qed.

Lemma Pg_findDue_sorted_limited_witness :
  exists nowTs rows,
    @Date_parse test_host "5000" = Some nowTs /\ 0 <= 1 /\
    map (fun r => @Pg.hydrate test_host r None)
      (firstn 1 (Pg.order_by_updated_at (filter (@pg_due test_host Tg 5000) pg_due_table)))
    = map (fun r => @Pg.hydrate test_host r None) rows /\
    StronglySorted updated_le rows /\
    (List.length rows <= Z.to_nat 1)%nat /\
    (forall r, In r rows -> In r pg_due_table /\ @pg_due test_host Tg nowTs r = true) /\
    (forall r, In r pg_due_table -> @pg_due test_host Tg nowTs r = true ->
               In r rows \/
               (List.length rows = Z.to_nat 1 /\
                forall r', In r' rows -> updated_le r' r)).
Proof.
  apply (@Pg_findDue_sorted_limited test_host Tg pg_due_table "5000" 1).
  vm_compute. reflexivity.
Defined.
(** ** Publishing through the PGlite repository *)

Section PgPublish.
Context {host : Host}.
Variables (out : outside) (env : LaunchkitEnv).
Local Open Scope orch_scope.

(** The errors a publish raises before it asks for the claim. *)
Definition publish_precondition_code (key : channel) (e : error) : Prop :=
  match key with
  | Tg => err_code e = VStr "TG_DISABLED" \/ err_code e = VStr "TG_CONFIG_MISSING"
          \/ err_code e = VStr "NOT_FOUND" \/ err_code e = VStr "TG_NOT_READY"
  | X => err_code e = VStr "X_DISABLED" \/ err_code e = VStr "X_CONFIG_MISSING"
         \/ err_code e = VStr "NOT_FOUND" \/ err_code e = VStr "X_NOT_READY"
  end.

(** A claim asked of the PGlite repository reads the clock twice and
    throws. *)
Lemma Pg_claimed_publish_throws {A} (key : channel) (id : string) (force : bool)
    (k : value -> M Pg.table A) (e : error) (w w' : world Pg.table) (r : outcome A) :
  (requested_at <- nowIsoM out ;;
   claim <- claimPublishM (store := PgStore) out key id requested_at force ;;
   if negb (truthy claim) then throw e else k claim) w = (r, w') ->
  w_store w' = w_store w /\ w_calls w' = w_calls w /\
  w_reads w' = Datatypes.S (Datatypes.S (w_reads w)) /\
  exists e', r = Throw e' /\ err_code e' = VStr "42804".
Proof.
  unfold bind at 1. unfold nowIsoM at 1, bind at 1, read_clock at 1, ret at 1.
  cbv beta iota. unfold bind at 1. unfold claimPublishM, with_store.
  cbn [w_store w_reads w_calls w_secrets store_claimPublish PgStore].
  unfold Pg.claimPublish. simpl Pg.to_jsonb_text. cbv beta iota.
  intros Hr. injection Hr as <- <-. repeat split. eexists. split; reflexivity.
Qed.

End PgPublish.

Ltac throws_before_claim Hrun :=
  unfold throw, ret in Hrun; cbv beta in Hrun; injection Hrun as <- <-;
  split; [reflexivity|]; split; [reflexivity|]; split; [discriminate|];
  intros e' He'; injection He' as <-; left; simpl; tauto.

(** X10.  Through the PGlite repository nothing is ever published.
    Whatever the record, the configuration and [force], a Telegram or X
    publish leaves the table as it was and makes no remote call.  It
    returns a record only by the short-circuit, for a record already
    marked published and without [force]; otherwise it throws, either one
    of the errors raised before the claim (channel disabled or not
    configured, record missing or not ready) or the SQLSTATE 42804 error
    of the claim statement, which no input avoids. *)
Theorem Pg_publish_never_reaches_the_service `{Host} (key : channel) (out : outside)
    (env : LaunchkitEnv) (id : string) (force : bool) (w w' : world Pg.table)
    (r : outcome value)
    (Hrun : publish (H0 := PgStore) key out env id force w = (r, w')) :
  w_store w' = w_store w /\
  w_calls w' = w_calls w /\
  (forall rec, r = Ok rec ->
     force = false /\ rec = Pg.get_pack (w_store w) id /\
     channel_status key rec = VStr "published" /\ w' = w) /\
  (forall e, r = Throw e ->
     publish_precondition_code key e \/ err_code e = VStr "42804").
Proof.
  destruct key; unfold publish in Hrun.
  - unfold tg_publish in Hrun.
    destruct (is_str (TG_ENABLE env) "true") eqn:E1; cbv beta iota delta [negb] in Hrun;
      [|throws_before_claim Hrun].
    destruct (missing "TG_BOT_TOKEN" (TG_BOT_TOKEN env)) eqn:M1;
      [|throws_before_claim Hrun].
    destruct (missing "TG_CHAT_ID" (TG_CHAT_ID env)) eqn:M2;
      [|throws_before_claim Hrun].
    cbn [app] in Hrun. cbv iota in Hrun.
    unfold bind at 1, getM at 1 in Hrun. cbv beta iota in Hrun.
    destruct (truthy (store_get (w_store w) id)) eqn:Tp;
      cbv beta iota delta [negb] in Hrun;
      [|throws_before_claim Hrun].
    destruct (truthy (get (get (get (store_get (w_store w) id) "ops") "checklist")
                        "tg_ready")) eqn:Rd; cbv beta iota delta [negb] in Hrun;
      [|throws_before_claim Hrun].
    destruct (_ && _ && _) eqn:Ep.
    + unfold ret in Hrun. injection Hrun as <- <-.
      apply andb_true_iff in Ep. destruct Ep as [Ep Ef].
      apply andb_true_iff in Ep. destruct Ep as [_ Es].
      destruct force; [discriminate Ef|]. apply is_str_true in Es.
      split; [reflexivity|]. split; [reflexivity|]. split; [|discriminate].
      intros rec [= <-]. repeat split; assumption.
    + apply Pg_claimed_publish_throws in Hrun.
      destruct Hrun as (Hs & Hc & _ & e' & -> & He).
      split; [exact Hs|]. split; [exact Hc|]. split; [discriminate|].
      intros e [= <-]. now right.
  - unfold x_publish in Hrun.
    destruct (is_str (X_ENABLE env) "true") eqn:E1; cbv beta iota delta [negb] in Hrun;
      [|throws_before_claim Hrun].
    destruct (missing "X_API_KEY" (X_API_KEY env)) eqn:M1;
      [|throws_before_claim Hrun].
    destruct (missing "X_API_SECRET" (X_API_SECRET env)) eqn:M2;
      [|throws_before_claim Hrun].
    destruct (missing "X_ACCESS_TOKEN" (X_ACCESS_TOKEN env)) eqn:M3;
      [|throws_before_claim Hrun].
    destruct (missing "X_ACCESS_SECRET" (X_ACCESS_SECRET env)) eqn:M4;
      [|throws_before_claim Hrun].
    cbn [app] in Hrun. cbv iota in Hrun.
    unfold bind at 1, getM at 1 in Hrun. cbv beta iota in Hrun.
    destruct (truthy (store_get (w_store w) id)) eqn:Tp;
      cbv beta iota delta [negb] in Hrun;
      [|throws_before_claim Hrun].
    destruct (truthy (get (get (get (store_get (w_store w) id) "ops") "checklist")
                        "x_ready")) eqn:Rd; cbv beta iota delta [negb] in Hrun;
      [|throws_before_claim Hrun].
    destruct (_ && _ && _) eqn:Ep.
    + unfold ret in Hrun. injection Hrun as <- <-.
      apply andb_true_iff in Ep. destruct Ep as [Ep Ef].
      apply andb_true_iff in Ep. destruct Ep as [_ Es].
      destruct force; [discriminate Ef|]. apply is_str_true in Es.
      split; [reflexivity|]. split; [reflexivity|]. split; [|discriminate].
      intros rec [= <-]. repeat split; assumption.
    + apply Pg_claimed_publish_throws in Hrun.
      destruct Hrun as (Hs & Hc & _ & e' & -> & He).
      split; [exact Hs|]. split; [exact Hc|]. split; [discriminate|].
      intros e [= <-]. now right.
Qed.

Definition pg_draft_world : world Pg.table := mkWorld pg_draft_table 0 [] VNull.

Lemma Pg_publish_never_reaches_the_service_witness :
  let run := @publish _ test_host (@PgStore test_host) Tg accepting_outside demo_env "p1"
               false pg_draft_world in
  w_store (snd run) = pg_draft_table /\
  w_calls (snd run) = [] /\
  exists e, fst run = Throw e /\ err_code e = VStr "42804".
Proof.
  intros run.
  destruct (@Pg_publish_never_reaches_the_service test_host Tg accepting_outside demo_env
              "p1" false pg_draft_world (snd run) (fst run) (surjective_pairing run))
    as (Hs & Hc & _ & _).
  split; [exact Hs|]. split; [exact Hc|].
  eexists. split; vm_compute; reflexivity.
Defined.

(** ** The launcher's checks *)

(** *** [readStreamWithLimit] *)

(** The bytes a stream delivers before it ends or fails, and whether it
    ends. *)
Fixpoint stream_bytes (s : stream) : list byte :=
  match s with
  | SEnd => []
  | SChunk chunk rest => (chunk ++ stream_bytes rest)%list
  | SFail _ => []
  end.

Fixpoint stream_ends (s : stream) : Prop :=
  match s with
  | SEnd => True
  | SChunk _ rest => stream_ends rest
  | SFail _ => False
  end.

Definition too_large (o : outcome (list byte)) : Prop :=
  exists e, o = Throw e /\ err_code e = VStr "LOGO_FETCH_FAILED"
            /\ err_message e = "Logo exceeds max size".

Lemma read_chunks_Ok (s : stream) (maxBytes total : Z) (chunks : list (list byte))
    (bytes : list byte) :
  read_chunks s maxBytes total chunks = Ok bytes ->
  stream_ends s /\
  bytes = (List.concat chunks ++ stream_bytes s)%list /\
  total + Z.of_nat (List.length (stream_bytes s)) <= Z.max total maxBytes.
Proof.
  revert total chunks. induction s as [|chunk rest IH|e]; intros total chunks; simpl.
  - intros [= <-]. rewrite app_nil_r. repeat split; lia.
  - destruct (_ >? _) eqn:E; [discriminate|].
    intros Hr. apply IH in Hr. destruct Hr as (He & Hb & Hl).
    split; [exact He|]. split.
    + rewrite Hb, concat_app. simpl. now rewrite app_nil_r, <- app_assoc.
    + rewrite length_app. rewrite Z.gtb_ltb in E; apply Z.ltb_ge in E. lia.
  - discriminate.
Qed.

Lemma read_chunks_ends (s : stream) (maxBytes total : Z) (chunks : list (list byte)) :
  stream_ends s ->
  if total + Z.of_nat (List.length (stream_bytes s)) <=? maxBytes
  then read_chunks s maxBytes total chunks
       = Ok (List.concat chunks ++ stream_bytes s)%list
  else total <= maxBytes -> too_large (read_chunks s maxBytes total chunks).
Proof.
  revert total chunks. induction s as [|chunk rest IH|e]; intros total chunks; simpl.
  - intros _. rewrite app_nil_r, Z.add_0_r.
    destruct (total <=? maxBytes) eqn:E; [reflexivity|].
    apply Z.leb_gt in E. intros; lia.
  - intros He. rewrite length_app, Nat2Z.inj_add, Z.add_assoc.
    specialize (IH (total + Z.of_nat (List.length chunk)) (chunks ++ [chunk])%list He).
    destruct (_ >? maxBytes) eqn:E.
    + rewrite Z.gtb_ltb in E; apply Z.ltb_lt in E.
      destruct (_ <=? maxBytes) eqn:E2; [apply Z.leb_le in E2; lia|].
      intros _. eexists; repeat split.
    + rewrite Z.gtb_ltb in E; apply Z.ltb_ge in E.
      destruct (_ <=? maxBytes) eqn:E2.
      * rewrite IH, concat_app. simpl. now rewrite app_nil_r, <- app_assoc.
      * intros _. now apply IH.
  - intros [].
Qed.

(** X11.  [readStreamWithLimit] never hands back more than [maxBytes]
    bytes.  For a streamed body: a result is returned only when the stream
    ends, it is the concatenation of all chunks in order, and its length
    is within the limit; a stream that ends with more than [maxBytes]
    bytes is rejected with [LOGO_FETCH_FAILED] (size exceeded), one that
    ends within the limit is returned whole.  For a body without stream,
    the buffer is returned exactly when its length is within the limit. *)
Theorem readStreamWithLimit_bounded (res : response) (maxBytes : Z)
    (Hmax : 0 <= maxBytes) :
  (forall bytes, readStreamWithLimit res maxBytes = Ok bytes ->
                 Z.of_nat (List.length bytes) <= maxBytes) /\
  (forall s, res_body res = Stream s ->
     (forall bytes, readStreamWithLimit res maxBytes = Ok bytes ->
                    stream_ends s /\ bytes = stream_bytes s) /\
     (stream_ends s ->
      if Z.of_nat (List.length (stream_bytes s)) <=? maxBytes
      then readStreamWithLimit res maxBytes = Ok (stream_bytes s)
      else too_large (readStreamWithLimit res maxBytes))) /\
  (forall buf, res_body res = NoStream (Ok buf) ->
     if Z.of_nat (List.length buf) <=? maxBytes
     then readStreamWithLimit res maxBytes = Ok buf
     else too_large (readStreamWithLimit res maxBytes)).
Proof.
  unfold readStreamWithLimit. split; [|split].
  - intros bytes. destruct (res_body res) as [[buf|e]|s].
    + destruct (_ >? _) eqn:E; [discriminate|]. intros [= <-].
      rewrite Z.gtb_ltb in E; apply Z.ltb_ge in E. exact E.
    + discriminate.
    + intros Hr. apply read_chunks_Ok in Hr. destruct Hr as (_ & -> & Hl).
      simpl in *. lia.
  - intros s ->. split.
    + intros bytes Hr. apply read_chunks_Ok in Hr. destruct Hr as (He & -> & _).
      split; [exact He|reflexivity].
    + intros He. pose proof (read_chunks_ends s maxBytes 0 [] He) as R.
      simpl in R. destruct (_ <=? maxBytes); [exact R|now apply R].
  - intros buf ->. rewrite Z.gtb_ltb.
    destruct (Z.of_nat (List.length buf) <=? maxBytes) eqn:E.
    + apply Z.leb_le in E. destruct (_ <? _) eqn:E2; [apply Z.ltb_lt in E2; lia|reflexivity].
    + apply Z.leb_gt in E. destruct (_ <? _) eqn:E2; [|apply Z.ltb_ge in E2; lia].
      eexists; repeat split.
Qed.

Lemma readStreamWithLimit_bounded_witness :
  readStreamWithLimit
    (mkResponse true 200 None [] (Stream (SChunk [x01; x02] (SChunk [x03] SEnd)))) 3
  = Ok [x01; x02; x03] /\
  too_large
    (readStreamWithLimit
       (mkResponse true 200 None [] (Stream (SChunk [x01; x02] (SChunk [x03] SEnd)))) 2).
Proof.
  split.
  - destruct (readStreamWithLimit_bounded
                (mkResponse true 200 None [] (Stream (SChunk [x01; x02] (SChunk [x03] SEnd))))
                3 ltac:(lia)) as (_ & Hs & _).
    destruct (Hs _ eq_refl) as [_ He]. exact (He I).
  - destruct (readStreamWithLimit_bounded
                (mkResponse true 200 None [] (Stream (SChunk [x01; x02] (SChunk [x03] SEnd))))
                2 ltac:(lia)) as (_ & Hs & _).
    destruct (Hs _ eq_refl) as [_ He]. exact (He I).
Defined.

(** *** [resolveSlippage] and [enforceCaps] *)

Lemma out_of_percent_range_false (n : jsnum) :
  out_of_percent_range n = false ->
  exists q, n = Fin q /\ (0 <= q)%Q /\ (q <= 100)%Q.
Proof.
  unfold out_of_percent_range, num_lt, num_of_Z.
  destruct n as [|neg|q]; simpl; try discriminate.
  rewrite !orb_false_iff, !negb_false_iff. intros [Hlo Hhi].
  exists q. split; [reflexivity|].
  apply Qle_bool_iff in Hlo, Hhi. split; assumption.
Qed.

(** X12.  A slippage that [resolveSlippage] lets through is a whole
    percentage between 0 and 100: the result is the floor of the
    configured value (10 when none is configured), the configured value
    is a finite number in [[0, 100]], and when a maximum is configured it
    is itself in [[0, 100]] and not below the configured value, hence not
    below the result.  Every rejection carries the code
    [SLIPPAGE_INVALID]. *)
Theorem resolveSlippage_in_range (env : LaunchkitEnv) :
  (forall n, resolveSlippage env = Ok n ->
     exists q,
       match LAUNCH_SLIPPAGE_PERCENT env with Some r => r | None => num_of_Z 10 end
         = Fin q /\
       (0 <= q)%Q /\ (q <= 100)%Q /\ n = Qfloor q /\ 0 <= n <= 100 /\
       forall cap, MAX_SLIPPAGE_PERCENT env = Some cap ->
                   exists c, cap = Fin c /\ (0 <= c)%Q /\ (c <= 100)%Q /\
                             (q <= c)%Q /\ (inject_Z n <= c)%Q) /\
  (forall e, resolveSlippage env = Throw e -> err_code e = VStr "SLIPPAGE_INVALID").
Proof.
  unfold resolveSlippage.
  set (raw := match LAUNCH_SLIPPAGE_PERCENT env with Some r => r | None => num_of_Z 10 end).
  split.
  - intros n. destruct (out_of_percent_range raw) eqn:Er; [discriminate|].
    destruct (out_of_percent_range_false raw Er) as (q & Eq & Hlo & Hhi).
    assert (Hn : 0 <= Qfloor q <= 100).
    { split.
      - rewrite <- (Qfloor_Z 0). now apply Qfloor_resp_le.
      - rewrite <- (Qfloor_Z 100). now apply Qfloor_resp_le. }
    destruct (MAX_SLIPPAGE_PERCENT env) as [cap|].
    + destruct (out_of_percent_range cap) eqn:Ec; [discriminate|].
      destruct (out_of_percent_range_false cap Ec) as (c & Ecap & Hclo & Hchi).
      destruct (num_gt raw cap) eqn:Eg; [discriminate|].
      rewrite Eq. intros [= <-]. exists q. repeat split; try assumption; try apply Hn.
      intros cap' [= <-]. exists c. repeat split; try assumption.
      * rewrite Eq, Ecap in Eg. simpl in Eg. apply negb_false_iff in Eg.
        now apply Qle_bool_iff.
      * rewrite Eq, Ecap in Eg. simpl in Eg. apply negb_false_iff in Eg.
        apply Qle_bool_iff in Eg.
        eapply Qle_trans; [apply Qfloor_le|exact Eg].
    + rewrite Eq. intros [= <-]. exists q. repeat split; try assumption; try apply Hn.
      discriminate.
  - intros e. destruct (out_of_percent_range raw); [now intros [= <-]|].
    destruct (MAX_SLIPPAGE_PERCENT env) as [cap|]; [|discriminate].
    destruct (out_of_percent_range cap); [now intros [= <-]|].
    destruct (num_gt raw cap); [now intros [= <-]|discriminate].
Qed.

(** [a <= b] on numbers, neither side being [NaN]. *)
Definition num_le (a b : jsnum) : Prop :=
  isNaN a = false /\ isNaN b = false /\ num_gt a b = false.

(** X13.  Amounts that pass [enforceCaps] are numbers within the
    configured caps: the requested dev buy and priority fee are the
    environment's values when those are set (non-zero, not [NaN]) and the
    caps themselves otherwise; they are never [NaN] and never above the
    caps; and every rejection carries the code [CAP_EXCEEDED]. *)
Theorem enforceCaps_within_caps (env : LaunchkitEnv) (options : PumpLauncherOptions) :
  (forall caps, enforceCaps env options = Ok caps ->
     caps_maxDevBuy caps = maxDevBuy options /\
     caps_maxPriorityFee caps = maxPriorityFee options /\
     caps_maxLaunchesPerDay caps = maxLaunchesPerDay options /\
     requestedDevBuy caps =
       (if num_truthy (MAX_SOL_DEV_BUY env) then MAX_SOL_DEV_BUY env
        else maxDevBuy options) /\
     requestedPriority caps =
       (if num_truthy (MAX_PRIORITY_FEE env) then MAX_PRIORITY_FEE env
        else maxPriorityFee options) /\
     num_le (requestedDevBuy caps) (maxDevBuy options) /\
     num_le (requestedPriority caps) (maxPriorityFee options)) /\
  (forall e, enforceCaps env options = Throw e -> err_code e = VStr "CAP_EXCEEDED").
Proof.
  unfold enforceCaps. split.
  - intros caps.
    destruct (isNaN (maxDevBuy options)) eqn:N1; [discriminate|].
    destruct (isNaN (maxPriorityFee options)) eqn:N2; [discriminate|].
    destruct (isNaN (maxLaunchesPerDay options)) eqn:N3; [discriminate|].
    simpl orb. cbv iota.
    destruct (num_gt _ (maxDevBuy options)) eqn:G1; [discriminate|].
    destruct (num_gt _ (maxPriorityFee options)) eqn:G2; [discriminate|].
    simpl orb. cbv iota. intros [= <-]. simpl.
    repeat split; try assumption.
    + destruct (num_truthy (MAX_SOL_DEV_BUY env)) eqn:T; [|assumption].
      destruct (MAX_SOL_DEV_BUY env); [discriminate|reflexivity|reflexivity].
    + destruct (num_truthy (MAX_PRIORITY_FEE env)) eqn:T; [|assumption].
      destruct (MAX_PRIORITY_FEE env); [discriminate|reflexivity|reflexivity].
  - intros e.
    destruct (_ || _); [now intros [= <-]|].
    destruct (_ || _); [now intros [= <-]|discriminate].
Qed.

(** *** [ensureLaunchAllowed] *)

Section LaunchGuard.
Context {host : Host}.
Variable env : LaunchkitEnv.

(** What the guard admits: launching is enabled, the record is not
    launched, no launch is in flight, and a failed launch is retried only
    when forced or when its recorded failure is at least ten minutes
    old. *)
Definition launch_allowed (pack : value) (forceRetry : bool) (now : Z) : Prop :=
  launchEnabled env = true /\
  launch_status pack <> VStr "launched" /\
  (truthy (launch_requested_at pack) = false \/ launch_status pack = VStr "failed") /\
  (launch_status pack = VStr "failed" -> forceRetry = false ->
   exists t,
     truthy (get (get pack "launch") "failed_at") = true /\
     Date_getTime (get (get pack "launch") "failed_at") = Some t /\
     t <> 0 /\ 10 * 60 * 1000 <= now - t).

Definition launch_guard_code (e : error) : Prop :=
  err_code e = VStr "LAUNCH_DISABLED" \/ err_code e = VStr "ALREADY_LAUNCHED" \/
  err_code e = VStr "LAUNCH_IN_PROGRESS" \/ err_code e = VStr "LAUNCH_FAILED_RETRY_BLOCKED".

End LaunchGuard.

Ltac guard_code := intros ? Heq; injection Heq as <-; simpl; tauto.

Lemma ensureLaunchAllowed_cases `{Host} {S : Type} (out : outside) (env : LaunchkitEnv)
    (pack : value) (forceRetry : bool) (w : world S) :
  let run := ensureLaunchAllowed out env pack forceRetry w in
  (fst run = Ok tt <-> launch_allowed env pack forceRetry (clock out (w_reads w))) /\
  (forall e, fst run = Throw e -> launch_guard_code e) /\
  w_store (snd run) = w_store w /\ w_calls (snd run) = w_calls w /\
  w_secrets (snd run) = w_secrets w.
Proof.
  unfold ensureLaunchAllowed, launch_allowed, launch_guard_code,
    launch_status, launch_requested_at.
  set (status := get (get pack "launch") "status").
  set (failed_at := get (get pack "launch") "failed_at").
  set (ra := truthy (get (get pack "launch") "requested_at")).
  destruct (launchEnabled env); cbv beta iota delta [negb].
  2:{ simpl. repeat split; try discriminate; try tauto; try guard_code.
      intros [C _]; discriminate. }
  destruct (is_str status "launched") eqn:E1.
  { apply is_str_true in E1. simpl. repeat split; try discriminate; try tauto;
      try guard_code. }
  apply is_str_false in E1.
  destruct (is_str status "failed") eqn:E3;
    [apply is_str_true in E3|apply is_str_false in E3].
  - replace (ra && false) with false by (destruct ra; reflexivity).
    cbv beta iota delta [andb].
    destruct forceRetry; cbv beta iota delta [negb].
    + simpl. repeat split; try discriminate; try tauto; try guard_code.
    + unfold bind, read_clock, throw, ret. cbv beta iota.
      destruct (truthy failed_at) eqn:Ef.
      * destruct (Date_getTime failed_at) as [t|] eqn:Ed.
        -- destruct ((t =? 0) || (_ <? _)) eqn:Ec;
             simpl; repeat split; try discriminate; try tauto; try guard_code.
           ++ intros (_ & _ & _ & C). destruct (C E3 eq_refl) as (t' & _ & D & Nz & Hle).
              inversion D; subst t'.
              apply orb_true_iff in Ec. destruct Ec as [Ec|Ec];
                [apply Z.eqb_eq in Ec|apply Z.ltb_lt in Ec]; lia.
           ++ intros _ _. exists t. apply orb_false_iff in Ec. destruct Ec as [Ec1 Ec2].
              apply Z.eqb_neq in Ec1. apply Z.ltb_ge in Ec2. repeat split; assumption.
        -- simpl; repeat split; try discriminate; try tauto; try guard_code.
           intros (_ & _ & _ & C). destruct (C E3 eq_refl) as (t' & _ & D & _).
           discriminate.
      * destruct ((0 =? 0) || (_ <? _)) eqn:Ec; [|discriminate].
        simpl; repeat split; try discriminate; try tauto; try guard_code.
        intros (_ & _ & _ & C). destruct (C E3 eq_refl) as (t' & T & _). discriminate.
  - replace (ra && true) with ra by (destruct ra; reflexivity).
    destruct ra eqn:E2; cbv beta iota delta [andb].
    + simpl; repeat split; try discriminate; try tauto; try guard_code.
      intros (_ & _ & [C|C] & _); congruence.
    + simpl; repeat split; try discriminate; try tauto; try guard_code.
Qed.

(** X14.  [ensureLaunchAllowed] returns normally exactly when launching
    is enabled, the record is not launched, no launch is in flight
    ([requested_at] unset, or status ["failed"]), and, for a failed launch
    that is not forced, a failure time is recorded that is at least ten
    minutes before the clock reading; a failed launch without a recorded
    failure time is never retried unforced.  Otherwise it throws one of
    its four codes.  It writes nothing and calls no remote service. *)
Theorem ensureLaunchAllowed_guard `{Host} {S : Type} (out : outside) (env : LaunchkitEnv)
    (pack : value) (forceRetry : bool) (w : world S) :
  let run := ensureLaunchAllowed out env pack forceRetry w in
  (fst run = Ok tt <-> launch_allowed env pack forceRetry (clock out (w_reads w))) /\
  (forall e, fst run = Throw e -> launch_guard_code e) /\
  w_store (snd run) = w_store w /\ w_calls (snd run) = w_calls w /\
  w_secrets (snd run) = w_secrets w.
Proof. apply ensureLaunchAllowed_cases. Qed.


(** X15.  A launch that the guard admits wins the claim of the in-memory
    store: for the stored record the guard was run on, [claimLaunch]
    succeeds, stores the claimed record and sets the requested time and
    status, so the orchestrator's own "Launch in progress" error after the
    claim cannot arise in a run that nothing interleaves with. *)
Theorem admitted_launch_wins_claim `{Host} (env : LaunchkitEnv) (bf : props)
    (forceRetry : bool) (now : Z) (st : Mem.store) (id requested_at status : string)
    (now' : Z)
    (Hallowed : launch_allowed env (VObj bf) forceRetry now)
    (Hstored : Mem.Map_get st id = VObj bf) :
  exists updated,
    Mem.claimLaunch st id requested_at status now' = (updated, Mem.Map_set st id updated) /\
    truthy updated = true /\
    launch_requested_at updated = VStr requested_at /\
    launch_status updated = VStr status /\
    Mem.get_pack (Mem.Map_set st id updated) id = updated.
Proof.
  destruct Hallowed as (_ & Hl & Hr & _).
  exists (claimLaunch_result requested_at status now' (VObj bf)).
  split.
  - rewrite (Mem_claimLaunch_cases st id requested_at status now' bf Hstored).
    apply is_str_false in Hl. rewrite Hl.
    destruct Hr as [Hr|Hr].
    + unfold launch_requested_at in *. now rewrite Hr.
    + apply is_str_true in Hr. rewrite Hr. now rewrite andb_false_r.
  - split; [reflexivity|].
    destruct (claimLaunch_result_launch requested_at status now' (VObj bf)) as [A B].
    split; [exact A|]. split; [exact B|].
    unfold Mem.get_pack. now rewrite Map_get_set_same.
Qed.

Lemma admitted_launch_wins_claim_witness :
  exists updated,
    @Mem.claimLaunch test_host mem_draft_store "p1" "1700000000000" "ready" 2000
      = (updated, Mem.Map_set mem_draft_store "p1" updated) /\
    launch_status updated = VStr "ready".
Proof.
  assert (E : exists bf, Mem.Map_get mem_draft_store "p1" = VObj bf)
    by (eexists; vm_compute; reflexivity).
  destruct E as [bf E].
  assert (A : @launch_allowed test_host demo_env (VObj bf) false 2000).
  { rewrite <- E. split; [reflexivity|]. split; [vm_compute; discriminate|].
    split; [left; reflexivity|]. vm_compute. discriminate. }
  destruct (@admitted_launch_wins_claim test_host demo_env bf false 2000 mem_draft_store
              "p1" "1700000000000" "ready" 2000 A E) as (u & Hc & _ & _ & Hs & _).
  exists u. split; [exact Hc|exact Hs].
Defined.

(** *** The logo file name *)

Lemma string_app_assoc (a b c : string) : ((a ++ b) ++ c)%string = (a ++ b ++ c)%string.
Proof. induction a as [|x a IH]; simpl; [reflexivity|now rewrite IH]. Qed.

Lemma string_app_nil_r (a : string) : (a ++ "")%string = a.
Proof. induction a as [|x a IH]; simpl; [reflexivity|now rewrite IH]. Qed.

Lemma includes_char_app (c : ascii) (a b : string) :
  includes_char c (a ++ b) = includes_char c a || includes_char c b.
Proof.
  induction a as [|x a IH]; simpl; [reflexivity|].
  rewrite IH. now rewrite orb_assoc.
Qed.

Lemma before_char_excludes (c : ascii) (s : string) :
  includes_char c (before_char c s) = false.
Proof.
  induction s as [|x s IH]; simpl; [reflexivity|].
  destruct (Ascii.eqb x c) eqn:E; simpl; [reflexivity|]. now rewrite E.
Qed.

Lemma before_char_keeps_out (c d : ascii) (s : string) :
  includes_char d s = false -> includes_char d (before_char c s) = false.
Proof.
  induction s as [|x s IH]; simpl; [reflexivity|].
  intros Hd. apply orb_false_iff in Hd. destruct Hd as [H1 H2].
  destruct (Ascii.eqb x c); simpl; [reflexivity|].
  now rewrite H1, IH.
Qed.

Lemma last_segment_no_slash (s acc : string) :
  includes_char "/" acc = false ->
  includes_char "/" (last_segment s acc) = false.
Proof.
  revert acc. induction s as [|x s IH]; intros acc Ha; simpl; [exact Ha|].
  destruct (Ascii.eqb x "/") eqn:E.
  - now apply IH.
  - apply IH. rewrite includes_char_app, Ha. simpl. now rewrite E.
Qed.

Lemma last_segment_keeps_out (d : ascii) (s acc : string) :
  includes_char d s = false -> includes_char d acc = false ->
  includes_char d (last_segment s acc) = false.
Proof.
  revert acc. induction s as [|x s IH]; intros acc Hs Ha; simpl; [exact Ha|].
  simpl in Hs. apply orb_false_iff in Hs. destruct Hs as [H1 H2].
  destruct (Ascii.eqb x "/").
  - now apply IH.
  - apply IH; [exact H2|]. rewrite includes_char_app, Ha. simpl. now rewrite H1.
Qed.

Lemma last_segment_suffix (s acc : string) :
  exists prefix, (acc ++ s)%string = (prefix ++ last_segment s acc)%string.
Proof.
  revert acc. induction s as [|x s IH]; intros acc; simpl.
  - exists ""%string. apply string_app_nil_r.
  - destruct (Ascii.eqb x "/").
    + destruct (IH ""%string) as [p Hp]. simpl in Hp.
      exists (acc ++ String x p)%string.
      rewrite string_app_assoc. simpl. now rewrite <- Hp.
    + destruct (IH (acc ++ String x "")%string) as [p Hp].
      exists p. rewrite <- Hp. rewrite string_app_assoc. reflexivity.
Qed.

(** X16.  The file name under which the logo is uploaded is never empty,
    always has a dot, and never contains a path separator, a query or a
    fragment: it is the last path segment of the logo URL with fragment
    and query cut off, or ["logo.png"] when that segment is empty or has
    no dot. *)
Theorem logo_filename_safe (logoUrl : string) :
  let filename := logo_filename logoUrl in
  filename <> "" /\
  includes_char "." filename = true /\
  includes_char "/" filename = false /\
  includes_char "?" filename = false /\
  includes_char "#" filename = false /\
  (filename = "logo.png" \/
   exists prefix,
     before_char "?" (before_char "#" logoUrl) = (prefix ++ filename)%string).
Proof.
  unfold logo_filename.
  set (path := before_char "?" (before_char "#" logoUrl)).
  set (segment := last_segment path "").
  destruct (String.eqb segment "") eqn:E1; simpl orb; cbv iota.
  { repeat split; try discriminate; try reflexivity. now left. }
  destruct (includes_char "." segment) eqn:E2; simpl negb; cbv iota.
  2:{ repeat split; try discriminate; try reflexivity. now left. }
  apply String.eqb_neq in E1.
  split; [exact E1|]. split; [exact E2|].
  split; [now apply last_segment_no_slash|].
  split; [apply last_segment_keeps_out; [apply before_char_excludes|reflexivity]|].
  split.
  - apply last_segment_keeps_out; [|reflexivity].
    apply before_char_keeps_out, before_char_excludes.
  - right. destruct (last_segment_suffix path "") as [p Hp]. exists p. exact Hp.
Qed.

(** ** Base58 and the mint key pair *)

Section Base58RoundTrip.
Import Base58.
Local Open Scope N_scope.

Lemma digit_char_of_digit (d : N) : d < 58 -> digit (char_of_digit d) = Some d.
Proof.
  intros Hd.
  assert (A : forallb (fun k => match digit (char_of_digit (N.of_nat k)) with
                                | Some d' => N.eqb d' (N.of_nat k)
                                | None => false
                                end) (seq 0 58) = true) by (vm_compute; reflexivity).
  rewrite forallb_forall in A.
  specialize (A (N.to_nat d)). rewrite N2Nat.id in A.
  assert (Hin : In (N.to_nat d) (seq 0 58)) by (apply in_seq; lia).
  specialize (A Hin). destruct (digit (char_of_digit d)); [|discriminate].
  apply N.eqb_eq in A. now subst.
Qed.

Lemma char_of_digit_not_one (d : N) :
  0 < d -> d < 58 -> Ascii.eqb (char_of_digit d) "1" = false.
Proof.
  intros H0 Hd.
  assert (A : forallb (fun k => negb (Ascii.eqb (char_of_digit (N.of_nat k)) "1"))
                (seq 1 57) = true) by (vm_compute; reflexivity).
  rewrite forallb_forall in A.
  specialize (A (N.to_nat d)). rewrite N2Nat.id in A.
  apply negb_true_iff, A, in_seq. lia.
Qed.

Lemma number_app (s1 s2 : string) (a : N) :
  number (s1 ++ s2) a =
  match number s1 a with Some m => number s2 m | None => None end.
Proof.
  revert a. induction s1 as [|c s1 IH]; intros a; simpl; [reflexivity|].
  destruct (digit c); [apply IH|reflexivity].
Qed.

Lemma digits_acc (fuel : nat) (n : N) (acc : string) :
  digits fuel n acc = (digits fuel n "" ++ acc)%string.
Proof.
  revert n acc. induction fuel as [|f IH]; intros n acc; simpl; [reflexivity|].
  destruct (n =? 0); [reflexivity|].
  rewrite IH. rewrite (IH _ (String _ "")). now rewrite string_app_assoc.
Qed.

Lemma div_lt_pow2 (n k : N) (f : nat) :
  2 <= k -> n < 2 ^ N.of_nat (S f) -> n / k < 2 ^ N.of_nat f.
Proof.
  intros Hk Hn. rewrite Nat2N.inj_succ, N.pow_succ_r in Hn by lia.
  apply N.Div0.div_lt_upper_bound. nia.
Qed.

Lemma number_digits (fuel : nat) (n : N) :
  n < 2 ^ N.of_nat fuel -> number (digits fuel n "") 0 = Some n.
Proof.
  revert n. induction fuel as [|f IH]; intros n Hn; simpl.
  - simpl in Hn. f_equal. lia.
  - destruct (n =? 0) eqn:E; [apply N.eqb_eq in E; now subst|].
    rewrite digits_acc, number_app, IH by (apply div_lt_pow2; [lia|exact Hn]).
    simpl. rewrite digit_char_of_digit by (apply N.mod_lt; lia).
    f_equal. pose proof (N.Div0.div_mod n 58). lia.
Qed.

Lemma leading_ones_digits (fuel : nat) (n : N) :
  n < 2 ^ N.of_nat fuel -> leading_ones (digits fuel n "") = 0%nat.
Proof.
  revert n. induction fuel as [|f IH]; intros n Hn; simpl; [reflexivity|].
  destruct (n =? 0) eqn:E; [reflexivity|]. apply N.eqb_neq in E.
  rewrite digits_acc.
  destruct (N.eq_dec (n / 58) 0) as [Ez|Nz].
  - rewrite Ez. assert (D0 : digits f 0 "" = ""%string) by (destruct f; reflexivity).
    rewrite D0. simpl.
    assert (Hlt : n < 58) by (apply N.div_small_iff in Ez; lia).
    rewrite (N.mod_small n 58 Hlt).
    pose proof (char_of_digit_not_one n ltac:(lia) Hlt) as Hc.
    destruct (char_of_digit n) as [[] [] [] [] [] [] [] []]; try reflexivity.
    discriminate Hc.
  - specialize (IH (n / 58) (div_lt_pow2 n 58 f ltac:(lia) Hn)).
    destruct f as [|f']; [simpl in Hn; assert (n / 58 = 0) by (apply N.div_small; lia);
                          contradiction|].
    simpl in IH |- *. apply N.eqb_neq in Nz. rewrite Nz in IH |- *.
    rewrite digits_acc in IH |- *.
    destruct (digits f' (n / 58 / 58) "") as [|c rest]; simpl in IH |- *.
    + destruct (char_of_digit (n / 58 mod 58)) as [[] [] [] [] [] [] [] []];
        try reflexivity; discriminate IH.
    + destruct c as [[] [] [] [] [] [] [] []]; try reflexivity; discriminate IH.
Qed.

Lemma number_ones (k : nat) (s : string) : number (ones k ++ s) 0 = number s 0.
Proof. induction k as [|k IH]; simpl; [reflexivity|exact IH]. Qed.

Lemma leading_ones_ones (k : nat) (s : string) :
  leading_ones (ones k ++ s) = (k + leading_ones s)%nat.
Proof. induction k as [|k IH]; simpl; [reflexivity|now rewrite IH]. Qed.

(** Bytes *)

Definition no_leading_zero (l : list byte) : Prop :=
  match l with x00 :: _ => False | _ => True end.

Lemma N_of_bytes_snoc (l : list byte) (b : byte) :
  N_of_bytes (l ++ [b]) = N_of_bytes l * 256 + Byte.to_N b.
Proof. unfold N_of_bytes. now rewrite fold_left_app. Qed.

Lemma byte_pos (b : byte) : b <> x00 -> 0 < Byte.to_N b.
Proof. destruct b; try congruence; intros _; vm_compute; reflexivity. Qed.

Lemma N_of_bytes_pos (l : list byte) :
  l <> [] -> no_leading_zero l -> 0 < N_of_bytes l.
Proof.
  induction l as [|b l IH] using rev_ind; [congruence|]. intros _ Hz.
  rewrite N_of_bytes_snoc.
  destruct l as [|x l].
  - simpl in *. assert (Pb : 0 < Byte.to_N b).
    { apply byte_pos. intros Eb; subst b; exact Hz. }
    unfold N_of_bytes; simpl. lia.
  - assert (P : 0 < N_of_bytes (x :: l)).
    { apply IH; [discriminate|]. simpl in *. now destruct x. }
    lia.
Qed.

Lemma be_bytes_acc (fuel : nat) (n : N) (acc : list byte) :
  be_bytes fuel n acc = (be_bytes fuel n [] ++ acc)%list.
Proof.
  revert n acc. induction fuel as [|f IH]; intros n acc; simpl; [reflexivity|].
  destruct (n =? 0); [reflexivity|].
  rewrite IH. rewrite (IH _ [_]). now rewrite <- app_assoc.
Qed.

Lemma byte_of_to_N (b : byte) : byte_of_N (Byte.to_N b) = b.
Proof. unfold byte_of_N. now rewrite Byte.of_to_N. Qed.

Lemma be_bytes_N_of_bytes (l : list byte) :
  no_leading_zero l ->
  forall fuel, N_of_bytes l < 2 ^ N.of_nat fuel ->
               be_bytes fuel (N_of_bytes l) [] = l.
Proof.
  induction l as [|b l IH] using rev_ind; intros Hz fuel Hf.
  - destruct fuel; reflexivity.
  - assert (Hpos : 0 < N_of_bytes (l ++ [b])).
    { apply N_of_bytes_pos; [destruct l; discriminate|exact Hz]. }
    destruct fuel as [|f]; [simpl in Hf; lia|].
    simpl. destruct (N_of_bytes (l ++ [b]) =? 0) eqn:E;
      [apply N.eqb_eq in E; lia|].
    pose proof (Byte.to_N_bounded b) as Hb.
    rewrite N_of_bytes_snoc in *.
    assert (Hdiv : (N_of_bytes l * 256 + Byte.to_N b) / 256 = N_of_bytes l).
    { rewrite N.div_add_l by lia. rewrite N.div_small by lia. lia. }
    assert (Hmod : (N_of_bytes l * 256 + Byte.to_N b) mod 256 = Byte.to_N b).
    { rewrite N.add_comm, N.Div0.mod_add. apply N.mod_small. lia. }
    rewrite Hdiv, Hmod, byte_of_to_N, be_bytes_acc.
    rewrite IH; [reflexivity| |].
    + destruct l as [|x l]; [exact I|]. simpl in *. now destruct x.
    + rewrite <- Hdiv. apply div_lt_pow2; [lia|exact Hf].
Qed.

Fixpoint strip_zeros (l : list byte) : list byte :=
  match l with
  | x00 :: r => strip_zeros r
  | _ => l
  end.

Lemma strip_zeros_spec (l : list byte) :
  l = (repeat x00 (leading_zeros l) ++ strip_zeros l)%list /\
  no_leading_zero (strip_zeros l) /\
  N_of_bytes l = N_of_bytes (strip_zeros l).
Proof.
  induction l as [|b l IH]; simpl; [repeat split|].
  destruct b; simpl; try (repeat split; reflexivity).
  destruct IH as (E & Z & Nb). repeat split; [now rewrite <- E|exact Z|].
  rewrite <- Nb. unfold N_of_bytes. reflexivity.
Qed.

Lemma decode_encode (l : list byte) : decode (encode l) = Some l.
Proof.
  unfold decode, encode.
  set (n := N_of_bytes l).
  assert (Hn : n < 2 ^ N.of_nat (N.to_nat (N.size n))).
  { rewrite N2Nat.id. apply N.size_gt. }
  rewrite number_ones, number_digits by exact Hn.
  rewrite leading_ones_ones, leading_ones_digits by exact Hn.
  rewrite Nat.add_0_r. f_equal.
  destruct (strip_zeros_spec l) as (E & Z & Nb).
  unfold bytes_of_N. subst n. rewrite Nb.
  rewrite be_bytes_N_of_bytes; [now rewrite <- E|exact Z|].
  rewrite <- Nb. exact Hn.
Qed.

End Base58RoundTrip.

Lemma generateMintKeypair_cases (secretKey publicBytes : list byte) :
  generateMintKeypair (secretKey, publicBytes) =
    (if negb (Nat.eqb (List.length secretKey) 64)
     then Throw (errorWithCode "MINT_KEYPAIR_INVALID" "Mint secretKey must be 64 bytes")
     else if negb (Nat.eqb (List.length publicBytes) 32)
     then Throw (errorWithCode "MINT_KEYPAIR_INVALID" "Mint publicKey must be 32 bytes")
     else Ok (Base58.encode secretKey, Base58.encode publicBytes)).
Proof.
  unfold generateMintKeypair.
  destruct (Nat.eqb (List.length secretKey) 64) eqn:E1; [|reflexivity].
  destruct (Nat.eqb (List.length publicBytes) 32) eqn:E2; [|reflexivity].
  cbv beta iota delta [negb]. rewrite !decode_encode, E1, E2. reflexivity.
Qed.

(** X17.  [generateMintKeypair] succeeds exactly on a key pair with a
    64-byte secret key and a 32-byte public key, and then returns their
    base58 encodings, each of which decodes back to the key it encodes;
    its third error ("Mint encoding lengths invalid"), raised when the
    re-decoded lengths differ, can never occur. *)
Theorem generateMintKeypair_round_trip (secretKey publicBytes : list byte) :
  generateMintKeypair (secretKey, publicBytes) =
    (if negb (Nat.eqb (List.length secretKey) 64)
     then Throw (errorWithCode "MINT_KEYPAIR_INVALID" "Mint secretKey must be 64 bytes")
     else if negb (Nat.eqb (List.length publicBytes) 32)
     then Throw (errorWithCode "MINT_KEYPAIR_INVALID" "Mint publicKey must be 32 bytes")
     else Ok (Base58.encode secretKey, Base58.encode publicBytes)) /\
  Base58.decode (Base58.encode secretKey) = Some secretKey /\
  Base58.decode (Base58.encode publicBytes) = Some publicBytes.
Proof.
  split; [apply generateMintKeypair_cases|split; apply decode_encode].
Qed.

(** ** What the publishers send *)

(** Peels one step of a run that ended in [Ok]. *)
Ltac run_ok H :=
  first
    [ match type of H with
      | bind _ _ _ = (Ok _, _) =>
          let a := fresh "a" in let w1 := fresh "w" in let Hm := fresh "Hm" in
          apply bind_Ok in H; destruct H as (a & w1 & Hm & H)
      | throw _ _ = (Ok _, _) => discriminate H
      | lift_outcome ?o _ = (Ok _, _) => destruct o eqn:?; simpl lift_outcome in H
      | (if ?b then _ else _) _ = (Ok _, _) => destruct b eqn:?
      | (let '(_, _) := ?x in _) _ = (Ok _, _) => destruct x
      | (match ?x with _ => _ end) _ = (Ok _, _) => destruct x eqn:?
      end ].

Section Traces.
Context {host : Host} {S : Type} {store : LaunchPackStore S}.
Variable out : outside.
Variable env : LaunchkitEnv.

Local Open Scope orch_scope.

(** The request [postTweet] sends. *)
Definition tweet_request (text replyToId : value) : request :=
  mkRequest "https://api.twitter.com/2/tweets"
    (if truthy replyToId
     then VObj [("text", text); ("reply", VObj [("in_reply_to_tweet_id", replyToId)])]
     else VObj [("text", text)]) [].

(** The requests of a thread: each text is posted in reply to the id
    returned for the text before it. *)
Fixpoint thread_requests (texts : list value) (previousId : value) (ids : list string)
  : list request :=
  match texts, ids with
  | text :: rest, id :: ids' =>
      tweet_request text previousId :: thread_requests rest (VStr id) ids'
  | _, _ => []
  end.

(** What the remote side answers to the [n]-th call: the parsed body (an
    empty object when there is none), and the tweet id in it. *)
Definition answer_json (n : nat) (r : request) : value :=
  match remote out n r with
  | FetchResponse res => match res_json res with Some j => j | None => VObj [] end
  | FetchThrows _ => VObj []
  end.

Definition answered_tweet_id (n : nat) (text replyToId : value) : string :=
  to_string (get (get (answer_json n (tweet_request text replyToId)) "data") "id").

(** The ids answered to the posts of a thread whose first post is call
    number [n]: each post replies to the id answered to the one before. *)
Fixpoint answered_thread_ids (texts : list value) (previousId : value) (n : nat)
  : list string :=
  match texts with
  | [] => []
  | text :: rest =>
      let id := answered_tweet_id n text previousId in
      id :: answered_thread_ids rest (VStr id) (Datatypes.S n)
  end.

Definition made_calls (w w' : world S) (calls : list request) : Prop :=
  w_calls w' = (w_calls w ++ calls)%list /\ w_store w' = w_store w /\
  w_reads w' = w_reads w /\ w_secrets w' = w_secrets w.

Lemma postTweet_Ok (text previousId : value) (w w' : world S) (idStr : string) :
  postTweet out text previousId w = (Ok idStr, w') ->
  idStr = answered_tweet_id (List.length (w_calls w)) text previousId /\
  made_calls w w' [tweet_request text previousId].
Proof.
  unfold postTweet. intros H. run_ok H.
  unfold fetch in Hm. injection Hm as <- <-.
  unfold answered_tweet_id, answer_json, tweet_request.
  destruct (remote out _ _) as [e|res]; [discriminate H|].
  run_ok H; [discriminate H|]. unfold ret in H. injection H as <- <-.
  repeat split.
Qed.

Lemma post_thread_Ok (posts : list value) :
  forall (tweetIds : list value) (previousId : value) (w w' : world S) (ids' : list value),
    post_thread out posts tweetIds previousId w = (Ok ids', w') ->
    let ids := answered_thread_ids posts previousId (List.length (w_calls w)) in
    List.length ids = List.length posts /\
    ids' = (tweetIds ++ map VStr ids)%list /\
    made_calls w w' (thread_requests posts previousId ids).
Proof.
  induction posts as [|post rest IH]; intros tweetIds previousId w w' ids' H; simpl in H.
  - unfold ret in H. injection H as <- <-. simpl.
    rewrite app_nil_r. repeat split. now rewrite app_nil_r.
  - run_ok H. apply postTweet_Ok in Hm. destruct Hm as (Ea & C1 & S1 & R1 & X1).
    apply IH in H. cbv zeta in H. destruct H as (Hl & -> & C2 & S2 & R2 & X2).
    assert (En : List.length (w_calls w0) = Datatypes.S (List.length (w_calls w)))
      by (rewrite C1, length_app; simpl; lia).
    rewrite En in *. subst a. cbv zeta. simpl answered_thread_ids.
    split; [simpl; now rewrite Hl|].
    split; [simpl; now rewrite <- app_assoc|].
    repeat split; try congruence.
    simpl thread_requests. rewrite C2, C1, <- app_assoc. reflexivity.
Qed.

(** The requests [maybeSendAndPin] sends for a non-empty text. *)
Definition tg_url (method : string) : string :=
  "https://api.telegram.org/bot" ++ to_string (TG_BOT_TOKEN env) ++ "/" ++ method.

Definition tg_send_request (text : value) : request :=
  mkRequest (tg_url "sendMessage")
    (VObj [("chat_id", TG_CHAT_ID env); ("text", text);
           ("disable_web_page_preview", VBool true)]) [].

Definition tg_pin_request (messageId : value) : request :=
  mkRequest (tg_url "pinChatMessage")
    (VObj [("chat_id", TG_CHAT_ID env); ("message_id", messageId)]) [].

(** The message id answered to the [sendMessage] that is call number
    [n]. *)
Definition answered_message_id (n : nat) (text : value) : value :=
  get (get (answer_json n (tg_send_request text)) "result") "message_id".

(** The message ids answered to the non-empty texts when the first call
    is number [n]; each such text takes two calls. *)
Fixpoint answered_message_ids (texts : list value) (n : nat) : list value :=
  match texts with
  | [] => []
  | text :: rest =>
      if truthy text
      then answered_message_id n text
             :: answered_message_ids rest (Datatypes.S (Datatypes.S n))
      else answered_message_ids rest n
  end.

(** Every non-empty text is sent and the message it produced is pinned
    before the next text is looked at. *)
Fixpoint pin_requests (texts : list value) (messageIds : list value) : list request :=
  match texts with
  | [] => []
  | text :: rest =>
      if truthy text then
        match messageIds with
        | m :: ms => tg_send_request text :: tg_pin_request m :: pin_requests rest ms
        | [] => []
        end
      else pin_requests rest messageIds
  end.

Lemma tgApi_Ok (token : value) (method : string) (body r : value) (w w' : world S) :
  tgApi out token method body w = (Ok r, w') ->
  r = get (answer_json (List.length (w_calls w))
             (mkRequest ("https://api.telegram.org/bot" ++ to_string token ++ "/"
                           ++ method) body []))
        "result" /\
  made_calls w w'
    [mkRequest ("https://api.telegram.org/bot" ++ to_string token ++ "/" ++ method)
       body []].
Proof.
  unfold tgApi. intros H. run_ok H.
  unfold fetch in Hm. injection Hm as <- <-.
  unfold answer_json.
  destruct (remote out _ _) as [e|res]; [discriminate H|].
  run_ok H; [discriminate H|]. unfold ret in H. injection H as <- <-.
  repeat split.
Qed.

Lemma maybeSendAndPin_Ok (text r : value) (w w' : world S) :
  maybeSendAndPin out env text w = (Ok r, w') ->
  (truthy text = false /\ r = VNull /\ w' = w) \/
  (truthy text = true /\ nullish r = false /\
   r = answered_message_id (List.length (w_calls w)) text /\
   made_calls w w' [tg_send_request text; tg_pin_request r]).
Proof.
  unfold maybeSendAndPin. intros H.
  destruct (truthy text) eqn:T; cbv beta iota delta [negb] in H.
  - right. split; [reflexivity|].
    run_ok H. apply tgApi_Ok in Hm. destruct Hm as (Ea & C1 & S1 & R1 & X1).
    run_ok H; [discriminate H|].
    run_ok H. apply tgApi_Ok in Hm. destruct Hm as (_ & C2 & S2 & R2 & X2).
    unfold ret in H. injection H as <- <-.
    split; [assumption|].
    split; [unfold answered_message_id; now rewrite Ea|].
    repeat split; try congruence.
    rewrite C2, C1, <- app_assoc. reflexivity.
  - left. unfold ret in H. injection H as <- <-. repeat split.
Qed.

End Traces.

(** X18.  A successful X publish posts a reply chain.  With [texts] the
    main post (when non-empty) followed by the thread items, the steps
    post each text once and in order, the first as a new tweet and every
    later one in reply to the id that the remote side answered to the
    post before it; the recorded tweet ids are exactly the answered ids,
    in that order, one per text.  Nothing else is sent and the store is
    not touched by these steps. *)
Theorem x_publish_posts_reply_chain `{Host} {S : Type} (out : outside) (claim : value)
    (w w' : world S) (p : published)
    (Hrun : x_publish_steps out claim w = (Ok p, w')) :
  exists posts,
    iterate (or_else (get (get claim "x") "thread") (VArr [])) = Ok posts /\
    let mainText := get (get claim "x") "main_post" in
    let texts := ((if truthy mainText then [mainText] else []) ++ posts)%list in
    let ids := answered_thread_ids out texts VUndef (List.length (w_calls w)) in
    List.length ids = List.length texts /\
    pub_ids p = map VStr ids /\
    w_calls w' = (w_calls w ++ thread_requests texts VUndef ids)%list /\
    w_store w' = w_store w.
Proof.
  unfold x_publish_steps in Hrun.
  apply bind_Ok in Hrun. destruct Hrun as ([ids0 prev] & w1 & Hfirst & Hrun).
  apply bind_Ok in Hrun. destruct Hrun as (posts & w2 & Hposts & Hrun).
  apply bind_Ok in Hrun. destruct Hrun as (tweetIds & w3 & Hthread & Hrun).
  apply bind_Ok in Hrun. destruct Hrun as (intent & w4 & Hintent & Hrun).
  apply bind_Ok in Hrun. destruct Hrun as (publishedAt & w5 & Hat & Hrun).
  apply bind_Ok in Hrun. destruct Hrun as (audit & w6 & Haudit & Hrun).
  unfold ret in Hrun. injection Hrun as <- <-.
  destruct (iterate _) as [posts'|e] eqn:Ei; simpl lift_outcome in Hposts;
    [|discriminate Hposts].
  unfold ret in Hposts. injection Hposts as <- <-.
  apply post_thread_Ok in Hthread. simpl fst in Hthread. simpl snd in Hthread.
  cbv zeta in Hthread. destruct Hthread as (Hl & -> & C & St & _).
  assert (Hq : w_calls w6 = w_calls w3 /\ w_store w6 = w_store w3).
  { destruct (scheduleIntent _) as [i|e]; simpl lift_outcome in Hintent;
      [|discriminate Hintent].
    unfold ret in Hintent. injection Hintent as _ <-.
    inversion Hat; subst. inversion Haudit; subst. split; reflexivity. }
  destruct Hq as [Hc Hs]. exists posts'. cbv zeta.
  split; [reflexivity|].
  destruct (truthy (get (get claim "x") "main_post")) eqn:Em.
  - apply bind_Ok in Hfirst. destruct Hfirst as (idStr & w0 & Hp & Hr).
    unfold ret in Hr. injection Hr as <- <- <-.
    apply postTweet_Ok in Hp. destruct Hp as (Ea & C0 & S0 & _).
    assert (En : List.length (w_calls w0) = Datatypes.S (List.length (w_calls w)))
      by (rewrite C0, length_app; simpl; lia).
    rewrite En in *. subst idStr.
    simpl app. simpl answered_thread_ids.
    split; [simpl; now rewrite Hl|]. split; [reflexivity|].
    split; [|congruence].
    simpl thread_requests. rewrite Hc, C, C0, <- app_assoc. reflexivity.
  - unfold ret in Hfirst. injection Hfirst as <- <- <-.
    simpl app.
    split; [exact Hl|]. split; [reflexivity|].
    split; [|congruence].
    now rewrite Hc, C.
Qed.

Definition thread_claim : value :=
  VObj [("id", VStr "p1");
        ("x", VObj [("main_post", VStr "gm");
                    ("thread", VArr [VStr "one"; VStr "two"]);
                    ("schedule", VArr [])]);
        ("ops", VObj [("checklist", VObj [("x_ready", VBool true)]);
                      ("audit_log", VArr [])])].

Lemma x_publish_posts_reply_chain_witness :
  exists p,
    fst (@x_publish_steps test_host Mem.store accepting_outside thread_claim demo_world)
      = Ok p /\
    let ids := answered_thread_ids accepting_outside
                 [VStr "gm"; VStr "one"; VStr "two"] VUndef 0 in
    pub_ids p = map VStr ids /\
    w_calls (snd (@x_publish_steps test_host Mem.store accepting_outside thread_claim
                    demo_world))
      = thread_requests [VStr "gm"; VStr "one"; VStr "two"] VUndef ids.
Proof.
  assert (Hrun : exists p,
             @x_publish_steps test_host Mem.store accepting_outside thread_claim demo_world
             = (Ok p, snd (@x_publish_steps test_host Mem.store accepting_outside
                             thread_claim demo_world)))
    by (eexists; vm_compute; reflexivity).
  destruct Hrun as [p Hrun].
  destruct (@x_publish_posts_reply_chain test_host Mem.store accepting_outside
              thread_claim demo_world _ p Hrun) as (posts & Hi & _ & Hp & Hc & _).
  exists p.
  injection Hi as <-.
  split; [rewrite Hrun; reflexivity|]. split; [exact Hp|exact Hc].
Defined.

(** X19.  A successful Telegram publish sends and pins each non-empty
    pin text, in the order welcome, how-to-buy, memekit: for every such
    text one [sendMessage] immediately followed by one [pinChatMessage] of
    the message id that the remote side answered to that send; empty pins
    are skipped.  The recorded message ids are exactly the answered ids, as
    strings, in that order.  Nothing else is sent and the store is not
    touched by these steps. *)
Theorem tg_publish_sends_and_pins `{Host} {S : Type} (out : outside) (env : LaunchkitEnv)
    (claim : value) (w w' : world S) (p : published)
    (Hrun : tg_publish_steps out env claim w = (Ok p, w')) :
  let pins := coalesce (get (get claim "tg") "pins") (VObj []) in
  let texts := [get pins "welcome"; get pins "how_to_buy"; get pins "memekit"] in
  let messageIds := answered_message_ids out env texts (List.length (w_calls w)) in
  List.length messageIds = List.length (filter truthy texts) /\
  Forall (fun m => nullish m = false) messageIds /\
  pub_ids p = map (fun m => VStr (to_string m)) messageIds /\
  w_calls w' = (w_calls w ++ pin_requests env texts messageIds)%list /\
  w_store w' = w_store w.
Proof.
  unfold tg_publish_steps in Hrun. cbv zeta.
  set (pins := coalesce (get (get claim "tg") "pins") (VObj [])) in *.
  apply bind_Ok in Hrun. destruct Hrun as (id1 & w1 & H1 & Hrun).
  apply bind_Ok in Hrun. destruct Hrun as (id2 & w2 & H2 & Hrun).
  apply bind_Ok in Hrun. destruct Hrun as (id3 & w3 & H3 & Hrun).
  apply bind_Ok in Hrun. destruct Hrun as (intent & w4 & Hintent & Hrun).
  apply bind_Ok in Hrun. destruct Hrun as (publishedAt & w5 & Hat & Hrun).
  apply bind_Ok in Hrun. destruct Hrun as (audit & w6 & Haudit & Hrun).
  unfold ret in Hrun. injection Hrun as <- <-. simpl pub_ids.
  assert (Hq : w_calls w6 = w_calls w3 /\ w_store w6 = w_store w3).
  { destruct (scheduleIntent _) as [i|e]; simpl lift_outcome in Hintent;
      [|discriminate Hintent].
    unfold ret in Hintent. injection Hintent as _ <-.
    inversion Hat; subst. inversion Haudit; subst. split; reflexivity. }
  destruct Hq as [Hc Hs]. rewrite Hc, Hs.
  apply maybeSendAndPin_Ok in H1, H2, H3.
  assert (Two : forall (wa wb : world S) (a b : request),
             w_calls wb = (w_calls wa ++ [a; b])%list ->
             List.length (w_calls wb)
             = Datatypes.S (Datatypes.S (List.length (w_calls wa)))).
  { intros wa wb a b E. rewrite E, length_app. simpl. lia. }
  unfold push_id.
  destruct H1 as [(T1 & -> & ->)|(T1 & N1 & A1 & C1 & S1 & _)];
    destruct H2 as [(T2 & -> & ->)|(T2 & N2 & A2 & C2 & S2 & _)];
    destruct H3 as [(T3 & -> & ->)|(T3 & N3 & A3 & C3 & S3 & _)];
    try rewrite (Two _ _ _ _ C2) in *; try rewrite (Two _ _ _ _ C1) in *;
    simpl filter; simpl answered_message_ids; rewrite ?T1, ?T2, ?T3;
    rewrite <- ?A1, <- ?A2, <- ?A3;
    simpl pin_requests; rewrite ?T1, ?T2, ?T3, ?N1, ?N2, ?N3;
    simpl nullish; cbv iota.
  - repeat split; try constructor. now rewrite app_nil_r.
  - repeat split; try (repeat constructor; assumption); congruence.
  - repeat split; try (repeat constructor; assumption); congruence.
  - repeat split; try (repeat constructor; assumption); try congruence.
    rewrite C3, C2, <- app_assoc. reflexivity.
  - repeat split; try (repeat constructor; assumption); congruence.
  - repeat split; try (repeat constructor; assumption); try congruence.
    rewrite C3, C1, <- app_assoc. reflexivity.
  - repeat split; try (repeat constructor; assumption); try congruence.
    rewrite C2, C1, <- app_assoc. reflexivity.
  - repeat split; try (repeat constructor; assumption); try congruence.
    rewrite C3, C2, C1, <- !app_assoc. reflexivity.
Qed.

Definition pins_claim : value :=
  VObj [("id", VStr "p1");
        ("tg", VObj [("pins", VObj [("welcome", VStr "hi"); ("how_to_buy", VStr "");
                                    ("memekit", VStr "kit")]);
                     ("schedule", VArr [])]);
        ("ops", VObj [("checklist", VObj [("tg_ready", VBool true)]);
                      ("audit_log", VArr [])])].

Lemma tg_publish_sends_and_pins_witness :
  exists p,
    fst (@tg_publish_steps test_host Mem.store accepting_outside demo_env pins_claim
           demo_world) = Ok p /\
    let messageIds := answered_message_ids accepting_outside demo_env
                        [VStr "hi"; VStr ""; VStr "kit"] 0 in
    List.length messageIds = 2%nat /\
    pub_ids p = map (fun m => VStr (to_string m)) messageIds /\
    w_calls (snd (@tg_publish_steps test_host Mem.store accepting_outside demo_env
                    pins_claim demo_world))
      = pin_requests demo_env [VStr "hi"; VStr ""; VStr "kit"] messageIds.
Proof.
  assert (Hrun : exists p,
             @tg_publish_steps test_host Mem.store accepting_outside demo_env pins_claim
               demo_world
             = (Ok p, snd (@tg_publish_steps test_host Mem.store accepting_outside
                             demo_env pins_claim demo_world)))
    by (eexists; vm_compute; reflexivity).
  destruct Hrun as [p Hrun].
  destruct (@tg_publish_sends_and_pins test_host Mem.store accepting_outside demo_env
              pins_claim demo_world _ p Hrun) as (Hl & _ & Hp & Hc & _).
  exists p.
  split; [rewrite Hrun; reflexivity|]. split; [exact Hl|]. split; [exact Hp|exact Hc].
Defined.

(** ** What a successful token creation records *)

Lemma strict_eq_str (v : value) (s : string) : strict_eq v (VStr s) = true -> v = VStr s.
Proof.
  destruct v; simpl; try discriminate. intros E. apply String.eqb_eq in E. now subst.
Qed.

(** The trade request of [createTokenOnPumpPortal]. *)
Definition trade_request (pack metadataUri : value) (caps : CapsResult) (wallet : value)
    (slippagePercent : Z) (mintSecret : string) : request :=
  mkRequest ("https://pumpportal.fun/api/trade?api-key=" ++ to_string (get wallet "apiKey"))
    (VObj [("action", VStr "create");
           ("tokenMetadata",
            VObj [("name", get (get pack "brand") "name");
                  ("symbol", get (get pack "brand") "ticker");
                  ("uri", metadataUri)]);
           ("denominatedInSol", VStr "true");
           ("slippage", VNum slippagePercent);
           ("pool", VStr "pump");
           ("mint", VStr mintSecret)])
    [("amount", requestedDevBuy caps); ("priorityFee", requestedPriority caps)].

(** X20.  A token creation that succeeds records the mint it generated.
    The key pair has a 64-byte secret and a 32-byte public key; exactly
    one trade request is sent, carrying the base58 secret as [mint], the
    capped dev-buy amount and priority fee and the resolved slippage; and
    the returned record has [launch.status = "launched"], [launch.mint]
    equal to the base58 public key of that key pair (a different mint in
    the portal's answer is rejected), the claim's [requested_at], and no
    error code or message. *)
Theorem createTokenOnPumpPortal_records_generated_mint `{Host} {S : Type} (out : outside)
    (pack metadataUri : value) (caps : CapsResult) (wallet : value) (slippagePercent : Z)
    (w w' : world S) (launched : value)
    (Hrun : createTokenOnPumpPortal out pack metadataUri caps wallet slippagePercent w
            = (Ok launched, w')) :
  exists secretKey publicBytes,
    mint_keypair out = (secretKey, publicBytes) /\
    List.length secretKey = 64%nat /\ List.length publicBytes = 32%nat /\
    w_calls w' = (w_calls w ++ [trade_request pack metadataUri caps wallet slippagePercent
                                  (Base58.encode secretKey)])%list /\
    w_store w' = w_store w /\
    get (get launched "launch") "status" = VStr "launched" /\
    get (get launched "launch") "mint" = VStr (Base58.encode publicBytes) /\
    Base58.decode_value (get (get launched "launch") "mint") = Some publicBytes /\
    get (get launched "launch") "requested_at" = get (get pack "launch") "requested_at" /\
    get (get launched "launch") "error_code" = VUndef /\
    get (get launched "launch") "error_message" = VUndef.
Proof.
  unfold createTokenOnPumpPortal in Hrun.
  destruct (mint_keypair out) as [secretKey publicBytes] eqn:Ek.
  pose proof (generateMintKeypair_cases secretKey publicBytes) as Eg.
  pose proof (decode_encode publicBytes) as Dp.
  rewrite Eg in Hrun.
  destruct (Nat.eqb (List.length secretKey) 64) eqn:L1;
    [change (negb true) with false in Hrun; cbv iota in Hrun
    |simpl lift_outcome in Hrun; unfold bind at 1, throw at 1 in Hrun;
     cbv beta iota in Hrun; discriminate Hrun].
  destruct (Nat.eqb (List.length publicBytes) 32) eqn:L2;
    [change (negb true) with false in Hrun; cbv iota in Hrun
    |simpl lift_outcome in Hrun; unfold bind at 1, throw at 1 in Hrun;
     cbv beta iota in Hrun; discriminate Hrun].
  apply Nat.eqb_eq in L1, L2.
  simpl lift_outcome in Hrun.
  unfold bind at 1, ret at 1 in Hrun. cbv beta iota in Hrun.
  destruct (nullish (get pack "brand")); [unfold throw in Hrun; discriminate Hrun|].
  apply bind_Ok in Hrun. destruct Hrun as (res & w1 & Hf & Hrun).
  unfold fetch in Hf. injection Hf as <- <-.
  destruct (remote out _ _) as [e|res]; cbv beta iota in Hrun;
    [unfold throw in Hrun; discriminate Hrun|].
  destruct (negb (res_ok res)); [unfold throw in Hrun; discriminate Hrun|].
  set (returnedMint := get (safeJson res) "mint") in *.
  destruct (truthy returnedMint && negb (strict_eq returnedMint (VStr (Base58.encode publicBytes))))
    eqn:Em; [unfold throw in Hrun; discriminate Hrun|].
  assert (Emint : or_else returnedMint (VStr (Base58.encode publicBytes))
                  = VStr (Base58.encode publicBytes)).
  { unfold or_else. destruct (truthy returnedMint); [|reflexivity].
    simpl in Em. apply negb_false_iff in Em. now apply strict_eq_str. }
  rewrite Emint in Hrun.
  change (Base58.decode_value (VStr (Base58.encode publicBytes)))
    with (Base58.decode (Base58.encode publicBytes)) in Hrun.
  rewrite Dp in Hrun.
  rewrite L2 in Hrun. change (negb (Nat.eqb 32 32)) with false in Hrun.
  cbv iota in Hrun.
  apply bind_Ok in Hrun. destruct Hrun as (completedAt & w2 & H1 & Hrun).
  apply bind_Ok in Hrun. destruct Hrun as (launchedAt & w3 & H2 & Hrun).
  apply bind_Ok in Hrun. destruct Hrun as (audit & w4 & H3 & Hrun).
  unfold ret in Hrun. injection Hrun as <- <-.
  inversion H1; subst. inversion H2; subst. inversion H3; subst.
  exists secretKey, publicBytes.
  split; [reflexivity|]. split; [exact L1|]. split; [exact L2|].
  split; [reflexivity|]. split; [reflexivity|].
  repeat split.
  all: rewrite get_spread_with; simpl rev; simpl lookup; cbv iota.
  all: rewrite get_spread_with; simpl rev; simpl lookup; cbv iota.
  all: try reflexivity.
  exact Dp.
Qed.

(** A portal that accepts the trade, and a generated key pair. *)
Definition launching_outside : outside :=
  mkOutside (fun n => 1700000000000 + Z.of_nat n)
    (fun _ _ =>
       FetchResponse (json_response true 200 (Some (VObj [("signature", VStr "sig1")]))))
    (fun _ => Some 5) (repeat x03 64, repeat x05 32).

Definition demo_caps : CapsResult :=
  mkCaps (num_of_Z 1) (num_of_Z 1) (num_of_Z 1) (num_of_Z 1) (num_of_Z 1).

Lemma createTokenOnPumpPortal_records_generated_mint_witness :
  exists launched,
    fst (@createTokenOnPumpPortal test_host Mem.store launching_outside draft_input
           (VStr "ipfs://meta") demo_caps (VObj [("apiKey", VStr "k")]) 10 demo_world)
      = Ok launched /\
    get (get launched "launch") "status" = VStr "launched" /\
    get (get launched "launch") "mint" = VStr (Base58.encode (repeat x05 32)).
Proof.
  assert (Hrun : exists launched,
             @createTokenOnPumpPortal test_host Mem.store launching_outside draft_input
               (VStr "ipfs://meta") demo_caps (VObj [("apiKey", VStr "k")]) 10 demo_world
             = (Ok launched,
                snd (@createTokenOnPumpPortal test_host Mem.store launching_outside
                       draft_input (VStr "ipfs://meta") demo_caps
                       (VObj [("apiKey", VStr "k")]) 10 demo_world)))
    by (eexists; vm_compute; reflexivity).
  destruct Hrun as [launched Hrun].
  destruct (@createTokenOnPumpPortal_records_generated_mint test_host Mem.store
              launching_outside draft_input (VStr "ipfs://meta") demo_caps
              (VObj [("apiKey", VStr "k")]) 10 demo_world _ launched Hrun)
    as (sk & pk & Ek & _ & _ & _ & _ & Hs & Hm & _).
  exists launched. split; [rewrite Hrun; reflexivity|]. split; [exact Hs|].
  injection Ek as _ <-. exact Hm.
Defined.

(** ** Nothing is sent before the claim is won *)

Section CallsNeedClaim.
Context {host : Host} {S : Type} {store : LaunchPackStore S}.
Variables (out : outside) (env : LaunchkitEnv) (options : PumpLauncherOptions).

Local Open Scope orch_scope.

(** The store grants the publish claim made at world [w]. *)
Definition publish_claim_won (key : channel) (id : string) (force : bool) (w : world S)
  : Prop :=
  exists claim st',
    store_claimPublish key (w_store w) id (toISOString (clock out (w_reads w))) force
      (clock out (Datatypes.S (w_reads w))) = (Ok claim, st') /\
    truthy claim = true.

Definition launch_claim_won (id : string) (w : world S) : Prop :=
  exists requested_at now claimed st',
    store_claimLaunch (w_store w) id requested_at "ready" now = (Ok claimed, st') /\
    truthy claimed = true.

Lemma claimed_publish_run {A} (key : channel) (id : string) (force : bool)
    (k : value -> M S A) (e : error) (w w' : world S) (r : outcome A) :
  (requested_at <- nowIsoM out ;;
   claim <- claimPublishM out key id requested_at force ;;
   if negb (truthy claim) then throw e else k claim) w = (r, w') ->
  w_calls w' = w_calls w \/ publish_claim_won key id force w.
Proof.
  unfold bind at 1. unfold nowIsoM at 1, bind at 1, read_clock at 1, ret at 1.
  cbv beta iota. unfold bind at 1. unfold claimPublishM, with_store.
  cbn [w_store w_reads w_calls w_secrets].
  destruct (store_claimPublish key (w_store w) id _ force _) as [[claim|e'] st'] eqn:Ec.
  - destruct (truthy claim) eqn:T; cbv beta iota delta [negb].
    + intros _. right. exists claim, st'. split; [exact Ec|exact T].
    + unfold throw. intros [= _ <-]. now left.
  - intros [= _ <-]. now left.
Qed.

End CallsNeedClaim.

Ltac unchanged Hrun Hcalled :=
  unfold throw, ret in Hrun; cbv beta in Hrun; injection Hrun as _ <-;
  now contradiction Hcalled.

(** X21.  The publishers contact their service only after winning the
    claim: whenever a Telegram or X publish has made any remote call, the
    channel is enabled and fully configured, the record exists with its
    checklist ready for the channel, and the store granted the publish
    claim.  In every other run (disabled or unconfigured channel, missing
    or unready record, already published, claim refused or failing) the
    list of remote calls is unchanged. *)
Theorem publish_calls_only_after_claim `{Host} {S : Type} `{LaunchPackStore S}
    (key : channel) (out : outside) (env : LaunchkitEnv) (id : string) (force : bool)
    (w w' : world S) (r : outcome value)
    (Hrun : publish key out env id force w = (r, w'))
    (Hcalled : w_calls w' <> w_calls w) :
  gate env key /\
  truthy (store_get (w_store w) id) = true /\
  ready key (store_get (w_store w) id) /\
  publish_claim_won out key id force w.
Proof.
  destruct key; unfold publish in Hrun.
  - unfold tg_publish in Hrun.
    destruct (is_str (TG_ENABLE env) "true") eqn:E1; cbv beta iota delta [negb] in Hrun;
      [|unchanged Hrun Hcalled].
    destruct (missing "TG_BOT_TOKEN" (TG_BOT_TOKEN env)) eqn:M1;
      [|unchanged Hrun Hcalled].
    destruct (missing "TG_CHAT_ID" (TG_CHAT_ID env)) eqn:M2;
      [|unchanged Hrun Hcalled].
    cbn [app] in Hrun. cbv iota in Hrun.
    unfold bind at 1, getM at 1 in Hrun. cbv beta iota in Hrun.
    destruct (truthy (store_get (w_store w) id)) eqn:Tp;
      cbv beta iota delta [negb] in Hrun;
      [|unchanged Hrun Hcalled].
    destruct (truthy (get (get (get (store_get (w_store w) id) "ops") "checklist")
                        "tg_ready")) eqn:Rd; cbv beta iota delta [negb] in Hrun;
      [|unchanged Hrun Hcalled].
    destruct (_ && _ && _);
      [unchanged Hrun Hcalled|].
    apply claimed_publish_run in Hrun. destruct Hrun as [Hc|Hw]; [contradiction|].
    split; [|split; [reflexivity|split; [exact Rd|exact Hw]]].
    apply is_str_true in E1. apply missing_nil in M1, M2. repeat split; assumption.
  - unfold x_publish in Hrun.
    destruct (is_str (X_ENABLE env) "true") eqn:E1; cbv beta iota delta [negb] in Hrun;
      [|unchanged Hrun Hcalled].
    destruct (missing "X_API_KEY" (X_API_KEY env)) eqn:M1;
      [|unchanged Hrun Hcalled].
    destruct (missing "X_API_SECRET" (X_API_SECRET env)) eqn:M2;
      [|unchanged Hrun Hcalled].
    destruct (missing "X_ACCESS_TOKEN" (X_ACCESS_TOKEN env)) eqn:M3;
      [|unchanged Hrun Hcalled].
    destruct (missing "X_ACCESS_SECRET" (X_ACCESS_SECRET env)) eqn:M4;
      [|unchanged Hrun Hcalled].
    cbn [app] in Hrun. cbv iota in Hrun.
    unfold bind at 1, getM at 1 in Hrun. cbv beta iota in Hrun.
    destruct (truthy (store_get (w_store w) id)) eqn:Tp;
      cbv beta iota delta [negb] in Hrun;
      [|unchanged Hrun Hcalled].
    destruct (truthy (get (get (get (store_get (w_store w) id) "ops") "checklist")
                        "x_ready")) eqn:Rd; cbv beta iota delta [negb] in Hrun;
      [|unchanged Hrun Hcalled].
    destruct (_ && _ && _);
      [unchanged Hrun Hcalled|].
    apply claimed_publish_run in Hrun. destruct Hrun as [Hc|Hw]; [contradiction|].
    split; [|split; [reflexivity|split; [exact Rd|exact Hw]]].
    apply is_str_true in E1. apply missing_nil in M1, M2, M3, M4.
    repeat split; assumption.
Qed.

(** X22.  The launcher contacts no remote service (wallet issuer, logo
    host, IPFS, trade portal) before the claim is won: whenever a launch
    has made any remote call, the record exists and is not launched, the
    launch guard admitted it, the caps check and the slippage check both
    passed, and the store granted the launch claim.  In every other run
    the list of remote calls is unchanged. *)
Theorem launch_calls_only_after_claim `{Host} {S : Type} `{LaunchPackStore S}
    (out : outside) (env : LaunchkitEnv) (options : PumpLauncherOptions)
    (id : string) (force : bool) (w w' : world S) (r : outcome value)
    (Hrun : launch out env options id force w = (r, w'))
    (Hcalled : w_calls w' <> w_calls w) :
  let existing := store_get (w_store w) id in
  truthy existing = true /\
  launch_status existing <> VStr "launched" /\
  launch_allowed env existing force (clock out (w_reads w)) /\
  (exists caps, enforceCaps env options = Ok caps) /\
  (exists slippage, resolveSlippage env = Ok slippage) /\
  launch_claim_won id w.
Proof.
  cbv zeta. unfold launch in Hrun.
  unfold bind at 1, getM at 1 in Hrun. cbv beta iota in Hrun.
  destruct (truthy (store_get (w_store w) id)) eqn:Tp;
    cbv beta iota delta [negb] in Hrun; [|unchanged Hrun Hcalled].
  destruct (is_str (get (get (store_get (w_store w) id) "launch") "status") "launched")
    eqn:El; [unchanged Hrun Hcalled|].
  apply is_str_false in El.
  unfold bind at 1 in Hrun.
  destruct (ensureLaunchAllowed_cases out env (store_get (w_store w) id) force w)
    as (Hg & _ & Gs & Gc & _).
  destruct (ensureLaunchAllowed out env (store_get (w_store w) id) force w)
    as [[u|e] w1] eqn:Eg; simpl fst in Hg; simpl snd in Gs, Gc;
    [|injection Hrun as _ <-; now contradiction Hcalled].
  destruct u. assert (Ha := proj1 Hg eq_refl).
  unfold bind at 1 in Hrun.
  destruct (enforceCaps env options) as [caps|e] eqn:Ecaps; simpl lift_outcome in Hrun;
    [unfold ret at 1 in Hrun
    |unfold throw in Hrun; injection Hrun as _ <-; now contradiction Hcalled].
  unfold bind at 1 in Hrun.
  destruct (resolveSlippage env) as [slippage|e] eqn:Eslip; simpl lift_outcome in Hrun;
    [unfold ret at 1 in Hrun
    |unfold throw in Hrun; injection Hrun as _ <-; now contradiction Hcalled].
  unfold bind at 1 in Hrun. unfold nowIsoM at 1, bind at 1, read_clock at 1, ret at 1 in Hrun.
  cbv beta iota in Hrun. unfold bind at 1 in Hrun.
  unfold claimLaunchM, with_store in Hrun.
  cbn [w_store w_reads w_calls w_secrets] in Hrun.
  destruct (store_claimLaunch (w_store w1) id _ "ready" _) as [[claimed|e] st'] eqn:Ec;
    [|injection Hrun as _ <-; simpl in Hcalled; now contradiction Hcalled].
  destruct (truthy claimed) eqn:Tc; cbv beta iota delta [negb] in Hrun;
    [|unfold throw in Hrun; injection Hrun as _ <-; simpl in Hcalled;
      now contradiction Hcalled].
  split; [reflexivity|]. split; [exact El|]. split; [exact Ha|].
  split; [now exists caps|]. split; [now exists slippage|].
  rewrite Gs in Ec. do 4 eexists. split; [exact Ec|exact Tc].
Qed.

Lemma publish_calls_only_after_claim_witness :
  gate demo_env Tg /\
  truthy (@store_get _ (@MemStore test_host) (w_store demo_world) "p1") = true /\
  ready Tg (@store_get _ (@MemStore test_host) (w_store demo_world) "p1") /\
  @publish_claim_won test_host _ (@MemStore test_host) accepting_outside Tg "p1" false
    demo_world.
Proof.
  apply (@publish_calls_only_after_claim test_host _ (@MemStore test_host) Tg
           accepting_outside demo_env "p1" false demo_world
           (snd (@publish _ test_host (@MemStore test_host) Tg accepting_outside demo_env
                   "p1" false demo_world))
           (fst (@publish _ test_host (@MemStore test_host) Tg accepting_outside demo_env
                   "p1" false demo_world))).
  - apply surjective_pairing.
  - vm_compute. discriminate.
Defined.

Lemma launch_calls_only_after_claim_witness :
  (exists caps, enforceCaps demo_env demo_options = Ok caps) /\
  (exists slippage, resolveSlippage demo_env = Ok slippage) /\
  @launch_claim_won _ (@MemStore test_host) "p1" demo_world.
Proof.
  destruct (@launch_calls_only_after_claim test_host _ (@MemStore test_host)
              launching_outside demo_env demo_options "p1" false demo_world
              (snd (@launch test_host _ (@MemStore test_host) launching_outside demo_env
                      demo_options "p1" false demo_world))
              (fst (@launch test_host _ (@MemStore test_host) launching_outside demo_env
                      demo_options "p1" false demo_world)))
    as (_ & _ & _ & Hc & Hs & Hw).
  - apply surjective_pairing.
  - vm_compute. discriminate.
  - split; [exact Hc|]. split; [exact Hs|exact Hw].
Defined.

(** ** Publishing again *)

(** A publish without [force] on a record already recorded as published
    returns it and leaves the world alone. *)
Lemma publish_settled {S : Type} `{Host} `{LaunchPackStore S}
    (key : channel) (out : outside) (env : LaunchkitEnv) (id : string)
    (w : world S) (rec : value) :
  gate env key ->
  store_get (w_store w) id = rec ->
  truthy rec = true ->
  ready key rec ->
  truthy (get (get rec "ops") (publishedAtKey key)) = true ->
  channel_status key rec = VStr "published" ->
  publish key out env id false w = (Ok rec, w).
Proof.
  intros Hgate Hget Htruthy Hready Hat Hstatus.
  unfold ready, channel_status in *.
  destruct key; simpl in *.
  - destruct Hgate as (En & T1 & T2).
    unfold tg_publish. rewrite En. simpl.
    rewrite (missing_of_truthy _ _ T1), (missing_of_truthy _ _ T2). simpl.
    unfold bind, getM. rewrite Hget, Htruthy, Hready, Hat, Hstatus. reflexivity.
  - destruct Hgate as (En & T1 & T2 & T3 & T4).
    unfold x_publish. rewrite En. simpl.
    rewrite (missing_of_truthy _ _ T1), (missing_of_truthy _ _ T2),
      (missing_of_truthy _ _ T3), (missing_of_truthy _ _ T4). simpl.
    unfold bind, getM. rewrite Hget, Htruthy, Hready, Hat, Hstatus. reflexivity.
Qed.

Lemma truthy_iso `{Host} (t : Z) : toISOString t <> "" -> truthy (VStr (toISOString t)) = true.
Proof. intros N. simpl. now apply negb_true_iff, String.eqb_neq. Qed.

(** X23.  On the in-memory store, with the schemas of
    [model/launchPack.ts] as validators, a publish that succeeded is not
    repeated: after [publish] has returned a record (having sent the
    messages and stored the result, or having found the record already
    published), a further [publish] without [force], in the world the
    first one left, returns the same record and changes nothing: no remote
    call is made, the clock is not read and the store is not written. *)
Theorem publish_again_is_a_no_op (base : Host) (lib : Zod.ZodLib) (key : channel)
    (out out' : outside) (env : LaunchkitEnv) (id : string) (force : bool)
    (w w1 : world Mem.store) (rec : value)
    (Hiso : forall t, @toISOString base t <> "")
    (Hok : pack_ok (Mem.Map_get (w_store w) id))
    (Hrun : @publish _ (zod_host base lib) (@MemStore (zod_host base lib)) key out env id
              force w = (Ok rec, w1)) :
  Mem.get_pack (w_store w1) id = rec /\
  @publish _ (zod_host base lib) (@MemStore (zod_host base lib)) key out' env id false w1
  = (Ok rec, w1).
Proof.
  apply (publish_ends (host := zod_host base lib) lib out env
           (fun _ => eq_refl) (fun _ => eq_refl)) in Hrun; [|intros _; exact Hok].
  cbv zeta in Hrun.
  destruct Hrun as [[_ Hs]|(G & T & Rd & t0 & now & w0 & Hw0 & Hcase)].
  - destruct (Hs rec eq_refl) as (-> & _ & G & Hget & Tr & Rd & Hat & Hst).
    split; [exact Hget|]. now apply publish_settled.
  - destruct Hcase as [(rec' & Hst & Tr & Hrec)|(e & tf & v & _ & Hr & _)];
      [|discriminate Hr].
    destruct Hrec as (<- & Hstatus & [t Hat] & Hready & _).
    assert (Hget : Mem.get_pack (w_store w1) id = rec).
    { rewrite Hst. unfold Mem.get_pack. rewrite Map_get_set_same.
      unfold or_else. now rewrite Tr. }
    split; [exact Hget|].
    apply publish_settled; try assumption.
    + now apply Hready.
    + rewrite Hat. apply (truthy_iso (H := zod_host base lib)), Hiso.
Qed.

Lemma num_to_string_nonempty (n : Z) : num_to_string n <> "".
Proof.
  unfold num_to_string, NilZero.string_of_int.
  destruct (Z.to_int n) as [d|d]; [|discriminate].
  unfold NilZero.string_of_uint. destruct d; discriminate.
Qed.

Lemma publish_again_is_a_no_op_witness :
  exists rec,
    fst (@publish _ schema_host (@MemStore schema_host) Tg accepting_outside demo_env "p1"
           false schema_draft_world) = Ok rec /\
    Mem.get_pack (w_store schema_published_world) "p1" = rec /\
    @publish _ schema_host (@MemStore schema_host) Tg failing_outside demo_env "p1" false
      schema_published_world = (Ok rec, schema_published_world).
Proof.
  assert (Hrun : exists rec,
             @publish _ schema_host (@MemStore schema_host) Tg accepting_outside demo_env
               "p1" false schema_draft_world = (Ok rec, schema_published_world))
    by (eexists; vm_compute; reflexivity).
  destruct Hrun as [rec Hrun].
  destruct (publish_again_is_a_no_op test_host test_lib Tg accepting_outside
              failing_outside demo_env "p1" false schema_draft_world
              schema_published_world rec
              num_to_string_nonempty (proj1 schema_draft_ok) Hrun)
    as [Hget Hagain].
  exists rec. split; [rewrite Hrun; reflexivity|]. split; [exact Hget|exact Hagain].
Defined.
(** ** The audit log only grows *)

Definition stored_audit (st : Mem.store) (id : string) : value :=
  get (get (Mem.get_pack st id) "ops") "audit_log".

(** The claimed records carry the audit log that was stored. *)
Lemma claimPublish_result_audit `{Host} (key : channel) (requested_at : string) (now : Z)
    (existing : value) :
  pack_ok existing ->
  truthy (claimPublish_result key requested_at now existing) = true /\
  get (get (claimPublish_result key requested_at now existing) "ops") "audit_log"
  = get (get existing "ops") "audit_log".
Proof.
  intros OK.
  destruct (claimPublish_result_ok key requested_at now existing OK)
    as (cf & cof & obf & Ec & NDc & Eo & Eco & NDco & Ecof & _).
  rewrite Ec, Eco, Eo, Ecof. split; [reflexivity|].
  apply claimed_ops_kept. now left.
Qed.

Lemma claimLaunch_result_audit `{Host} (requested_at : string) (now : Z)
    (existing : value) :
  pack_ok existing ->
  truthy (claimLaunch_result requested_at "ready" now existing) = true /\
  get (get (claimLaunch_result requested_at "ready" now existing) "ops") "audit_log"
  = get (get existing "ops") "audit_log".
Proof.
  intros OK.
  destruct (claimLaunch_result_ok requested_at "ready" now existing OK)
    as (cf & clf & lf & Ec & NDc & El & Ecl & NDcl & Eclf & Eops).
  rewrite Ec, Eops. split; reflexivity.
Qed.

Lemma stored_audit_set (st : Mem.store) (id : string) (rec : value) :
  truthy rec = true ->
  stored_audit (Mem.Map_set st id rec) id = get (get rec "ops") "audit_log".
Proof.
  intros Tr. unfold stored_audit, Mem.get_pack. rewrite Map_get_set_same.
  unfold or_else. now rewrite Tr.
Qed.

(** X24.  The audit log of a record only grows under the orchestrators.
    On the in-memory store, with the schemas of [model/launchPack.ts] as
    validators, for a well-formed stored record whose audit log the schema
    returns as it is: after any run of a Telegram publish, an X publish or
    a launch (successful or not), the stored audit log is the previous log
    followed by at most one new entry; no entry is dropped, changed or
    reordered. *)
Theorem audit_log_only_grows (base : Host) (lib : Zod.ZodLib) (out : outside)
    (env : LaunchkitEnv) (options : PumpLauncherOptions) (id : string) (force : bool)
    (w w' : world Mem.store) (r : outcome value) (l : list value)
    (Hok : pack_ok (Mem.Map_get (w_store w) id))
    (Hlog : get (get (Mem.Map_get (w_store w) id) "ops") "audit_log" = VArr l)
    (Hparse : @parseAuditLog (zod_host base lib) (VArr l) = Some l) :
  let grown :=
    exists suffix,
      stored_audit (w_store w') id = VArr (l ++ suffix)%list /\
      (List.length suffix <= 1)%nat in
  (forall key,
      @publish _ (zod_host base lib) (@MemStore (zod_host base lib)) key out env id force w
      = (r, w') -> grown) /\
  (@launch (zod_host base lib) _ (@MemStore (zod_host base lib)) out env options id
     force w = (r, w') -> grown).
Proof.
  cbv zeta.
  assert (Hp : @parsed_log (zod_host base lib) (VArr l) = l).
  { unfold parsed_log. change (or_else (VArr l) (VArr [])) with (VArr l).
    now rewrite Hparse. }
  assert (Hsame : w_store w' = w_store w ->
                  exists suffix,
                    stored_audit (w_store w') id = VArr (l ++ suffix)%list /\
                    (List.length suffix <= 1)%nat).
  { intros ->. exists []. rewrite app_nil_r. split; [|simpl; lia].
    unfold stored_audit, Mem.get_pack, or_else.
    destruct Hok as [[bf [Eb _]] _]. rewrite Eb in *. exact Hlog. }
  split.
  - intros key Hrun.
    apply (publish_ends (host := zod_host base lib) lib out env
             (fun _ => eq_refl) (fun _ => eq_refl)) in Hrun; [|intros _; exact Hok].
    cbv zeta in Hrun.
    destruct Hrun as [[Hs _]|(_ & _ & _ & t0 & now & w1 & Hw1 & Hcase)]; [auto|].
    destruct Hcase as [(rec & Hst & Tr & Hrec)|(e & tf & v & _ & _ & Hst & _)].
    + rewrite Hst, stored_audit_set by exact Tr.
      destruct r as [updated|e].
      * destruct Hrec as (_ & _ & _ & _ & [t Ha]).
        rewrite Ha, Hlog, Hp. eexists [_]. split; [reflexivity|simpl; lia].
      * destruct Hrec as (_ & _ & _ & _ & Ha).
        rewrite (Ha l Hlog), Hp. exists []. rewrite app_nil_r. split; [reflexivity|simpl; lia].
    + rewrite Hst, Hw1.
      destruct (claimPublish_result_audit (H := zod_host base lib) key
                  (@toISOString (zod_host base lib) t0) now _ Hok) as [Tc Ea].
      rewrite stored_audit_set by exact Tc. rewrite Ea, Hlog.
      exists []. rewrite app_nil_r. split; [reflexivity|simpl; lia].
  - intros Hrun.
    apply (launch_ends (host := zod_host base lib) lib out env options
             (fun _ => eq_refl) (fun _ => eq_refl)) in Hrun; [|intros _; exact Hok].
    cbv zeta in Hrun.
    destruct Hrun as [Hs|(_ & t0 & now & w1 & caps & sl & Hw1 & Hcase)]; [auto|].
    destruct Hcase as [(rec & Hst & Tr & Hrec)|(e & tf & ta & v & _ & _ & Hst & _)].
    + rewrite Hst, stored_audit_set by exact Tr.
      destruct r as [updated|e].
      * destruct Hrec as (_ & _ & [t Ha]).
        rewrite Ha, Hlog, Hp. eexists [_]. split; [reflexivity|simpl; lia].
      * destruct Hrec as (_ & _ & _ & _ & [t Ha]).
        rewrite Ha, Hlog, Hp. eexists [_]. split; [reflexivity|simpl; lia].
    + rewrite Hst, Hw1.
      destruct (claimLaunch_result_audit (H := zod_host base lib)
                  (@toISOString (zod_host base lib) t0) now _ Hok) as [Tc Ea].
      rewrite stored_audit_set by exact Tc. rewrite Ea, Hlog.
      exists []. rewrite app_nil_r. split; [reflexivity|simpl; lia].
Qed.

Lemma audit_log_only_grows_witness :
  exists suffix,
    stored_audit (w_store schema_published_world) "p1" = VArr ([] ++ suffix)%list /\
    (List.length suffix <= 1)%nat.
Proof.
  refine (proj1 (audit_log_only_grows test_host test_lib accepting_outside demo_env
                   demo_options "p1" false schema_draft_world schema_published_world
                   (fst (@publish _ schema_host (@MemStore schema_host) Tg accepting_outside
                           demo_env "p1" false schema_draft_world))
                   [] (proj1 schema_draft_ok) eq_refl eq_refl) Tg _).
  apply surjective_pairing.
Defined.

(** ** The launcher wallet is provisioned once *)

Lemma missing_app_nil (a b c : list string) :
  (a ++ b ++ c)%list = [] -> a = [] /\ b = [] /\ c = [].
Proof.
  intros E. apply app_eq_nil in E. destruct E as [-> E].
  apply app_eq_nil in E. destruct E as [-> ->]. repeat split.
Qed.

(** X25.  [ensureLauncherWallet] provisions at most once.  Whenever it
    returns a wallet, that wallet has an API key, an address and a secret,
    it is what the secrets store now holds, and a further call (whatever
    the remote side would answer) returns the same wallet without any
    remote call and without touching the secrets store. *)
Theorem ensureLauncherWallet_provisions_once {S : Type} (out out' : outside)
    (w w1 : world S) (rec : value)
    (Hrun : ensureLauncherWallet out w = (Ok rec, w1)) :
  truthy (get rec "apiKey") = true /\
  truthy (get rec "wallet") = true /\
  truthy (get rec "walletSecret") = true /\
  w_secrets w1 = rec /\
  ensureLauncherWallet out' w1 = (Ok rec, w1).
Proof.
  unfold ensureLauncherWallet in Hrun.
  unfold bind at 1, secrets_get at 1 in Hrun. cbv beta iota in Hrun.
  assert (Hcached : forall (v : value) (w0 : world S),
             w_secrets w0 = v ->
             truthy (get v "apiKey") && truthy (get v "wallet")
             && truthy (get v "walletSecret") = true ->
             ensureLauncherWallet out' w0 = (Ok v, w0)).
  { intros v w0 Es Ht. unfold ensureLauncherWallet, bind at 1, secrets_get.
    rewrite Es, Ht. reflexivity. }
  destruct (truthy (get (w_secrets w) "apiKey") && truthy (get (w_secrets w) "wallet")
            && truthy (get (w_secrets w) "walletSecret")) eqn:Ec.
  - unfold ret in Hrun. injection Hrun as <- <-.
    pose proof Ec as Ec'. apply andb_true_iff in Ec'. destruct Ec' as [Ec' T3].
    apply andb_true_iff in Ec'. destruct Ec' as [T1 T2].
    repeat split; try assumption. now apply Hcached.
  - apply bind_Ok in Hrun. destruct Hrun as (res & w0 & Hf & Hrun).
    destruct (negb (res_ok res)); [unfold throw in Hrun; discriminate Hrun|].
    cbv zeta in Hrun.
    destruct (_ ++ _ ++ _)%list eqn:Em; [|unfold throw in Hrun; discriminate Hrun].
    apply missing_app_nil in Em. destruct Em as (M1 & M2 & M3).
    apply missing_nil in M1, M2, M3.
    destruct (Base58.decode_value _) as [decoded|];
      [|unfold throw in Hrun; discriminate Hrun].
    destruct (negb (Nat.eqb (List.length decoded) 64));
      [unfold throw in Hrun; discriminate Hrun|].
    unfold bind, secrets_set, ret in Hrun. injection Hrun as <- <-.
    assert (G1 : forall a b c : value,
               get (VObj [("apiKey", a); ("wallet", b); ("walletSecret", c)]) "apiKey" = a)
      by reflexivity.
    assert (G2 : forall a b c : value,
               get (VObj [("apiKey", a); ("wallet", b); ("walletSecret", c)]) "wallet" = b)
      by reflexivity.
    assert (G3 : forall a b c : value,
               get (VObj [("apiKey", a); ("wallet", b); ("walletSecret", c)]) "walletSecret" = c)
      by reflexivity.
    rewrite G1, G2, G3.
    split; [exact M1|]. split; [exact M2|]. split; [exact M3|].
    split; [reflexivity|].
    apply Hcached; [reflexivity|].
    rewrite G1, G2, G3. now rewrite M1, M2, M3.
Qed.

(** A wallet service that answers at once, and a remote side that never
    answers. *)
Definition prompt_wallet_outside : outside :=
  mkOutside (fun n => Z.of_nat n)
    (fun _ _ =>
       FetchResponse
         (json_response true 200
            (Some (VObj [("apiKey", VStr "key-1"); ("address", VStr "addr1");
                         ("secretKey", VStr (Base58.encode (repeat x07 64)))]))))
    (fun _ => Some 5) ([], []).

Definition silent_outside : outside :=
  mkOutside (fun n => Z.of_nat n) (fun _ _ => FetchThrows (plain_error "unreachable"))
    (fun _ => None) ([], []).

Lemma ensureLauncherWallet_provisions_once_witness :
  let run := @ensureLauncherWallet Mem.store prompt_wallet_outside demo_world in
  exists rec,
    fst run = Ok rec /\
    truthy (get rec "walletSecret") = true /\
    w_secrets (snd run) = rec /\
    ensureLauncherWallet silent_outside (snd run) = (Ok rec, snd run).
Proof.
  intros run.
  assert (Hrun : exists rec, run = (Ok rec, snd run))
    by (eexists; vm_compute; reflexivity).
  destruct Hrun as [rec Hrun]. exists rec.
  destruct (ensureLauncherWallet_provisions_once prompt_wallet_outside silent_outside
              demo_world (snd run) rec Hrun) as (_ & _ & H3 & H4 & H5).
  split; [now rewrite Hrun|]. repeat split; assumption.
Defined.

(** ** What the metadata upload sends *)

Lemma readStreamWithLimit_length (res : response) (maxBytes : Z) (bytes : list byte) :
  0 <= maxBytes ->
  readStreamWithLimit res maxBytes = Ok bytes ->
  Z.of_nat (List.length bytes) <= maxBytes.
Proof.
  intros Hmax. unfold readStreamWithLimit. destruct (res_body res) as [[buf|e]|s].
  - destruct (_ >? _) eqn:E; [discriminate|]. intros [= <-].
    rewrite Z.gtb_ltb in E; apply Z.ltb_ge in E. exact E.
  - discriminate.
  - intros Hr. apply read_chunks_Ok in Hr. destruct Hr as (_ & -> & Hl).
    simpl in *. lia.
Qed.

Section Upload.
Context {host : Host} {S : Type}.
Variable out : outside.

Lemma fetchWithTimeout_calls (r : request) (total connect : Z) (w w' : world S)
    (o : outcome response) :
  fetchWithTimeout out r total connect w = (o, w') ->
  w' = mkWorld (w_store w) (w_reads w) (w_calls w ++ [r]) (w_secrets w).
Proof.
  unfold fetchWithTimeout. cbv zeta.
  destruct (arrival out _) as [a|]; [|now intros [= _ <-]].
  destruct (a <? _); [|now intros [= _ <-]].
  destruct (remote out _ r); now intros [= _ <-].
Qed.

(** The file part of a multipart request. *)
Definition upload_file (r : request) : value := get (req_body r) "file".

Definition upload_form (pack : value) : props :=
  let brand := get pack "brand" in
  (form_field "name" (get brand "name")
     ++ form_field "symbol" (get brand "ticker")
     ++ form_field "description"
          (or_else (get brand "description") (or_else (get brand "tagline") (VStr "")))
     ++ form_field "showName" (VStr "true")
     ++ form_optional "twitter" (get (get pack "links") "x")
     ++ form_optional "telegram" (get (get pack "links") "telegram")
     ++ form_optional "website" (get (get pack "links") "website"))%list.

Definition logo_request (logoUrl : value) : request :=
  mkRequest (to_string logoUrl) (VObj [("redirect", VStr "follow")]) [].

Lemma upload_form_fields (pack : value) :
  lookup "file" (upload_form pack) = None /\
  lookup "name" (upload_form pack) = Some (VStr (to_string (get (get pack "brand") "name"))) /\
  lookup "symbol" (upload_form pack)
  = Some (VStr (to_string (get (get pack "brand") "ticker"))).
Proof.
  unfold upload_form, form_optional, form_field. cbv zeta.
  destruct (truthy (get (get pack "links") "x")),
           (truthy (get (get pack "links") "telegram")),
           (truthy (get (get pack "links") "website")); repeat split.
Qed.

(** X26.  [uploadMetadataToPumpIPFS] makes at most two remote calls, in
    this order: the logo download from the pack's own [assets.logo_url],
    then one upload to the IPFS endpoint.  The upload is made only after
    the whole logo has been read within the size limit: its file part is
    at most [MAX_LOGO_BYTES] (8 MiB) long and is named by [logo_filename],
    and the form carries the pack's name and ticker.  A returned URI is
    never empty and is returned only after both calls.  The store and the
    saved wallet are left as they were. *)
Theorem uploadMetadataToPumpIPFS_uploads_bounded_logo (pack : value) (w w' : world S)
    (r : outcome value)
    (Hrun : uploadMetadataToPumpIPFS out pack w = (r, w')) :
  w_store w' = w_store w /\ w_secrets w' = w_secrets w /\
  (forall uri, r = Ok uri ->
     truthy uri = true /\ List.length (w_calls w') = (2 + List.length (w_calls w))%nat) /\
  (w_calls w' = w_calls w \/
   exists logo,
     req_url logo = to_string (get (get pack "assets") "logo_url") /\
     (w_calls w' = (w_calls w ++ [logo])%list \/
      exists ipfs url size,
        w_calls w' = (w_calls w ++ [logo; ipfs])%list /\
        get (get pack "assets") "logo_url" = VStr url /\
        req_url ipfs = "https://pump.fun/api/ipfs" /\
        get (req_body ipfs) "name" = VStr (to_string (get (get pack "brand") "name")) /\
        get (req_body ipfs) "symbol" = VStr (to_string (get (get pack "brand") "ticker")) /\
        get (upload_file ipfs) "name" = VStr (logo_filename url) /\
        get (upload_file ipfs) "size" = VNum size /\
        0 <= size <= MAX_LOGO_BYTES)).
Proof.
  unfold uploadMetadataToPumpIPFS in Hrun. cbv zeta in Hrun.
  fold (upload_form pack) in Hrun.
  destruct (negb (truthy (get (get pack "assets") "logo_url"))).
  { unfold throw in Hrun. injection Hrun as <- <-.
    repeat split; try discriminate. now left. }
  destruct (nullish (get pack "brand")).
  { unfold throw in Hrun. injection Hrun as <- <-.
    repeat split; try discriminate. now left. }
  unfold bind at 1 in Hrun.
  destruct (fetchWithTimeout out _ _ _ w) as [[response|e] w1] eqn:Ef.
  2:{ injection Hrun as <- <-. apply fetchWithTimeout_calls in Ef. subst w1.
      repeat split; try discriminate.
      right. exists (logo_request (get (get pack "assets") "logo_url")).
      split; [reflexivity|]. left. reflexivity. }
  apply fetchWithTimeout_calls in Ef.
  assert (Hlogo : forall e, r = Throw e -> w' = w1 ->
            w_store w' = w_store w /\ w_secrets w' = w_secrets w /\
            (forall uri, r = Ok uri ->
               truthy uri = true /\
               List.length (w_calls w') = (2 + List.length (w_calls w))%nat) /\
            (w_calls w' = w_calls w \/
             exists logo,
               req_url logo = to_string (get (get pack "assets") "logo_url") /\
               (w_calls w' = (w_calls w ++ [logo])%list \/
                exists ipfs url size,
                  w_calls w' = (w_calls w ++ [logo; ipfs])%list /\
                  get (get pack "assets") "logo_url" = VStr url /\
                  req_url ipfs = "https://pump.fun/api/ipfs" /\
                  get (req_body ipfs) "name"
                  = VStr (to_string (get (get pack "brand") "name")) /\
                  get (req_body ipfs) "symbol"
                  = VStr (to_string (get (get pack "brand") "ticker")) /\
                  get (upload_file ipfs) "name" = VStr (logo_filename url) /\
                  get (upload_file ipfs) "size" = VNum size /\
                  0 <= size <= MAX_LOGO_BYTES))).
  { intros e -> ->. subst w1. repeat split; try discriminate.
    right. exists (logo_request (get (get pack "assets") "logo_url")).
      split; [reflexivity|]. left. reflexivity. }
  destruct (negb (res_ok response)).
  { unfold throw in Hrun. injection Hrun as <- <-. now eapply Hlogo. }
  destruct (num_truthy _ && num_gt _ _).
  { unfold throw in Hrun. injection Hrun as <- <-. now eapply Hlogo. }
  unfold bind at 1 in Hrun.
  destruct (readStreamWithLimit response MAX_LOGO_BYTES) as [bodyBytes|e] eqn:Er;
    unfold lift_outcome, ret, throw in Hrun.
  2:{ injection Hrun as <- <-. now eapply Hlogo. }
  apply readStreamWithLimit_length in Er; [|unfold MAX_LOGO_BYTES; lia].
  destruct (get (get pack "assets") "logo_url") as [| |b|n|url|l|fs] eqn:Eu;
    try (unfold throw in Hrun; injection Hrun as <- <-; now eapply Hlogo).
  clear Hlogo.
  unfold bind at 1, fetch at 1 in Hrun. cbv beta iota in Hrun.
  destruct (upload_form_fields pack) as (Ff & Fn & Fs).
  set (ipfs := mkRequest "https://pump.fun/api/ipfs" _ _) in Hrun.
  assert (Hcalls : forall w2 : world S,
            w2 = mkWorld (w_store w1) (w_reads w1) (w_calls w1 ++ [ipfs]) (w_secrets w1) ->
            w_store w2 = w_store w /\ w_secrets w2 = w_secrets w /\
            List.length (w_calls w2) = (2 + List.length (w_calls w))%nat /\
            exists logo,
               req_url logo = to_string (VStr url) /\
               (w_calls w2 = (w_calls w ++ [logo])%list \/
                exists ipfs url' size,
                  w_calls w2 = (w_calls w ++ [logo; ipfs])%list /\
                  VStr url = VStr url' /\
                  req_url ipfs = "https://pump.fun/api/ipfs" /\
                  get (req_body ipfs) "name"
                  = VStr (to_string (get (get pack "brand") "name")) /\
                  get (req_body ipfs) "symbol"
                  = VStr (to_string (get (get pack "brand") "ticker")) /\
                  get (upload_file ipfs) "name" = VStr (logo_filename url') /\
                  get (upload_file ipfs) "size" = VNum size /\
                  0 <= size <= MAX_LOGO_BYTES)).
  { intros w2 ->. subst w1. simpl w_store. simpl w_secrets. simpl w_calls.
    split; [reflexivity|]. split; [reflexivity|].
    split; [rewrite <- app_assoc, length_app; simpl; lia|].
    exists (logo_request (VStr url)). split; [reflexivity|]. right.
    exists ipfs, url, (Z.of_nat (List.length bodyBytes)).
    split; [now rewrite <- app_assoc|]. split; [reflexivity|].
    split; [reflexivity|].
    unfold upload_file, ipfs, get. cbn [req_body own_fields].
    rewrite !lookup_app, Ff, Fn, Fs. simpl.
    repeat split; lia. }
  set (w2 := mkWorld _ _ _ _) in Hrun.
  specialize (Hcalls w2 eq_refl). destruct Hcalls as (C1 & C2 & C3 & C4).
  destruct (remote out _ ipfs) as [e|res].
  { unfold throw in Hrun. injection Hrun as <- <-.
    repeat split; try assumption; try discriminate. now right. }
  destruct (negb (res_ok res)).
  { unfold throw in Hrun. injection Hrun as <- <-.
    repeat split; try assumption; try discriminate. now right. }
  destruct (negb (truthy _)) eqn:Et.
  { unfold throw in Hrun. injection Hrun as <- <-.
    repeat split; try assumption; try discriminate. now right. }
  unfold ret in Hrun. injection Hrun as <- <-.
  apply negb_false_iff in Et.
  split; [assumption|]. split; [assumption|].
  split; [intros uri [= <-]; now split|]. now right.
Qed.

End Upload.

(** A logo of three bytes served as a stream, then an IPFS endpoint that
    returns a metadata URI. *)
Definition upload_outside : outside :=
  mkOutside (fun n => Z.of_nat n)
    (fun n _ =>
       match n with
       | O => FetchResponse
                (mkResponse true 200 None [("content-type", "image/webp")]
                   (Stream (SChunk [x01; x02] (SChunk [x03] SEnd))))
       | _ => FetchResponse
                (json_response true 200 (Some (VObj [("metadataUri", VStr "ipfs://meta")])))
       end)
    (fun _ => Some 5) ([], []).

Definition upload_pack : value :=
  VObj [("brand", VObj [("name", VStr "Coin"); ("ticker", VStr "COIN")]);
        ("assets", VObj [("logo_url", VStr "https://cdn.example/a/logo.webp?v=2#top")])].

Lemma uploadMetadataToPumpIPFS_uploads_bounded_logo_witness :
  let run := @uploadMetadataToPumpIPFS test_host Mem.store upload_outside upload_pack
               demo_world in
  fst run = Ok (VStr "ipfs://meta") /\
  w_store (snd run) = w_store demo_world /\
  List.length (w_calls (snd run)) = 2%nat.
Proof.
  intros run.
  destruct (@uploadMetadataToPumpIPFS_uploads_bounded_logo test_host Mem.store
              upload_outside upload_pack demo_world (snd run) (fst run)
              (surjective_pairing run)) as (Hs & _ & Hu & _).
  assert (Hr : fst run = Ok (VStr "ipfs://meta")) by (vm_compute; reflexivity).
  split; [exact Hr|]. split; [exact Hs|].
  destruct (Hu _ Hr) as [_ Hl]. exact Hl.
Defined.

(** ** Launching again *)

Section LaunchAgain.
Context {host : Host}.
Local Open Scope orch_scope.

(** On a record already launched, [launch] returns it at once. *)
Lemma launch_settled (out : outside) (env : LaunchkitEnv) (options : PumpLauncherOptions)
    (id : string) (force : bool) (w : world Mem.store) (rec : value) :
  Mem.get_pack (w_store w) id = rec ->
  truthy rec = true ->
  launch_status rec = VStr "launched" ->
  launch (store := MemStore) out env options id force w = (Ok rec, w).
Proof.
  intros Hget Htruthy Hstatus. unfold launch_status in Hstatus.
  unfold launch, bind at 1, getM at 1. cbv beta iota.
  change (store_get (w_store w) id) with (Mem.get_pack (w_store w) id).
  rewrite Hget, Htruthy, Hstatus. reflexivity.
Qed.

(** A launch that returns a record either found it launched, or won the
    claim and ran the guarded steps to the end. *)
Lemma launch_run_Ok (out : outside) (env : LaunchkitEnv) (options : PumpLauncherOptions)
    (id : string) (force : bool) (w w' : world Mem.store) (p : value) :
  launch (store := MemStore) out env options id force w = (Ok p, w') ->
  (w' = w /\ Mem.get_pack (w_store w) id = p /\ truthy p = true /\
   launch_status p = VStr "launched") \/
  exists t0 now w1 caps slippage,
    w_store w1 = Mem.Map_set (w_store w) id
                   (claimLaunch_result (toISOString t0) "ready" now (Mem.Map_get (w_store w) id)) /\
    launch_guarded out id
      (claimLaunch_result (toISOString t0) "ready" now (Mem.Map_get (w_store w) id))
      caps slippage w1 = (Ok p, w').
Proof.
  unfold launch.
  unfold bind at 1. unfold getM at 1. cbv beta iota.
  destruct (negb (truthy (store_get (w_store w) id))) eqn:Tr; [intros Hr; inversion Hr|].
  apply negb_false_iff in Tr.
  destruct (is_str _ "launched") eqn:Es.
  { intros Hr. injection Hr as <- <-. left. apply is_str_true in Es.
    repeat split; assumption. }
  unfold bind at 1.
  destruct (ensureLaunchAllowed out env (store_get (w_store w) id) force w)
    as [[[]|e] w0] eqn:Ea;
    pose proof (quiet_ensureLaunchAllowed out env _ _ _ _ _ Ea) as S0;
    [|intros Hr; inversion Hr].
  unfold bind at 1.
  destruct (enforceCaps env options) as [caps|e]; simpl lift_outcome;
    [|intros Hr; inversion Hr].
  unfold ret at 1. cbv beta iota. unfold bind at 1.
  destruct (resolveSlippage env) as [slippage|e]; simpl lift_outcome;
    [|intros Hr; inversion Hr].
  unfold ret at 1. cbv beta iota.
  unfold bind at 1. unfold nowIsoM at 1, bind at 1, read_clock at 1. cbv beta iota.
  unfold ret at 1. unfold bind at 1. unfold claimLaunchM, with_store. simpl w_store.
  simpl store_claimLaunch.
  destruct (Mem_claimLaunch_either (w_store w0) id (toISOString (clock out (w_reads w0)))
              "ready" (clock out (Datatypes.S (w_reads w0)))) as [E|[T E]].
  - simpl w_reads. rewrite E. simpl. intros Hr; inversion Hr.
  - simpl w_reads. rewrite E. cbv beta iota.
    assert (Tc : truthy (claimLaunch_result (toISOString (clock out (w_reads w0))) "ready"
                           (clock out (Datatypes.S (w_reads w0)))
                           (Mem.Map_get (w_store w0) id)) = true).
    { unfold claimLaunch_result. rewrite spread_with_fields. reflexivity. }
    rewrite Tc. cbv beta iota delta [negb]. rewrite S0 in *.
    intros Hr. right.
    exists (clock out (w_reads w0)), (clock out (Datatypes.S (w_reads w0))).
    eexists (mkWorld _ _ _ _). exists caps, slippage.
    split; [|exact Hr]. reflexivity.
Qed.

End LaunchAgain.

(** X27.  On the in-memory store, with the schemas of
    [model/launchPack.ts] as validators, a pack is launched at most once.
    When [launch] returns a record, that record is the stored one and its
    launch status is ["launched"]; and any further [launch] of the same
    id, in the world the first one left (whatever the configuration, with
    or without [force], whatever the remote side would answer), returns the
    same record and changes nothing: no wallet, upload or trade request is
    made, the clock is not read and the store is not written. *)
Theorem launch_again_is_a_no_op (base : Host) (lib : Zod.ZodLib) (out out' : outside)
    (env env' : LaunchkitEnv) (options options' : PumpLauncherOptions) (id : string)
    (force force' : bool) (w w1 : world Mem.store) (rec : value)
    (Hok : pack_ok (Mem.Map_get (w_store w) id))
    (Hrun : @launch (zod_host base lib) _ (@MemStore (zod_host base lib)) out env options
              id force w = (Ok rec, w1)) :
  Mem.get_pack (w_store w1) id = rec /\
  launch_status rec = VStr "launched" /\
  @launch (zod_host base lib) _ (@MemStore (zod_host base lib)) out' env' options' id
    force' w1 = (Ok rec, w1).
Proof.
  apply launch_run_Ok in Hrun.
  destruct Hrun as [(-> & Hget & Tr & Hst)|(t0 & now & w0 & caps & slippage & Hw0 & Hg)].
  - split; [exact Hget|]. split; [exact Hst|]. now apply launch_settled.
  - apply (launch_guarded_cases (host := zod_host base lib) lib out (fun _ => eq_refl))
      in Hg; [|exact Hok|rewrite Hw0; apply Map_get_set_same].
    cbv zeta in Hg.
    destruct Hg as [(sig & mint & ca & la & t & rec' & Hr & Hst & Tr & Hl & Ho)
                   |[(e & tf & ta & rec' & _ & Hr & _)|(e & tf & ta & v & _ & Hr & _)]];
      try discriminate Hr.
    injection Hr as <-.
    pose proof (launch_success_recorded (host := zod_host base lib) lib
                  (fun _ => eq_refl) _ now _ rec sig mint ca la t Hok Hl Ho)
      as (_ & Hstatus & _).
    assert (Hget : Mem.get_pack (w_store w1) id = rec).
    { rewrite Hst. unfold Mem.get_pack. rewrite Map_get_set_same.
      unfold or_else. now rewrite Tr. }
    split; [exact Hget|]. split; [exact Hstatus|]. now apply launch_settled.
Qed.

(** A pack with a logo, and a remote side that serves, in this order, the
    wallet, the logo, the metadata upload and the trade. *)
Definition logo_input : value :=
  VObj [("brand", VObj [("name", VStr "Meme King"); ("ticker", VStr "KING")]);
        ("assets", VObj [("logo_url", VStr "https://cdn.example/king.png")]);
        ("launch", VObj [("status", VStr "draft")]);
        ("ops", VObj [("checklist", VObj []); ("audit_log", VArr [])])].

Definition logo_world : world Mem.store :=
  mkWorld (snd (@Mem.create schema_host [] logo_input "p7" 1000)) 0 [] VNull.

Definition serving_outside : outside :=
  mkOutside (fun n => 1700000000000 + Z.of_nat n)
    (fun n _ =>
       match n with
       | 0%nat => FetchResponse
                    (json_response true 200
                       (Some (VObj [("apiKey", VStr "key-1"); ("wallet", VStr "addr1");
                                    ("privateKey",
                                     VStr (Base58.encode (repeat x07 64)))])))
       | 1%nat => FetchResponse (mkResponse true 200 None [] (NoStream (Ok [x01; x02])))
       | 2%nat => FetchResponse
                    (json_response true 200
                       (Some (VObj [("metadataUri", VStr "ipfs://meta")])))
       | _ => FetchResponse
                (json_response true 200 (Some (VObj [("signature", VStr "sig1")])))
       end)
    (fun _ => Some 5) (repeat x03 64, repeat x05 32).

Lemma logo_pack_ok : pack_ok (Mem.Map_get (w_store logo_world) "p7").
Proof.
  repeat split; eexists; (split; [reflexivity|]);
    repeat constructor; simpl; intuition discriminate.
Qed.

Lemma launch_again_is_a_no_op_witness :
  let run := @launch schema_host _ (@MemStore schema_host) serving_outside demo_env
               demo_options "p7" false logo_world in
  exists rec,
    fst run = Ok rec /\
    List.length (w_calls (snd run)) = 4%nat /\
    launch_status rec = VStr "launched" /\
    @launch schema_host _ (@MemStore schema_host) failing_outside demo_env demo_options
      "p7" true (snd run) = (Ok rec, snd run).
Proof.
  intros run.
  assert (Hrun : exists rec, run = (Ok rec, snd run))
    by (eexists; vm_compute; reflexivity).
  destruct Hrun as [rec Hrun].
  destruct (launch_again_is_a_no_op test_host test_lib serving_outside failing_outside
              demo_env demo_env demo_options demo_options "p7" false true
              logo_world (snd run) rec logo_pack_ok Hrun)
    as (_ & Hst & Hagain).
  exists rec. split; [now rewrite Hrun|]. split; [vm_compute; reflexivity|].
  split; [exact Hst|exact Hagain].
Defined.

(** ** Redaction of logged error details

    [redactSensitive] and [SENSITIVE_KEYS] of [redact.ts], used by the
    [catch] block of [launch] on the details of the error it logs. *)

Definition SENSITIVE_KEYS : list string :=
  ["TG_BOT_TOKEN"; "TG_CHAT_ID"; "X_API_KEY"; "X_API_SECRET"; "X_ACCESS_TOKEN";
   "X_ACCESS_SECRET"; "apiKey"; "wallet"; "walletSecret"; "wallet_secret";
   "PUMP_PORTAL_WALLET_SECRET"; "mint"; "secret"; "privateKey"; "private_key"].

(** [SENSITIVE_KEYS.has(key)]. *)
Definition SENSITIVE_KEYS_has (key : string) : bool :=
  existsb (String.eqb key) SENSITIVE_KEYS.

Definition redacted : value := VStr "[redacted]".

(** [redactSensitive(value)]: [null], [undefined] and what is not an object
    are returned as they are, an array is mapped, and the entries of an
    object are assigned one by one to a fresh object. *)
Fixpoint redactSensitive (v : value) : value :=
  match v with
  | VUndef | VNull => v
  | VBool _ | VNum _ | VStr _ => v
  | VArr items => VArr (map redactSensitive items)
  | VObj fields =>
      VObj ((fix entries (fs : props) (result : props) {struct fs} : props :=
               match fs with
               | [] => result
               | (key, val) :: rest =>
                   entries rest
                     (assign key
                        (if SENSITIVE_KEYS_has key then redacted else redactSensitive val)
                        result)
               end) fields [])
  end.

(** What the loop stores under [key] for the entry [(key, val)]. *)
Definition redact_entry (key : string) (val : value) : value :=
  if SENSITIVE_KEYS_has key then redacted else redactSensitive val.

Fixpoint redact_entries (fs : props) (result : props) : props :=
  match fs with
  | [] => result
  | (key, val) :: rest => redact_entries rest (assign key (redact_entry key val) result)
  end.

(** A value shows a secret when, at some depth, a sensitive key holds
    anything but the mask. *)
Inductive exposed : value -> Prop :=
| exposed_here (k : string) (v : value) (fs : props) :
    In (k, v) fs -> SENSITIVE_KEYS_has k = true -> v <> redacted -> exposed (VObj fs)
| exposed_member (k : string) (v : value) (fs : props) :
    In (k, v) fs -> exposed v -> exposed (VObj fs)
| exposed_item (x : value) (l : list value) :
    In x l -> exposed x -> exposed (VArr l).

Lemma redactSensitive_obj (fs : props) :
  redactSensitive (VObj fs) = VObj (redact_entries fs []).
Proof.
  reflexivity.
Qed.

Lemma In_assign (k k' : string) (v v' : value) (fs : props) :
  In (k', v') (assign k v fs) -> (k' = k /\ v' = v) \/ In (k', v') fs.
Proof.
  induction fs as [|[k0 v0] r IH]; simpl.
  - intros [E|[]]. injection E as <- <-. now left.
  - destruct (String.eqb k k0) eqn:E; simpl.
    + intros [E'|Hin].
      * injection E' as <- <-. left. apply String.eqb_eq in E. now split.
      * right. now right.
    + intros [E'|Hin].
      * right. now left.
      * destruct (IH Hin) as [Hl|Hr]; [now left|right; now right].
Qed.

(** Every entry of the result was stored by the loop, or was there
    before. *)
Lemma redact_entries_In (fs result : props) (k : string) (v : value) :
  In (k, v) (redact_entries fs result) ->
  In (k, v) result \/ exists v0, In (k, v0) fs /\ v = redact_entry k v0.
Proof.
  revert result. induction fs as [|[k0 v0] r IH]; intros result; simpl.
  - now left.
  - intros Hin. destruct (IH _ Hin) as [Ha|(v1 & H1 & E1)].
    + destruct (In_assign _ _ _ _ _ Ha) as [[-> ->]|Hres]; [|now left].
      right. exists v0. split; [now left|reflexivity].
    + right. exists v1. split; [now right|exact E1].
Qed.

Lemma redact_entries_NoDup (fs result : props) :
  NoDup (keys result) -> NoDup (keys (redact_entries fs result)).
Proof.
  revert result. induction fs as [|[k v] r IH]; intros result ND; simpl; [exact ND|].
  apply IH, NoDup_keys_assign, ND.
Qed.

Lemma assign_fresh (k : string) (v : value) (fs : props) :
  ~ In k (keys fs) -> assign k v fs = (fs ++ [(k, v)])%list.
Proof.
  induction fs as [|[k0 v0] r IH]; simpl; intros N; [reflexivity|].
  destruct (String.eqb k k0) eqn:E.
  - apply String.eqb_eq in E. exfalso. apply N. now left.
  - f_equal. apply IH. intros Hin. apply N. now right.
Qed.

(** On an object without repeated keys the loop is a map over the
    entries, in their order. *)
Lemma redact_entries_map (fs result : props) :
  NoDup (keys result ++ keys fs) ->
  redact_entries fs result
  = (result ++ map (fun kv => (fst kv, redact_entry (fst kv) (snd kv))) fs)%list.
Proof.
  revert result. induction fs as [|[k v] r IH]; intros result ND; simpl.
  - now rewrite app_nil_r.
  - simpl in ND. pose proof (NoDup_remove_2 _ _ _ ND) as Nk.
    rewrite assign_fresh by (intros Hin; apply Nk, in_or_app; now left).
    rewrite IH.
    + now rewrite <- app_assoc.
    + unfold keys in *. rewrite map_app. simpl. rewrite <- app_assoc. exact ND.
Qed.

Lemma exposed_redacted : ~ exposed redacted.
Proof. intros E. inversion E. Qed.

Lemma SENSITIVE_KEYS_has_spec (key : string) :
  SENSITIVE_KEYS_has key = true <-> In key SENSITIVE_KEYS.
Proof.
  unfold SENSITIVE_KEYS_has. rewrite existsb_exists. split.
  - intros (x & Hin & E). apply String.eqb_eq in E. now subst.
  - intros Hin. exists key. split; [exact Hin|apply String.eqb_refl].
Qed.

Lemma redactSensitive_hides (v : value) : ~ exposed (redactSensitive v).
Proof.
  induction v as [| | | | |l IH|fs IH] using value_rect';
    try (intros E; inversion E; fail).
  - simpl. intros E. inversion E as [| |x l' Hin Hx]; subst.
    apply in_map_iff in Hin. destruct Hin as (x0 & <- & Hin0).
    rewrite Forall_forall in IH. exact (IH _ Hin0 Hx).
  - rewrite redactSensitive_obj. intros E.
    rewrite Forall_forall in IH.
    inversion E as [k v fs' Hin Hs Hv|k v fs' Hin Hx|]; subst;
      apply redact_entries_In in Hin; destruct Hin as [[]|(v0 & Hin0 & ->)].
    + apply Hv. unfold redact_entry. now rewrite Hs.
    + unfold redact_entry in Hx. destruct (SENSITIVE_KEYS_has k).
      * exact (exposed_redacted Hx).
      * exact (IH _ Hin0 Hx).
Qed.

Lemma redactSensitive_again (v : value) :
  redactSensitive (redactSensitive v) = redactSensitive v.
Proof.
  induction v as [| | | | |l IH|fs IH] using value_rect'; try reflexivity.
  - simpl. f_equal. rewrite map_map. apply map_ext_in.
    rewrite Forall_forall in IH. exact IH.
  - rewrite !redactSensitive_obj. f_equal.
    assert (ND : NoDup (keys (redact_entries fs []))) by (apply redact_entries_NoDup; constructor).
    rewrite (redact_entries_map (redact_entries fs []) []) by exact ND.
    simpl app. rewrite <- (map_id (redact_entries fs [])) at 2.
    apply map_ext_in. intros [k v] Hin. simpl. f_equal.
    apply redact_entries_In in Hin. destruct Hin as [[]|(v0 & Hin0 & ->)].
    unfold redact_entry. destruct (SENSITIVE_KEYS_has k); [reflexivity|].
    rewrite Forall_forall in IH. exact (IH _ Hin0).
Qed.

(** X28.  [redactSensitive] leaves no secret in what is logged: in its
    result no key of [SENSITIVE_KEYS], at any depth of objects and arrays,
    holds anything but ["[redacted]"].  Redacting again changes nothing.
    An object without repeated keys keeps its keys in their order, each
    value being masked (sensitive key) or redacted in turn (other keys);
    an array keeps its length; what is not an object or an array is
    returned as it is. *)
Theorem redactSensitive_leaves_no_secret (v : value) :
  ~ exposed (redactSensitive v) /\
  redactSensitive (redactSensitive v) = redactSensitive v /\
  (forall fs, v = VObj fs -> NoDup (keys fs) ->
     redactSensitive v
     = VObj (map (fun kv => (fst kv,
                             if SENSITIVE_KEYS_has (fst kv) then VStr "[redacted]"
                             else redactSensitive (snd kv))) fs)) /\
  (forall l, v = VArr l ->
     exists l', redactSensitive v = VArr l' /\ List.length l' = List.length l) /\
  ((forall fs, v <> VObj fs) -> (forall l, v <> VArr l) -> redactSensitive v = v).
Proof.
  split; [apply redactSensitive_hides|]. split; [apply redactSensitive_again|].
  split; [|split].
  - intros fs -> ND. rewrite redactSensitive_obj.
    now rewrite (redact_entries_map fs []) by exact ND.
  - intros l ->. eexists. split; [reflexivity|apply length_map].
  - intros No Na. destruct v; try reflexivity.
    + now destruct (Na items).
    + now destruct (No fields).
Qed.

(** ** Schedules ([time.ts], [buildSchedule] of [copyGenerator.ts])

    A [Date] is its time value, the milliseconds since the epoch; the
    getters and setters are those of the language definition
    ([MakeTime], [MakeDate], with the flooring [modulo]). *)

Module DateUTC.

Definition msPerSecond : Z := 1000.
Definition msPerMinute : Z := 60000.
Definition msPerHour : Z := 3600000.
Definition msPerDay : Z := 86400000.

Definition Day (t : Z) : Z := t / msPerDay.
Definition getUTCHours (t : Z) : Z := (t / msPerHour) mod 24.
Definition getUTCMinutes (t : Z) : Z := (t / msPerMinute) mod 60.
Definition getUTCSeconds (t : Z) : Z := (t / msPerSecond) mod 60.
Definition getUTCMilliseconds (t : Z) : Z := t mod msPerSecond.

Definition MakeTime (hour min sec ms : Z) : Z :=
  hour * msPerHour + min * msPerMinute + sec * msPerSecond + ms.
Definition MakeDate (day time : Z) : Z := day * msPerDay + time.

(** [d.setUTCHours(hour)]. *)
Definition setUTCHours (t hour : Z) : Z :=
  MakeDate (Day t)
    (MakeTime hour (getUTCMinutes t) (getUTCSeconds t) (getUTCMilliseconds t)).
(** [d.setUTCMinutes(min, sec, ms)]. *)
Definition setUTCMinutes (t min sec ms : Z) : Z :=
  MakeDate (Day t) (MakeTime (getUTCHours t) min sec ms).
(** [d.setUTCSeconds(sec, ms)]. *)
Definition setUTCSeconds (t sec ms : Z) : Z :=
  MakeDate (Day t) (MakeTime (getUTCHours t) (getUTCMinutes t) sec ms).

End DateUTC.

(** The body of [nextRoundedBaseDate] (lines 135-146) on the date read. *)
Definition round_base (d : Z) : Z :=
  let minutes := DateUTC.getUTCMinutes d in
  let remainder := Z.rem minutes 10 in
  if negb (remainder =? 0)
  then
    let add := 10 - remainder in
    DateUTC.setUTCMinutes d (minutes + add) 0 0
  else if negb (DateUTC.getUTCSeconds d =? 0) || negb (DateUTC.getUTCMilliseconds d =? 0)
  then DateUTC.setUTCSeconds d 0 0
  else d.

Section Schedule.
Context {host : Host} {S : Type}.
Variable out : outside.
Local Open Scope orch_scope.

Definition nextRoundedBaseDate : M S Z :=
  d <- read_clock out ;; ret (round_base d).

(** [addHoursIso(hours, base)] (lines 128-132). *)
Definition addHoursIso (hours : Z) (base : option Z) : M S string :=
  d <- match base with Some b => ret b | None => read_clock out end ;;
  ret (toISOString (DateUTC.setUTCHours d (DateUTC.getUTCHours d + hours))).

(** The loop of [buildSchedule], from index [i], with [n] rounds left. *)
Fixpoint schedule_loop (base : string) (stepHours : Z) (textPrefix : string)
    (start : Z) (n : nat) (i : Z) (items : list value) : M S (list value) :=
  match n with
  | O => ret items
  | Datatypes.S n' =>
      when <- addHoursIso (stepHours * i) (Some start) ;;
      schedule_loop base stepHours textPrefix start n' (i + 1)
        (items ++ [VObj [("when", VStr when);
                         ("text", VStr (textPrefix ++ " #" ++ num_to_string (i + 1)
                                          ++ " " ++ base))]])
  end.

(** [buildSchedule(base, count, stepHours, textPrefix)] (lines 50-58). *)
Definition buildSchedule (base : string) (count : nat) (stepHours : Z)
    (textPrefix : string) : M S (list value) :=
  start <- nextRoundedBaseDate ;;
  schedule_loop base stepHours textPrefix start count 0 [].

(** The item of index [i] of a schedule that starts at [start]. *)
Definition schedule_item (base : string) (stepHours : Z) (textPrefix : string)
    (start : Z) (i : nat) : value :=
  VObj [("when", VStr (toISOString (start + stepHours * Z.of_nat i * DateUTC.msPerHour)));
        ("text", VStr (textPrefix ++ " #" ++ num_to_string (Z.of_nat i + 1) ++ " " ++ base))].

End Schedule.

(** The fields of a date add up to its time value. *)
Lemma date_fields (t : Z) :
  t / 3600000 = t / 86400000 * 24 + (t / 3600000) mod 24 /\
  t / 60000 = t / 3600000 * 60 + (t / 60000) mod 60 /\
  t / 1000 = t / 60000 * 60 + (t / 1000) mod 60 /\
  t = t / 1000 * 1000 + t mod 1000 /\
  t / 60000 = t / 600000 * 10 + (t / 60000) mod 10 /\
  ((t / 60000) mod 60) mod 10 = (t / 60000) mod 10 /\
  t mod 600000 = (t / 60000) mod 10 * 60000 + (t / 1000) mod 60 * 1000 + t mod 1000.
Proof.
  assert (H1 : t / 86400000 = t / 3600000 / 24) by (rewrite Z.div_div by lia; reflexivity).
  assert (H2 : t / 3600000 = t / 60000 / 60) by (rewrite Z.div_div by lia; reflexivity).
  assert (H3 : t / 60000 = t / 1000 / 60) by (rewrite Z.div_div by lia; reflexivity).
  assert (H4 : t / 600000 = t / 60000 / 10) by (rewrite Z.div_div by lia; reflexivity).
  pose proof (Z.div_mod (t / 3600000) 24 ltac:(lia)) as D1.
  pose proof (Z.div_mod (t / 60000) 60 ltac:(lia)) as D2.
  pose proof (Z.div_mod (t / 1000) 60 ltac:(lia)) as D3.
  pose proof (Z.div_mod t 1000 ltac:(lia)) as D4.
  pose proof (Z.div_mod (t / 60000) 10 ltac:(lia)) as D5.
  pose proof (Z.div_mod t 600000 ltac:(lia)) as D6.
  assert (H5 : ((t / 60000) mod 60) mod 10 = (t / 60000) mod 10).
  { apply Z.mod_mod_divide. exists 6. reflexivity. }
  repeat split; try lia; try exact H5.
Qed.

Lemma setUTCHours_adds (t hours : Z) :
  DateUTC.setUTCHours t (DateUTC.getUTCHours t + hours) = t + hours * DateUTC.msPerHour.
Proof.
  unfold DateUTC.setUTCHours, DateUTC.MakeDate, DateUTC.MakeTime, DateUTC.Day,
    DateUTC.getUTCHours, DateUTC.getUTCMinutes, DateUTC.getUTCSeconds,
    DateUTC.getUTCMilliseconds, DateUTC.msPerDay, DateUTC.msPerHour,
    DateUTC.msPerMinute, DateUTC.msPerSecond.
  destruct (date_fields t) as (F1 & F2 & F3 & F4 & _). lia.
Qed.

(** The rounded date lies on a 10-minute boundary: the one at or before
    [d] when [d] is within the first minute after it, the next one
    otherwise. *)
Lemma round_base_boundary (d : Z) :
  round_base d
  = if d mod 600000 <? 60000 then d - d mod 600000 else d - d mod 600000 + 600000.
Proof.
  unfold round_base. cbv zeta.
  unfold DateUTC.setUTCMinutes, DateUTC.setUTCSeconds, DateUTC.MakeDate,
    DateUTC.MakeTime, DateUTC.Day, DateUTC.getUTCHours, DateUTC.getUTCMinutes,
    DateUTC.getUTCSeconds, DateUTC.getUTCMilliseconds, DateUTC.msPerDay,
    DateUTC.msPerHour, DateUTC.msPerMinute, DateUTC.msPerSecond.
  assert (Hrem : Z.rem ((d / 60000) mod 60) 10 = ((d / 60000) mod 60) mod 10).
  { apply Z.rem_mod_nonneg; [|lia]. apply Z.mod_pos_bound. lia. }
  rewrite Hrem.
  destruct (date_fields d) as (F1 & F2 & F3 & F4 & F5 & F6 & F7).
  rewrite F6.
  pose proof (Z.mod_pos_bound (d / 60000) 10 ltac:(lia)) as B1.
  pose proof (Z.mod_pos_bound (d / 1000) 60 ltac:(lia)) as B2.
  pose proof (Z.mod_pos_bound d 1000 ltac:(lia)) as B3.
  pose proof (Z.mod_pos_bound (d / 60000) 60 ltac:(lia)) as B4.
  assert (F8 : (d / 60000) mod 60 = (d / 60000) mod 10 + 10 * (((d / 60000) mod 60) / 10)).
  { rewrite <- F6. pose proof (Z.div_mod ((d / 60000) mod 60) 10 ltac:(lia)). lia. }
  destruct (Z.eqb_spec ((d / 60000) mod 10) 0) as [E1|E1]; cbv beta iota delta [negb].
  - destruct (Z.eqb_spec ((d / 1000) mod 60) 0) as [E2|E2];
      destruct (Z.eqb_spec (d mod 1000) 0) as [E3|E3];
      cbv beta iota delta [negb orb];
      destruct (Z.ltb_spec (d mod 600000) 60000) as [E4|E4]; lia.
  - destruct (Z.ltb_spec (d mod 600000) 60000) as [E4|E4]; lia.
Qed.

Section ScheduleRuns.
Context {host : Host} {S : Type}.
Variable out : outside.

Lemma schedule_loop_run (base : string) (stepHours : Z) (textPrefix : string) (start : Z)
    (n k : nat) (items : list value) (w : world S) :
  schedule_loop out base stepHours textPrefix start n (Z.of_nat k) items w
  = (Ok (items ++ map (schedule_item base stepHours textPrefix start) (seq k n))%list, w).
Proof.
  revert k items. induction n as [|n IH]; intros k items; simpl.
  - now rewrite app_nil_r.
  - unfold bind at 1, addHoursIso, bind at 1, ret at 1. cbv beta iota.
    unfold ret at 1. cbv beta iota.
    replace (Z.of_nat k + 1) with (Z.of_nat (Datatypes.S k)) by lia.
    rewrite IH, <- app_assoc. simpl app.
    unfold schedule_item at 2. rewrite setUTCHours_adds.
    replace (Z.of_nat k + 1) with (Z.of_nat (Datatypes.S k)) by lia.
    reflexivity.
Qed.

Lemma buildSchedule_run (base : string) (count : nat) (stepHours : Z)
    (textPrefix : string) (w : world S) :
  buildSchedule out base count stepHours textPrefix w
  = (Ok (map (schedule_item base stepHours textPrefix (round_base (clock out (w_reads w))))
           (seq 0 count)),
     mkWorld (w_store w) (Datatypes.S (w_reads w)) (w_calls w) (w_secrets w)).
Proof.
  unfold buildSchedule, nextRoundedBaseDate, bind at 1, bind at 1, read_clock.
  cbv beta iota. unfold ret at 1. cbv beta iota.
  apply (schedule_loop_run base stepHours textPrefix _ count 0 []).
Qed.

(** X29.  [buildSchedule] reads the clock once and always returns exactly
    [count] items; item [i] is due [stepHours * i] hours after the start
    and is labelled with [i + 1].  The start is [nextRoundedBaseDate]: it
    lies on a 10-minute boundary, less than ten minutes after the date
    read and less than one minute before it; it is in the past or present
    exactly when the date read is within the first minute after a
    boundary, and is the next boundary otherwise. *)
Theorem buildSchedule_starts_on_boundary (base : string) (count : nat) (stepHours : Z)
    (textPrefix : string) (w : world S) :
  let now := clock out (w_reads w) in
  let start := round_base now in
  buildSchedule out base count stepHours textPrefix w
  = (Ok (map (schedule_item base stepHours textPrefix start) (seq 0 count)),
     mkWorld (w_store w) (Datatypes.S (w_reads w)) (w_calls w) (w_secrets w)) /\
  start mod 600000 = 0 /\
  now - 60000 < start < now + 600000 /\
  (start <= now <-> now mod 600000 < 60000).
Proof.
  intros now start. split.
  - apply buildSchedule_run.
  - subst start. rewrite round_base_boundary.
    pose proof (Z.mod_pos_bound now 600000 ltac:(lia)) as B.
    pose proof (Z.div_mod now 600000 ltac:(lia)) as D.
    destruct (Z.ltb_spec (now mod 600000) 60000) as [E|E].
    + split; [|split; [lia|split; lia]].
      replace (now - now mod 600000) with (now / 600000 * 600000) by lia.
      apply Z.mod_mul. lia.
    + split; [|split; [lia|split; lia]].
      replace (now - now mod 600000 + 600000) with ((now / 600000 + 1) * 600000) by lia.
      apply Z.mod_mul. lia.
Qed.

End ScheduleRuns.

(** ** Copy generation ([copyGenerator.ts]) *)

Definition newline : string := String (Ascii.ascii_of_nat 10) "".

(** [items.join(sep)]. *)
Fixpoint join (sep : string) (items : list value) : string :=
  match items with
  | [] => ""
  | [x] => if nullish x then "" else to_string x
  | x :: rest => (if nullish x then "" else to_string x) ++ sep ++ join sep rest
  end.

(** [GenerateOptions]; [keywords] is absent or a list. *)
Record GenerateOptions : Type := mkGenerateOptions {
  opt_theme : value;
  opt_keywords : option (list value);
  opt_tone : value
}.

(** [fallbackText(prefix, theme, keywords, tone)] (lines 21-27). *)
Definition fallbackText (prefix : string) (theme : value) (keywords : option (list value))
    (tone : value) : string :=
  let parts :=
    ([VStr prefix]
       ++ (if truthy theme then [VStr ("theme: " ++ to_string theme)] else [])
       ++ (match keywords with
           | Some (k :: ks) => [VStr ("keywords: " ++ join ", " (k :: ks))]
           | _ => []
           end)
       ++ (if truthy tone then [VStr ("tone: " ++ to_string tone)] else []))%list in
  join " | " parts.

(** [generate(runtime, prompt)] (lines 29-48); [runtime] is the model of
    the agent runtime when it has one, as a function of the prompt. *)
Definition generate (runtime : option (string -> outcome value)) (prompt : string)
  : string :=
  match runtime with
  | None => prompt
  | Some useModel =>
      match useModel prompt with
      | Ok (VStr res) => res
      | Ok res =>
          if truthy res
          then match get res "text" with VStr text => text | _ => prompt end
          else prompt
      | Throw _ => prompt
      end
  end.

Section CopyGenerator.
Context {host : Host} {S : Type} {store : LaunchPackStore S}.
Variable out : outside.
(** [String.prototype.trim]. *)
Variable trim : string -> string.
Variable runtime : option (string -> outcome value).
Local Open Scope orch_scope.

(** [(raw || '').trim() || fallbackText(...)]. *)
Definition pin_text (raw fallback : string) : string :=
  let trimmed := trim (to_string (or_else (VStr raw) (VStr ""))) in
  to_string (or_else (VStr trimmed) (VStr fallback)).

(** [generateForLaunchPack(id, opts)] (lines 63-122). *)
Definition generateForLaunchPack (id : string) (opts : GenerateOptions) : M S value :=
  existing <- getM id ;;
  if negb (truthy existing) then throw (plain_error "LaunchPack not found")
  else if nullish (get existing "brand")
  then throw (plain_error "Cannot read properties of undefined")
  else
    let theme := opt_theme opts in
    let keywords := match opt_keywords opts with Some l => l | None => [] end in
    let tone := opt_tone opts in
    let basePrompt :=
      "Generate meme token launch comms. Brand: "
        ++ to_string (get (get existing "brand") "name")
        ++ " (" ++ to_string (get (get existing "brand") "ticker")
        ++ "). Theme: " ++ to_string (or_else theme (VStr "memes"))
        ++ ". Keywords: " ++ join ", " keywords in
    let ask (what : string) (defaultTone : string) : string :=
      generate runtime
        (basePrompt ++ newline ++ what ++ " Tone: "
           ++ to_string (or_else tone (VStr defaultTone))) in
    let welcomeRaw := ask "Welcome pin copy." "fun, crisp" in
    let howToBuyRaw := ask "How to buy instructions (short)." "direct" in
    let memekitRaw := ask "Memekit pin." "playful" in
    let welcome :=
      pin_text welcomeRaw (fallbackText "Welcome to the launch" theme (Some keywords) tone) in
    let howToBuy :=
      pin_text howToBuyRaw
        (fallbackText "How to buy: step-by-step" theme (Some keywords) tone) in
    let memekit :=
      pin_text memekitRaw (fallbackText "Memekit instructions" theme (Some keywords) tone) in
    let mainPost := ask "Main announcement tweet." "hype" in
    let thread :=
      map (fun i => ask ("Thread part " ++ num_to_string (Z.of_nat i + 1) ++ "/5.") "story")
        (seq 0 5) in
    let replyBank :=
      map (fun i => ask ("Short reply " ++ num_to_string (Z.of_nat i + 1) ++ "/10.")
                      "witty one-liner")
        (seq 0 10) in
    tgSchedule <- buildSchedule out (fallbackText "TG post" theme (Some keywords) tone)
                    6 4 "TG" ;;
    xSchedule <- buildSchedule out (fallbackText "X post" theme (Some keywords) tone)
                   4 6 "X" ;;
    let pinsComplete :=
      truthy (VStr welcome) && truthy (VStr howToBuy) && truthy (VStr memekit) in
    audit <- appendAudit out (get (get existing "ops") "audit_log")
               "Generated launch copy" "eliza" ;;
    let patch :=
      VObj [("tg",
             VObj [("pins", VObj [("welcome", VStr welcome);
                                  ("how_to_buy", VStr howToBuy);
                                  ("memekit", VStr memekit)]);
                   ("schedule", VArr tgSchedule)]);
            ("x",
             VObj [("main_post", VStr mainPost);
                   ("thread", VArr (map VStr thread));
                   ("reply_bank", VArr (map VStr replyBank));
                   ("schedule", VArr xSchedule)]);
            ("ops",
             VObj [("checklist",
                    spread_with (or_else (get (get existing "ops") "checklist") (VObj []))
                      [("copy_ready", VBool true);
                       ("tg_ready", VBool pinsComplete);
                       ("x_ready", VBool (truthy (VStr mainPost)))]);
                   ("audit_log", VArr audit)])] in
    if negb pinsComplete then throw (plain_error "Pin generation incomplete")
    else updateM out id patch.

End CopyGenerator.

Lemma join_head (sep p : string) (rest : list value) :
  exists tail, join sep (VStr p :: rest) = (p ++ tail)%string.
Proof.
  destruct rest as [|x r]; simpl.
  - exists "". now rewrite string_app_nil_r.
  - eexists. reflexivity.
Qed.

Lemma fallbackText_starts (prefix : string) (theme : value)
    (keywords : option (list value)) (tone : value) :
  exists tail, fallbackText prefix theme keywords tone = (prefix ++ tail)%string.
Proof. unfold fallbackText. cbv zeta. apply join_head. Qed.

Lemma fallbackText_truthy (c : ascii) (prefix : string) (theme : value)
    (keywords : option (list value)) (tone : value) :
  truthy (VStr (fallbackText (String c prefix) theme keywords tone)) = true.
Proof.
  destruct (fallbackText_starts (String c prefix) theme keywords tone) as [tail ->].
  reflexivity.
Qed.

Section CopyRuns.
Context {host : Host} {S : Type} {store : LaunchPackStore S}.
Variable out : outside.
Variable trim : string -> string.
Variable runtime : option (string -> outcome value).

Lemma pin_text_truthy (raw fallback : string) :
  truthy (VStr fallback) = true -> truthy (VStr (pin_text trim raw fallback)) = true.
Proof.
  intros Hf. unfold pin_text. cbv zeta. unfold or_else at 1.
  destruct (truthy (VStr (trim _))) eqn:E; simpl to_string; assumption.
Qed.

Lemma appendAudit_run (log : value) (message actor : string) (w : world S) :
  appendAudit out log message actor w
  = (Ok ((match parseAuditLog (or_else log (VArr [])) with Some p => p | None => [] end)
           ++ [VObj [("at", VStr (toISOString (clock out (w_reads w))));
                     ("message", VStr message); ("actor", VStr actor)]])%list,
     mkWorld (w_store w) (Datatypes.S (w_reads w)) (w_calls w) (w_secrets w)).
Proof. reflexivity. Qed.

(** X30.  [generateForLaunchPack] on a missing pack throws and touches
    nothing.  On a stored pack with a brand it always reaches the store
    update, whatever the model returns (nothing, an empty text, an error):
    the pins of the patch are never empty, since an empty pin is replaced
    by the fallback text, so the ["Pin generation incomplete"] error
    cannot occur and the checklist is patched with [copy_ready] and
    [tg_ready] true, [x_ready] being true exactly when the main post is
    not empty.  The patch holds 5 thread posts, 10 replies, a Telegram
    schedule of 6 items 4 hours apart and an X schedule of 4 items 6 hours
    apart, and its audit log ends with the entry of the generation.  The
    clock is read three times before the update, once per schedule and
    once for the audit entry; no remote call is made. *)
Theorem generateForLaunchPack_marks_pins_ready (id : string) (opts : GenerateOptions)
    (w : world S) :
  let existing := store_get (w_store w) id in
  (truthy existing = false ->
   generateForLaunchPack out trim runtime id opts w
   = (Throw (plain_error "LaunchPack not found"), w)) /\
  (truthy existing = true -> nullish (get existing "brand") = false ->
   exists patch tgBase xBase log,
     generateForLaunchPack out trim runtime id opts w
     = updateM out id patch
         (mkWorld (w_store w) (3 + w_reads w) (w_calls w) (w_secrets w)) /\
     truthy (get (get (get patch "tg") "pins") "welcome") = true /\
     truthy (get (get (get patch "tg") "pins") "how_to_buy") = true /\
     truthy (get (get (get patch "tg") "pins") "memekit") = true /\
     get (get (get patch "ops") "checklist") "copy_ready" = VBool true /\
     get (get (get patch "ops") "checklist") "tg_ready" = VBool true /\
     get (get (get patch "ops") "checklist") "x_ready"
     = VBool (truthy (get (get patch "x") "main_post")) /\
     get (get (get patch "x") "thread") "length" = VNum 5 /\
     get (get (get patch "x") "reply_bank") "length" = VNum 10 /\
     get (get patch "tg") "schedule"
     = VArr (map (schedule_item tgBase 4 "TG" (round_base (clock out (w_reads w))))
               (seq 0 6)) /\
     get (get patch "x") "schedule"
     = VArr (map (schedule_item xBase 6 "X"
                    (round_base (clock out (Datatypes.S (w_reads w)))))
               (seq 0 4)) /\
     get (get patch "ops") "audit_log"
     = VArr (log ++ [VObj [("at", VStr (toISOString
                                          (clock out (Datatypes.S (Datatypes.S (w_reads w))))));
                           ("message", VStr "Generated launch copy");
                           ("actor", VStr "eliza")]])).
Proof.
  intros existing. subst existing. split.
  - intros Hex. unfold generateForLaunchPack, bind at 1, getM at 1. cbv beta iota.
    now rewrite Hex.
  - intros Hex Hbrand.
    unfold generateForLaunchPack, bind at 1, getM at 1. cbv beta iota.
    rewrite Hex, Hbrand. cbv beta iota zeta delta [negb].
    unfold bind at 1. rewrite buildSchedule_run. cbv beta iota.
    unfold bind at 1. rewrite buildSchedule_run. cbv beta iota.
    unfold bind at 1. rewrite appendAudit_run. cbv beta iota.
    cbn [w_store w_reads w_calls w_secrets].
    rewrite !pin_text_truthy by apply fallbackText_truthy.
    cbv beta iota delta [andb negb].
    eexists. eexists. eexists. eexists.
    split; [reflexivity|].
    cbn [get own_fields lookup String.eqb Ascii.eqb Bool.eqb].
    rewrite !pin_text_truthy by apply fallbackText_truthy.
    rewrite !get_spread_with.
    repeat split.
Qed.

End CopyRuns.

(** A model that answers every prompt with an empty text. *)
Definition mute_model : option (string -> outcome value) := Some (fun _ => Ok (VStr "")).

Definition demo_opts : GenerateOptions :=
  mkGenerateOptions (VStr "frogs") (Some [VStr "green"; VStr "pond"]) VUndef.

Lemma generateForLaunchPack_marks_pins_ready_witness :
  exists patch,
    @generateForLaunchPack test_host _ (@MemStore test_host) failing_outside (fun s => s)
      mute_model "p1" demo_opts demo_world
    = updateM (store := @MemStore test_host) failing_outside "p1" patch
        (mkWorld (w_store demo_world) 3 [] VNull) /\
    truthy (get (get (get patch "tg") "pins") "welcome") = true /\
    get (get (get patch "ops") "checklist") "tg_ready" = VBool true.
Proof.
  destruct (proj2 (@generateForLaunchPack_marks_pins_ready test_host _ (@MemStore test_host)
                     failing_outside (fun s => s) mute_model "p1" demo_opts demo_world)
              eq_refl eq_refl)
    as (patch & tgBase & xBase & log & Hrun & Hw & _ & _ & _ & Hready & _).
  exists patch. split; [exact Hrun|]. split; [exact Hw|exact Hready].
Defined.
